(** * Virtual Element Method kernels of opm-flowgeomechanics (vem.cpp)

    A shallow embedding of [opm/geomech/vem/vem.cpp] in exact real
    arithmetic, followed by theorems about its local assembly, its
    geometry checks and its boundary-condition passes.

    Conventions of the embedding.
    - [double] is read as a real number ([R]); rounding is outside the
      model, so every equation below is an equation of exact arithmetic.
      A quotient by zero is an infinity or a NaN in the source and [0] in
      the embedding: the two part ways there, and a value that was divided
      by a zero volume or area describes the embedding only.
    - [std::vector<double>] and raw [const double*] buffers are [list R];
      the subscript [v[i]] is [nth i v 0]; a pointer [&v[k]] is the
      suffix [skipn k v].  Reading or writing outside a buffer is
      undefined behaviour in the source; the embedding reads [0] there and
      leaves the buffer as it is on a write, and the theorems state the
      size conditions they need.
    - [int] values that are data (matrix coordinates, degree-of-freedom
      numbers) are [Z]; sizes, loop counters and mesh connectivity
      (which are only ever used as subscripts) are [nat].  Where the source
      computes a subscript from data ([sparse2full]) the [int] arithmetic is
      written out with its wrap-around to 32 bits ([wrap_int]); elsewhere
      signed overflow is not modelled.  The conversion of a [double] to
      [int] ([to_int]) discards the fractional part; outside the range of
      [int] it is undefined behaviour in the source, and the embedding
      truncates there all the same.
    - [throw], and [assert] of a debug build, are results of the type
      [res]; a function that can do neither is a plain function.
    - A [for] loop over [0 .. n-1] is a [fold_left] over [seq 0 n]; a
      loop with [break] is a [Fixpoint] on the iterations that remain. *)

From Stdlib Require Import Reals Lra Lia List ZArith Bool Arith Psatz Setoid Morphisms.
From Stdlib Require Import Sorted Permutation.
Import ListNotations.
Open Scope R_scope.

(* ================================================================== *)
(** * Part I.  The embedding                                          *)
(* ================================================================== *)

(** ** Exceptions and assertions *)

Inductive exn : Type :=
| invalid_argument   (* std::invalid_argument *)
| runtime_error      (* std::runtime_error *)
| length_error       (* std::length_error, from a vector of negative size *)
| assertion_failure  (* a failed assert(): the process aborts *)
| out_of_bounds.     (* a write before the start of a buffer: undefined
                        behaviour, nothing after it is modelled *)

Inductive res (A : Type) : Type :=
| Ok (a : A)
| Throw (e : exn).

Arguments Ok {A} a.
Arguments Throw {A} e.

Definition bind {A B : Type} (m : res A) (k : A -> res B) : res B :=
  match m with
  | Ok a => k a
  | Throw e => Throw e
  end.

Notation "x <- m ;; k" := (bind m (fun x => k))
  (at level 61, m at next level, right associativity).
Notation "m ;;; k" := (bind m (fun _ => k))
  (at level 61, right associativity).

Definition assert_ (b : bool) : res unit :=
  if b then Ok tt else Throw assertion_failure.

(** ** Comparisons of doubles and the libm functions used *)

Definition Rlt_b (x y : R) : bool := if Rlt_dec x y then true else false.
Definition Rgt_b (x y : R) : bool := Rlt_b y x.
Definition Req_b (x y : R) : bool := if Req_dec_T x y then true else false.

(** [std::max(a, b)] is [(a < b) ? b : a]. *)
Definition std_max (a b : R) : R := if Rlt_b a b then b else a.

(** [cbrt] of libm: the real cube root, odd in its argument. *)
Definition cbrt (x : R) : R :=
  if Rlt_b 0 x then Rpower x (/ 3)
  else if Rlt_b x 0 then - Rpower (- x) (/ 3)
  else 0.

(** ** Buffers *)

(** [l[i] = x]; nothing happens outside the buffer. *)
Fixpoint upd {A : Type} (l : list A) (i : nat) (x : A) : list A :=
  match l, i with
  | [], _ => []
  | _ :: t, O => x :: t
  | h :: t, S j => h :: upd t j x
  end.

(** [l[i] += x]. *)
Definition add_at (l : list R) (i : nat) (x : R) : list R :=
  upd l i (nth i l 0 + x).

(** [v.resize(n)] on a vector of doubles. *)
Definition resize (l : list R) (n : nat) : list R :=
  firstn n l ++ repeat 0 (n - length l).

(** [std::accumulate(a, a + n, 0)] on an array of counts. *)
Definition accumulate (a : list nat) (n : nat) : nat :=
  fold_left Nat.add (firstn n a) 0%nat.

(** The value an [int] computation leaves when its exact result is [z]:
    the 32-bit two's complement number congruent to [z]. *)
Definition wrap_int (z : Z) : Z := ((z + 2 ^ 31) mod 2 ^ 32 - 2 ^ 31)%Z.

(** Subscripts that are [int] data. *)
Definition in_range (i : Z) (n : nat) : bool :=
  ((0 <=? i) && (i <? Z.of_nat n))%Z.

Definition nthZ {A : Type} (l : list A) (i : Z) (d : A) : A :=
  if in_range i (length l) then nth (Z.to_nat i) l d else d.

Definition updZ {A : Type} (l : list A) (i : Z) (x : A) : list A :=
  if in_range i (length l) then upd l (Z.to_nat i) x else l.

(** ** Very basic helpers on points *)

(** [plc<Dim>]: linear combination of two points. *)
Definition plc (Dim : nat) (p1 p2 : list R) (fac1 fac2 : R) : list R :=
  map (fun d => nth d p1 0 * fac1 + nth d p2 0 * fac2) (seq 0 Dim).

Definition pointsum (Dim : nat) (p1 p2 : list R) : list R := plc Dim p1 p2 1 1.
Definition pointdiff (Dim : nat) (p1 p2 : list R) : list R := plc Dim p1 p2 1 (-1).
Definition pointmean (Dim : nat) (p1 p2 : list R) : list R := plc Dim p1 p2 0.5 0.5.

(** [norm<Dim>]: the L2 norm, accumulated from [0.0]. *)
Definition norm (Dim : nat) (v : list R) : R :=
  sqrt (fold_left (fun acc el => acc + el * el) (firstn Dim v) 0).

Definition determinant3D (c1 c2 c3 : list R) : R :=
  nth 0 c1 0 * (nth 1 c2 0 * nth 2 c3 0 - nth 2 c2 0 * nth 1 c3 0)
  - nth 1 c1 0 * (nth 0 c2 0 * nth 2 c3 0 - nth 2 c2 0 * nth 0 c3 0)
  + nth 2 c1 0 * (nth 0 c2 0 * nth 1 c3 0 - nth 1 c2 0 * nth 0 c3 0).

(** [point_average<Dim>]: the coordinate mean of [num_corners] points. *)
Definition point_average (Dim : nat) (corners : list R) (num_corners : nat) : list R :=
  let result :=
    fold_left (fun result i => pointsum Dim result (skipn (Dim * i) corners))
              (seq 0 num_corners) (repeat 0 Dim) in
  map (fun c => c / INR num_corners) result.

(** [pick_points<Dim>]: the points listed in [p_ixs], consecutively. *)
Definition pick_points (Dim : nat) (pts : list R) (p_ixs : list nat) (num_points : nat)
  : list R :=
  flat_map (fun i => map (fun d => nth (nth i p_ixs 0%nat * Dim + d) pts 0) (seq 0 Dim))
           (seq 0 num_points).

(** [triarea<Dim>]: Heron's formula. *)
Definition triarea (Dim : nat) (c1 c2 c3 : list R) : R :=
  let l1 := norm Dim (pointdiff Dim c2 c1) in
  let l2 := norm Dim (pointdiff Dim c3 c2) in
  let l3 := norm Dim (pointdiff Dim c1 c3) in
  let s := 0.5 * (l1 + l2 + l3) in
  sqrt (s * (s - l1) * (s - l2) * (s - l3)).

(** [trinormal]: the cross product of two edges (area-scaled normal). *)
Definition trinormal (c1 c2 c3 : list R) : list R :=
  let v1 := [nth 0 c2 0 - nth 0 c1 0; nth 1 c2 0 - nth 1 c1 0; nth 2 c2 0 - nth 2 c1 0] in
  let v2 := [nth 0 c3 0 - nth 0 c1 0; nth 1 c3 0 - nth 1 c1 0; nth 2 c3 0 - nth 2 c1 0] in
  [ nth 1 v1 0 * nth 2 v2 0 - nth 2 v1 0 * nth 1 v2 0;
    nth 2 v1 0 * nth 0 v2 0 - nth 0 v1 0 * nth 2 v2 0;
    nth 0 v1 0 * nth 1 v2 0 - nth 1 v1 0 * nth 0 v2 0 ].

(** The conversion of a [double] to [int]: the fractional part is
    discarded (truncation toward zero). *)
Definition to_int (x : R) : Z :=
  if Rlt_b x 0 then (- Int_part (- x))%Z else Int_part x.

(** [vem::tetrahedron_volume].  The call [abs(...)] is unqualified and the
    file includes [<cmath>] only, with no using-declaration: with libstdc++
    the one [abs] in scope in [namespace vem] is [int abs(int)] of the C
    library, so the determinant is converted to [int] before its absolute
    value is taken, and the [int] result is divided by [6.0]. *)
Definition tetrahedron_volume (p1 p2 p3 p4 : list R) : R :=
  let v1 := pointdiff 3 p1 p4 in
  let v2 := pointdiff 3 p2 p4 in
  let v3 := pointdiff 3 p3 p4 in
  IZR (Z.abs (to_int (determinant3D v1 v2 v3))) / 6.

(** The loop header [for (i = 0, inext = 1; i != n; ++i, inext = (i + 1) % n)]:
    the value of [inext] during iteration [i]. *)
Definition inext_of (i n : nat) : nat :=
  match i with
  | O => 1%nat
  | S _ => ((i + 1) mod n)%nat
  end.

(** [vem::centroid_2D]: centroid of a polygon from its signed area. *)
Definition centroid_2D (points : list R) (num_points : nat) : list R :=
  let step (st : list R * R) (i : nat) : list R * R :=
    let '(result, area) := st in
    let inext := inext_of i num_points in
    let fac := nth (2 * i) points 0 * nth (2 * inext + 1) points 0
               - nth (2 * inext) points 0 * nth (2 * i + 1) points 0 in
    (map (fun d => nth d result 0
                   + (nth (2 * i + d) points 0 + nth (2 * inext + d) points 0) * fac)
         (seq 0 2),
     area + 0.5 * fac) in
  let '(result, area) := fold_left step (seq 0 num_points) ([0; 0], 0) in
  [nth 0 result 0 / (6 * area); nth 1 result 0 / (6 * area)].

(** [vem::centroid_2D_3D]: centroid of a planar polygon embedded in 3D. *)
Definition centroid_2D_3D (points : list R) (num_points : nat) : list R :=
  let inside_point := point_average 3 points num_points in
  let step (st : list R * R) (i : nat) : list R * R :=
    let '(result, area) := st in
    let inext := inext_of i num_points in
    let tri_area := triarea 3 (skipn (3 * i) points) (skipn (3 * inext) points) inside_point in
    (map (fun d => nth d result 0
                   + tri_area * (nth (3 * i + d) points 0 + nth (3 * inext + d) points 0
                                 + nth d inside_point 0) / 3)
         (seq 0 3),
     area + tri_area) in
  let '(result, area) := fold_left step (seq 0 num_points) ([0; 0; 0], 0) in
  map (fun d => nth d result 0 / area) (seq 0 3).

(** [face_centroid<Dim>], specialised for 2 and 3. *)
Definition face_centroid (Dim : nat) (points : list R) (num_points : nat) : list R :=
  if (Dim =? 2)%nat then centroid_2D points num_points
  else centroid_2D_3D points num_points.

(** ** Face tessellation and the face integral *)

(** The [len] doubles of [l] from position [start] on. *)
Definition slice (l : list R) (start len : nat) : list R :=
  map (fun d => nth (start + d) l 0) (seq 0 len).

(** [tessellate_face<Dim>].  The second component is what the call writes
    through its [centroid] argument when that is not a null pointer
    ([None]: nothing is written). *)
Definition tessellate_face (Dim : nat) (corners : list R) (num_corners : nat)
           (skip_if_tri : bool) : list (list R) * option (list R) :=
  if skip_if_tri && (num_corners =? 3)%nat then
    ([slice corners 0 (Dim * num_corners)], None)
  else
    let center := face_centroid Dim corners num_corners in
    (flat_map
       (fun c =>
          let cnext := ((c + 1) mod num_corners)%nat in
          let midpt := pointmean Dim (skipn (Dim * c) corners) (skipn (Dim * cnext) corners) in
          [ center ++ slice corners (Dim * c) Dim ++ midpt;
            center ++ midpt ++ slice corners (Dim * cnext) Dim ])
       (seq 0 num_corners),
     Some center).

(** The overload taking a vector: the corner count is [corners.size() / Dim]. *)
Definition tessellate_face_vec (Dim : nat) (corners : list R) (skip_if_tri : bool)
  : list (list R) :=
  fst (tessellate_face Dim corners (length corners / Dim) skip_if_tri).

(** Area of the triangle stored as [3 * Dim] consecutive doubles. *)
Definition tri_area_of (Dim : nat) (t : list R) : R :=
  triarea Dim t (skipn Dim t) (skipn (2 * Dim) t).

(** [face_integral_impl<Dim>]; [corner_values = None] is the null pointer.
    Its assertion [tris.size() == 2 * num_corners] cannot fail
    (lemma [tessellate_face_length]) and is left out. *)
Definition face_integral_impl (Dim : nat) (corners : list R) (num_corners : nat)
           (corner_values : option (list R)) : R :=
  let tris := fst (tessellate_face Dim corners num_corners false) in
  fold_left
    (fun result i =>
       let t1 := nth (2 * i) tris [] in
       let t2 := nth (2 * i + 1) tris [] in
       let inext := ((i + 1) mod num_corners)%nat in
       let fval1 := match corner_values with Some cv => nth i cv 0 | None => 1 end in
       let fval2 := match corner_values with Some cv => nth inext cv 0 | None => 1 end in
       result + tri_area_of Dim t1 * fval1 + tri_area_of Dim t2 * fval2)
    (seq 0 num_corners) 0.

(** [vem::face_integral]: [dim] is 2 or 3 at every call. *)
Definition face_integral (corners : list R) (num_corners dim : nat)
           (corner_values : option (list R)) : R :=
  if (dim =? 2)%nat then face_integral_impl 2 corners num_corners corner_values
  else face_integral_impl 3 corners num_corners corner_values.

Definition element_volume_2D (corners : list R) (num_faces : nat) : R :=
  face_integral corners num_faces 2 None.

(** ** Dense linear algebra on row-major buffers *)

(** [matmul]: [result[r * n + c] = sum_k data1[...] * data2[...]], each entry
    accumulated from [0] for [k = 0, 1, ...], then scaled by [fac] unless
    [fac == 1.0]. *)
Definition matmul (data1 : list R) (r1 c1 : nat) (transposed1 : bool)
           (data2 : list R) (r2 c2 : nat) (transposed2 : bool) (fac : R)
  : res (list R) :=
  let dim1 := if transposed1 then (c1, r1) else (r1, c1) in
  let dim2 := if transposed2 then (c2, r2) else (r2, c2) in
  let stride1 := if transposed1 then (1, c1)%nat else (c1, 1)%nat in
  let stride2 := if transposed2 then (1, c2)%nat else (c2, 1)%nat in
  if negb (snd dim1 =? fst dim2)%nat then Throw invalid_argument
  else
    let result :=
      flat_map
        (fun r =>
           map (fun c =>
                  fold_left
                    (fun acc k =>
                       acc + nth (r * fst stride1 + k * snd stride1) data1 0
                             * nth (k * fst stride2 + c * snd stride2) data2 0)
                    (seq 0 (snd dim1)) 0)
               (seq 0 (snd dim2)))
        (seq 0 (fst dim1)) in
    Ok (if Req_b fac 1 then result else map (fun e => e * fac) result).

(** [trace]: the matrix must be square (asserted). *)
Definition trace (A : list R) : res R :=
  let N := Nat.sqrt (length A) in
  assert_ (N * N =? length A)%nat ;;;
  Ok (fold_left (fun result i => result + nth (i + N * i) A 0) (seq 0 N) 0).

Definition diag_elems (A : list R) : list R :=
  let N := Nat.sqrt (length A) in
  fold_left (fun result i => upd result i (nth (i * N + i) A 0)) (seq 0 N) (repeat 0 N).

(** [invtrace]: the sum of the reciprocals of the diagonal entries. *)
Definition invtrace (A : list R) : R :=
  let diag := diag_elems A in
  fold_left (fun result i => result + 1 / nth i diag 0) (seq 0 (length diag)) 0.

Definition identity_matrix (fac : R) (N : nat) : list R :=
  fold_left (fun result i => upd result (i + N * i) fac) (seq 0 N) (repeat 0 (N * N)).

(** ** The stability term and the final assembly *)

(** [vem::StabilityChoice], declared in vem.hpp. *)
Inductive StabilityChoice : Type := SIMPLE | HARMONIC | D_RECIPE.

Definition is_SIMPLE (s : StabilityChoice) : bool :=
  match s with SIMPLE => true | _ => false end.
Definition is_HARMONIC (s : StabilityChoice) : bool :=
  match s with HARMONIC => true | _ => false end.
Definition is_D_RECIPE (s : StabilityChoice) : bool :=
  match s with D_RECIPE => true | _ => false end.

Definition compute_S (Nc D : list R) (num_corners : nat) (volume : R) (dim : nat)
           (stability_choice : StabilityChoice) : res (list R) :=
  assert_ ((dim =? 2)%nat || (dim =? 3)%nat) ;;;
  assert_ (is_SIMPLE stability_choice || is_HARMONIC stability_choice) ;;;
  let r := (dim * num_corners)%nat in
  let c := if (dim =? 2)%nat then 3%nat else 6%nat in
  NtN <- matmul Nc r c true Nc r c false 1 ;;
  alpha <- (if is_SIMPLE stability_choice then
              tD <- trace D ;; tN <- trace NtN ;; Ok (volume * tD / tN)
            else
              tD <- trace D ;; Ok ((1 / 9) * volume * tD * invtrace NtN)) ;;
  Ok (identity_matrix alpha (dim * num_corners)).

Definition compute_S_D_recipe (EWcDWct : list R) (dofs : nat) (volume : R) : list R :=
  let h := cbrt volume in
  fold_left (fun result i => upd result (i + dofs * i) (std_max h (nth (i + dofs * i) EWcDWct 0)))
            (seq 0 dofs) (repeat 0 (dofs * dofs)).

(** The stability matrix [S] as [final_assembly] selects it. *)
Definition select_S (EWcDWct Nc D : list R) (stability_choice : StabilityChoice)
           (volume : R) (num_nodes dim : nat) : res (list R) :=
  if is_D_RECIPE stability_choice
  then Ok (compute_S_D_recipe EWcDWct (dim * num_nodes) volume)
  else compute_S Nc D num_nodes volume dim stability_choice.

(** The consistent block [EWcDWct] of [final_assembly]. *)
Definition consistent_block (Wc D : list R) (volume : R) (num_nodes dim : nat)
  : res (list R) :=
  let lsdim := if (dim =? 2)%nat then 3%nat else 6%nat in
  let totdim := (dim * num_nodes)%nat in
  DWct <- matmul D lsdim lsdim false Wc totdim lsdim true 1 ;;
  matmul Wc totdim lsdim false DWct lsdim totdim false volume.

(** [std::transform(a.begin(), a.end(), b.begin(), target, std::plus<>{})]. *)
Definition transform_plus (a b : list R) : list R :=
  map (fun i => nth i a 0 + nth i b 0) (seq 0 (length a)).

(** [final_assembly]: the value written to [target]. *)
Definition final_assembly (Wc D Nc ImP : list R) (stability_choice : StabilityChoice)
           (volume : R) (num_nodes dim : nat) : res (list R) :=
  assert_ ((dim =? 2)%nat || (dim =? 3)%nat) ;;;
  let totdim := (dim * num_nodes)%nat in
  EWcDWct <- consistent_block Wc D volume num_nodes dim ;;
  S <- select_S EWcDWct Nc D stability_choice volume num_nodes dim ;;
  SImP <- matmul S totdim totdim false ImP totdim totdim false 1 ;;
  ImpSImp <- matmul ImP totdim totdim true SImP totdim totdim false 1 ;;
  assert_ (length EWcDWct =? length ImpSImp)%nat ;;;
  Ok (transform_plus EWcDWct ImpSImp).

(** ** Per-node blocks of Nr, Nc, Wr and Wc *)

Definition matentry_2D (e1 e2 e3 e4 : R) : list R := [e1; 0; e2; 0; e3; e4].

Definition matentry_3D (e1 e2 e3 e4 e5 e6 e7 e8 e9 : R) : list R :=
  [e1; 0; 0; e2; 0; e3; 0; e4; 0; e5; e6; 0; 0; 0; e7; 0; e8; e9].

(** ** Loads *)

(** The triangle [c] of a tessellation is credited to this corner by
    [compute_bodyforce_2D] and [compute_applied_forces_3D]. *)
Definition corner_of_triangle (c num_corners : nat) : nat :=
  ((c / 2 + c mod 2) mod num_corners)%nat.

(** [compute_bodyforce_2D]: the new content of [target]. *)
Definition compute_bodyforce_2D (points : list R) (cell_corners : list nat)
           (number_cell_faces : nat) (bforce : list R) (target : list R) : list R :=
  let coords := pick_points 2 points cell_corners number_cell_faces in
  let tris := fst (tessellate_face 2 coords number_cell_faces false) in
  fold_left
    (fun target c =>
       fold_left
         (fun target d =>
            add_at target (2 * corner_of_triangle c number_cell_faces + d)
                   (nth d bforce 0 * tri_area_of 2 (nth c tris [])))
         (seq 0 2) target)
    (seq 0 (2 * number_cell_faces)) target.

Definition compute_applied_forces_2D (points : list R) (n1 n2 : nat) (fx fy : R) : list R :=
  let hL := norm 2 (pointdiff 2 (skipn (2 * n1) points) (skipn (2 * n2) points)) / 2 in
  [hL * fx; hL * fy; hL * fx; hL * fy].

(** [compute_applied_forces_3D]: the new content of [b_global]. *)
Definition compute_applied_forces_3D (points : list R) (num_face_corners face_corners : list nat)
           (num_neumann_faces : nat) (neumann_faces : list nat) (neumann_forces : list R)
           (b_global : list R) : list R :=
  fold_left
    (fun b_global nf =>
       let nfc := nth (nth nf neumann_faces 0%nat) num_face_corners 0%nat in
       let ix_start := accumulate num_face_corners (nth nf neumann_faces 0%nat) in
       let face_corners_loc := pick_points 3 points (skipn ix_start face_corners) nfc in
       let tris := fst (tessellate_face 3 face_corners_loc nfc false) in
       fold_left
         (fun b_global c =>
            let area := tri_area_of 3 (nth c tris []) in
            let corner := corner_of_triangle c nfc in
            fold_left
              (fun b_global d =>
                 add_at b_global (3 * nth (ix_start + corner) face_corners 0%nat + d)
                        (nth (3 * nf + d) neumann_forces 0 * area))
              (seq 0 3) b_global)
         (seq 0 (2 * nfc)) b_global)
    (seq 0 num_neumann_faces) b_global.

(** Volume of the tetrahedron over a stored triangle, with apex [centroid]. *)
Definition tet_volume_of (t centroid : list R) : R :=
  tetrahedron_volume t (skipn 3 t) (skipn 6 t) centroid.

(** The body of the face loop of [compute_bodyforce_3D] for one face whose
    corner list starts at [fcorner_start]. *)
Definition bodyforce_3D_face (points : list R) (face_corners : list nat) (nfc fcorner_start : nat)
           (centroid bforce : list R) (b_global : list R) : list R :=
  let tris := tessellate_face_vec 3 (pick_points 3 points (skipn fcorner_start face_corners) nfc)
                                  false in
  fold_left
    (fun b_global c =>
       let t1 := nth (2 * c) tris [] in
       let t2 := if (c =? 0)%nat then last tris [] else nth (2 * c - 1) tris [] in
       let vol1 := tet_volume_of t1 centroid in
       let vol2 := tet_volume_of t2 centroid in
       fold_left
         (fun b_global d =>
            add_at b_global (3 * nth (fcorner_start + c) face_corners 0%nat + d)
                   ((vol1 + vol2) * nth d bforce 0))
         (seq 0 3) b_global)
    (seq 0 nfc) b_global.

(** [compute_bodyforce_3D]: the new content of [b_global].  Its assertion
    [tris.size() == nfc * 2] holds whenever [pick_points] returned [nfc]
    points (lemma [tessellate_face_length]) and is left out. *)
Definition compute_bodyforce_3D (points : list R) (face_corners num_face_corners : list nat)
           (num_faces : nat) (centroid bforce : list R) (b_global : list R) : list R :=
  snd (fold_left
         (fun (st : nat * list R) f =>
            let '(fcorner_start, b_global) := st in
            let nfc := nth f num_face_corners 0%nat in
            (fcorner_start + nfc,
             bodyforce_3D_face points face_corners nfc fcorner_start centroid bforce b_global)%nat)
         (seq 0 num_faces) (0%nat, b_global)).

(** ** Boundary conditions on a triplet system *)

Definition triplet : Type := (Z * Z * R)%type.
Definition trow (t : triplet) : Z := fst (fst t).
Definition tcol (t : triplet) : Z := snd (fst t).
Definition tval (t : triplet) : R := snd t.

(** What a call leaves behind in its reference arguments: it returns, or it
    throws, and [s] is the content of the arguments at that moment. *)
Inductive outcome (S : Type) : Type :=
| Returns (s : S)
| Throws (e : exn) (s : S).

Arguments Returns {S} s.
Arguments Throws {S} e s.

(** [std::is_sorted] with [operator<]: no element is smaller than the one
    before it. *)
Fixpoint is_sorted (l : list Z) : bool :=
  match l with
  | [] => true
  | x :: t =>
    match t with
    | [] => true
    | y :: _ => negb (y <? x)%Z && is_sorted t
    end
  end.

(** [std::sort] by column number.  The order of triplets of one column is
    unspecified in the source; insertion keeps them in their input order. *)
Fixpoint insert_by_col (t : triplet) (l : list triplet) : list triplet :=
  match l with
  | [] => [t]
  | h :: r => if (tcol h <? tcol t)%Z then h :: insert_by_col t r else t :: h :: r
  end.

Definition sort_by_col (A : list triplet) : list triplet :=
  fold_right insert_by_col [] A.

(** [std::lower_bound(cur_end, A.end(), dof, col < value)] on a range
    sorted by column: the elements it steps over and the range it returns. *)
Fixpoint lower_bound (l : list triplet) (dof : Z) : list triplet * list triplet :=
  match l with
  | [] => ([], [])
  | h :: r => if (tcol h <? dof)%Z
              then let '(skipped, rest) := lower_bound r dof in (h :: skipped, rest)
              else ([], l)
  end.

(** [std::find_if(start, A.end(), col != dof)]: the run of column [dof]
    and what follows it. *)
Fixpoint find_if_other (l : list triplet) (dof : Z) : list triplet * list triplet :=
  match l with
  | [] => ([], [])
  | h :: r => if negb (tcol h =? dof)%Z then ([], l)
              else let '(run, rest) := find_if_other r dof in (h :: run, rest)
  end.

(** [b[row] -= value * fixed_value] along a run of triplets. *)
Definition move_to_rhs (run : list triplet) (fixed_value : R) (b : list R) : list R :=
  fold_left (fun b t => updZ b (trow t) (nthZ b (trow t) 0 - tval t * fixed_value)) run b.

(** The column-elimination loop.  The matrix is kept as the triplets before
    [cur_end] and those from [cur_end] on; [zero] tells whether the moved
    entries are overwritten with 0 ([set_boundary_conditions]) or kept
    ([reduce_system]). *)
Definition eliminate_columns (zero : bool) (A : list triplet) (b : list R)
           (num_fixed_dofs : nat) (fixed_dof_ixs : list Z) (fixed_dof_values : list R)
  : list triplet * list R :=
  let '(done, todo, b') :=
    fold_left
      (fun (st : list triplet * list triplet * list R) i =>
         let '(done, todo, b) := st in
         let dof := nth i fixed_dof_ixs 0%Z in
         let '(skipped, start) := lower_bound todo dof in
         match start with
         | [] => st
         | h :: _ =>
           if (tcol h =? dof)%Z then
             let '(run, rest) := find_if_other start dof in
             let b1 := move_to_rhs run (nth i fixed_dof_values 0) b in
             let run1 := if zero then map (fun t => (trow t, tcol t, 0)) run else run in
             (done ++ skipped ++ run1, rest, b1)
           else st
         end)
      (seq 0 num_fixed_dofs) ([], A, b) in
  (done ++ todo, b').

(** [std::set_difference] on two sorted ranges. *)
Fixpoint set_difference (l1 l2 : list Z) : list Z :=
  match l1 with
  | [] => []
  | x :: t1 =>
    (fix against (l2 : list Z) : list Z :=
       match l2 with
       | [] => x :: t1
       | y :: t2 =>
         if (x <? y)%Z then x :: set_difference t1 (y :: t2)
         else if (y <? x)%Z then against t2
              else set_difference t1 t2
       end) l2
  end.

(** [std::iota(keep.begin(), keep.end(), 0)] on a vector of [n] ints. *)
Definition iota (n : nat) : list Z := map Z.of_nat (seq 0 n).

(** The renumbering both passes compute: the kept dofs in order, and the
    inverse table in which a fixed dof holds [discard_flag]. *)
Definition renumbering (n num_fixed_dofs : nat) (fixed_dof_ixs : list Z)
  : list Z * list Z * Z :=
  let keep := iota n in
  let renum := set_difference keep (firstn num_fixed_dofs fixed_dof_ixs) in
  let discard_flag := (Z.of_nat n + 1)%Z in
  let renum_inv :=
    fold_left (fun renum_inv i => updZ renum_inv (nth i renum 0%Z) (Z.of_nat i))
              (seq 0 (length renum)) (repeat discard_flag n) in
  (renum, renum_inv, discard_flag).

Definition system : Type := (list triplet * list R)%type.

(** [reduce_system]. *)
Definition reduce_system (A : list triplet) (b : list R) (num_fixed_dofs : nat)
           (fixed_dof_ixs : list Z) (fixed_dof_values : list R) : outcome system :=
  if negb (is_sorted (firstn num_fixed_dofs fixed_dof_ixs)) then Throws invalid_argument (A, b)
  else
    let A1 := sort_by_col A in
    let '(A2, b2) := eliminate_columns false A1 b num_fixed_dofs fixed_dof_ixs fixed_dof_values in
    let '(renum, renum_inv, discard_flag) := renumbering (length b2) num_fixed_dofs fixed_dof_ixs in
    let A3 := filter (fun el => negb ((nthZ renum_inv (trow el) 0 =? discard_flag)
                                      || (nthZ renum_inv (tcol el) 0 =? discard_flag))%Z) A2 in
    let A4 := map (fun el => (nthZ renum_inv (trow el) 0%Z, nthZ renum_inv (tcol el) 0%Z, tval el)) A3 in
    let b3 := fold_left (fun b i => upd b i (nthZ b (nth i renum 0%Z) 0))
                        (seq 0 (length renum)) b2 in
    Returns (A4, resize b3 (length renum)).

(** [set_boundary_conditions]. *)
Definition set_boundary_conditions (A : list triplet) (b : list R) (num_fixed_dofs : nat)
           (fixed_dof_ixs : list Z) (fixed_dof_values : list R) : outcome system :=
  if negb (is_sorted (firstn num_fixed_dofs fixed_dof_ixs)) then Throws invalid_argument (A, b)
  else
    let A1 := sort_by_col A in
    let '(A2, b2) := eliminate_columns true A1 b num_fixed_dofs fixed_dof_ixs fixed_dof_values in
    let '(renum, renum_inv, discard_flag) := renumbering (length b2) num_fixed_dofs fixed_dof_ixs in
    let A3 :=
      map (fun el =>
             let is_diag := (trow el =? tcol el)%Z in
             let is_dof := ((nthZ renum_inv (trow el) 0 =? discard_flag)
                            || (nthZ renum_inv (tcol el) 0 =? discard_flag))%Z in
             if is_dof then (if is_diag then (trow el, tcol el, 1) else (trow el, tcol el, 0))
             else el) A2 in
    let b3 := fold_left (fun b i => updZ b (nth i fixed_dof_ixs 0%Z) (nth i fixed_dof_values 0))
                        (seq 0 num_fixed_dofs) b2 in
    Returns (A3, b3).

(** [vem::sparse2full]: a dense copy of a triplet list, repeated coordinates
    added up.  The size [r * c] and the subscript [i * r + j] are computed
    in [int], as in the source.  A size that comes out negative makes the
    constructor of the vector throw; the subscript is asserted to lie below
    the size of the buffer and is not checked against zero before
    [result[ix] += v]. *)
Definition sparse2full (nz : list triplet) (r c : nat) : res (list R) :=
  let size := wrap_int (Z.of_nat r * Z.of_nat c) in
  if (size <? 0)%Z then Throw length_error
  else
    fold_left (fun acc t =>
                 result <- acc ;;
                 let ix := wrap_int (wrap_int (trow t * Z.of_nat r) + tcol t) in
                 assert_ (ix <? wrap_int (Z.of_nat (length result)))%Z ;;;
                 if (ix <? 0)%Z then Throw out_of_bounds
                 else Ok (updZ result ix (nthZ result ix 0 + tval t)))
              nz (Ok (repeat 0 (Z.to_nat size))).

(** ** Local indexing of a cell *)

(** Insertion into a [std::set<int>]: sorted, without repetition. *)
Fixpoint set_insert (x : nat) (s : list nat) : list nat :=
  match s with
  | [] => [x]
  | h :: t => if (x <? h)%nat then x :: s
              else if (x =? h)%nat then s
                   else h :: set_insert x t
  end.

(** [reindex.find(I)->second] on the map built from [indexing]. *)
Fixpoint map_find (reindex : list (nat * nat)) (I : nat) : nat :=
  match reindex with
  | [] => 0%nat
  | (k, v) :: t => if (k =? I)%nat then v else map_find t I
  end.

(** [global_to_local_indexing]: the map it returns and the [indexing] it
    writes. *)
Definition global_to_local_indexing (faces num_face_edges : list nat) (num_faces : nat)
  : list (nat * nat) * list nat :=
  let faces_len := accumulate num_face_edges num_faces in
  let unique_elements := fold_left (fun s x => set_insert x s) (firstn faces_len faces) [] in
  let indexing := unique_elements in
  (map (fun i => (nth i indexing 0%nat, i)) (seq 0 (length indexing)), indexing).

(** ** The q vectors and the matrices Nr, Nc, Wr, Wc, D *)

Definition compute_q_2D (corners : list R) (num_corners : nat) : list R :=
  let fac := 1 / (4 * element_volume_2D corners num_corners) in
  fold_left
    (fun result i =>
       let inext := inext_of i num_corners in
       let scaled_normal :=
         [ nth (2 * inext + 1) corners 0 - nth (2 * i + 1) corners 0;
           - (nth (2 * inext + 0) corners 0 - nth (2 * i + 0) corners 0) ] in
       fold_left
         (fun result d =>
            let result1 := add_at result (i * 2 + d) (fac * nth d scaled_normal 0) in
            add_at result1 (inext * 2 + d) (fac * nth d scaled_normal 0))
         (seq 0 2) result)
    (seq 0 num_corners) (repeat 0 (num_corners * 2)).

Definition compute_q_3D (corners : list R) (num_corners : nat) (faces num_face_edges : list nat)
           (num_faces : nat) (volume : R) (outward_normals : list R) : list R :=
  let fac := 1 / (2 * volume) in
  snd (fold_left
         (fun (st : nat * list R) f =>
            let nfe := nth f num_face_edges 0%nat in
            let facecorners := pick_points 3 corners (skipn (fst st) faces) nfe in
            let normal := skipn (3 * f) outward_normals in
            fold_left
              (fun (st : nat * list R) e =>
                 let '(cur_vertex_ix, result) := st in
                 let cvals := upd (repeat 0 nfe) e 1 in
                 let phi := face_integral facecorners nfe 3 (Some cvals) in
                 (S cur_vertex_ix,
                  fold_left
                    (fun result d =>
                       add_at result (3 * nth cur_vertex_ix faces 0%nat + d)
                              (fac * phi * nth d normal 0))
                    (seq 0 3) result))
              (seq 0 nfe) st)
         (seq 0 num_faces) (0%nat, repeat 0 (num_corners * 3))).

Definition compute_Nr_2D (corners : list R) (num_corners : nat) : list R :=
  let midpoint := point_average 2 corners num_corners in
  flat_map (fun i => matentry_2D 1 (nth (2 * i + 1) corners 0 - nth 1 midpoint 0)
                                 1 (- (nth (2 * i) corners 0 - nth 0 midpoint 0)))
           (seq 0 num_corners).

Definition compute_Nr_3D (corners : list R) (num_corners : nat) : list R :=
  let midpoint := point_average 3 corners num_corners in
  flat_map (fun i => matentry_3D 1
                                 (nth (3 * i + 1) corners 0 - nth 1 midpoint 0)
                                 (- (nth (3 * i + 2) corners 0 - nth 2 midpoint 0))
                                 1
                                 (- (nth (3 * i) corners 0 - nth 0 midpoint 0))
                                 (nth (3 * i + 2) corners 0 - nth 2 midpoint 0)
                                 1
                                 (- (nth (3 * i + 1) corners 0 - nth 1 midpoint 0))
                                 (nth (3 * i) corners 0 - nth 0 midpoint 0))
           (seq 0 num_corners).

Definition compute_Nc_3D (corners : list R) (num_corners : nat) : list R :=
  let mid := point_average 3 corners num_corners in
  flat_map (fun i => matentry_3D (nth (3 * i) corners 0 - nth 0 mid 0)
                                 (nth (3 * i + 1) corners 0 - nth 1 mid 0)
                                 (nth (3 * i + 2) corners 0 - nth 2 mid 0)
                                 (nth (3 * i + 1) corners 0 - nth 1 mid 0)
                                 (nth (3 * i) corners 0 - nth 0 mid 0)
                                 (nth (3 * i + 2) corners 0 - nth 2 mid 0)
                                 (nth (3 * i + 2) corners 0 - nth 2 mid 0)
                                 (nth (3 * i + 1) corners 0 - nth 1 mid 0)
                                 (nth (3 * i) corners 0 - nth 0 mid 0))
           (seq 0 num_corners).

Definition compute_Nc_2D (corners : list R) (num_corners : nat) : list R :=
  let midpoint := point_average 2 corners num_corners in
  flat_map (fun i => matentry_2D (nth (2 * i) corners 0 - nth 0 midpoint 0)
                                 (nth (2 * i + 1) corners 0 - nth 1 midpoint 0)
                                 (nth (2 * i + 1) corners 0 - nth 1 midpoint 0)
                                 (nth (2 * i) corners 0 - nth 0 midpoint 0))
           (seq 0 num_corners).

Definition compute_Wr_3D (q : list R) : res (list R) :=
  let num_corners := (length q / 3)%nat in
  let ncinv := 1 / INR num_corners in
  assert_ (num_corners * 3 =? length q)%nat ;;;
  Ok (flat_map (fun i => matentry_3D ncinv
                                     (nth (3 * i + 1) q 0)
                                     (- nth (3 * i + 2) q 0)
                                     ncinv
                                     (- nth (3 * i) q 0)
                                     (nth (3 * i + 2) q 0)
                                     ncinv
                                     (- nth (3 * i + 1) q 0)
                                     (nth (3 * i) q 0))
               (seq 0 num_corners)).

Definition compute_Wr_2D (q : list R) : res (list R) :=
  let num_corners := (length q / 2)%nat in
  assert_ (num_corners * 2 =? length q)%nat ;;;
  Ok (flat_map (fun i => matentry_2D (1 / INR num_corners) (nth (2 * i + 1) q 0)
                                     (1 / INR num_corners) (- nth (2 * i) q 0))
               (seq 0 num_corners)).

Definition compute_Wc_3D (q : list R) : res (list R) :=
  let num_corners := (length q / 3)%nat in
  assert_ (num_corners * 3 =? length q)%nat ;;;
  Ok (flat_map (fun i => matentry_3D (2 * nth (3 * i) q 0)
                                     (nth (3 * i + 1) q 0)
                                     (nth (3 * i + 2) q 0)
                                     (2 * nth (3 * i + 1) q 0)
                                     (nth (3 * i) q 0)
                                     (nth (3 * i + 2) q 0)
                                     (2 * nth (3 * i + 2) q 0)
                                     (nth (3 * i + 1) q 0)
                                     (nth (3 * i) q 0))
               (seq 0 num_corners)).

Definition compute_Wc_2D (q : list R) : res (list R) :=
  let num_corners := (length q / 2)%nat in
  assert_ (num_corners * 2 =? length q)%nat ;;;
  Ok (flat_map (fun i => matentry_2D (2 * nth (2 * i) q 0) (nth (2 * i + 1) q 0)
                                     (2 * nth (2 * i + 1) q 0) (nth (2 * i) q 0))
               (seq 0 num_corners)).

Definition compute_D_2D (young poisson : R) : list R :=
  let fac := young / (1 + poisson) / (1 - 2 * poisson) in
  map (fun d => d * fac)
      [1 - poisson; poisson; 0; poisson; 1 - poisson; 0; 0; 0; 2 * (1 - 2 * poisson)].

Definition compute_D_3D (young poisson : R) : list R :=
  let fac := young / (1 + poisson) / (1 - 2 * poisson) in
  map (fun d => d * fac)
      [1 - poisson; poisson; poisson; 0; 0; 0;
       poisson; 1 - poisson; poisson; 0; 0; 0;
       poisson; poisson; 1 - poisson; 0; 0; 0;
       0; 0; 0; 2 * (1 - 2 * poisson); 0; 0;
       0; 0; 0; 0; 2 * (1 - 2 * poisson); 0;
       0; 0; 0; 0; 0; 2 * (1 - 2 * poisson)].

(** [compute_ImP]: the matrix [I - (Nr Wr^T + Nc Wc^T)]. *)
Definition compute_ImP (Nr Nc Wr Wc : list R) (dim : nat) : res (list R) :=
  assert_ ((dim =? 2)%nat || (dim =? 3)%nat) ;;;
  let N := if (dim =? 2)%nat then (length Nc / 6)%nat else (length Nc / 18)%nat in
  let r := (dim * N)%nat in
  let c := if (dim =? 2)%nat then 3%nat else 6%nat in
  Pr <- matmul Nr r c false Wr r c true 1 ;;
  Pc <- matmul Nc r c false Wc r c true 1 ;;
  let result := identity_matrix 1 (N * dim) in
  assert_ (length result =? length Pr)%nat ;;;
  Ok (fold_left (fun result i => upd result i (nth i result 0 - (nth i Pr 0 + nth i Pc 0)))
                (seq 0 (length result)) result).

(** ** Star points *)

Definition tol : R := 1e-13.

(** [is_behind_face]. *)
Definition is_behind_face (point face_normal face_centroid : list R) : bool :=
  let v := [ nth 0 face_centroid 0 - nth 0 point 0;
             nth 1 face_centroid 0 - nth 1 point 0;
             nth 2 face_centroid 0 - nth 2 point 0 ] in
  Rgt_b (nth 0 v 0 * nth 0 face_normal 0 + nth 1 v 0 * nth 1 face_normal 0
         + nth 2 v 0 * nth 2 face_normal 0 + tol) 0.

(** [is_star_point]: a loop that returns [false] at the first face the
    point is not behind. *)
Definition is_star_point (point face_normals face_centroids : list R) : bool :=
  let N := (length face_normals / 3)%nat in
  forallb (fun i => is_behind_face point (skipn (3 * i) face_normals)
                                   (skipn (3 * i) face_centroids))
          (seq 0 N).

(** The correction [identify_star_point] applies when [result] is not
    behind face [f_ix]. *)
Definition push_behind (result face_normals face_centroids : list R) (f_ix : nat) : list R :=
  let proj :=
    (nth 0 result 0 - nth (3 * f_ix) face_centroids 0) * nth (3 * f_ix) face_normals 0
    + (nth 1 result 0 - nth (3 * f_ix + 1) face_centroids 0) * nth (3 * f_ix + 1) face_normals 0
    + (nth 2 result 0 - nth (3 * f_ix + 2) face_centroids 0) * nth (3 * f_ix + 2) face_normals 0 in
  fold_left (fun result ii =>
               upd result ii (nth ii result 0 - 1.1 * proj * nth (3 * f_ix + ii) face_normals 0))
            (seq 0 3) result.

(** One pass through the body of the search loop at iteration [i]: the
    point and the value of [++count]. *)
Definition star_iteration (face_normals face_centroids : list R) (N i : nat)
           (result : list R) (count : nat) : list R * nat :=
  let f_ix := (i mod N)%nat in
  let '(result1, count0) :=
    if negb (is_behind_face result (skipn (3 * f_ix) face_normals)
                            (skipn (3 * f_ix) face_centroids))
    then (push_behind result face_normals face_centroids f_ix, 0%nat)
    else (result, count) in
  (result1, S count0).

(** The search loop from iteration [i] with [remaining] iterations of the
    budget left; it stops at the [break].  The third component counts the
    iterations that ran. *)
Fixpoint star_loop (face_normals face_centroids : list R) (N : nat)
         (remaining i : nat) (result : list R) (count : nat) : list R * nat * nat :=
  match remaining with
  | O => (result, count, i)
  | S remaining' =>
    let '(result1, count1) := star_iteration face_normals face_centroids N i result count in
    if (count1 =? N)%nat then (result1, count1, S i)
    else star_loop face_normals face_centroids N remaining' (S i) result1 count1
  end.

(** [identify_star_point]. *)
Definition identify_star_point (point face_normals face_centroids : list R) : res (list R) :=
  let N := (length face_normals / 3)%nat in
  let max_iter := (20 * N)%nat in
  let '(result, count, _) := star_loop face_normals face_centroids N max_iter 0 point 0 in
  if negb (count =? N)%nat then Throw runtime_error else Ok result.

(** ** Cell geometry *)

(** [compute_face_geometry]: the unit normal and the centroid it writes. *)
Definition compute_face_geometry (points : list R) : list R * list R :=
  let '(face_tessellation, written) := tessellate_face 3 points (length points / 3) false in
  let centroid := match written with Some c => c | None => [] end in
  let normal :=
    fold_left (fun normal tri =>
                 let tn := trinormal tri (skipn 3 tri) (skipn 6 tri) in
                 map (fun d => nth d normal 0 + nth d tn 0) (seq 0 3))
              face_tessellation [0; 0; 0] in
  let n := norm 3 normal in
  (map (fun d => nth d normal 0 / n) (seq 0 3), centroid).

Definition extract_local_faces (faces num_face_edges : list nat) (num_faces : nat) : list nat :=
  firstn (accumulate num_face_edges num_faces) faces.

(** [inward_pointing_normals]. *)
Definition inward_pointing_normals (normals face_centroids : list R) : bool :=
  let N := (length normals / 3)%nat in
  let mean_point := point_average 3 face_centroids N in
  let dists := map (fun i => map (fun d => nth (3 * i + d) face_centroids 0 - nth d mean_point 0)
                                 (seq 0 3))
                   (seq 0 N) in
  let sum :=
    fold_left (fun sum i =>
                 fold_left (fun sum d => sum + nth d (nth i dists []) 0 * nth (3 * i + d) normals 0)
                           (seq 0 3) sum)
              (seq 0 N) 0 in
  Rlt_b sum 0.

Record cell_geometry : Type := mk_cell_geometry {
  outward_normals : list R;
  face_centroids : list R;
  cell_centroid : list R;
  star_point : list R;
  volume : R
}.

(** The normals and centroids of all faces, as the first loop of
    [compute_cell_geometry] writes them. *)
Definition face_geometries (points : list R) (faces2 num_face_edges : list nat) (num_faces : nat)
  : list R * list R :=
  let '(_, normals, centroids) :=
    fold_left
      (fun (st : nat * list R * list R) f =>
         let '(faces_offset, normals, centroids) := st in
         let nfe := nth f num_face_edges 0%nat in
         let '(n, c) := compute_face_geometry (pick_points 3 points (skipn faces_offset faces2) nfe) in
         ((faces_offset + nfe)%nat,
          firstn (f * 3) normals ++ n ++ skipn (f * 3 + 3) normals,
          firstn (f * 3) centroids ++ c ++ skipn (f * 3 + 3) centroids))
      (seq 0 num_faces) (0%nat, repeat 0 (num_faces * 3), repeat 0 (num_faces * 3)) in
  (normals, centroids).

(** The orientation gate of [compute_cell_geometry]:
    [if (inward_pointing_normals(...)) assert(false);]. *)
Definition orientation_check (normals centroids : list R) : res unit :=
  if inward_pointing_normals normals centroids then assert_ false else Ok tt.

(** The volume and the (unnormalised) centroid accumulated over the
    tetrahedra spanned by the tessellated faces and the star point. *)
Definition accumulate_tetrahedra (points : list R) (faces num_face_edges : list nat)
           (num_faces : nat) (star : list R) : R * list R :=
  let '(_, vol, cc) :=
    fold_left
      (fun (st : nat * R * list R) f =>
         let '(fpos, vol, cc) := st in
         let nfe := nth f num_face_edges 0%nat in
         let tris := tessellate_face_vec 3 (pick_points 3 points (skipn fpos faces) nfe) true in
         let '(vol1, cc1) :=
           fold_left
             (fun (acc : R * list R) tri0 =>
                let '(vol, cc) := acc in
                let tri := tri0 ++ slice star 0 3 in
                let tvol := tetrahedron_volume tri (skipn 3 tri) (skipn 6 tri) (skipn 9 tri) in
                let tet_centroid := point_average 3 tri 4 in
                (vol + tvol,
                 map (fun d => nth d cc 0 + tvol * nth d tet_centroid 0) (seq 0 3)))
             tris (vol, cc) in
         ((fpos + nfe)%nat, vol1, cc1))
      (seq 0 num_faces) (0%nat, 0, [0; 0; 0]) in
  (vol, cc).

(** [compute_cell_geometry]. *)
Definition compute_cell_geometry (points : list R) (num_points : nat)
           (faces num_face_edges : list nat) (num_faces : nat) : res cell_geometry :=
  let faces2 := extract_local_faces faces num_face_edges num_faces in
  let '(normals, centroids) := face_geometries points faces2 num_face_edges num_faces in
  assert_ (length centroids =? num_faces * 3)%nat ;;;
  orientation_check normals centroids ;;;
  star <- identify_star_point (point_average 3 points num_points) normals centroids ;;
  let '(vol, cc) := accumulate_tetrahedra points faces num_face_edges num_faces star in
  let cc1 := map (fun d => nth d cc 0 / vol) (seq 0 3) in
  Ok (mk_cell_geometry normals centroids cc1
                       (if is_star_point cc1 normals centroids then cc1 else star)
                       vol).

(** ** Local stiffness matrices *)

Definition assemble_stiffness_matrix_2D (points : list R) (corner_ixs : list nat)
           (num_corners : nat) (young poisson : R) (stability_choice : StabilityChoice)
  : res (list R) :=
  let corners := pick_points 2 points corner_ixs num_corners in
  let area := element_volume_2D corners num_corners in
  let q := compute_q_2D corners num_corners in
  let Nr := compute_Nr_2D corners num_corners in
  let Nc := compute_Nc_2D corners num_corners in
  Wr <- compute_Wr_2D q ;;
  Wc <- compute_Wc_2D q ;;
  let D := compute_D_2D young poisson in
  ImP <- compute_ImP Nr Nc Wr Wc 2 ;;
  final_assembly Wc D Nc ImP stability_choice area num_corners 2.

(** [assemble_stiffness_matrix_3D]: the centroid, the indexing and the
    matrix it writes. *)
Definition assemble_stiffness_matrix_3D (points : list R) (faces num_face_edges : list nat)
           (num_faces : nat) (young poisson : R) (stability_choice : StabilityChoice)
  : res (list R * list nat * list R) :=
  let '(reindex, indexing) := global_to_local_indexing faces num_face_edges num_faces in
  let num_corners := length indexing in
  let num_face_entries := accumulate num_face_edges num_faces in
  let corners_loc := pick_points 3 points indexing num_corners in
  let faces_loc := map (map_find reindex) (firstn num_face_entries faces) in
  geo <- compute_cell_geometry corners_loc num_corners faces_loc num_face_edges num_faces ;;
  let q := compute_q_3D corners_loc (length corners_loc / 3) faces_loc num_face_edges num_faces
                        (volume geo) (outward_normals geo) in
  let Nr := compute_Nr_3D corners_loc num_corners in
  let Nc := compute_Nc_3D corners_loc num_corners in
  Wr <- compute_Wr_3D q ;;
  Wc <- compute_Wc_3D q ;;
  let D := compute_D_3D young poisson in
  ImP <- compute_ImP Nr Nc Wr Wc 3 ;;
  target <- final_assembly Wc D Nc ImP stability_choice (volume geo) num_corners 3 ;;
  Ok (cell_centroid geo, indexing, target).

(** ** Global assembly *)

(** The boundary-condition pass chosen by [reduce_boundary]. *)
Definition apply_boundary (reduce_boundary : bool) (A : list triplet) (b : list R)
           (num_fixed_dofs : nat) (fixed_dof_ixs : list Z) (fixed_dof_values : list R)
  : outcome system :=
  if reduce_boundary
  then reduce_system A b num_fixed_dofs fixed_dof_ixs fixed_dof_values
  else set_boundary_conditions A b num_fixed_dofs fixed_dof_ixs fixed_dof_values.

(** The end of both assembly functions: the pass, then [return b.size()]. *)
Definition finish_assembly (reduce_boundary : bool) (A : list triplet) (b : list R)
           (num_fixed_dofs : nat) (fixed_dof_ixs : list Z) (fixed_dof_values : list R)
  : res (nat * system) :=
  match apply_boundary reduce_boundary A b num_fixed_dofs fixed_dof_ixs fixed_dof_values with
  | Returns (A', b') => Ok (length b', (A', b'))
  | Throws e _ => Throw e
  end.

(** The triplets of one local matrix [loc] of [n] nodes and [Dim] dofs per
    node, rows first; [node k] is the global number of local node [k]. *)
Definition local_triplets (Dim n : nat) (node : nat -> nat) (loc : list R) : list triplet :=
  flat_map
    (fun i =>
       map (fun j =>
              (Z.of_nat (Dim * node (i / Dim)%nat + i mod Dim),
               Z.of_nat (Dim * node (j / Dim)%nat + j mod Dim),
               nth (i * (Dim * n) + j) loc 0))
           (seq 0 (Dim * n)))
    (seq 0 (Dim * n)).

(** The body of the cell loop of [assemble_mech_system_2D] for cell [c]:
    [st] holds [corner_ixs], [A_entries] and [b]. *)
Definition assemble_cell_2D (points : list R) (num_cell_faces cell_corners : list nat)
           (young poisson body_force : list R) (stability_choice : StabilityChoice)
           (st : nat * list triplet * list R) (c : nat) : res (nat * list triplet * list R) :=
  let '(corner_ixs, A_entries, b) := st in
  let ncf := nth c num_cell_faces 0%nat in
  loc <- assemble_stiffness_matrix_2D points (skipn corner_ixs cell_corners) ncf
                                      (nth c young 0) (nth c poisson 0) stability_choice ;;
  let A1 := A_entries
            ++ local_triplets 2 ncf (fun k => nth (corner_ixs + k) cell_corners 0%nat) loc in
  let loc0 := repeat 0 (2 * ncf) ++ skipn (2 * ncf) loc in
  let loc1 := compute_bodyforce_2D points (skipn corner_ixs cell_corners) ncf
                                   (skipn (2 * c) body_force) loc0 in
  let b1 := fold_left
              (fun b i => add_at b (2 * nth (corner_ixs + i / 2) cell_corners 0%nat + i mod 2)
                                 (nth i loc1 0))
              (seq 0 (ncf * 2)) b in
  Ok ((corner_ixs + ncf)%nat, A1, b1).

(** The loop over the Neumann edges of [assemble_mech_system_2D]. *)
Definition apply_neumann_2D (points : list R) (num_neumann_faces : nat)
           (neumann_faces : list nat) (neumann_forces : list R) (b : list R) : list R :=
  fold_left
    (fun b f =>
       let fvals := compute_applied_forces_2D points (nth (2 * f) neumann_faces 0%nat)
                                              (nth (2 * f + 1) neumann_faces 0%nat)
                                              (nth (2 * f) neumann_forces 0)
                                              (nth (2 * f + 1) neumann_forces 0) in
       let b := add_at b (2 * nth (2 * f) neumann_faces 0%nat) (nth 0 fvals 0) in
       let b := add_at b (2 * nth (2 * f) neumann_faces 0%nat + 1) (nth 1 fvals 0) in
       let b := add_at b (2 * nth (2 * f + 1) neumann_faces 0%nat) (nth 2 fvals 0) in
       add_at b (2 * nth (2 * f + 1) neumann_faces 0%nat + 1) (nth 3 fvals 0))
    (seq 0 num_neumann_faces) b.

Definition assemble_mech_system_2D (points : list R) (num_cells : nat)
           (num_cell_faces cell_corners : list nat) (young poisson body_force : list R)
           (num_fixed_dofs : nat) (fixed_dof_ixs : list Z) (fixed_dof_values : list R)
           (num_neumann_faces : nat) (neumann_faces : list nat) (neumann_forces : list R)
           (stability_choice : StabilityChoice) (reduce_boundary : bool)
  : res (nat * system) :=
  let tot_num_cell_faces := accumulate num_cell_faces num_cells in
  let num_points := (list_max (firstn tot_num_cell_faces cell_corners) + 1)%nat in
  assembled <-
    fold_left
      (fun (acc : res (nat * list triplet * list R)) c =>
         st <- acc ;;
         assemble_cell_2D points num_cell_faces cell_corners young poisson body_force
                          stability_choice st c)
      (seq 0 num_cells) (Ok (0%nat, [], repeat 0 (num_points * 2))) ;;
  let '(_, A_entries, b) := assembled in
  let b2 := apply_neumann_2D points num_neumann_faces neumann_faces neumann_forces b in
  finish_assembly reduce_boundary A_entries b2 num_fixed_dofs fixed_dof_ixs fixed_dof_values.

(** The body of the cell loop of [assemble_mech_system_3D] for cell [c]:
    [st] holds [cf_ix], [fcorners_start], [A_entries] and [b]. *)
Definition assemble_cell_3D (points : list R)
           (num_cell_faces num_face_corners face_corners : list nat)
           (young poisson body_force : list R) (stability_choice : StabilityChoice)
           (st : nat * nat * list triplet * list R) (c : nat)
  : res (nat * nat * list triplet * list R) :=
  let '(cf_ix, fcorners_start, A_entries, b) := st in
  let ncf := nth c num_cell_faces 0%nat in
  local <- assemble_stiffness_matrix_3D points (skipn fcorners_start face_corners)
                                        (skipn cf_ix num_face_corners) ncf
                                        (nth c young 0) (nth c poisson 0) stability_choice ;;
  let '(centroid, loc_indexing, loc) := local in
  let ncv := length loc_indexing in
  let A1 := A_entries ++ local_triplets 3 ncv (fun k => nth k loc_indexing 0%nat) loc in
  let b1 := compute_bodyforce_3D points (skipn fcorners_start face_corners)
                                 (skipn cf_ix num_face_corners) ncf centroid
                                 (skipn (3 * c) body_force) b in
  Ok ((cf_ix + ncf)%nat,
      (fcorners_start + accumulate (skipn cf_ix num_face_corners) ncf)%nat, A1, b1).

Definition assemble_mech_system_3D (points : list R) (num_cells : nat)
           (num_cell_faces num_face_corners face_corners : list nat)
           (young poisson body_force : list R)
           (num_fixed_dofs : nat) (fixed_dof_ixs : list Z) (fixed_dof_values : list R)
           (num_neumann_faces : nat) (neumann_faces : list nat) (neumann_forces : list R)
           (stability_choice : StabilityChoice) (reduce_boundary : bool)
  : res (nat * system) :=
  let tot_num_cell_faces := accumulate num_cell_faces num_cells in
  let tot_num_face_corners := accumulate num_face_corners tot_num_cell_faces in
  let num_points := (list_max (firstn tot_num_face_corners face_corners) + 1)%nat in
  assembled <-
    fold_left
      (fun (acc : res (nat * nat * list triplet * list R)) c =>
         st <- acc ;;
         assemble_cell_3D points num_cell_faces num_face_corners face_corners
                          young poisson body_force stability_choice st c)
      (seq 0 num_cells) (Ok (0%nat, 0%nat, [], repeat 0 (num_points * 3))) ;;
  let '(_, _, A_entries, b) := assembled in
  let b2 := compute_applied_forces_3D points num_face_corners face_corners num_neumann_faces
                                      neumann_faces neumann_forces b in
  finish_assembly reduce_boundary A_entries b2 num_fixed_dofs fixed_dof_ixs fixed_dof_values.


(** ** Stress and strain of a cell *)

(** The strain-displacement (or, with [do_stress], stress-displacement)
    matrix of [calculate_stress_3D_local]: [D Wc^T] from [matmul], or the
    transpose of [Wc] written entry by entry into a zero buffer. *)
Definition stress_matrix (Wc : list R) (young poisson : R) (totdim : nat) (do_stress : bool)
  : res (list R) :=
  let lsdim := 6%nat in
  let matrix := repeat 0 (lsdim * totdim) in
  if do_stress then
    let D := compute_D_3D young poisson in
    matmul D lsdim lsdim false Wc totdim lsdim true 1
  else
    Ok (fold_left
          (fun matrix i =>
             fold_left (fun matrix j => upd matrix (i * totdim + j) (nth (j * lsdim + i) Wc 0))
                       (seq 0 totdim) matrix)
          (seq 0 lsdim) matrix).

(** [local_disp] and [global_index] of [calculate_stress_3D_local]. *)
Definition gather_local (indexing : list nat) (disp : list R) : list R * list nat :=
  fold_left
    (fun st i =>
       fold_left
         (fun (st : list R * list nat) d =>
            let '(local_disp, global_index) := st in
            (upd local_disp (3 * i + d) (nth (3 * nth i indexing 0%nat + d) disp 0),
             upd global_index (3 * i + d) (3 * nth i indexing 0%nat + d)%nat))
         (seq 0 3) st)
    (seq 0 (length indexing))
    (repeat 0 (length indexing * 3), repeat 0%nat (length indexing * 3)).

(** The accumulation loop of [calculate_stress_3D_local] and the halving
    of the shear components that follows it. *)
Definition accumulate_stress (matrix local_disp : list R) (global_index : list nat)
           (totdim cell : nat) (do_matrix do_stress : bool)
           (stress : list R) (stressmat : list triplet) : list R * list triplet :=
  let lsdim := 6%nat in
  let '(stress1, stressmat1) :=
    fold_left
      (fun st i =>
         fold_left
           (fun (st : list R * list triplet) j =>
              let '(stress, stressmat) := st in
              let stress' := add_at stress i (nth (i * totdim + j) matrix 0 * nth j local_disp 0) in
              let stressmat' :=
                if do_matrix then
                  let val := nth (i * totdim + j) matrix 0 in
                  let val := if do_stress && (2 <? i)%nat then val / 2 else val in
                  stressmat ++ [(Z.of_nat (lsdim * cell + i),
                                 Z.of_nat (nth j global_index 0%nat), val)]
                else stressmat in
              (stress', stressmat'))
           (seq 0 totdim) st)
      (seq 0 lsdim) (stress, stressmat) in
  let stress2 :=
    if do_stress
    then fold_left (fun stress i => upd stress i (nth i stress 0 / 2)) (seq 3 (lsdim - 3)) stress1
    else stress1 in
  (stress2, stressmat1).

(** [vem::calculate_stress_3D_local]: the new content of [stress] and
    [stressmat]. *)
Definition calculate_stress_3D_local (points : list R) (faces num_face_edges : list nat)
           (num_faces : nat) (young poisson : R) (disp : list R) (cell : nat)
           (stress : list R) (stressmat : list triplet) (do_matrix do_stress : bool)
  : res (list R * list triplet) :=
  let '(reindex, indexing) := global_to_local_indexing faces num_face_edges num_faces in
  let num_corners := length indexing in
  let num_face_entries := accumulate num_face_edges num_faces in
  let corners_loc := pick_points 3 points indexing num_corners in
  let faces_loc := map (map_find reindex) (firstn num_face_entries faces) in
  geo <- compute_cell_geometry corners_loc num_corners faces_loc num_face_edges num_faces ;;
  let q := compute_q_3D corners_loc (length corners_loc / 3) faces_loc num_face_edges num_faces
                        (volume geo) (outward_normals geo) in
  let totdim := (3 * num_corners)%nat in
  Wc <- compute_Wc_3D q ;;
  matrix <- stress_matrix Wc young poisson totdim do_stress ;;
  let '(local_disp, global_index) := gather_local indexing disp in
  Ok (accumulate_stress matrix local_disp global_index totdim cell do_matrix do_stress
                        stress stressmat).

(** [vem::compute_stress_3D]: the new content of [stress] (one array of six
    per cell) and [stressmat]. *)
Definition compute_stress_3D (points : list R) (num_cells : nat)
           (num_cell_faces num_face_corners face_corners : list nat)
           (young poisson disp : list R) (stress : list (list R)) (stressmat : list triplet)
           (do_matrix do_stress : bool) : res (list (list R) * list triplet) :=
  r <- fold_left
         (fun (acc : res (nat * nat * list (list R) * list triplet)) c =>
            st <- acc ;;
            let '(cf_ix, fcorners_start, stress, stressmat) := st in
            local <- calculate_stress_3D_local
                       points (skipn fcorners_start face_corners)
                       (skipn cf_ix num_face_corners) (nth c num_cell_faces 0%nat)
                       (nth c young 0) (nth c poisson 0) disp c
                       (nth c stress []) stressmat do_matrix do_stress ;;
            Ok ((cf_ix + nth c num_cell_faces 0)%nat,
                (fcorners_start
                 + accumulate (skipn cf_ix num_face_corners) (nth c num_cell_faces 0%nat))%nat,
                upd stress c (fst local), snd local))
         (seq 0 num_cells) (Ok (0%nat, 0%nat, stress, stressmat)) ;;
  let '(_, _, stress', stressmat') := r in
  Ok (stress', stressmat').

(** ** The force of a potential gradient *)

(** The body of the cell loop of [potential_gradient_force_3D]: [st] holds
    [cur_fcor_start], [cur_cface_start], [fgrad] and [div]. *)
Definition potential_gradient_cell (points : list R)
           (num_cell_faces num_face_corners face_corners : list nat) (field : list R)
           (get_matrix : bool) (st : nat * nat * list R * list triplet) (cell : nat)
  : res (nat * nat * list R * list triplet) :=
  let '(cur_fcor_start, cur_cface_start, fgrad, div) := st in
  let ncf := nth cell num_cell_faces 0%nat in
  let '(reindex, indexing) :=
    global_to_local_indexing (skipn cur_fcor_start face_corners)
                             (skipn cur_cface_start num_face_corners) ncf in
  let num_corners := length indexing in
  let corners_loc := pick_points 3 points indexing num_corners in
  let tot_num_cellface_corners := accumulate (skipn cur_cface_start num_face_corners) ncf in
  let faces_loc := map (map_find reindex)
                       (firstn tot_num_cellface_corners (skipn cur_fcor_start face_corners)) in
  geo <- compute_cell_geometry corners_loc num_corners faces_loc
                               (skipn cur_cface_start num_face_corners) ncf ;;
  let qv := compute_q_3D corners_loc num_corners faces_loc
                         (skipn cur_cface_start num_face_corners) ncf 1 (outward_normals geo) in
  let '(fgrad', div') :=
    fold_left
      (fun st c =>
         fold_left
           (fun (st : list R * list triplet) d =>
              let '(fgrad, div) := st in
              (add_at fgrad (3 * nth c indexing 0%nat + d)
                      (2 * nth cell field 0 * nth (3 * c + d) qv 0),
               if get_matrix
               then div ++ [(Z.of_nat (3 * nth c indexing 0%nat + d), Z.of_nat cell,
                             2 * nth (3 * c + d) qv 0)]
               else div))
           (seq 0 3) st)
      (seq 0 num_corners) (fgrad, div) in
  Ok ((cur_fcor_start + tot_num_cellface_corners)%nat, (cur_cface_start + ncf)%nat,
      fgrad', div').

(** [vem::potential_gradient_force_3D]: the new content of [fgrad] and
    [div]; [fgrad] is reset, [div] is appended to. *)
Definition potential_gradient_force_3D (points : list R) (num_cells : nat)
           (num_cell_faces num_face_corners face_corners : list nat) (field : list R)
           (div : list triplet) (get_matrix : bool) : res (list R * list triplet) :=
  let tot_num_faces := accumulate num_cell_faces num_cells in
  let tot_num_fcorners := accumulate num_face_corners tot_num_faces in
  let tot_num_nodes := (list_max (firstn tot_num_fcorners face_corners) + 1)%nat in
  r <- fold_left
         (fun (acc : res (nat * nat * list R * list triplet)) cell =>
            st <- acc ;;
            potential_gradient_cell points num_cell_faces num_face_corners face_corners field
                                    get_matrix st cell)
         (seq 0 num_cells) (Ok (0%nat, 0%nat, repeat 0 (3 * tot_num_nodes), div)) ;;
  let '(_, _, fgrad, div') := r in
  Ok (fgrad, div').

(* ================================================================== *)
(** * Part II.  Vocabulary of the specification                       *)
(* ================================================================== *)

(** ** Matrices as functions of a row and a column *)

Definition matrix : Type := nat -> nat -> R.

(** [sum_{k < n} f k]. *)
Fixpoint bigsum (n : nat) (f : nat -> R) : R :=
  match n with
  | O => 0
  | S m => bigsum m f + f m
  end.

(** The matrix stored row-major with [ncols] columns in a buffer. *)
Definition of_flat (ncols : nat) (v : list R) : matrix :=
  fun i j => nth (i * ncols + j) v 0.

Definition mmul (n : nat) (A B : matrix) : matrix :=
  fun i j => bigsum n (fun k => A i k * B k j).
Definition mtrans (A : matrix) : matrix := fun i j => A j i.
Definition madd (A B : matrix) : matrix := fun i j => A i j + B i j.
Definition msub (A B : matrix) : matrix := fun i j => A i j - B i j.
Definition mscale (c : R) (A : matrix) : matrix := fun i j => c * A i j.
Definition mid : matrix := fun i j => if (i =? j)%nat then 1 else 0.
Definition mtrace (n : nat) (A : matrix) : R := bigsum n (fun i => A i i).

(** Equality of the [m] by [n] corners of two matrices. *)
Definition meq (m n : nat) (A B : matrix) : Prop :=
  forall i j, (i < m)%nat -> (j < n)%nat -> A i j = B i j.

(** The strain-space dimension that goes with a space dimension. *)
Definition lsdim_of (dim : nat) : nat := if (dim =? 2)%nat then 3%nat else 6%nat.

(** ** Vectors of three coordinates *)

Definition dot3 (u v : list R) : R :=
  nth 0 u 0 * nth 0 v 0 + nth 1 u 0 * nth 1 v 0 + nth 2 u 0 * nth 2 v 0.

(** The vector from [a] to [b]. *)
Definition vec3 (a b : list R) : list R :=
  [nth 0 b 0 - nth 0 a 0; nth 1 b 0 - nth 1 a 0; nth 2 b 0 - nth 2 a 0].

(** The [i]-th triple of a buffer of 3D points. *)
Definition pt3 (v : list R) (i : nat) : list R :=
  [nth (3 * i) v 0; nth (3 * i + 1) v 0; nth (3 * i + 2) v 0].

(** The mean of the first [N] points of a buffer of 3D points. *)
Definition mean3 (v : list R) (N : nat) : list R :=
  [ bigsum N (fun i => nth (3 * i) v 0) / INR N;
    bigsum N (fun i => nth (3 * i + 1) v 0) / INR N;
    bigsum N (fun i => nth (3 * i + 2) v 0) / INR N ].

(** The quantity the orientation check looks at: the sum over the faces of
    the dot product of the face normal with the vector from the mean of the
    face centroids to the face centroid. *)
Definition orientation_sum (normals centroids : list R) : R :=
  let N := (length normals / 3)%nat in
  bigsum N (fun i => dot3 (vec3 (mean3 centroids N) (pt3 centroids i)) (pt3 normals i)).

(** ** The unit cube, by its outward unit normals and face centroids *)

(** The normals and centroids that [face_geometries] computes for the cube
    [unit_cube] defined further down (lemma [cube_face_geometries]). *)

Definition cube_normals : list R :=
  [0; 0; 1;  0; 0; -1;  1; 0; 0;  -1; 0; 0;  0; 1; 0;  0; -1; 0].
Definition cube_centroids : list R :=
  [0.5; 0.5; 1;  0.5; 0.5; 0;  1; 0.5; 0.5;  0; 0.5; 0.5;  0.5; 1; 0.5;  0.5; 0; 0.5].

(** ** The star-point search, iteration by iteration *)

(** The candidate point at the start of iteration [i], were the loop of
    [identify_star_point] never to stop. *)
Fixpoint candidate (normals centroids : list R) (N : nat) (point : list R) (i : nat) : list R :=
  match i with
  | O => point
  | S k =>
    let p := candidate normals centroids N point k in
    if is_behind_face p (skipn (3 * (k mod N)) normals) (skipn (3 * (k mod N)) centroids)
    then p
    else push_behind p normals centroids (k mod N)
  end.

(** The outcome of the face check of iteration [i]: [true] when the
    candidate is found behind face [i mod N], so that it is not moved. *)
Definition check_passes (normals centroids : list R) (N : nat) (point : list R) (i : nat) : bool :=
  let p := candidate normals centroids N point i in
  is_behind_face p (skipn (3 * (i mod N)) normals) (skipn (3 * (i mod N)) centroids).

(** The value of [count] after [i] iterations. *)
Fixpoint count_after (normals centroids : list R) (N : nat) (point : list R) (i : nat) : nat :=
  match i with
  | O => 0%nat
  | S k => if check_passes normals centroids N point k
           then S (count_after normals centroids N point k)
           else 1%nat
  end.

(** The number of iterations the search runs. *)
Definition star_iterations (point normals centroids : list R) : nat :=
  let N := (length normals / 3)%nat in
  snd (star_loop normals centroids N (20 * N) 0 point 0).

(** After [k] iterations the last [N - 1] face checks have passed (and at
    least [N] iterations have run). *)
Definition settled (normals centroids : list R) (N : nat) (point : list R) (k : nat) : Prop :=
  (N <= k)%nat /\
  forall j, (k + 1 <= j + N)%nat -> (j < k)%nat -> check_passes normals centroids N point j = true.

(** A point outside the unit cube, above its top face. *)
Definition above_cube : list R := [0.5; 0.5; 2].

(** ** Reading the arguments of [matmul] as matrices *)

(** The matrix a buffer with [ncols] columns stands for, transposed or not. *)
Definition as_matrix (transposed : bool) (ncols : nat) (data : list R) : matrix :=
  if transposed then mtrans (of_flat ncols data) else of_flat ncols data.

(** ** The unit square, and the buffers of its local assembly *)

Definition unit_square : list R := [0; 0;  1; 0;  1; 1;  0; 1].

(** Its q vector: a quarter of the sum of the two edge normals at each corner. *)
Definition unit_square_q : list R :=
  [- (1 / 4); - (1 / 4);  1 / 4; - (1 / 4);  1 / 4; 1 / 4;  - (1 / 4); 1 / 4].

Definition value_or_empty (m : res (list R)) : list R :=
  match m with Ok v => v | Throw _ => [] end.

Definition sq_Nr : list R := compute_Nr_2D unit_square 4.
Definition sq_Nc : list R := compute_Nc_2D unit_square 4.
Definition sq_Wr : list R := value_or_empty (compute_Wr_2D unit_square_q).
Definition sq_Wc : list R := value_or_empty (compute_Wc_2D unit_square_q).
Definition sq_D : list R := compute_D_2D 1 0.3.
Definition sq_ImP : list R := value_or_empty (compute_ImP sq_Nr sq_Nc sq_Wr sq_Wc 2).

(** ** Admissible fixed dofs *)

(** The first [nf] entries of [ixs] are in ascending order, distinct, and
    dofs of a system of [n] unknowns. *)
Definition fixed_dofs_ok (n nf : nat) (ixs : list Z) : Prop :=
  (nf <= length ixs)%nat /\
  Sorted Z.le (firstn nf ixs) /\ NoDup (firstn nf ixs) /\
  forall d, In d (firstn nf ixs) -> (0 <= d < Z.of_nat n)%Z.

(** ** Where the cells of a 3D mesh start in the connectivity arrays *)

(** The first face of cell [c] in [num_face_corners]. *)
Definition cell_first_face (num_cell_faces : list nat) (c : nat) : nat :=
  accumulate num_cell_faces c.

(** The first corner reference of cell [c] in [face_corners]. *)
Definition cell_first_corner (num_cell_faces num_face_corners : list nat) (c : nat) : nat :=
  accumulate num_face_corners (cell_first_face num_cell_faces c).

(** The local assembly of cell [c] of a 3D mesh. *)
Definition local_assembly_3D (points : list R)
           (num_cell_faces num_face_corners face_corners : list nat)
           (young poisson : list R) (stability_choice : StabilityChoice) (c : nat)
  : res (list R * list nat * list R) :=
  assemble_stiffness_matrix_3D
    points
    (skipn (cell_first_corner num_cell_faces num_face_corners c) face_corners)
    (skipn (cell_first_face num_cell_faces c) num_face_corners)
    (nth c num_cell_faces 0%nat) (nth c young 0) (nth c poisson 0) stability_choice.

(** One plus the largest corner number among the first [count] entries of a
    connectivity array. *)
Definition num_points_of (connectivity : list nat) (count : nat) : nat :=
  (list_max (firstn count connectivity) + 1)%nat.

(** ** A three-dof system assembled from two elements that share dof 1 *)

Definition trip (i j : Z) (v : R) : triplet := (i, j, v).
Arguments trip (i j)%_Z v%_R.

(** Each element contributes a triplet for every pair of its dofs, so the
    shared diagonal position (1, 1) occurs twice. *)
Definition chain_A : list triplet :=
  [ trip 0 0 2; trip 0 1 (-1); trip 1 0 (-1); trip 1 1 2;
    trip 1 1 2; trip 1 2 (-1); trip 2 1 (-1); trip 2 2 2 ].
Definition chain_b : list R := [0; 0; 0].

(** What [set_boundary_conditions] leaves of [chain_A] when dof 1 is fixed. *)
Definition chain_A_fixed : list triplet :=
  [ trip 0 0 2; trip 1 0 0; trip 0 1 0; trip 1 1 1;
    trip 1 1 1; trip 2 1 0; trip 1 2 0; trip 2 2 2 ].
Definition chain_b_fixed : list R := [0 - -1 * 5; 5; 0 - -1 * 5].

(** The coordinate-format value at [(i, j)]: the sum of the values of the
    triplets at those coordinates. *)
Definition coo_value (A : list triplet) (i j : Z) : R :=
  fold_right (fun t acc => if ((trow t =? i) && (tcol t =? j))%Z then tval t + acc else acc) 0 A.

(** ** Triangles of a tessellation *)

(** Twice the signed area of the triangle [a b c] in the plane. *)
Definition cross2 (a b c : list R) : R :=
  (nth 0 b 0 - nth 0 a 0) * (nth 1 c 0 - nth 1 a 0)
  - (nth 0 c 0 - nth 0 a 0) * (nth 1 b 0 - nth 1 a 0).

(** The triangles of the tessellation of a face with [skip_if_tri = false]. *)
Definition face_triangles (Dim : nat) (corners : list R) (num_corners : nat) : list (list R) :=
  fst (tessellate_face Dim corners num_corners false).

(** The midpoint of the edge that leaves corner [c]. *)
Definition edge_midpoint (Dim : nat) (corners : list R) (num_corners c : nat) : list R :=
  pointmean Dim (skipn (Dim * c) corners) (skipn (Dim * ((c + 1) mod num_corners)) corners).

(** The triangle before triangle [2 c], cyclically: [2 c - 1], or the last
    one for [c = 0]. *)
Definition triangle_before (c num_corners : nat) : nat :=
  ((2 * c + 2 * num_corners - 1) mod (2 * num_corners))%nat.

(** A trapezoid, counter-clockwise, and the corner values that single out
    its first corner. *)
Definition trapezoid : list R := [0; 0;  2; 0;  1; 1;  0; 1].
Definition first_corner_only : list R := [1; 0; 0; 0].

(** ** Projectors *)

(** The square matrix stored in [M] is idempotent. *)
Definition idempotent (r : nat) (M : list R) : Prop :=
  meq r r (mmul r (of_flat r M) (of_flat r M)) (of_flat r M).

Definition mzero : matrix := fun _ _ => 0.

(** What the divergence theorem gives for the q vectors of a closed cell
    with outward normals and the right volume: they sum to zero, and their
    first moments about the corners are half the identity. *)
Definition q_moments (dim : nat) (corners q : list R) (n : nat) : Prop :=
  (forall a, (a < dim)%nat -> bigsum n (fun i => nth (dim * i + a) q 0) = 0) /\
  (forall a b, (a < dim)%nat -> (b < dim)%nat ->
               bigsum n (fun i => nth (dim * i + a) q 0 * nth (dim * i + b) corners 0)
               = if (a =? b)%nat then 1 / 2 else 0).

(** ** Polygons *)

(** Corner [i] of a polygon stored as consecutive pairs. *)
Definition pt2 (corners : list R) (i : nat) : list R :=
  [nth (2 * i) corners 0; nth (2 * i + 1) corners 0].

(** Twice the signed area of a polygon (shoelace formula). *)
Definition shoelace2 (corners : list R) (n : nat) : R :=
  bigsum n (fun i => nth (2 * i) corners 0 * nth (2 * ((i + 1) mod n) + 1) corners 0
                     - nth (2 * ((i + 1) mod n)) corners 0 * nth (2 * i + 1) corners 0).

(** A polygon that the 2D assembly treats correctly: at least two corners,
    positive signed area (counter-clockwise), and every edge seen
    counter-clockwise from the centroid that [centroid_2D] computes
    (star-shaped about it). *)
Definition valid_cell_2D (corners : list R) (n : nat) : Prop :=
  (2 <= n)%nat /\
  0 < shoelace2 corners n /\
  forall i, (i < n)%nat ->
            0 <= cross2 (centroid_2D corners n) (pt2 corners i) (pt2 corners ((i + 1) mod n)).


(** [P = Nr Wr^T + Nc Wc^T], over matrices with [c] columns. *)
Definition projector (c : nat) (NR NC WR WC : matrix) : matrix :=
  madd (mmul c NR (mtrans WR)) (mmul c NC (mtrans WC)).

(** The [r] by [r] matrix in [M] sends every column of the [r] by [c]
    matrix in [N] to zero. *)
Definition annihilates (r c : nat) (M N : list R) : Prop :=
  meq r c (mmul r (of_flat r M) (of_flat c N)) mzero.


(** ** The unit cube *)

(** Its corners, its faces by corner number (in the order of
    [cube_normals], each counter-clockwise seen from outside) and the
    number of edges of each face. *)
Definition unit_cube : list R :=
  [0; 0; 0;  1; 0; 0;  1; 1; 0;  0; 1; 0;  0; 0; 1;  1; 0; 1;  1; 1; 1;  0; 1; 1].
Definition unit_cube_faces : list nat :=
  [4; 5; 6; 7;  0; 3; 2; 1;  1; 2; 6; 5;  0; 4; 7; 3;  3; 7; 6; 2;  0; 1; 5; 4]%nat.
Definition unit_cube_face_edges : list nat := [4; 4; 4; 4; 4; 4]%nat.

(** The corners of face [f] of the unit cube. *)
Definition cube_face (f : nat) : list R :=
  pick_points 3 unit_cube (skipn (4 * f) unit_cube_faces) 4.

(** The q vector of the unit cube: an eighth of the sum of the outward
    normals of the three faces at each corner. *)
Definition unit_cube_q : list R :=
  [- (1 / 8); - (1 / 8); - (1 / 8);   1 / 8; - (1 / 8); - (1 / 8);
   1 / 8; 1 / 8; - (1 / 8);           - (1 / 8); 1 / 8; - (1 / 8);
   - (1 / 8); - (1 / 8); 1 / 8;       1 / 8; - (1 / 8); 1 / 8;
   1 / 8; 1 / 8; 1 / 8;               - (1 / 8); 1 / 8; 1 / 8].


(** ** Cubes of any side *)

(** The cube of side [s] with a corner at the origin; its corners are
    numbered as those of [unit_cube], so that [unit_cube_faces] lists its
    faces, and its outward unit normals are [cube_normals]. *)
Definition cube_of (s : R) : list R :=
  [0; 0; 0;  s; 0; 0;  s; s; 0;  0; s; 0;  0; 0; s;  s; 0; s;  s; s; s;  0; s; s].

(** Its face centroids, in the order of the faces. *)
Definition cube_of_centroids (s : R) : list R :=
  [s / 2; s / 2; s;  s / 2; s / 2; 0;  s; s / 2; s / 2;  0; s / 2; s / 2;
   s / 2; s; s / 2;  s / 2; 0; s / 2].

(** The corners of its face [f]. *)
Definition cube_of_face (s : R) (f : nat) : list R :=
  pick_points 3 (cube_of s) (skipn (4 * f) unit_cube_faces) 4.

(** Its q vector when the volume handed to [compute_q_3D] is [V]: at each
    corner, the sum of the outward normals of the three faces there, times
    a quarter of the face area, over [2 V]. *)
Definition cube_of_q (s V : R) : list R :=
  let k := 1 / (2 * V) * (s * s / 4) in
  [- k; - k; - k;   k; - k; - k;   k; k; - k;   - k; k; - k;
   - k; - k; k;     k; - k; k;     k; k; k;     - k; k; k].

(** The cube of side 2.  The tetrahedra that [compute_cell_geometry] sums
    have determinant 1, which the conversion to [int] in
    [tetrahedron_volume] leaves as it is: the volume computed is 8, the
    volume of the cube. *)
Definition cube2 : list R := cube_of 2.

(** The cube of side 3.  The tetrahedra have determinant 27/8, which the
    conversion to [int] cuts to 3: the volume computed is 24, where the
    cube has volume 27. *)
Definition cube3 : list R := cube_of 3.


(** ** A square frustum *)

(** The frustum of a square pyramid: base of side 8 at height 0, top of
    side 2 at height 4, with the corners numbered as those of [unit_cube],
    so that [unit_cube_faces] lists its faces.  Its four slanted faces are
    trapezoids with the unit normals [(4/5, 0, 3/5)] and the like; its volume
    is 112. *)
Definition frustum : list R :=
  [-4; -4; 0;  4; -4; 0;  4; 4; 0;  -4; 4; 0;  -1; -1; 4;  1; -1; 4;  1; 1; 4;  -1; 1; 4].

Definition frustum_normals : list R :=
  [0; 0; 1;  0; 0; -1;  4 / 5; 0; 3 / 5;  - (4 / 5); 0; 3 / 5;  0; 4 / 5; 3 / 5;
   0; - (4 / 5); 3 / 5].

(** The centroids of its faces: those of the trapezoids are two fifths of
    the way up. *)
Definition frustum_centroids : list R :=
  [0; 0; 4;  0; 0; 0;  14 / 5; 0; 8 / 5;  - (14 / 5); 0; 8 / 5;  0; 14 / 5; 8 / 5;
   0; - (14 / 5); 8 / 5].

Definition frustum_face (f : nat) : list R :=
  pick_points 3 frustum (skipn (4 * f) unit_cube_faces) 4.

(** The share of the area of face [f] that [face_integral_impl] gives to
    each of its four corners. *)
Definition frustum_weights : list R :=
  [1; 1; 1; 1;   16; 16; 16; 16;   15 / 2; 15 / 2; 5; 5;   15 / 2; 5; 5; 15 / 2;
   15 / 2; 5; 5; 15 / 2;   15 / 2; 15 / 2; 5; 5].

(** Its q vector. *)
Definition frustum_q : list R :=
  [- (3 / 112); - (3 / 112); - (1 / 32);   3 / 112; - (3 / 112); - (1 / 32);
   3 / 112; 3 / 112; - (1 / 32);           - (3 / 112); 3 / 112; - (1 / 32);
   - (1 / 56); - (1 / 56); 1 / 32;         1 / 56; - (1 / 56); 1 / 32;
   1 / 56; 1 / 56; 1 / 32;                 - (1 / 56); 1 / 56; 1 / 32].


(** ** An L-shaped prism *)

(** A prism of height 1 over the L-shaped hexagon with the corners
    (0,0), (4,0), (4,2), (1,2), (1,3), (0,3): corners 0 to 6 at height 0
    (corner 6 is (0,2), where the two rectangles of the L meet), corners 7 to
    13 above them at height 1. *)
Definition ell_cell : list R :=
  [0; 0; 0;  4; 0; 0;  4; 2; 0;  1; 2; 0;  1; 3; 0;  0; 3; 0;  0; 2; 0;
   0; 0; 1;  4; 0; 1;  4; 2; 1;  1; 2; 1;  1; 3; 1;  0; 3; 1;  0; 2; 1].

(** Its ten faces, all rectangles, each counter-clockwise seen from
    outside: the two walls of the notch first ([x = 1] and [y = 2]), then
    the four outer walls, then bottom and top, each as the two rectangles of
    the L. *)
Definition ell_faces : list nat :=
  [3; 4; 11; 10;   2; 3; 10; 9;   0; 1; 8; 7;   1; 2; 9; 8;   4; 5; 12; 11;
   5; 0; 7; 12;    0; 6; 2; 1;    6; 5; 4; 3;   7; 8; 9; 13;  13; 10; 11; 12]%nat.
Definition ell_face_edges : list nat := [4; 4; 4; 4; 4; 4; 4; 4; 4; 4]%nat.

(** The outward unit normals and the centroids of the faces. *)
Definition ell_normals : list R :=
  [1; 0; 0;  0; 1; 0;  0; -1; 0;  1; 0; 0;  0; 1; 0;  -1; 0; 0;
   0; 0; -1;  0; 0; -1;  0; 0; 1;  0; 0; 1].
Definition ell_centroids : list R :=
  [1; 5 / 2; 1 / 2;    5 / 2; 2; 1 / 2;    2; 0; 1 / 2;    4; 1; 1 / 2;
   1 / 2; 3; 1 / 2;    0; 3 / 2; 1 / 2;    2; 1; 0;        1 / 2; 5 / 2; 0;
   2; 1; 1;            1 / 2; 5 / 2; 1].

(** The corners of face [f]. *)
Definition ell_face (f : nat) : list R :=
  pick_points 3 ell_cell (skipn (4 * f) ell_faces) 4.

(** The mean of the corners, in the long arm of the L and on the wrong side
    of the wall [x = 1] of the notch. *)
Definition ell_mean : list R := [10 / 7; 12 / 7; 1 / 2].


(** ** Occurrences of a position in a triplet list *)

(** How many triplets of [A] sit at [(i, j)]. *)
Definition occurrences (A : list triplet) (i j : Z) : nat :=
  length (filter (fun t => (trow t =? i) && (tcol t =? j))%Z A).


(** ** Symmetric matrices *)

(** The [n] by [n] corner of [A] is symmetric. *)
Definition msym (n : nat) (A : matrix) : Prop := meq n n A (mtrans A).


(** ** Closed polyhedral cells *)

(** The corners of face [f] of a cell, as [compute_q_3D] picks them. *)
Definition cell_face (corners : list R) (faces num_face_edges : list nat) (f : nat) : list R :=
  pick_points 3 corners (skipn (accumulate num_face_edges f) faces) (nth f num_face_edges 0%nat).

(** Coordinate [b] of each of the [m] points of a buffer of 3D points. *)
Definition coordinate (b : nat) (pts : list R) (m : nat) : list R :=
  map (fun e => nth (3 * e + b) pts 0) (seq 0 m).

(** The identities that the divergence theorem gives for a closed
    polyhedron, written with the face integrals, the normals and the volume
    that the code computes: the face areas times the normals add up to
    zero, and the first moments of the faces times the normals add up to
    the volume times the identity.  The faces refer to corners of the cell. *)
Definition closed_cell_3D (corners : list R) (n : nat) (faces num_face_edges : list nat)
           (num_faces : nat) (volume : R) (normals : list R) : Prop :=
  let face := cell_face corners faces num_face_edges in
  let nfe f := nth f num_face_edges 0%nat in
  (1 <= n)%nat /\ volume <> 0 /\
  (forall f e, (f < num_faces)%nat -> (e < nfe f)%nat ->
               (nth (accumulate num_face_edges f + e) faces 0 < n)%nat) /\
  (forall a, (a < 3)%nat ->
             bigsum num_faces
                    (fun f => nth (3 * f + a) normals 0 * face_integral (face f) (nfe f) 3 None)
             = 0) /\
  (forall a b, (a < 3)%nat -> (b < 3)%nat ->
               bigsum num_faces
                      (fun f => nth (3 * f + a) normals 0
                                * face_integral (face f) (nfe f) 3
                                                (Some (coordinate b (face f) (nfe f))))
               = if (a =? b)%nat then volume else 0).


(** ** Products of a triplet matrix with a vector *)

(** Row [i] of the product of the matrix held in [A] with the vector [x]. *)
Definition coo_apply (A : list triplet) (x : list R) (i : Z) : R :=
  fold_right (fun t acc => if (trow t =? i)%Z then tval t * nthZ x (tcol t) 0 + acc else acc)
             0 A.

(** ** Stress and strain of a cell *)

(** The value [x], halved for the shear components when stresses are asked
    for. *)
Definition halved (do_stress : bool) (i : nat) (x : R) : R :=
  if do_stress && (2 <? i)%nat then x / 2 else x.

(** The entry of the global vector [disp] that belongs to dof [j] of a
    cell. *)
Definition cell_disp (indexing : list nat) (disp : list R) (j : nat) : R :=
  nth (3 * nth (j / 3) indexing 0%nat + j mod 3) disp 0.


(** ** The local numbering of a cell *)

(** The entries of [faces] that belong to the cell. *)
Definition used_corners (faces num_face_edges : list nat) (num_faces : nat) : list nat :=
  firstn (accumulate num_face_edges num_faces) faces.

(** [faces_loc]: the faces of the cell in the local numbering. *)
Definition local_faces (faces num_face_edges : list nat) (num_faces : nat) : list nat :=
  map (map_find (fst (global_to_local_indexing faces num_face_edges num_faces)))
      (used_corners faces num_face_edges num_faces).

(** [corners_loc]: the corners of the cell in the local numbering. *)
Definition local_corners (points : list R) (faces num_face_edges : list nat) (num_faces : nat)
  : list R :=
  let indexing := snd (global_to_local_indexing faces num_face_edges num_faces) in
  pick_points 3 points indexing (length indexing).


(** ** Cells of a 3D mesh *)

(** The face corners, the face sizes and the number of faces of cell [c]. *)
Definition mesh_faces (num_cell_faces num_face_corners face_corners : list nat) (c : nat)
  : list nat :=
  skipn (cell_first_corner num_cell_faces num_face_corners c) face_corners.

Definition mesh_face_sizes (num_cell_faces num_face_corners : list nat) (c : nat) : list nat :=
  skipn (cell_first_face num_cell_faces c) num_face_corners.

(** The areas of the faces times their normals add up to zero. *)
Definition balanced_faces (corners : list R) (faces num_face_edges : list nat) (num_faces : nat)
           (normals : list R) : Prop :=
  forall a, (a < 3)%nat ->
            bigsum num_faces
                   (fun f => nth (3 * f + a) normals 0
                             * face_integral (cell_face corners faces num_face_edges f)
                                             (nth f num_face_edges 0%nat) 3 None)
            = 0.

(** Whatever geometry [compute_cell_geometry] returns for cell [c] of the
    mesh, its normals are balanced against the faces. *)
Definition balanced_cell (points : list R)
           (num_cell_faces num_face_corners face_corners : list nat) (c : nat) : Prop :=
  let faces := mesh_faces num_cell_faces num_face_corners face_corners c in
  let sizes := mesh_face_sizes num_cell_faces num_face_corners c in
  let nf := nth c num_cell_faces 0%nat in
  let corners := local_corners points faces sizes nf in
  let faces_loc := local_faces faces sizes nf in
  forall geo,
    compute_cell_geometry corners (length (snd (global_to_local_indexing faces sizes nf)))
                          faces_loc sizes nf = Ok geo ->
    balanced_faces corners faces_loc sizes nf (outward_normals geo).


(** ** The column-elimination loop, round by round *)

(** Ascending by column. *)
Definition by_col (s t : triplet) : Prop := (tcol s <= tcol t)%Z.

(** One round of the column-elimination loop. *)
Definition eliminate_step (zero : bool) (ixs : list Z) (vals : list R)
           (st : list triplet * list triplet * list R) (i : nat)
  : list triplet * list triplet * list R :=
  let '(done, todo, b) := st in
  let dof := nth i ixs 0%Z in
  let '(skipped, start) := lower_bound todo dof in
  match start with
  | [] => st
  | h :: _ =>
    if (tcol h =? dof)%Z then
      let '(run, rest) := find_if_other start dof in
      let b1 := move_to_rhs run (nth i vals 0) b in
      let run1 := if zero then map (fun t => (trow t, tcol t, 0)) run else run in
      (done ++ skipped ++ run1, rest, b1)
    else st
  end.

(** The dofs [ixs[0 .. m-1]] are strictly ascending. *)
Definition ascending (m : nat) (ixs : list Z) : Prop :=
  forall j k, (j < k)%nat -> (k < m)%nat -> (nth j ixs 0 < nth k ixs 0)%Z.


(** ** Totals of the loads *)



(** ** Dense copies of triplet lists *)

(** The subscript [sparse2full] computes for a triplet: [i * r + j] in
    [int]. *)
Definition flat_position (r : nat) (t : triplet) : Z :=
  wrap_int (wrap_int (trow t * Z.of_nat r) + tcol t).

(** The sum of the values of the triplets that [sparse2full] adds at
    position [k] of its buffer. *)
Definition flat_value (nz : list triplet) (r : nat) (k : Z) : R :=
  fold_right (fun t acc => if (flat_position r t =? k)%Z then tval t + acc else acc) 0 nz.

(** One more round of the loop of [sparse2full]. *)
Definition sparse2full_step (r : nat) (acc : res (list R)) (t : triplet) : res (list R) :=
  result <- acc ;;
  let ix := flat_position r t in
  assert_ (ix <? wrap_int (Z.of_nat (length result)))%Z ;;;
  if (ix <? 0)%Z then Throw out_of_bounds
  else Ok (updZ result ix (nthZ result ix 0 + tval t)).


(** ** Symmetric triplet matrices *)

(** The summed values of a triplet list are symmetric. *)
Definition coo_symmetric (A : list triplet) : Prop :=
  forall i j, coo_value A i j = coo_value A j i.

(* ================================================================== *)
(** * Part III.  Lemmas and theorems                                  *)
(* ================================================================== *)

(** ** Comparisons *)

Lemma Rlt_b_true (x y : R) : Rlt_b x y = true <-> x < y.
Proof.
  unfold Rlt_b. destruct (Rlt_dec x y); split; intros; auto; try discriminate; contradiction.
Qed.

Lemma Rlt_b_false (x y : R) : Rlt_b x y = false <-> y <= x.
Proof.
  unfold Rlt_b. destruct (Rlt_dec x y); split; intros; auto; try discriminate; lra.
Qed.

Lemma tol_pos : 0 < tol.
Proof. unfold tol. lra. Qed.

(** ** The behind-a-face test *)

Lemma is_behind_face_spec (point n c : list R) :
  is_behind_face point n c = true <-> dot3 (vec3 point c) n + tol > 0.
Proof.
  unfold is_behind_face, Rgt_b. rewrite Rlt_b_true.
  unfold dot3, vec3. cbn [nth]. lra.
Qed.

(** ** Sums and loops *)

Lemma fold_left_ext {A B : Type} (f g : A -> B -> A) (l : list B) (a : A) :
  (forall a x, In x l -> f a x = g a x) -> fold_left f l a = fold_left g l a.
Proof.
  revert a. induction l as [|x l IH]; intros a H; simpl; auto.
  rewrite H by (left; reflexivity). apply IH. intros; apply H; right; assumption.
Qed.

Lemma fold_left_add_seq (f : nat -> R) (n : nat) (a : R) :
  fold_left (fun acc i => acc + f i) (seq 0 n) a = a + bigsum n f.
Proof.
  induction n as [|n IH]; simpl bigsum.
  - simpl. lra.
  - rewrite seq_S, fold_left_app, IH. simpl. lra.
Qed.

Lemma bigsum_ext (n : nat) (f g : nat -> R) :
  (forall i, (i < n)%nat -> f i = g i) -> bigsum n f = bigsum n g.
Proof.
  induction n as [|n IH]; intros H; simpl; auto.
  rewrite IH, H by (intros; auto with arith). reflexivity.
Qed.

Lemma nth_map_seq {A : Type} (f : nat -> A) (n d : nat) (a : A) :
  (d < n)%nat -> nth d (map f (seq 0 n)) a = f d.
Proof.
  intros H. rewrite nth_indep with (d' := f 0%nat) by (rewrite length_map, length_seq; assumption).
  rewrite map_nth, seq_nth by assumption. reflexivity.
Qed.

Lemma repeat_map_seq {A : Type} (a : A) (n : nat) :
  repeat a n = map (fun _ => a) (seq 0 n).
Proof.
  generalize 0%nat. induction n as [|n IH]; intros s; simpl; auto. rewrite <- IH. reflexivity.
Qed.

Lemma nth_skipn_R (k d : nat) (l : list R) : nth d (skipn k l) 0 = nth (k + d) l 0.
Proof.
  revert l. induction k as [|k IH]; intros l; simpl; auto.
  destruct l; simpl; auto. destruct d; reflexivity.
Qed.

(** [point_average] is the coordinate-wise mean. *)
Lemma point_average_spec (Dim : nat) (corners : list R) (N : nat) :
  point_average Dim corners N
  = map (fun d => bigsum N (fun i => nth (Dim * i + d) corners 0) / INR N) (seq 0 Dim).
Proof.
  unfold point_average.
  assert (H : fold_left (fun result i => pointsum Dim result (skipn (Dim * i) corners))
                        (seq 0 N) (repeat 0 Dim)
              = map (fun d => bigsum N (fun i => nth (Dim * i + d) corners 0)) (seq 0 Dim)).
  { induction N as [|N IH].
    - simpl. apply repeat_map_seq.
    - rewrite seq_S, fold_left_app, IH. simpl fold_left.
      unfold pointsum, plc. apply map_ext_in. intros d Hd. apply in_seq in Hd.
      rewrite nth_map_seq by lia. rewrite nth_skipn_R. simpl bigsum. lra. }
  rewrite H, map_map. reflexivity.
Qed.

Lemma point_average_3 (v : list R) (N : nat) : point_average 3 v N = mean3 v N.
Proof.
  rewrite point_average_spec. unfold mean3. cbn [map seq].
  rewrite (bigsum_ext N (fun i => nth (3 * i + 0) v 0) (fun i => nth (3 * i) v 0))
    by (intros; f_equal; lia).
  reflexivity.
Qed.

(** The sum [inward_pointing_normals] tests is [orientation_sum]. *)
Lemma inward_pointing_normals_spec (normals centroids : list R) :
  inward_pointing_normals normals centroids = true <-> orientation_sum normals centroids < 0.
Proof.
  unfold inward_pointing_normals, orientation_sum. rewrite Rlt_b_true.
  set (N := (length normals / 3)%nat). rewrite point_average_3.
  match goal with |- ?a < 0 <-> ?b < 0 => assert (E : a = b) end; [| rewrite E; tauto].
  rewrite fold_left_ext with
      (g := fun sum i => sum + dot3 (vec3 (mean3 centroids N) (pt3 centroids i)) (pt3 normals i)).
  - rewrite fold_left_add_seq. lra.
  - intros a i Hi. apply in_seq in Hi.
    rewrite nth_map_seq with (a := []) by lia.
    unfold dot3, vec3, pt3. cbn [fold_left seq nth map].
    replace (3 * i + 0)%nat with (3 * i)%nat by lia. lra.
Qed.

Lemma orientation_check_spec (normals centroids : list R) :
  (orientation_check normals centroids = Ok tt <-> 0 <= orientation_sum normals centroids) /\
  (orientation_check normals centroids = Throw assertion_failure
   <-> orientation_sum normals centroids < 0).
Proof.
  unfold orientation_check.
  destruct (inward_pointing_normals normals centroids) eqn:E.
  - apply inward_pointing_normals_spec in E. simpl. split; split; intros; try discriminate; auto; lra.
  - assert (~ orientation_sum normals centroids < 0).
    { intros H. apply inward_pointing_normals_spec in H. congruence. }
    split; split; intros; try discriminate; auto; lra.
Qed.

(** ** Sizes written by the face loop of the cell geometry *)

Lemma compute_face_geometry_length (points : list R) :
  length (fst (compute_face_geometry points)) = 3%nat /\
  length (snd (compute_face_geometry points)) = 3%nat.
Proof.
  unfold compute_face_geometry, tessellate_face. cbn [andb fst snd].
  split.
  - cbn [fst]. rewrite length_map, length_seq. reflexivity.
  - cbn [snd]. unfold face_centroid. cbn [Nat.eqb]. unfold centroid_2D_3D.
    match goal with |- context [fold_left ?f ?l ?a] => destruct (fold_left f l a) end.
    rewrite length_map, length_seq. reflexivity.
Qed.

Lemma overwrite3_length (buf v : list R) (f : nat) :
  length v = 3%nat -> (f * 3 + 3 <= length buf)%nat ->
  length (firstn (f * 3) buf ++ v ++ skipn (f * 3 + 3) buf) = length buf.
Proof.
  intros Hv Hf. rewrite !length_app, length_firstn, length_skipn, Hv. lia.
Qed.

Lemma face_geometries_length (points : list R) (faces2 nfe : list nat) (num_faces : nat) :
  length (fst (face_geometries points faces2 nfe num_faces)) = (num_faces * 3)%nat /\
  length (snd (face_geometries points faces2 nfe num_faces)) = (num_faces * 3)%nat.
Proof.
  unfold face_geometries.
  set (step := fun (st : nat * list R * list R) (f : nat) => _).
  assert (H : forall k, (k <= num_faces)%nat ->
            forall st, st = fold_left step (seq 0 k)
                                      (0%nat, repeat 0 (num_faces * 3), repeat 0 (num_faces * 3)) ->
            length (snd (fst st)) = (num_faces * 3)%nat /\ length (snd st) = (num_faces * 3)%nat).
  { induction k as [|k IH]; intros Hk st ->.
    - simpl. rewrite !repeat_length. auto.
    - rewrite seq_S, fold_left_app. simpl fold_left.
      destruct (IH ltac:(lia) _ eq_refl) as [H1 H2].
      destruct (fold_left step (seq 0 k) _) as [[off ns] cs]. simpl in H1, H2.
      unfold step. cbv beta iota.
      destruct (compute_face_geometry_length
                  (pick_points 3 points (skipn off faces2) (nth k nfe 0%nat))) as [L1 L2].
      destruct (compute_face_geometry _) as [n c]. cbn [fst snd] in *.
      rewrite !overwrite3_length by (try assumption; lia). auto. }
  specialize (H num_faces (le_n _) _ eq_refl).
  destruct (fold_left step _ _) as [[off ns] cs]. exact H.
Qed.

Lemma is_sorted_Sorted (l : list Z) : is_sorted l = true <-> Sorted Z.le l.
Proof.
  induction l as [|x l IH]; simpl.
  - split; auto.
  - destruct l as [|y l].
    + split; auto.
    + rewrite andb_true_iff, negb_true_iff, Z.ltb_ge, IH. split.
      * intros [H1 H2]. constructor; auto.
      * intros H. inversion H as [|? ? H1 H2]; subst. inversion H2; subst. auto.
Qed.


(** ** The orientation check *)

(** C6, as stated, fails: for the outward unit normals and the face
    centroids of the unit cube the check passes, and the sum is 3. *)
Lemma orientation_claim_fails :
  ~ (orientation_check cube_normals cube_centroids = Ok tt
     -> orientation_sum cube_normals cube_centroids < 0).
Proof.
  intros H.
  assert (S3 : orientation_sum cube_normals cube_centroids = 3).
  { unfold orientation_sum, cube_normals, cube_centroids, mean3, dot3, vec3, pt3.
    simpl. lra. }
  assert (C : orientation_check cube_normals cube_centroids = Ok tt).
  { apply orientation_check_spec. lra. }
  specialize (H C). lra.
Qed.

(** C6 (amended).  The orientation check sums, over the faces, the dot
    product of the face normal with the vector from the mean of the face
    centroids to the face centroid.  It passes exactly when this sum is not
    negative, and it is a failed assertion exactly when the sum is negative.
    [compute_cell_geometry] applies it to the normals and centroids it has
    just computed: a negative sum aborts the call, and a call that returns
    hands back those normals as computed, never their opposites. *)
Theorem orientation_gate :
  (forall normals centroids,
      (orientation_check normals centroids = Ok tt <-> 0 <= orientation_sum normals centroids) /\
      (orientation_check normals centroids = Throw assertion_failure
       <-> orientation_sum normals centroids < 0)) /\
  (forall points num_points faces num_face_edges num_faces,
      let fg := face_geometries points (extract_local_faces faces num_face_edges num_faces)
                                num_face_edges num_faces in
      (orientation_sum (fst fg) (snd fg) < 0 ->
       compute_cell_geometry points num_points faces num_face_edges num_faces
       = Throw assertion_failure) /\
      (forall geo,
          compute_cell_geometry points num_points faces num_face_edges num_faces = Ok geo ->
          0 <= orientation_sum (fst fg) (snd fg) /\
          outward_normals geo = fst fg /\ face_centroids geo = snd fg)).
Proof.
  split; [exact orientation_check_spec |].
  intros points num_points faces nfe num_faces fg.
  unfold compute_cell_geometry. fold fg.
  destruct (face_geometries_length points (extract_local_faces faces nfe num_faces) nfe num_faces)
    as [_ L]. fold fg in L.
  destruct fg as [normals centroids]. cbn [fst snd] in *.
  rewrite L, Nat.eqb_refl. cbn [assert_ bind].
  destruct (orientation_check_spec normals centroids) as [P Q].
  split.
  - intros H. apply Q in H. rewrite H. reflexivity.
  - intros geo. destruct (orientation_check normals centroids) as [[]|e] eqn:E;
      [| simpl; discriminate].
    cbn [bind].
    destruct (identify_star_point _ normals centroids) as [star|e]; [| simpl; discriminate].
    cbn [bind]. destruct (accumulate_tetrahedra _ _ _ _ _) as [vol cc].
    intros G. inversion G; subst geo. cbn [outward_normals face_centroids].
    split; [apply P; reflexivity | auto].
Qed.

(** C8, as stated, fails: a point on the face plane ([point = face_centroid])
    is behind the face for the code, while [0 + 1e-13] is not negative. *)
Lemma is_behind_face_claim_fails :
  ~ (is_behind_face [0; 0; 0] [0; 0; 1] [0; 0; 0] = true
     <-> dot3 (vec3 [0; 0; 0] [0; 0; 0]) [0; 0; 1] + tol < 0).
Proof.
  intros [H _].
  assert (Hb : is_behind_face [0; 0; 0] [0; 0; 1] [0; 0; 0] = true).
  { apply is_behind_face_spec. unfold dot3, vec3, tol. cbn [nth]. lra. }
  specialize (H Hb). unfold dot3, vec3, tol in H. cbn [nth] in H. lra.
Qed.

(** C8 (amended).  With [d] the dot product of the vector from the face
    centroid to the point with the face normal: the point is behind the
    face exactly when [d - 1e-13 < 0], and not behind it exactly when
    [d >= 1e-13]; the tolerance is on the side of "behind".  A point is a
    star point exactly when this holds for every face. *)
Theorem is_behind_face_tolerance (point face_normal face_centroid : list R) :
  (is_behind_face point face_normal face_centroid = true
   <-> dot3 (vec3 face_centroid point) face_normal - tol < 0) /\
  (is_behind_face point face_normal face_centroid = false
   <-> dot3 (vec3 face_centroid point) face_normal >= tol) /\
  (forall normals centroids,
      is_star_point point normals centroids = true
      <-> forall i, (i < length normals / 3)%nat ->
                    dot3 (vec3 (skipn (3 * i) centroids) point) (skipn (3 * i) normals) - tol < 0).
Proof.
  assert (B : forall n c, is_behind_face point n c = true <-> dot3 (vec3 c point) n - tol < 0).
  { intros n c. rewrite is_behind_face_spec. unfold dot3, vec3. cbn [nth]. lra. }
  split; [apply B | split].
  - destruct (is_behind_face point face_normal face_centroid) eqn:E.
    + apply B in E. split; [discriminate | lra].
    + split; [intros _ | reflexivity].
      destruct (Rlt_dec (dot3 (vec3 face_centroid point) face_normal - tol) 0) as [L | L];
        [apply B in L; congruence | lra].
  - intros normals centroids. unfold is_star_point. rewrite forallb_forall. split.
    + intros H i Hi. apply B, H, in_seq. lia.
    + intros H i Hi. apply in_seq in Hi. apply B, H. lia.
Qed.

(** ** The sortedness check of the boundary-condition passes *)

(** C9.  Both passes test [std::is_sorted] on the fixed-dof numbers before
    anything else: when the numbers are not in ascending order each throws
    [std::invalid_argument] with [A] and [b] as they were passed in; when
    they are in ascending order each returns. *)
Theorem sorted_check_first (A : list triplet) (b : list R) (num_fixed_dofs : nat)
        (fixed_dof_ixs : list Z) (fixed_dof_values : list R) :
  (~ Sorted Z.le (firstn num_fixed_dofs fixed_dof_ixs) ->
   reduce_system A b num_fixed_dofs fixed_dof_ixs fixed_dof_values
   = Throws invalid_argument (A, b) /\
   set_boundary_conditions A b num_fixed_dofs fixed_dof_ixs fixed_dof_values
   = Throws invalid_argument (A, b)) /\
  (Sorted Z.le (firstn num_fixed_dofs fixed_dof_ixs) ->
   (exists s, reduce_system A b num_fixed_dofs fixed_dof_ixs fixed_dof_values = Returns s) /\
   (exists s, set_boundary_conditions A b num_fixed_dofs fixed_dof_ixs fixed_dof_values
              = Returns s)).
Proof.
  unfold reduce_system, set_boundary_conditions.
  destruct (is_sorted (firstn num_fixed_dofs fixed_dof_ixs)) eqn:E.
  - apply is_sorted_Sorted in E. split; [intros H; contradiction |]. intros _. simpl.
    destruct (eliminate_columns false _ _ _ _ _) as [A2 b2].
    destruct (eliminate_columns true _ _ _ _ _) as [A2' b2'].
    destruct (renumbering (length b2) num_fixed_dofs fixed_dof_ixs) as [[r1 r2] r3].
    destruct (renumbering (length b2') num_fixed_dofs fixed_dof_ixs) as [[r1' r2'] r3'].
    split; eexists; reflexivity.
  - split; [intros _; simpl; auto |].
    intros H. apply is_sorted_Sorted in H. congruence.
Qed.

(** ** The star-point search *)

Section StarSearch.
Variables (normals centroids : list R) (N : nat) (point : list R).

Let cand := candidate normals centroids N point.
Let chk := check_passes normals centroids N point.
Let cnt := count_after normals centroids N point.

Lemma star_iteration_spec (i : nat) :
  star_iteration normals centroids N i (cand i) (cnt i) = (cand (S i), cnt (S i)).
Proof.
  unfold star_iteration, cand, cnt. simpl candidate. simpl count_after.
  unfold check_passes.
  destruct (is_behind_face _ _ _); reflexivity.
Qed.

(** Where the loop stops: at the first iteration after which [count] is
    [N], or else when the budget is used up. *)
Lemma star_loop_spec (remaining i : nat) :
  exists k, (i <= k <= i + remaining)%nat /\
            star_loop normals centroids N remaining i (cand i) (cnt i) = (cand k, cnt k, k) /\
            (forall k', (i < k' < k)%nat -> cnt k' <> N) /\
            ((i < k)%nat /\ cnt k = N \/ k = (i + remaining)%nat /\ ((i < k)%nat -> cnt k <> N)).
Proof.
  revert i. induction remaining as [|rem IH]; intros i.
  - exists i. simpl. repeat split; try lia.
  - simpl star_loop. rewrite star_iteration_spec.
    destruct (Nat.eqb_spec (cnt (S i)) N) as [E | E].
    + exists (S i). repeat split; try lia.
    + destruct (IH (S i)) as [k [Hk [L [F D]]]].
      exists k. split; [lia |]. split; [exact L |]. split.
      * intros k' Hk'. destruct (Nat.eq_dec k' (S i)) as [-> | Hn]; [exact E | apply F; lia].
      * destruct D as [[D1 D2] | [D1 D2]].
        -- left. split; [lia | exact D2].
        -- right. split; [lia |]. intros _.
           destruct (Nat.eq_dec k (S i)) as [-> | Hn]; [exact E | apply D2; lia].
Qed.

Lemma count_after_window (k m : nat) :
  (1 <= m)%nat ->
  (m <= cnt k)%nat <->
  (m <= k)%nat /\ forall j, (k + 1 <= j + m)%nat -> (j < k)%nat -> chk j = true.
Proof.
  revert m. induction k as [|k IH]; intros m Hm.
  - unfold cnt. simpl. split; [lia | intros [H _]; lia].
  - unfold cnt. simpl count_after. fold cnt. fold (chk k).
    destruct (chk k) eqn:C.
    + destruct (Nat.eq_dec m 1) as [-> | Hn].
      * split; [| lia]. intros _. split; [lia |]. intros j H1 H2.
        assert (j = k) by lia. subst j. exact C.
      * specialize (IH (m - 1)%nat ltac:(lia)). split.
        -- intros H. assert (H' : (m - 1 <= cnt k)%nat) by lia.
           apply IH in H'. destruct H' as [H1 H2]. split; [lia |].
           intros j Hj1 Hj2. destruct (Nat.eq_dec j k) as [-> | Hjk]; [exact C |].
           apply H2; lia.
        -- intros [H1 H2]. assert (H' : (m - 1 <= cnt k)%nat); [| lia].
           apply IH. split; [lia |]. intros j Hj1 Hj2. apply H2; lia.
    + split.
      * intros H. assert (m = 1%nat) by lia. subst m. split; [lia |]. intros j H1 H2. lia.
      * intros [H1 H2]. destruct (Nat.eq_dec m 1) as [-> | Hn]; [lia |].
        specialize (H2 k ltac:(lia) ltac:(lia)). congruence.
Qed.

Lemma count_after_step (k : nat) : (cnt (S k) <= S (cnt k))%nat.
Proof.
  unfold cnt. simpl. destruct (check_passes _ _ _ _ _); lia.
Qed.

Lemma settled_count (k : nat) :
  (1 <= N)%nat -> (settled normals centroids N point k <-> (N <= cnt k)%nat).
Proof.
  intros HN. unfold settled. rewrite (count_after_window k N HN). reflexivity.
Qed.

(** Before the counter first reaches [N] it is below [N]. *)
Lemma count_after_below (k : nat) :
  (1 <= N)%nat -> (forall k', (k' < k)%nat -> cnt k' <> N) ->
  forall k', (k' <= k)%nat -> (cnt k' <= N)%nat /\ ((k' < k)%nat -> (cnt k' < N)%nat).
Proof.
  intros HN H k'. induction k' as [|k' IH]; intros Hk'.
  - unfold cnt. simpl. split; intros; lia.
  - destruct (IH ltac:(lia)) as [_ I2]. specialize (I2 ltac:(lia)).
    pose proof (count_after_step k') as St. split; [lia |].
    intros Hlt. specialize (H (S k') Hlt). lia.
Qed.
End StarSearch.

(** What [identify_star_point] does, in terms of the face checks. *)
Lemma star_search_spec (point normals centroids : list R) :
  let N := (length normals / 3)%nat in
  let first_settled k :=
    settled normals centroids N point k /\
    forall k', (k' < k)%nat -> ~ settled normals centroids N point k' in
  (star_iterations point normals centroids <= 20 * N)%nat /\
  (forall p, identify_star_point point normals centroids = Ok p <->
             exists k, (k <= 20 * N)%nat /\ first_settled k /\
                       p = candidate normals centroids N point k) /\
  (forall k, (k <= 20 * N)%nat -> first_settled k ->
             star_iterations point normals centroids = k) /\
  (identify_star_point point normals centroids = Throw runtime_error <->
   forall k, (k <= 20 * N)%nat -> ~ settled normals centroids N point k).
Proof.
  intros N first_settled.
  unfold identify_star_point, star_iterations. fold N. clearbody N.
  destruct (Nat.eq_dec N 0) as [Z0 | NZ].
  - (* no face: the loop does not run *)
    rewrite Z0. simpl.
    assert (S0 : settled normals centroids 0 point 0) by (split; [lia | intros; lia]).
    assert (F0 : first_settled 0%nat) by (split; [rewrite Z0; exact S0 | intros; lia]).
    split; [lia |]. split; [| split].
    + intros p. split.
      * intros H. inversion H; subst p. exists 0%nat. split; [lia |]. split; [exact F0 | reflexivity].
      * intros [k [Hk [_ Hp]]]. assert (k = 0%nat) by lia. subst k. subst p. reflexivity.
    + intros k Hk _. lia.
    + split; [discriminate |]. intros H. exfalso. apply (H 0%nat); [lia | exact S0].
  - assert (HN : (1 <= N)%nat) by lia.
    destruct (star_loop_spec normals centroids N point (20 * N) 0) as [k [Hk [L [F D]]]].
    simpl candidate in L. simpl count_after in L. rewrite L. cbn [snd fst].
    set (cnt := count_after normals centroids N point) in *.
    assert (Below : forall K, (forall k', (k' < K)%nat -> cnt k' <> N) ->
                    forall k', (k' < K)%nat -> ~ settled normals centroids N point k').
    { intros K HK k' Hk' St. apply settled_count in St; [| exact HN].
      destruct (count_after_below normals centroids N point K HN HK k' ltac:(lia)) as [_ B].
      specialize (B Hk'). unfold cnt in *. lia. }
    destruct D as [[D1 D2] | [D1 D2]].
    + (* the counter reaches N after k iterations *)
      rewrite D2, Nat.eqb_refl. cbn [negb].
      assert (Sk : settled normals centroids N point k).
      { apply settled_count; [exact HN |]. fold cnt. lia. }
      assert (Fk : first_settled k).
      { split; [exact Sk |]. apply Below. intros k' Hk'.
        destruct (Nat.eq_dec k' 0) as [-> | Hn]; [unfold cnt; simpl; lia | apply F; lia]. }
      assert (U : forall k2, first_settled k2 -> k2 = k).
      { intros k2 [S2 L2]. destruct Fk as [_ Lk].
        destruct (Nat.lt_trichotomy k2 k) as [Hlt | [Heq | Hgt]]; [| exact Heq |].
        - exfalso. exact (Lk k2 Hlt S2).
        - exfalso. exact (L2 k Hgt Sk). }
      split; [lia |]. split; [| split].
      * intros p. split.
        -- intros H. inversion H; subst p. exists k. split; [lia |]. split; [exact Fk | reflexivity].
        -- intros [k2 [_ [F2 Hp]]]. rewrite (U k2 F2) in Hp. subst p. reflexivity.
      * intros k2 _ F2. symmetry. exact (U k2 F2).
      * split; [discriminate |]. intros H. exfalso. exact (H k ltac:(lia) Sk).
    + (* the budget is used up *)
      assert (Hk0 : (0 < k)%nat) by lia. specialize (D2 Hk0).
      destruct (Nat.eqb_spec (cnt k) N) as [E | E]; [contradiction |]. cbn [negb].
      assert (None_ : forall k', (k' <= 20 * N)%nat -> ~ settled normals centroids N point k').
      { intros k' Hk'. apply (Below (S k)); [| lia]. intros k2 Hk2.
        destruct (Nat.eq_dec k2 0) as [-> | Hn]; [unfold cnt; simpl; lia |].
        destruct (Nat.eq_dec k2 k) as [-> | Hn2]; [exact D2 | apply F; lia]. }
      split; [lia |]. split; [| split].
      * intros p. split; [discriminate |].
        intros [k2 [Hk2 [[S2 _] _]]]. exfalso. exact (None_ k2 Hk2 S2).
      * intros k2 Hk2 [S2 _]. exfalso. exact (None_ k2 Hk2 S2).
      * split; [intros _; exact None_ | reflexivity].
Qed.

Lemma candidate_S (normals centroids : list R) (N : nat) (point : list R) (k : nat) :
  candidate normals centroids N point (S k)
  = if check_passes normals centroids N point k
    then candidate normals centroids N point k
    else push_behind (candidate normals centroids N point k) normals centroids (k mod N).
Proof. reflexivity. Qed.

(** The search from a point above the unit cube: the top face is checked
    first and fails, the point is pushed to height 0.9, and the five checks
    that follow pass. *)
Lemma above_cube_check0 : check_passes cube_normals cube_centroids 6 above_cube 0 = false.
Proof.
  apply not_true_iff_false. unfold check_passes. cbn [candidate]. intros E.
  apply is_behind_face_spec in E.
  unfold dot3, vec3, tol, cube_normals, cube_centroids, above_cube in E. simpl in E. lra.
Qed.

Lemma above_cube_candidate (i : nat) :
  (1 <= i <= 6)%nat -> candidate cube_normals cube_centroids 6 above_cube i = [0.5; 0.5; 0.9].
Proof.
  induction i as [|i IH]; [lia |]. intros Hi. rewrite candidate_S.
  destruct (Nat.eq_dec i 0) as [-> | Hn].
  - rewrite above_cube_check0. cbn [candidate].
    unfold push_behind, cube_normals, cube_centroids, above_cube. simpl.
    repeat (f_equal; try lra).
  - specialize (IH ltac:(lia)).
    assert (C : check_passes cube_normals cube_centroids 6 above_cube i = true).
    { unfold check_passes. rewrite IH. apply is_behind_face_spec.
      do 6 (destruct i as [|i];
            [try lia; unfold dot3, vec3, tol, cube_normals, cube_centroids; simpl; lra |]).
      lia. }
    rewrite C. exact IH.
Qed.

Lemma above_cube_check (i : nat) :
  (1 <= i < 6)%nat -> check_passes cube_normals cube_centroids 6 above_cube i = true.
Proof.
  intros Hi. unfold check_passes. rewrite above_cube_candidate by lia.
  apply is_behind_face_spec.
  do 6 (destruct i as [|i];
        [try lia; unfold dot3, vec3, tol, cube_normals, cube_centroids; simpl; lra |]).
  lia.
Qed.

Lemma above_cube_first_settled :
  settled cube_normals cube_centroids 6 above_cube 6 /\
  forall k', (k' < 6)%nat -> ~ settled cube_normals cube_centroids 6 above_cube k'.
Proof.
  split.
  - split; [lia |]. intros j H1 H2. apply above_cube_check. lia.
  - intros k' Hk' [H _]. lia.
Qed.

(** C7 (amended).  With [N] the number of faces, [identify_star_point]
    runs at most [20 * N] iterations, iteration [i] checking face
    [i mod N].  It stops after the first iteration count [k >= N] whose
    last [N - 1] face checks have passed: the check of the iteration before
    those is not required to have passed, because an iteration that moves
    the point also counts one.  It returns the candidate point of that
    moment, and it throws [std::runtime_error] exactly when no iteration
    count up to [20 * N] meets the condition. *)
Theorem star_search_termination (point normals centroids : list R) :
  let N := (length normals / 3)%nat in
  let first_settled k :=
    settled normals centroids N point k /\
    forall k', (k' < k)%nat -> ~ settled normals centroids N point k' in
  (star_iterations point normals centroids <= 20 * N)%nat /\
  (forall p, identify_star_point point normals centroids = Ok p <->
             exists k, (k <= 20 * N)%nat /\ first_settled k /\
                       p = candidate normals centroids N point k) /\
  (forall k, (k <= 20 * N)%nat -> first_settled k ->
             star_iterations point normals centroids = k) /\
  (identify_star_point point normals centroids = Throw runtime_error <->
   forall k, (k <= 20 * N)%nat -> ~ settled normals centroids N point k).
Proof. exact (star_search_spec point normals centroids). Qed.

(** ** Buffers: updates and row-major layout *)

Lemma upd_length {A : Type} (l : list A) (i : nat) (x : A) : length (upd l i x) = length l.
Proof.
  revert i. induction l as [|h t IH]; intros [|i]; simpl; auto.
Qed.

Lemma nth_upd_same {A : Type} (l : list A) (i : nat) (x d : A) :
  (i < length l)%nat -> nth i (upd l i x) d = x.
Proof.
  revert i. induction l as [|h t IH]; intros [|i] H; simpl in *; try lia; auto.
  apply IH. lia.
Qed.

Lemma nth_upd_other {A : Type} (l : list A) (i j : nat) (x d : A) :
  i <> j -> nth j (upd l i x) d = nth j l d.
Proof.
  revert i j. induction l as [|h t IH]; intros [|i] [|j] H; simpl; auto; try congruence.
Qed.

Lemma nth_upd {A : Type} (l : list A) (i j : nat) (x d : A) :
  nth j (upd l i x) d = if (i =? j)%nat && (i <? length l)%nat then x else nth j l d.
Proof.
  destruct (Nat.eqb_spec i j) as [-> | Hn]; simpl.
  - destruct (Nat.ltb_spec j (length l)) as [Hl | Hl].
    + apply nth_upd_same; assumption.
    + revert j Hl. induction l as [|h t IH]; intros [|j] Hl; simpl in *; auto; try lia.
      apply IH. lia.
  - apply nth_upd_other; assumption.
Qed.

Lemma flat_rows_length {A : Type} (g : nat -> nat -> A) (m n : nat) :
  length (flat_map (fun r => map (g r) (seq 0 n)) (seq 0 m)) = (m * n)%nat.
Proof.
  induction m as [|m IH]; [reflexivity |].
  rewrite seq_S, flat_map_app, length_app, IH. simpl.
  rewrite app_nil_r, length_map, length_seq. lia.
Qed.

Lemma nth_flat_rows {A : Type} (g : nat -> nat -> A) (m n r c : nat) (d : A) :
  (r < m)%nat -> (c < n)%nat ->
  nth (r * n + c) (flat_map (fun r => map (g r) (seq 0 n)) (seq 0 m)) d = g r c.
Proof.
  intros Hr Hc. induction m as [|m IH]; [lia |].
  rewrite seq_S, flat_map_app. simpl flat_map. rewrite app_nil_r.
  destruct (Nat.eq_dec r m) as [-> | Hn].
  - rewrite app_nth2; rewrite flat_rows_length; [| lia].
    replace (m * n + c - m * n)%nat with c by lia. apply nth_map_seq. assumption.
  - rewrite app_nth1; [apply IH; lia |]. rewrite flat_rows_length. nia.
Qed.

(** Row and column of a row-major position. *)
Lemma flat_index_unique (n i j i' j' : nat) :
  (j < n)%nat -> (j' < n)%nat -> (i * n + j = i' * n + j')%nat -> i = i' /\ j = j'.
Proof.
  intros Hj Hj' E.
  destruct (Nat.lt_trichotomy i i') as [H | [H | H]].
  - assert ((i + 1) * n <= i' * n)%nat by (apply Nat.mul_le_mono_r; lia). lia.
  - subst i'. split; [reflexivity | lia].
  - assert ((i' + 1) * n <= i * n)%nat by (apply Nat.mul_le_mono_r; lia). lia.
Qed.

(** A loop that writes the diagonal of a zero matrix. *)
Lemma diagonal_loop (f : nat -> R) (N : nat) :
  let M := fold_left (fun result i => upd result (i + N * i) (f i)) (seq 0 N) (repeat 0 (N * N)) in
  length M = (N * N)%nat /\
  forall i j, (i < N)%nat -> (j < N)%nat -> of_flat N M i j = if (i =? j)%nat then f i else 0.
Proof.
  intros M. subst M.
  assert (H : forall k, (k <= N)%nat ->
            let M := fold_left (fun result i => upd result (i + N * i) (f i)) (seq 0 k)
                               (repeat 0 (N * N)) in
            length M = (N * N)%nat /\
            forall i j, (i < N)%nat -> (j < N)%nat ->
                        of_flat N M i j = if (i =? j)%nat && (i <? k)%nat then f i else 0).
  { induction k as [|k IH]; intros Hk.
    - simpl. rewrite repeat_length. split; [reflexivity |]. intros i j Hi Hj.
      unfold of_flat. rewrite andb_false_r. apply nth_repeat.
    - destruct (IH ltac:(lia)) as [L E]. cbv zeta. rewrite seq_S, fold_left_app. simpl fold_left.
      split; [rewrite upd_length; exact L |]. intros i j Hi Hj.
      unfold of_flat in *. rewrite nth_upd, L.
      destruct (Nat.eqb_spec (k + N * k) (i * N + j)) as [Heq | Hne].
      + assert (k = i /\ k = j) as [-> ->].
        { apply (flat_index_unique N k k i j); lia. }
        rewrite Nat.eqb_refl. simpl.
        destruct (Nat.ltb_spec (j + N * j) (N * N)); [| nia].
        destruct (Nat.ltb_spec j (S j)); [reflexivity | lia].
      + simpl. rewrite E by assumption.
        destruct (Nat.eqb_spec i j) as [-> | Hij]; simpl; [| reflexivity].
        destruct (Nat.ltb_spec j k), (Nat.ltb_spec j (S k)); try reflexivity; try lia.
        exfalso. apply Hne. assert (j = k) by lia. subst. lia. }
  destruct (H N (le_n _)) as [L E]. split; [exact L |]. intros i j Hi Hj.
  rewrite E by assumption. destruct (Nat.ltb_spec i N); [| lia]. rewrite andb_true_r. reflexivity.
Qed.

Lemma identity_matrix_spec (fac : R) (N : nat) :
  length (identity_matrix fac N) = (N * N)%nat /\
  forall i j, (i < N)%nat -> (j < N)%nat ->
              of_flat N (identity_matrix fac N) i j = if (i =? j)%nat then fac else 0.
Proof. exact (diagonal_loop (fun _ => fac) N). Qed.

(** ** [matmul] computes the matrix product *)

Lemma matmul_spec (data1 : list R) (r1 c1 : nat) (t1 : bool)
      (data2 : list R) (r2 c2 : nat) (t2 : bool) (fac : R) :
  let m := if t1 then c1 else r1 in
  let K := if t1 then r1 else c1 in
  let K2 := if t2 then c2 else r2 in
  let n := if t2 then r2 else c2 in
  K = K2 ->
  exists M, matmul data1 r1 c1 t1 data2 r2 c2 t2 fac = Ok M /\
            length M = (m * n)%nat /\
            forall i j, (i < m)%nat -> (j < n)%nat ->
                        of_flat n M i j
                        = fac * mmul K (as_matrix t1 c1 data1) (as_matrix t2 c2 data2) i j.
Proof.
  intros m K K2 n HK. unfold matmul.
  assert (Hdim : (snd (if t1 then (c1, r1) else (r1, c1))
                  =? fst (if t2 then (c2, r2) else (r2, c2)))%nat = true).
  { apply Nat.eqb_eq. subst K K2. destruct t1, t2; simpl; assumption. }
  rewrite Hdim. cbn [negb].
  assert (Hm : fst (if t1 then (c1, r1) else (r1, c1)) = m) by (destruct t1; reflexivity).
  assert (Hn : snd (if t2 then (c2, r2) else (r2, c2)) = n) by (destruct t2; reflexivity).
  assert (Hk : snd (if t1 then (c1, r1) else (r1, c1)) = K) by (destruct t1; reflexivity).
  rewrite Hm, Hn, Hk. clear Hdim Hm Hn Hk.
  assert (E : forall i j,
             fold_left
               (fun acc k =>
                  acc + nth (i * fst (if t1 then (1, c1) else (c1, 1))
                             + k * snd (if t1 then (1, c1) else (c1, 1)))%nat data1 0
                        * nth (k * fst (if t2 then (1, c2) else (c2, 1))
                               + j * snd (if t2 then (1, c2) else (c2, 1)))%nat data2 0)
               (seq 0 K) 0
             = mmul K (as_matrix t1 c1 data1) (as_matrix t2 c2 data2) i j).
  { intros i j. rewrite fold_left_add_seq. unfold mmul.
    rewrite Rplus_0_l. apply bigsum_ext. intros k _.
    unfold as_matrix, mtrans, of_flat. destruct t1, t2; cbn [fst snd]; f_equal; f_equal; lia. }
  eexists. split; [reflexivity |].
  destruct (Req_b fac 1) eqn:F.
  - unfold Req_b in F. destruct (Req_dec_T fac 1) as [-> | ]; [| discriminate].
    split; [apply flat_rows_length |]. intros i j Hi Hj.
    unfold of_flat. rewrite nth_flat_rows by assumption. rewrite E. lra.
  - split; [rewrite length_map; apply flat_rows_length |]. intros i j Hi Hj.
    unfold of_flat.
    rewrite nth_indep with (d' := 0 * fac)
      by (rewrite length_map, flat_rows_length; nia).
    rewrite (map_nth (fun e => e * fac)). rewrite nth_flat_rows by assumption. rewrite E. lra.
Qed.

(** ** Finite sums and matrix products *)

Lemma bigsum_plus (n : nat) (f g : nat -> R) :
  bigsum n (fun k => f k + g k) = bigsum n f + bigsum n g.
Proof. induction n as [|n IH]; simpl; [| rewrite IH]; lra. Qed.

Lemma bigsum_scal (n : nat) (c : R) (f : nat -> R) :
  bigsum n (fun k => c * f k) = c * bigsum n f.
Proof. induction n as [|n IH]; simpl; [| rewrite IH]; lra. Qed.

Lemma bigsum_scal_r (n : nat) (c : R) (f : nat -> R) :
  bigsum n (fun k => f k * c) = bigsum n f * c.
Proof. induction n as [|n IH]; simpl; [| rewrite IH]; lra. Qed.

Lemma bigsum_zero (n : nat) (f : nat -> R) :
  (forall k, (k < n)%nat -> f k = 0) -> bigsum n f = 0.
Proof.
  induction n as [|n IH]; intros H; simpl; [reflexivity |].
  rewrite IH, H by (intros; auto with arith). lra.
Qed.

Lemma bigsum_swap (m n : nat) (f : nat -> nat -> R) :
  bigsum m (fun a => bigsum n (fun b => f a b)) = bigsum n (fun b => bigsum m (fun a => f a b)).
Proof.
  induction m as [|m IH]; simpl.
  - symmetry. apply bigsum_zero. reflexivity.
  - rewrite IH, <- bigsum_plus. reflexivity.
Qed.

(** The one term a Kronecker delta leaves of a sum. *)
Lemma bigsum_delta (n i : nat) (f : nat -> R) :
  (i < n)%nat -> bigsum n (fun k => if (k =? i)%nat then f k else 0) = f i.
Proof.
  induction n as [|n IH]; intros Hi; [lia |]. simpl.
  destruct (Nat.eqb_spec n i) as [-> | Hn].
  - rewrite bigsum_zero; [lra |]. intros k Hk.
    destruct (Nat.eqb_spec k i); [lia | reflexivity].
  - rewrite IH by lia. lra.
Qed.

Lemma mmul_ext (n : nat) (A A' B B' : matrix) (i j : nat) :
  (forall k, (k < n)%nat -> A i k = A' i k) -> (forall k, (k < n)%nat -> B k j = B' k j) ->
  mmul n A B i j = mmul n A' B' i j.
Proof.
  intros HA HB. unfold mmul. apply bigsum_ext. intros k Hk. rewrite HA, HB by assumption.
  reflexivity.
Qed.

Lemma mmul_assoc (m n : nat) (A B C : matrix) (i j : nat) :
  mmul n (mmul m A B) C i j = mmul m A (mmul n B C) i j.
Proof.
  unfold mmul.
  rewrite (bigsum_ext n _ (fun l => bigsum m (fun k => A i k * B k l * C l j)))
    by (intros; rewrite bigsum_scal_r; reflexivity).
  rewrite bigsum_swap. apply bigsum_ext. intros k _.
  rewrite <- bigsum_scal. apply bigsum_ext. intros; lra.
Qed.

(** ** Traces *)

Lemma trace_spec (A : list R) (N : nat) :
  length A = (N * N)%nat -> trace A = Ok (mtrace N (of_flat N A)).
Proof.
  intros L. unfold trace. rewrite L, Nat.sqrt_square, Nat.eqb_refl. cbn [assert_ bind].
  rewrite fold_left_add_seq, Rplus_0_l. f_equal. unfold mtrace, of_flat.
  apply bigsum_ext. intros; f_equal; lia.
Qed.

Lemma diag_elems_spec (A : list R) (N : nat) :
  length A = (N * N)%nat ->
  length (diag_elems A) = N /\
  forall i, (i < N)%nat -> nth i (diag_elems A) 0 = of_flat N A i i.
Proof.
  intros L. unfold diag_elems. rewrite L, Nat.sqrt_square.
  assert (H : forall k, (k <= N)%nat ->
            let d := fold_left (fun result i => upd result i (nth (i * N + i) A 0)) (seq 0 k)
                               (repeat 0 N) in
            length d = N /\ forall i, (i < k)%nat -> nth i d 0 = of_flat N A i i).
  { induction k as [|k IH]; intros Hk.
    - simpl. rewrite repeat_length. split; [reflexivity | intros; lia].
    - destruct (IH ltac:(lia)) as [Ld E]. cbv zeta. rewrite seq_S, fold_left_app. simpl fold_left.
      split; [rewrite upd_length; exact Ld |]. intros i Hi.
      rewrite nth_upd, Ld. destruct (Nat.eqb_spec k i) as [-> | Hn]; simpl.
      + destruct (Nat.ltb_spec i N); [reflexivity | lia].
      + apply E. lia. }
  exact (H N (le_n _)).
Qed.

Lemma invtrace_spec (A : list R) (N : nat) :
  length A = (N * N)%nat -> invtrace A = bigsum N (fun i => 1 / of_flat N A i i).
Proof.
  intros L. unfold invtrace. destruct (diag_elems_spec A N L) as [Ld E].
  rewrite Ld, fold_left_add_seq, Rplus_0_l. apply bigsum_ext. intros i Hi.
  rewrite E by assumption. reflexivity.
Qed.

Lemma std_max_Rmax (a b : R) : std_max a b = Rmax a b.
Proof.
  unfold std_max, Rmax. destruct (Rlt_b a b) eqn:E.
  - apply Rlt_b_true in E. destruct (Rle_dec a b); [reflexivity | lra].
  - apply Rlt_b_false in E. destruct (Rle_dec a b); [lra | reflexivity].
Qed.

Lemma compute_S_D_recipe_spec (E : list R) (dofs : nat) (vol : R) :
  length (compute_S_D_recipe E dofs vol) = (dofs * dofs)%nat /\
  forall i j, (i < dofs)%nat -> (j < dofs)%nat ->
              of_flat dofs (compute_S_D_recipe E dofs vol) i j
              = if (i =? j)%nat then Rmax (cbrt vol) (of_flat dofs E i i) else 0.
Proof.
  destruct (diagonal_loop (fun i => std_max (cbrt vol) (nth (i + dofs * i) E 0)) dofs) as [L H].
  split; [exact L |]. intros i j Hi Hj. unfold compute_S_D_recipe. rewrite (H i j Hi Hj).
  destruct (i =? j)%nat; [| reflexivity]. rewrite std_max_Rmax. unfold of_flat.
  do 2 f_equal. lia.
Qed.

(** ** The blocks of [final_assembly] *)

Lemma lsdim_of_cases (dim : nat) :
  dim = 2%nat \/ dim = 3%nat ->
  ((dim =? 2)%nat || (dim =? 3)%nat = true) /\
  (if (dim =? 2)%nat then 3%nat else 6%nat) = lsdim_of dim.
Proof. intros [-> | ->]; split; reflexivity. Qed.

Lemma consistent_block_spec (Wc D : list R) (vol : R) (num_nodes dim : nat) :
  let ls := lsdim_of dim in
  let totdim := (dim * num_nodes)%nat in
  exists E, consistent_block Wc D vol num_nodes dim = Ok E /\
            length E = (totdim * totdim)%nat /\
            forall i j, (i < totdim)%nat -> (j < totdim)%nat ->
                        of_flat totdim E i j
                        = vol * mmul ls (mmul ls (of_flat ls Wc) (of_flat ls D))
                                     (mtrans (of_flat ls Wc)) i j.
Proof.
  intros ls totdim. unfold consistent_block. fold (lsdim_of dim). fold ls. fold totdim.
  destruct (matmul_spec D ls ls false Wc totdim ls true 1 eq_refl) as [DWct [E1 [L1 H1]]].
  rewrite E1. cbn [bind].
  destruct (matmul_spec Wc totdim ls false DWct ls totdim false vol eq_refl) as [E [E2 [L2 H2]]].
  exists E. split; [exact E2 |]. split; [exact L2 |]. intros i j Hi Hj.
  rewrite (H2 i j Hi Hj). f_equal. cbn [as_matrix].
  rewrite mmul_assoc. apply mmul_ext; [reflexivity |]. intros k Hk.
  rewrite (H1 k j Hk Hj). cbn [as_matrix]. lra.
Qed.

Lemma compute_S_spec (Nc D : list R) (num_corners : nat) (vol : R) (dim : nat)
      (sc : StabilityChoice) :
  let ls := lsdim_of dim in
  let totdim := (dim * num_corners)%nat in
  let NtN := mmul totdim (mtrans (of_flat ls Nc)) (of_flat ls Nc) in
  dim = 2%nat \/ dim = 3%nat -> length D = (ls * ls)%nat -> sc <> D_RECIPE ->
  exists S, compute_S Nc D num_corners vol dim sc = Ok S /\
            length S = (totdim * totdim)%nat /\
            forall i j, (i < totdim)%nat -> (j < totdim)%nat ->
                        of_flat totdim S i j
                        = if (i =? j)%nat then
                            match sc with
                            | SIMPLE => vol * mtrace ls (of_flat ls D) / mtrace ls NtN
                            | _ => (1 / 9) * vol * mtrace ls (of_flat ls D)
                                   * bigsum ls (fun a => 1 / NtN a a)
                            end
                          else 0.
Proof.
  intros ls totdim NtN Hdim LD Hsc. unfold compute_S.
  destruct (lsdim_of_cases dim Hdim) as [A1 A2]. rewrite A1, A2. fold ls. fold totdim.
  cbn [assert_ bind].
  assert (A3 : is_SIMPLE sc || is_HARMONIC sc = true) by (destruct sc; try reflexivity; congruence).
  rewrite A3. cbn [assert_ bind].
  destruct (matmul_spec Nc totdim ls true Nc totdim ls false 1 eq_refl) as [M [E1 [L1 H1]]].
  rewrite E1. cbn [bind].
  assert (HM : forall a, (a < ls)%nat -> of_flat ls M a a = NtN a a).
  { intros a Ha. rewrite (H1 a a Ha Ha). cbn [as_matrix]. unfold NtN. lra. }
  rewrite (trace_spec D ls LD), (trace_spec M ls L1), (invtrace_spec M ls L1).
  assert (T : mtrace ls (of_flat ls M) = mtrace ls NtN)
    by (apply bigsum_ext; exact HM).
  assert (IT : bigsum ls (fun i => 1 / of_flat ls M i i) = bigsum ls (fun a => 1 / NtN a a))
    by (apply bigsum_ext; intros a Ha; rewrite HM by assumption; reflexivity).
  rewrite T, IT.
  destruct sc; [| | congruence]; cbn [is_SIMPLE bind];
    (eexists; split; [reflexivity |]);
    match goal with |- context [identity_matrix ?a ?n] =>
      destruct (identity_matrix_spec a n) as [L H] end;
    (split; [exact L | exact H]).
Qed.

Lemma select_S_spec (E Nc D : list R) (sc : StabilityChoice) (vol : R) (num_nodes dim : nat) :
  let ls := lsdim_of dim in
  let totdim := (dim * num_nodes)%nat in
  let NtN := mmul totdim (mtrans (of_flat ls Nc)) (of_flat ls Nc) in
  dim = 2%nat \/ dim = 3%nat -> length D = (ls * ls)%nat ->
  exists S, select_S E Nc D sc vol num_nodes dim = Ok S /\
            length S = (totdim * totdim)%nat /\
            forall i j, (i < totdim)%nat -> (j < totdim)%nat ->
                        of_flat totdim S i j
                        = if (i =? j)%nat then
                            match sc with
                            | SIMPLE => vol * mtrace ls (of_flat ls D) / mtrace ls NtN
                            | HARMONIC => (1 / 9) * vol * mtrace ls (of_flat ls D)
                                          * bigsum ls (fun a => 1 / NtN a a)
                            | D_RECIPE => Rmax (cbrt vol) (of_flat totdim E i i)
                            end
                          else 0.
Proof.
  intros ls totdim NtN Hdim LD. unfold select_S.
  destruct sc; cbn [is_D_RECIPE].
  - apply (compute_S_spec Nc D num_nodes vol dim SIMPLE Hdim LD). discriminate.
  - apply (compute_S_spec Nc D num_nodes vol dim HARMONIC Hdim LD). discriminate.
  - eexists. split; [reflexivity |]. apply compute_S_D_recipe_spec.
Qed.


Lemma cbrt_cube (x : R) : cbrt x ^ 3 = x.
Proof.
  assert (P : forall y, 0 < y -> Rpower y (/ 3) ^ 3 = y).
  { intros y Hy. rewrite <- Rpower_pow by (unfold Rpower; apply exp_pos).
    rewrite Rpower_mult. replace (/ 3 * INR 3) with 1 by (simpl; field).
    apply Rpower_1. exact Hy. }
  unfold cbrt. destruct (Rlt_b 0 x) eqn:E1.
  - apply Rlt_b_true in E1. apply P. exact E1.
  - apply Rlt_b_false in E1. destruct (Rlt_b x 0) eqn:E2.
    + apply Rlt_b_true in E2.
      replace ((- Rpower (- x) (/ 3)) ^ 3) with (- (Rpower (- x) (/ 3) ^ 3)) by ring.
      rewrite P by lra. lra.
    + apply Rlt_b_false in E2. replace x with 0 by lra. simpl. lra.
Qed.

Lemma final_assembly_spec (Wc D Nc ImP : list R) (stability_choice : StabilityChoice)
        (volume : R) (num_nodes dim : nat) :
  let ls := lsdim_of dim in
  let totdim := (dim * num_nodes)%nat in
  dim = 2%nat \/ dim = 3%nat -> length D = (ls * ls)%nat ->
  exists E S target,
    consistent_block Wc D volume num_nodes dim = Ok E /\
    select_S E Nc D stability_choice volume num_nodes dim = Ok S /\
    final_assembly Wc D Nc ImP stability_choice volume num_nodes dim = Ok target /\
    length target = (totdim * totdim)%nat /\
    forall i j, (i < totdim)%nat -> (j < totdim)%nat ->
                of_flat totdim target i j
                = volume * mmul ls (mmul ls (of_flat ls Wc) (of_flat ls D))
                                (mtrans (of_flat ls Wc)) i j
                  + mmul totdim (mmul totdim (mtrans (of_flat totdim ImP)) (of_flat totdim S))
                         (of_flat totdim ImP) i j.
Proof.
  intros ls totdim Hdim LD. subst ls totdim. unfold final_assembly.
  destruct (lsdim_of_cases dim Hdim) as [A1 _]. rewrite A1. cbn [assert_ bind].
  destruct (consistent_block_spec Wc D volume num_nodes dim) as [E [E1 [L1 H1]]].
  destruct (select_S_spec E Nc D stability_choice volume num_nodes dim Hdim LD)
    as [S [E2 [L2 _]]].
  rewrite E1. cbn [bind]. rewrite E2. cbn [bind].
  destruct (matmul_spec S (dim * num_nodes) (dim * num_nodes) false
                        ImP (dim * num_nodes) (dim * num_nodes) false 1 eq_refl)
    as [SImP [E3 [L3 H3]]].
  rewrite E3. cbn [bind].
  destruct (matmul_spec ImP (dim * num_nodes) (dim * num_nodes) true
                        SImP (dim * num_nodes) (dim * num_nodes) false 1 eq_refl)
    as [ISI [E4 [L4 H4]]].
  rewrite E4. cbn [bind]. rewrite L1, L4, Nat.eqb_refl. cbn [assert_ bind].
  exists E, S, (transform_plus E ISI). repeat split; try reflexivity; try exact E2.
  - unfold transform_plus. rewrite length_map, length_seq. exact L1.
  - intros i j Hi Hj. unfold of_flat at 1. unfold transform_plus. rewrite L1.
    rewrite nth_map_seq by nia.
    change (nth (i * (dim * num_nodes) + j) E 0 + nth (i * (dim * num_nodes) + j) ISI 0)
      with (of_flat (dim * num_nodes) E i j + of_flat (dim * num_nodes) ISI i j).
    rewrite (H1 i j Hi Hj), (H4 i j Hi Hj). cbn [as_matrix]. f_equal.
    rewrite Rmult_1_l, mmul_assoc. apply mmul_ext; [reflexivity |]. intros k Hk.
    rewrite (H3 k j Hk Hj). cbn [as_matrix]. lra.
Qed.

(** ** The stability term of the local stiffness matrix *)

(** C3.  The stability matrix [S] that [final_assembly] uses is diagonal,
    and its diagonal is given by the formula of the stability choice alone:
    [SIMPLE]: every entry is [volume * trace(D) / trace(Nc^T Nc)];
    [HARMONIC]: every entry is [(1/9) * volume * trace(D)] times the sum of
    the reciprocals of the diagonal entries of [Nc^T Nc];
    [D_RECIPE]: entry [i] is the larger of the cube root of the volume and
    entry [(i, i)] of the consistent block [volume * Wc * D * Wc^T]. *)
Theorem stability_matrix_formula (Wc D Nc : list R) (stability_choice : StabilityChoice)
        (volume : R) (num_nodes dim : nat) :
  let ls := lsdim_of dim in
  let totdim := (dim * num_nodes)%nat in
  let NtN := mmul totdim (mtrans (of_flat ls Nc)) (of_flat ls Nc) in
  let WDWt := mmul ls (mmul ls (of_flat ls Wc) (of_flat ls D)) (mtrans (of_flat ls Wc)) in
  dim = 2%nat \/ dim = 3%nat -> length D = (ls * ls)%nat ->
  cbrt volume ^ 3 = volume /\
  exists E S,
    consistent_block Wc D volume num_nodes dim = Ok E /\
    select_S E Nc D stability_choice volume num_nodes dim = Ok S /\
    length S = (totdim * totdim)%nat /\
    forall i j, (i < totdim)%nat -> (j < totdim)%nat ->
                of_flat totdim S i j
                = if (i =? j)%nat then
                    match stability_choice with
                    | SIMPLE => volume * mtrace ls (of_flat ls D) / mtrace ls NtN
                    | HARMONIC => (1 / 9) * volume * mtrace ls (of_flat ls D)
                                  * bigsum ls (fun a => 1 / NtN a a)
                    | D_RECIPE => Rmax (cbrt volume) (volume * WDWt i i)
                    end
                  else 0.
Proof.
  intros ls totdim NtN WDWt Hdim LD. subst ls totdim NtN WDWt. split; [apply cbrt_cube |].
  destruct (consistent_block_spec Wc D volume num_nodes dim) as [E [E1 [L1 H1]]].
  destruct (select_S_spec E Nc D stability_choice volume num_nodes dim Hdim LD) as [S [E2 [L2 H2]]].
  exists E, S. split; [exact E1 |]. split; [exact E2 |]. split; [exact L2 |].
  intros i j Hi Hj. rewrite (H2 i j Hi Hj).
  destruct (i =? j)%nat; [| reflexivity].
  destruct stability_choice; try reflexivity.
  rewrite (H1 i i Hi Hi). reflexivity.
Qed.

Lemma stability_matrix_formula_witness :
  cbrt 1 ^ 3 = 1 /\
  exists E S,
    consistent_block sq_Wc sq_D 1 4 2 = Ok E /\
    select_S E sq_Nc sq_D D_RECIPE 1 4 2 = Ok S /\
    length S = 64%nat /\
    forall i j, (i < 8)%nat -> (j < 8)%nat ->
                of_flat 8 S i j
                = if (i =? j)%nat
                  then Rmax (cbrt 1)
                            (1 * mmul 3 (mmul 3 (of_flat 3 sq_Wc) (of_flat 3 sq_D))
                                       (mtrans (of_flat 3 sq_Wc)) i i)
                  else 0.
Proof.
  exact (stability_matrix_formula sq_Wc sq_D sq_Nc D_RECIPE 1 4 2 (or_introl eq_refl) eq_refl).
Defined.

(** ** Sizes in the boundary-condition passes *)

Lemma updZ_length {A : Type} (l : list A) (i : Z) (x : A) : length (updZ l i x) = length l.
Proof. unfold updZ. destruct (in_range i (length l)); [apply upd_length | reflexivity]. Qed.

Lemma fold_left_length_inv {A B : Type} (f : list A -> B -> list A) (l : list B) (a : list A) :
  (forall a x, length (f a x) = length a) -> length (fold_left f l a) = length a.
Proof.
  intros H. revert a. induction l as [|x l IH]; intros a; simpl; [reflexivity |].
  rewrite IH. apply H.
Qed.

Lemma move_to_rhs_length (run : list triplet) (v : R) (b : list R) :
  length (move_to_rhs run v b) = length b.
Proof. unfold move_to_rhs. apply fold_left_length_inv. intros; apply updZ_length. Qed.

Lemma eliminate_columns_length (zero : bool) (A : list triplet) (b : list R) (nf : nat)
      (ixs : list Z) (vals : list R) :
  length (snd (eliminate_columns zero A b nf ixs vals)) = length b.
Proof.
  unfold eliminate_columns.
  set (step := fun (st : list triplet * list triplet * list R) (i : nat) => _).
  assert (H : forall l st, length (snd (fold_left step l st)) = length (snd st)).
  { induction l as [|i l IH]; intros st; simpl; [reflexivity |].
    rewrite IH. destruct st as [[done todo] b0]. unfold step.
    destruct (lower_bound todo (nth i ixs 0%Z)) as [skipped start].
    destruct start as [|h r]; [reflexivity |].
    destruct (tcol h =? nth i ixs 0%Z)%Z; [| reflexivity].
    destruct (find_if_other (h :: r) (nth i ixs 0%Z)) as [run rest].
    simpl. apply move_to_rhs_length. }
  specialize (H (seq 0 nf) ([], A, b)).
  destruct (fold_left step (seq 0 nf) ([], A, b)) as [[done todo] b']. exact H.
Qed.

Lemma resize_length (l : list R) (n : nat) : length (resize l n) = n.
Proof.
  unfold resize. rewrite length_app, length_firstn, repeat_length. lia.
Qed.

(** ** [std::set_difference] on the numbers [0 .. n-1] *)

Lemma set_difference_cons (x y : Z) (t1 t2 : list Z) :
  set_difference (x :: t1) (y :: t2)
  = if (x <? y)%Z then x :: set_difference t1 (y :: t2)
    else if (y <? x)%Z then set_difference (x :: t1) t2
         else set_difference t1 t2.
Proof. reflexivity. Qed.

Lemma set_difference_nil_r (l : list Z) : set_difference l [] = l.
Proof. destruct l; reflexivity. Qed.

Lemma set_difference_length (l1 l2 : list Z) :
  StronglySorted Z.lt l1 -> StronglySorted Z.lt l2 -> incl l2 l1 ->
  (length (set_difference l1 l2) + length l2 = length l1)%nat.
Proof.
  revert l2. induction l1 as [|x t1 IH]; intros l2 S1 S2 I.
  - destruct l2 as [|y t2]; [reflexivity |]. exfalso. apply (I y). left; reflexivity.
  - destruct l2 as [|y t2]; [rewrite set_difference_nil_r; simpl; lia |].
    rewrite set_difference_cons.
    inversion S1 as [|? ? S1' F1]; subst. inversion S2 as [|? ? S2' F2]; subst.
    rewrite Forall_forall in F1, F2.
    assert (Hy : In y (x :: t1)) by (apply I; left; reflexivity).
    destruct (Z.ltb_spec x y) as [Hxy | Hxy].
    + simpl. rewrite IH; [reflexivity | assumption | assumption |].
      intros z Hz. destruct (I z Hz) as [<- | Hin]; [| exact Hin].
      exfalso. destruct Hz as [<- | Hz]; [lia |]. specialize (F2 _ Hz). lia.
    + destruct (Z.ltb_spec y x) as [Hyx | Hyx].
      * exfalso. destruct Hy as [<- | Hy]; [lia |]. specialize (F1 _ Hy). lia.
      * assert (x = y) by lia. subst y. simpl. rewrite <- (IH t2 S1' S2'); [lia |].
        intros z Hz. destruct (I z (or_intror Hz)) as [<- | Hin]; [| exact Hin].
        exfalso. specialize (F2 _ Hz). lia.
Qed.

Lemma iota_sorted (n : nat) : StronglySorted Z.lt (iota n).
Proof.
  unfold iota. generalize 0%nat as s. induction n as [|n IH]; intros s; simpl; constructor.
  - apply IH.
  - rewrite Forall_forall. intros z Hz. apply in_map_iff in Hz. destruct Hz as [k [<- Hk]].
    apply in_seq in Hk. lia.
Qed.

Lemma iota_In (n : nat) (z : Z) : In z (iota n) <-> (0 <= z < Z.of_nat n)%Z.
Proof.
  unfold iota. rewrite in_map_iff. split.
  - intros [k [<- Hk]]. apply in_seq in Hk. lia.
  - intros H. exists (Z.to_nat z). split; [lia |]. apply in_seq. lia.
Qed.

(** Ascending and without repetition is strictly ascending. *)
Lemma sorted_nodup_strict (l : list Z) :
  Sorted Z.le l -> NoDup l -> StronglySorted Z.lt l.
Proof.
  intros S N. apply Sorted_StronglySorted in S; [| intros a b c; lia].
  induction S as [|x l S IH F]; constructor.
  - apply IH. inversion N; assumption.
  - inversion N as [|? ? Hx _]; subst. rewrite Forall_forall in *. intros y Hy.
    specialize (F y Hy). assert (x <> y) by (intros ->; contradiction). lia.
Qed.

Lemma renumbering_renum (n nf : nat) (ixs : list Z) :
  fst (fst (renumbering n nf ixs)) = set_difference (iota n) (firstn nf ixs).
Proof. reflexivity. Qed.

Lemma renum_length (n nf : nat) (ixs : list Z) :
  fixed_dofs_ok n nf ixs ->
  length (set_difference (iota n) (firstn nf ixs)) = (n - nf)%nat.
Proof.
  intros [L [S [N I]]].
  pose proof (set_difference_length (iota n) (firstn nf ixs) (iota_sorted n)
                                    (sorted_nodup_strict _ S N)) as H.
  rewrite length_firstn in H. unfold iota in H at 3. rewrite length_map, length_seq in H.
  rewrite Nat.min_l in H by exact L.
  assert (incl (firstn nf ixs) (iota n)) by (intros z Hz; apply iota_In, I, Hz).
  specialize (H H0). lia.
Qed.

Lemma reduce_system_length (A : list triplet) (b : list R) (nf : nat) (ixs : list Z)
      (vals : list R) :
  fixed_dofs_ok (length b) nf ixs ->
  exists A' b', reduce_system A b nf ixs vals = Returns (A', b') /\
                length b' = (length b - nf)%nat.
Proof.
  intros Hok. unfold reduce_system.
  destruct Hok as [L [S [N I]]]. pose proof S as S'.
  apply is_sorted_Sorted in S'. rewrite S'. cbn [negb].
  pose proof (eliminate_columns_length false (sort_by_col A) b nf ixs vals) as Lb.
  destruct (eliminate_columns false (sort_by_col A) b nf ixs vals) as [A2 b2]. cbn [snd] in Lb.
  pose proof (renumbering_renum (length b2) nf ixs) as Rn.
  destruct (renumbering (length b2) nf ixs) as [[renum renum_inv] discard]. cbn [fst] in Rn.
  eexists. eexists. split; [reflexivity |].
  rewrite resize_length, Rn, Lb. apply renum_length. exact (conj L (conj S (conj N I))).
Qed.

Lemma set_boundary_conditions_length (A : list triplet) (b : list R) (nf : nat) (ixs : list Z)
      (vals : list R) :
  Sorted Z.le (firstn nf ixs) ->
  exists A' b', set_boundary_conditions A b nf ixs vals = Returns (A', b') /\
                length b' = length b.
Proof.
  intros S. unfold set_boundary_conditions. apply is_sorted_Sorted in S. rewrite S. cbn [negb].
  pose proof (eliminate_columns_length true (sort_by_col A) b nf ixs vals) as Lb.
  destruct (eliminate_columns true (sort_by_col A) b nf ixs vals) as [A2 b2]. cbn [snd] in Lb.
  destruct (renumbering (length b2) nf ixs) as [[renum renum_inv] discard].
  eexists. eexists. split; [reflexivity |].
  rewrite fold_left_length_inv; [exact Lb |]. intros; apply updZ_length.
Qed.

(** ** Sizes of the local buffers *)

Lemma add_at_length (l : list R) (i : nat) (x : R) : length (add_at l i x) = length l.
Proof. apply upd_length. Qed.

Lemma compute_q_2D_length (corners : list R) (n : nat) :
  length (compute_q_2D corners n) = (n * 2)%nat.
Proof.
  unfold compute_q_2D. rewrite fold_left_length_inv; [apply repeat_length |].
  intros a i. apply fold_left_length_inv. intros a' d. rewrite !add_at_length. reflexivity.
Qed.

Lemma flat_blocks_length (g : nat -> list R) (n k : nat) :
  (forall i, length (g i) = k) -> length (flat_map g (seq 0 n)) = (n * k)%nat.
Proof.
  intros H. induction n as [|n IH]; [reflexivity |].
  rewrite seq_S, flat_map_app, length_app, IH. simpl. rewrite app_nil_r, H. lia.
Qed.

Lemma nth_flat_blocks (g : nat -> list R) (n k i d : nat) :
  (forall i, length (g i) = k) -> (i < n)%nat -> (d < k)%nat ->
  nth (i * k + d) (flat_map g (seq 0 n)) 0 = nth d (g i) 0.
Proof.
  intros H Hi Hd. induction n as [|n IH]; [lia |].
  rewrite seq_S, flat_map_app. simpl flat_map. rewrite app_nil_r.
  destruct (Nat.eq_dec i n) as [-> | Hn].
  - rewrite app_nth2; rewrite (flat_blocks_length g n k H); [| lia].
    f_equal. lia.
  - rewrite app_nth1; [apply IH; lia |]. rewrite (flat_blocks_length g n k H). nia.
Qed.

Lemma compute_Nr_2D_length (corners : list R) (n : nat) :
  length (compute_Nr_2D corners n) = (n * 6)%nat.
Proof. apply flat_blocks_length. reflexivity. Qed.

Lemma compute_Nc_2D_length (corners : list R) (n : nat) :
  length (compute_Nc_2D corners n) = (n * 6)%nat.
Proof. apply flat_blocks_length. reflexivity. Qed.

Lemma compute_Nr_3D_length (corners : list R) (n : nat) :
  length (compute_Nr_3D corners n) = (n * 18)%nat.
Proof. apply flat_blocks_length. reflexivity. Qed.

Lemma compute_Nc_3D_length (corners : list R) (n : nat) :
  length (compute_Nc_3D corners n) = (n * 18)%nat.
Proof. apply flat_blocks_length. reflexivity. Qed.

Lemma compute_W_2D_ok (q : list R) (n : nat) :
  length q = (n * 2)%nat ->
  (exists Wr, compute_Wr_2D q = Ok Wr /\ length Wr = (n * 6)%nat) /\
  (exists Wc, compute_Wc_2D q = Ok Wc /\ length Wc = (n * 6)%nat).
Proof.
  intros L. unfold compute_Wr_2D, compute_Wc_2D.
  rewrite L, Nat.div_mul, Nat.eqb_refl by lia. cbn [assert_ bind].
  split; eexists; (split; [reflexivity | apply flat_blocks_length; reflexivity]).
Qed.

Lemma compute_W_3D_ok (q : list R) (n : nat) :
  length q = (n * 3)%nat ->
  (exists Wr, compute_Wr_3D q = Ok Wr /\ length Wr = (n * 18)%nat) /\
  (exists Wc, compute_Wc_3D q = Ok Wc /\ length Wc = (n * 18)%nat).
Proof.
  intros L. unfold compute_Wr_3D, compute_Wc_3D.
  rewrite L, Nat.div_mul, Nat.eqb_refl by lia. cbn [assert_ bind].
  split; eexists; (split; [reflexivity | apply flat_blocks_length; reflexivity]).
Qed.

(** A loop that rewrites every entry of a buffer in place. *)
Lemma inplace_loop (g : nat -> R -> R) (l : list R) :
  let l' := fold_left (fun result i => upd result i (g i (nth i result 0)))
                      (seq 0 (length l)) l in
  length l' = length l /\ forall i, (i < length l)%nat -> nth i l' 0 = g i (nth i l 0).
Proof.
  cbv zeta.
  assert (H : forall k, (k <= length l)%nat ->
            let l' := fold_left (fun result i => upd result i (g i (nth i result 0)))
                                (seq 0 k) l in
            length l' = length l /\
            forall i, nth i l' 0 = if (i <? k)%nat then g i (nth i l 0) else nth i l 0).
  { induction k as [|k IH]; intros Hk.
    - simpl. split; reflexivity.
    - destruct (IH ltac:(lia)) as [L E]. cbv zeta. rewrite seq_S, fold_left_app. simpl fold_left.
      split; [rewrite upd_length; exact L |]. intros i.
      rewrite nth_upd, L. destruct (Nat.eqb_spec k i) as [-> | Hn]; simpl.
      + destruct (Nat.ltb_spec i (length l)); [| lia].
        rewrite E. destruct (Nat.ltb_spec i i); [lia |].
        destruct (Nat.ltb_spec i (S i)); [reflexivity | lia].
      + rewrite E. destruct (Nat.ltb_spec i k), (Nat.ltb_spec i (S k)); try reflexivity; lia. }
  destruct (H (length l) (le_n _)) as [L E]. split; [exact L |]. intros i Hi.
  rewrite E. destruct (Nat.ltb_spec i (length l)); [reflexivity | lia].
Qed.

(** [compute_ImP] returns [I - (Nr Wr^T + Nc Wc^T)]. *)
Lemma compute_ImP_spec (Nr Nc Wr Wc : list R) (dim n : nat) :
  let ls := lsdim_of dim in
  let r := (dim * n)%nat in
  dim = 2%nat \/ dim = 3%nat -> length Nc = (n * (dim * ls))%nat ->
  exists ImP, compute_ImP Nr Nc Wr Wc dim = Ok ImP /\
              length ImP = (r * r)%nat /\
              forall i j, (i < r)%nat -> (j < r)%nat ->
                          of_flat r ImP i j
                          = mid i j - (mmul ls (of_flat ls Nr) (mtrans (of_flat ls Wr)) i j
                                       + mmul ls (of_flat ls Nc) (mtrans (of_flat ls Wc)) i j).
Proof.
  intros ls r Hdim L. subst ls r. unfold compute_ImP.
  destruct (lsdim_of_cases dim Hdim) as [A1 A2]. rewrite A1, A2. cbn [assert_ bind].
  assert (HN : (if (dim =? 2)%nat then (length Nc / 6)%nat else (length Nc / 18)%nat) = n).
  { rewrite L. destruct Hdim as [-> | ->]; cbn [Nat.eqb lsdim_of Nat.mul Nat.add];
      apply Nat.div_mul; lia. }
  rewrite HN.
  destruct (matmul_spec Nr (dim * n) (lsdim_of dim) false Wr (dim * n) (lsdim_of dim) true 1
                        eq_refl) as [Pr [E1 [L1 H1]]].
  destruct (matmul_spec Nc (dim * n) (lsdim_of dim) false Wc (dim * n) (lsdim_of dim) true 1
                        eq_refl) as [Pc [E2 [L2 H2]]].
  rewrite E1, E2. cbn [bind].
  destruct (identity_matrix_spec 1 (n * dim)) as [LI HI].
  rewrite LI, L1.
  assert (Hsz : ((n * dim * (n * dim) =? dim * n * (dim * n))%nat = true))
    by (apply Nat.eqb_eq; lia).
  rewrite Hsz. cbn [assert_ bind].
  eexists. split; [reflexivity |].
  pose proof (inplace_loop (fun i x => x - (nth i Pr 0 + nth i Pc 0))
                           (identity_matrix 1 (n * dim))) as [LL HL].
  rewrite LI in LL, HL.
  split; [rewrite LL; lia |]. intros i j Hi Hj.
  unfold of_flat at 1. rewrite HL by nia.
  change (nth (i * (dim * n) + j) Pr 0) with (of_flat (dim * n) Pr i j).
  change (nth (i * (dim * n) + j) Pc 0) with (of_flat (dim * n) Pc i j).
  rewrite (H1 i j Hi Hj), (H2 i j Hi Hj). cbn [as_matrix].
  replace (i * (dim * n) + j)%nat with (i * (n * dim) + j)%nat by lia.
  change (nth (i * (n * dim) + j) (identity_matrix 1 (n * dim)) 0)
    with (of_flat (n * dim) (identity_matrix 1 (n * dim)) i j).
  rewrite HI by lia. unfold mid. lra.
Qed.

Lemma compute_D_2D_length (young poisson : R) : length (compute_D_2D young poisson) = 9%nat.
Proof. reflexivity. Qed.

Lemma compute_D_3D_length (young poisson : R) : length (compute_D_3D young poisson) = 36%nat.
Proof. reflexivity. Qed.

(** The 2D local assembly cannot fail. *)
Lemma assemble_stiffness_matrix_2D_ok (points : list R) (corner_ixs : list nat) (n : nat)
      (young poisson : R) (sc : StabilityChoice) :
  exists target,
    assemble_stiffness_matrix_2D points corner_ixs n young poisson sc = Ok target /\
    length target = (2 * n * (2 * n))%nat.
Proof.
  unfold assemble_stiffness_matrix_2D.
  set (corners := pick_points 2 points corner_ixs n).
  destruct (compute_W_2D_ok (compute_q_2D corners n) n (compute_q_2D_length corners n))
    as [[Wr [E1 L1]] [Wc [E2 L2]]].
  rewrite E1, E2. cbn [bind].
  destruct (compute_ImP_spec (compute_Nr_2D corners n) (compute_Nc_2D corners n) Wr Wc 2 n
                             (or_introl eq_refl) (compute_Nc_2D_length corners n))
    as [ImP [E3 _]].
  rewrite E3. cbn [bind].
  destruct (final_assembly_spec Wc (compute_D_2D young poisson) (compute_Nc_2D corners n) ImP sc
                                (element_volume_2D corners n) n 2 (or_introl eq_refl) eq_refl)
    as [E [S [target [_ [_ [E4 [L4 _]]]]]]].
  exists target. split; assumption.
Qed.

(** ** The size of the right-hand side through the assembly *)

Lemma fold_add_at_length (idx : nat -> nat) (val : nat -> R) (l : list nat) (b : list R) :
  length (fold_left (fun b i => add_at b (idx i) (val i)) l b) = length b.
Proof. apply fold_left_length_inv. intros; apply add_at_length. Qed.

Lemma assemble_2D_cells_length (points : list R) (num_cell_faces cell_corners : list nat)
      (young poisson body_force : list R) (sc : StabilityChoice)
      (cells : list nat) (off : nat) (A : list triplet) (b : list R) :
  exists off' A' b',
    fold_left
      (fun (acc : res (nat * list triplet * list R)) c =>
         st <- acc ;;
         assemble_cell_2D points num_cell_faces cell_corners young poisson body_force sc st c)
      cells (Ok (off, A, b))
    = Ok (off', A', b') /\ length b' = length b.
Proof.
  revert off A b. induction cells as [|c cells IH]; intros off A b.
  - exists off, A, b. split; reflexivity.
  - simpl fold_left. cbn [bind]. unfold assemble_cell_2D at 1.
    destruct (assemble_stiffness_matrix_2D_ok points (skipn off cell_corners)
                (nth c num_cell_faces 0%nat) (nth c young 0) (nth c poisson 0) sc)
      as [loc [E _]].
    rewrite E. cbn [bind].
    match goal with |- context [Ok (?o, ?a, ?bb)] =>
      destruct (IH o a bb) as [off' [A' [b' [F L]]]] end.
    exists off', A', b'. split; [exact F |]. rewrite L. apply fold_add_at_length.
Qed.

Lemma apply_neumann_2D_length (points : list R) (nn : nat) (faces : list nat)
      (forces : list R) (b : list R) :
  length (apply_neumann_2D points nn faces forces b) = length b.
Proof.
  unfold apply_neumann_2D. apply fold_left_length_inv. intros a f.
  rewrite !add_at_length. reflexivity.
Qed.

Lemma finish_assembly_spec (reduce : bool) (A : list triplet) (b : list R) (nf : nat)
      (ixs : list Z) (vals : list R) :
  (reduce = false -> Sorted Z.le (firstn nf ixs) ->
   exists sys, finish_assembly reduce A b nf ixs vals = Ok (length b, sys)
               /\ length (snd sys) = length b) /\
  (reduce = true -> fixed_dofs_ok (length b) nf ixs ->
   exists sys, finish_assembly reduce A b nf ixs vals = Ok ((length b - nf)%nat, sys)
               /\ length (snd sys) = (length b - nf)%nat).
Proof.
  unfold finish_assembly, apply_boundary. split; intros -> H.
  - destruct (set_boundary_conditions_length A b nf ixs vals H) as [A' [b' [E L]]].
    rewrite E, L. exists (A', b'). split; [reflexivity | exact L].
  - destruct (reduce_system_length A b nf ixs vals H) as [A' [b' [E L]]].
    rewrite E, L. exists (A', b'). split; [reflexivity | exact L].
Qed.

Lemma finish_assembly_returns (reduce : bool) (A : list triplet) (b : list R) (nf : nat)
      (ixs : list Z) (vals : list R) (n : nat) (sys : system) :
  finish_assembly reduce A b nf ixs vals = Ok (n, sys) -> n = length (snd sys).
Proof.
  unfold finish_assembly.
  destruct (apply_boundary reduce A b nf ixs vals) as [[A' b'] | e s]; [| discriminate].
  intros H. inversion H. reflexivity.
Qed.

Lemma assemble_mech_system_2D_spec (points : list R) (num_cells : nat)
      (num_cell_faces cell_corners : list nat) (young poisson body_force : list R)
      (nf : nat) (ixs : list Z) (vals : list R)
      (nn : nat) (neumann_faces : list nat) (neumann_forces : list R)
      (sc : StabilityChoice) (reduce : bool) :
  let np := num_points_of cell_corners (accumulate num_cell_faces num_cells) in
  let run := assemble_mech_system_2D points num_cells num_cell_faces cell_corners young poisson
                                     body_force nf ixs vals nn neumann_faces neumann_forces
                                     sc reduce in
  (reduce = false -> Sorted Z.le (firstn nf ixs) ->
   exists sys, run = Ok ((2 * np)%nat, sys) /\ length (snd sys) = (2 * np)%nat) /\
  (reduce = true -> fixed_dofs_ok (2 * np) nf ixs ->
   exists sys, run = Ok ((2 * np - nf)%nat, sys) /\ length (snd sys) = (2 * np - nf)%nat).
Proof.
  intros np run. subst run. unfold assemble_mech_system_2D. fold (num_points_of cell_corners (accumulate num_cell_faces num_cells)). fold np.
  destruct (assemble_2D_cells_length points num_cell_faces cell_corners young poisson body_force
                                     sc (seq 0 num_cells) 0%nat [] (repeat 0 (np * 2)))
    as [off [A [b [F L]]]].
  rewrite F. cbn [bind]. rewrite repeat_length in L.
  pose proof (apply_neumann_2D_length points nn neumann_faces neumann_forces b) as L2.
  rewrite L in L2.
  destruct (finish_assembly_spec reduce A (apply_neumann_2D points nn neumann_faces neumann_forces b)
                                 nf ixs vals) as [P Q].
  rewrite L2 in P, Q. replace (np * 2)%nat with (2 * np)%nat in P, Q by lia.
  split; assumption.
Qed.

Lemma nth_skipn_gen {A : Type} (k d : nat) (l : list A) (a : A) :
  nth d (skipn k l) a = nth (k + d) l a.
Proof.
  revert l. induction k as [|k IH]; intros l; simpl; auto.
  destruct l; simpl; auto. destruct d; reflexivity.
Qed.

Lemma fold_add_acc (l : list nat) (a : nat) :
  fold_left Nat.add l a = (a + fold_left Nat.add l 0)%nat.
Proof.
  revert a. induction l as [|x l IH]; intros a; simpl; [lia |].
  rewrite IH, (IH x). lia.
Qed.

Lemma accumulate_S (l : list nat) (k : nat) :
  accumulate l (S k) = (accumulate l k + nth k l 0)%nat.
Proof.
  unfold accumulate. revert k. induction l as [|x l IH]; intros k.
  - destruct k; reflexivity.
  - destruct k as [|k]; [simpl; lia |].
    change (firstn (S (S k)) (x :: l)) with (x :: firstn (S k) l).
    change (firstn (S k) (x :: l)) with (x :: firstn k l).
    cbn [fold_left nth]. rewrite fold_add_acc, (fold_add_acc (firstn k l)), IH. lia.
Qed.

Lemma accumulate_skipn (l : list nat) (k n : nat) :
  accumulate l (k + n) = (accumulate l k + accumulate (skipn k l) n)%nat.
Proof.
  induction n as [|n IH].
  - rewrite Nat.add_0_r. unfold accumulate at 3. simpl. lia.
  - rewrite Nat.add_succ_r, !accumulate_S, IH, nth_skipn_gen. lia.
Qed.

Lemma bodyforce_3D_face_length (points : list R) (face_corners : list nat) (nfc start : nat)
      (centroid bforce b : list R) :
  length (bodyforce_3D_face points face_corners nfc start centroid bforce b) = length b.
Proof.
  unfold bodyforce_3D_face. apply fold_left_length_inv. intros a c.
  apply fold_left_length_inv. intros; apply add_at_length.
Qed.

Lemma compute_bodyforce_3D_length (points : list R) (face_corners num_face_corners : list nat)
      (num_faces : nat) (centroid bforce b : list R) :
  length (compute_bodyforce_3D points face_corners num_face_corners num_faces centroid bforce b)
  = length b.
Proof.
  unfold compute_bodyforce_3D.
  set (step := fun (st : nat * list R) (f : nat) => _).
  assert (H : forall l st, length (snd (fold_left step l st)) = length (snd st)).
  { induction l as [|f l IH]; intros st; simpl; [reflexivity |].
    rewrite IH. destruct st as [s0 b0]. unfold step. cbn [snd].
    apply bodyforce_3D_face_length. }
  apply H.
Qed.

Lemma compute_applied_forces_3D_length (points : list R) (nfc fc : list nat) (nn : nat)
      (faces : list nat) (forces b : list R) :
  length (compute_applied_forces_3D points nfc fc nn faces forces b) = length b.
Proof.
  unfold compute_applied_forces_3D. apply fold_left_length_inv. intros a f.
  apply fold_left_length_inv. intros a' c.
  apply fold_left_length_inv. intros; apply add_at_length.
Qed.

(** The cell loop of the 3D assembly: where it is when it reaches cell [c],
    that it goes on as long as the local assemblies return, and that it
    keeps the size of [b]. *)
Lemma assemble_3D_cells (points : list R) (num_cell_faces num_face_corners face_corners : list nat)
      (young poisson body_force : list R) (sc : StabilityChoice) (k : nat)
      (A0 : list triplet) (b0 : list R) :
  let run k :=
    fold_left
      (fun (acc : res (nat * nat * list triplet * list R)) c =>
         st <- acc ;;
         assemble_cell_3D points num_cell_faces num_face_corners face_corners
                          young poisson body_force sc st c)
      (seq 0 k) (Ok (0%nat, 0%nat, A0, b0)) in
  (forall st, run k = Ok st ->
              fst (fst (fst st)) = cell_first_face num_cell_faces k /\
              snd (fst (fst st)) = cell_first_corner num_cell_faces num_face_corners k /\
              length (snd st) = length b0) /\
  ((forall c, (c < k)%nat ->
              exists l, local_assembly_3D points num_cell_faces num_face_corners face_corners
                                          young poisson sc c = Ok l) ->
   exists st, run k = Ok st).
Proof.
  intros run. induction k as [|k [IH1 IH2]].
  - split.
    + intros st H. inversion H; subst st. repeat split; reflexivity.
    + intros _. eexists. reflexivity.
  - assert (Step : run (S k) = (st <- run k ;;
                                 assemble_cell_3D points num_cell_faces num_face_corners
                                                  face_corners young poisson body_force sc st k)).
    { unfold run. rewrite seq_S, fold_left_app. reflexivity. }
    rewrite Step. split.
    + intros st H. destruct (run k) as [[[[cf fs] A] b] | e]; [| discriminate].
      destruct (IH1 _ eq_refl) as [I1 [I2 I3]]. cbn [fst snd] in I1, I2, I3.
      cbn [bind] in H. unfold assemble_cell_3D in H.
      destruct (assemble_stiffness_matrix_3D _ _ _ _ _ _ _) as [[[cen idx] loc] | e];
        [| discriminate].
      cbn [bind] in H. inversion H; subst st. cbn [fst snd].
      unfold cell_first_corner, cell_first_face in *. subst cf fs.
      rewrite accumulate_S. split; [reflexivity |]. split.
      * rewrite accumulate_skipn. reflexivity.
      * rewrite compute_bodyforce_3D_length. exact I3.
    + intros Hloc. destruct (IH2 ltac:(intros; apply Hloc; lia)) as [st Hst].
      rewrite Hst. destruct st as [[[cf fs] A] b].
      destruct (IH1 _ Hst) as [I1 [I2 _]]. cbn [fst snd] in I1, I2.
      destruct (Hloc k ltac:(lia)) as [l Hl]. unfold local_assembly_3D in Hl.
      cbn [bind]. unfold assemble_cell_3D. rewrite I1, I2, Hl. cbn [bind].
      destruct l as [[cen idx] loc]. eexists. reflexivity.
Qed.

Lemma assemble_mech_system_3D_spec (points : list R) (num_cells : nat)
      (num_cell_faces num_face_corners face_corners : list nat)
      (young poisson body_force : list R)
      (nf : nat) (ixs : list Z) (vals : list R)
      (nn : nat) (neumann_faces : list nat) (neumann_forces : list R)
      (sc : StabilityChoice) (reduce : bool) :
  let np := num_points_of face_corners
                          (accumulate num_face_corners (accumulate num_cell_faces num_cells)) in
  let run := assemble_mech_system_3D points num_cells num_cell_faces num_face_corners
                                     face_corners young poisson body_force nf ixs vals
                                     nn neumann_faces neumann_forces sc reduce in
  (forall n sys, run = Ok (n, sys) ->
                 n = length (snd sys) /\
                 (reduce = false -> n = (3 * np)%nat) /\
                 (reduce = true -> fixed_dofs_ok (3 * np) nf ixs -> n = (3 * np - nf)%nat)) /\
  ((forall c, (c < num_cells)%nat ->
              exists l, local_assembly_3D points num_cell_faces num_face_corners face_corners
                                          young poisson sc c = Ok l) ->
   (if reduce then fixed_dofs_ok (3 * np) nf ixs else Sorted Z.le (firstn nf ixs)) ->
   exists sys, run = Ok ((if reduce then 3 * np - nf else 3 * np)%nat, sys)).
Proof.
  intros np run. subst run. unfold assemble_mech_system_3D.
  fold (num_points_of face_corners
                      (accumulate num_face_corners (accumulate num_cell_faces num_cells))).
  fold np.
  destruct (assemble_3D_cells points num_cell_faces num_face_corners face_corners young poisson
                              body_force sc num_cells [] (repeat 0 (np * 3))) as [C1 C2].
  cbv zeta in C1, C2.
  split.
  - intros n sys H.
    destruct (fold_left _ (seq 0 num_cells) _) as [[[[cf fs] A] b] | e]; [| discriminate].
    destruct (C1 _ eq_refl) as [_ [_ L]]. cbn [snd] in L. rewrite repeat_length in L.
    cbn [bind] in H.
    pose proof (compute_applied_forces_3D_length points num_face_corners face_corners nn
                                                 neumann_faces neumann_forces b) as L2.
    rewrite L in L2.
    set (b2 := compute_applied_forces_3D _ _ _ _ _ _ b) in *.
    split; [exact (finish_assembly_returns _ _ _ _ _ _ _ _ H) |].
    destruct (finish_assembly_spec reduce A b2 nf ixs vals) as [P Q]. rewrite L2 in P, Q.
    replace (np * 3)%nat with (3 * np)%nat in P, Q by lia.
    split.
    + intros ->. unfold finish_assembly, apply_boundary in H.
      destruct (set_boundary_conditions A b2 nf ixs vals) as [[A' b'] | e s] eqn:E;
        [| discriminate].
      assert (S : Sorted Z.le (firstn nf ixs)).
      { unfold set_boundary_conditions in E.
        destruct (is_sorted (firstn nf ixs)) eqn:Es; [apply is_sorted_Sorted; exact Es |].
        discriminate. }
      destruct (P eq_refl S) as [sys' [E' _]].
      unfold finish_assembly, apply_boundary in E'. rewrite E in E'.
      inversion H; inversion E'; subst. lia.
    + intros -> Hok. destruct (Q eq_refl Hok) as [sys' [E' _]].
      rewrite H in E'. inversion E'. lia.
  - intros Hloc Hfix. destruct (C2 Hloc) as [[[[cf fs] A] b] Hst].
    rewrite Hst. cbn [bind].
    destruct (C1 _ Hst) as [_ [_ L]]. cbn [snd] in L. rewrite repeat_length in L.
    pose proof (compute_applied_forces_3D_length points num_face_corners face_corners nn
                                                 neumann_faces neumann_forces b) as L2.
    rewrite L in L2.
    set (b2 := compute_applied_forces_3D _ _ _ _ _ _ b) in *.
    destruct (finish_assembly_spec reduce A b2 nf ixs vals) as [P Q]. rewrite L2 in P, Q.
    replace (np * 3)%nat with (3 * np)%nat in P, Q by lia.
    destruct reduce.
    + destruct (Q eq_refl Hfix) as [sys [E _]]. exists sys. exact E.
    + destruct (P eq_refl Hfix) as [sys [E _]]. exists sys. exact E.
Qed.

(** C10.  The integer that [assemble_mech_system_2D] and
    [assemble_mech_system_3D] return is the length of the right-hand side
    they leave in [b]: with [Dim] 2 or 3 and [num_points] one plus the
    largest corner number in the connectivity array, it is
    [Dim * num_points] when [reduce_boundary] is false, and
    [Dim * num_points - num_fixed_dofs] when it is true and the fixed dofs
    are ascending, distinct and in range.  The 2D function returns whenever
    the fixed dofs pass the sortedness check; the 3D function returns
    whenever, in addition, the local assembly of every cell returns. *)
Theorem assembly_return_value :
  (forall points num_cells num_cell_faces cell_corners young poisson body_force
          num_fixed_dofs fixed_dof_ixs fixed_dof_values
          num_neumann_faces neumann_faces neumann_forces stability_choice reduce_boundary,
      let num_points := num_points_of cell_corners (accumulate num_cell_faces num_cells) in
      let run := assemble_mech_system_2D points num_cells num_cell_faces cell_corners
                                         young poisson body_force
                                         num_fixed_dofs fixed_dof_ixs fixed_dof_values
                                         num_neumann_faces neumann_faces neumann_forces
                                         stability_choice reduce_boundary in
      (reduce_boundary = false -> Sorted Z.le (firstn num_fixed_dofs fixed_dof_ixs) ->
       exists sys, run = Ok ((2 * num_points)%nat, sys)
                   /\ length (snd sys) = (2 * num_points)%nat) /\
      (reduce_boundary = true -> fixed_dofs_ok (2 * num_points) num_fixed_dofs fixed_dof_ixs ->
       exists sys, run = Ok ((2 * num_points - num_fixed_dofs)%nat, sys)
                   /\ length (snd sys) = (2 * num_points - num_fixed_dofs)%nat)) /\
  (forall points num_cells num_cell_faces num_face_corners face_corners
          young poisson body_force num_fixed_dofs fixed_dof_ixs fixed_dof_values
          num_neumann_faces neumann_faces neumann_forces stability_choice reduce_boundary,
      let num_points :=
        num_points_of face_corners
                      (accumulate num_face_corners (accumulate num_cell_faces num_cells)) in
      let run := assemble_mech_system_3D points num_cells num_cell_faces num_face_corners
                                         face_corners young poisson body_force
                                         num_fixed_dofs fixed_dof_ixs fixed_dof_values
                                         num_neumann_faces neumann_faces neumann_forces
                                         stability_choice reduce_boundary in
      (forall n sys,
          run = Ok (n, sys) ->
          n = length (snd sys) /\
          (reduce_boundary = false -> n = (3 * num_points)%nat) /\
          (reduce_boundary = true ->
           fixed_dofs_ok (3 * num_points) num_fixed_dofs fixed_dof_ixs ->
           n = (3 * num_points - num_fixed_dofs)%nat)) /\
      ((forall c, (c < num_cells)%nat ->
                  exists l, local_assembly_3D points num_cell_faces num_face_corners face_corners
                                              young poisson stability_choice c = Ok l) ->
       (if reduce_boundary
        then fixed_dofs_ok (3 * num_points) num_fixed_dofs fixed_dof_ixs
        else Sorted Z.le (firstn num_fixed_dofs fixed_dof_ixs)) ->
       exists sys,
         run = Ok ((if reduce_boundary then 3 * num_points - num_fixed_dofs
                    else 3 * num_points)%nat, sys))).
Proof.
  split.
  - intros. apply assemble_mech_system_2D_spec.
  - intros. apply assemble_mech_system_3D_spec.
Qed.

(** One square cell with the two dofs of its first corner fixed: the
    reduced system has 6 unknowns. *)
Lemma assembly_return_value_witness :
  exists sys,
    assemble_mech_system_2D unit_square 1 [4%nat] [0; 1; 2; 3]%nat [1] [0.3] [0; 0]
                            2 [0; 1]%Z [0; 0] 0 [] [] SIMPLE true
    = Ok (6%nat, sys) /\ length (snd sys) = 6%nat.
Proof.
  refine (proj2 (proj1 assembly_return_value unit_square 1%nat [4%nat] [0; 1; 2; 3]%nat
                       [1] [0.3] [0; 0] 2%nat [0; 1]%Z [0; 0] 0%nat [] [] SIMPLE true)
                eq_refl _).
  split; [simpl; lia |]. split; [repeat constructor; lia |]. split.
  - repeat constructor; simpl; intuition lia.
  - simpl. intros d [<- | [<- | []]]; lia.
Defined.

(** ** The trivial-equation pass on a shared diagonal position *)

(** Evaluation of the source on concrete data: every definition of the
    embedding is unfolded, the arithmetic on reals is left as it stands. *)
Ltac run_code :=
  cbv -[Rplus Rminus Rmult Ropp Rinv Rdiv IZR Q2R R0 R1 Rlt_dec Req_dec_T sqrt Rabs Rpower].

(** C2 does not hold of the code.  The pass writes 1 into every triplet
    on the diagonal of a fixed dof, so with the two triplets at (1, 1) that
    two elements sharing dof 1 contribute, the coordinate-format value at
    (1, 1) is 2, not 1, while the right-hand side at dof 1 is the prescribed
    value 5: the row reads [2 u = 5]. *)
Theorem set_boundary_conditions_shared_diagonal :
  set_boundary_conditions chain_A chain_b 1 [1%Z] [5] = Returns (chain_A_fixed, chain_b_fixed) /\
  coo_value chain_A_fixed 1 1 = 2 /\
  (exists M, sparse2full chain_A_fixed 3 3 = Ok M /\ nth (1 * 3 + 1) M 0 = 2) /\
  nth 1 chain_b_fixed 0 = 5.
Proof.
  split; [run_code; reflexivity |]. split; [run_code; lra |]. split; [| reflexivity].
  run_code. eexists. split; [reflexivity |]. cbn. lra.
Qed.

(** ** Heron's formula in the plane *)

Lemma heron_identity (a b c A B C x : R) :
  a * a = A -> b * b = B -> c * c = C ->
  2 * A * B + 2 * B * C + 2 * A * C - A * A - B * B - C * C = 4 * (x * x) ->
  let s := 0.5 * (a + b + c) in
  s * (s - a) * (s - b) * (s - c) = (x / 2) * (x / 2).
Proof.
  intros Ha Hb Hc H s. subst s. replace 0.5 with (/ 2) by lra.
  replace (/ 2 * (a + b + c) * (/ 2 * (a + b + c) - a) * (/ 2 * (a + b + c) - b)
           * (/ 2 * (a + b + c) - c))
    with ((2 * (a * a) * (b * b) + 2 * (b * b) * (c * c) + 2 * (a * a) * (c * c)
           - (a * a) * (a * a) - (b * b) * (b * b) - (c * c) * (c * c)) / 16) by field.
  rewrite Ha, Hb, Hc, H. field.
Qed.

Lemma norm2_sq (v : list R) :
  norm 2 v * norm 2 v = nth 0 v 0 * nth 0 v 0 + nth 1 v 0 * nth 1 v 0.
Proof.
  unfold norm.
  assert (E : fold_left (fun acc el => acc + el * el) (firstn 2 v) 0
              = nth 0 v 0 * nth 0 v 0 + nth 1 v 0 * nth 1 v 0).
  { destruct v as [|x [|y v]]; simpl; lra. }
  rewrite E. apply sqrt_sqrt. nra.
Qed.

Lemma triarea_2D (a b c : list R) : triarea 2 a b c = Rabs (cross2 a b c) / 2.
Proof.
  unfold triarea.
  rewrite (heron_identity _ _ _ _ _ _ (cross2 a b c)
                          (norm2_sq (pointdiff 2 b a)) (norm2_sq (pointdiff 2 c b))
                          (norm2_sq (pointdiff 2 a c))).
  - fold (Rsqr (cross2 a b c / 2)). rewrite sqrt_Rsqr_abs.
    unfold Rdiv. rewrite Rabs_mult, (Rabs_right (/ 2)) by lra. reflexivity.
  - unfold pointdiff, plc, cross2. cbn [map seq nth]. ring.
Qed.

(** Equality of two lists of reals that are given entry by entry. *)
Ltac real_list := repeat (f_equal; try lra).

Lemma trapezoid_centroid : centroid_2D trapezoid 4 = [7 / 9; 4 / 9].
Proof. run_code. real_list. Qed.

Lemma flat_pairs_length {A : Type} (f g : nat -> A) (n : nat) :
  length (flat_map (fun c => [f c; g c]) (seq 0 n)) = (2 * n)%nat.
Proof.
  induction n as [|n IH]; [reflexivity |].
  rewrite seq_S, flat_map_app, length_app, IH. simpl. lia.
Qed.

Lemma nth_flat_pairs {A : Type} (f g : nat -> A) (n c : nat) (d : A) :
  (c < n)%nat ->
  nth (2 * c) (flat_map (fun c => [f c; g c]) (seq 0 n)) d = f c /\
  nth (2 * c + 1) (flat_map (fun c => [f c; g c]) (seq 0 n)) d = g c.
Proof.
  intros Hc. induction n as [|n IH]; [lia |].
  rewrite seq_S, flat_map_app. simpl flat_map.
  destruct (Nat.eq_dec c n) as [-> | Hn].
  - rewrite !app_nth2; rewrite flat_pairs_length; try lia.
    replace (2 * n - 2 * n)%nat with 0%nat by lia.
    replace (2 * n + 1 - 2 * n)%nat with 1%nat by lia. split; reflexivity.
  - rewrite !app_nth1 by (rewrite flat_pairs_length; lia). apply IH. lia.
Qed.

(** The layout of a tessellation: for every corner [c], triangle [2 c] is
    (centroid, corner [c], midpoint of the edge leaving [c]) and triangle
    [2 c + 1] is (centroid, that midpoint, corner [c + 1]). *)
Lemma face_triangles_layout (Dim : nat) (corners : list R) (n : nat) :
  length (face_triangles Dim corners n) = (2 * n)%nat /\
  forall c, (c < n)%nat ->
            nth (2 * c) (face_triangles Dim corners n) []
            = face_centroid Dim corners n ++ slice corners (Dim * c) Dim
                            ++ edge_midpoint Dim corners n c /\
            nth (2 * c + 1) (face_triangles Dim corners n) []
            = face_centroid Dim corners n ++ edge_midpoint Dim corners n c
                            ++ slice corners (Dim * ((c + 1) mod n)) Dim.
Proof.
  unfold face_triangles, tessellate_face. cbn [andb fst].
  split; [apply flat_pairs_length |]. intros c Hc.
  apply (nth_flat_pairs
           (fun c => face_centroid Dim corners n ++ slice corners (Dim * c) Dim
                                   ++ edge_midpoint Dim corners n c)
           (fun c => face_centroid Dim corners n ++ edge_midpoint Dim corners n c
                                   ++ slice corners (Dim * ((c + 1) mod n)) Dim)
           n c [] Hc).
Qed.

(** [face_integral_impl] weights triangle [2 i] with the value of corner
    [i] and triangle [2 i + 1] with the value of corner [i + 1]. *)
Lemma face_integral_impl_spec (Dim : nat) (corners : list R) (n : nat) (cv : option (list R)) :
  let value i := match cv with Some v => nth i v 0 | None => 1 end in
  let area k := tri_area_of Dim (nth k (face_triangles Dim corners n) []) in
  face_integral_impl Dim corners n cv
  = bigsum n (fun i => area (2 * i)%nat * value i
                       + area (2 * i + 1)%nat * value ((i + 1) mod n)%nat).
Proof.
  intros value area. unfold face_integral_impl. fold (face_triangles Dim corners n).
  rewrite fold_left_ext with
      (g := fun acc i => acc + (area (2 * i)%nat * value i
                                + area (2 * i + 1)%nat * value ((i + 1) mod n)%nat)).
  - rewrite fold_left_add_seq. lra.
  - intros a i _. unfold area, value. destruct cv; lra.
Qed.

Lemma tri_area_of_2D (t : list R) :
  tri_area_of 2 t = Rabs (cross2 t (skipn 2 t) (skipn 4 t)) / 2.
Proof. unfold tri_area_of. apply triarea_2D. Qed.

(** The areas of two triangles of the tessellated trapezoid. *)
Lemma trapezoid_areas :
  tri_area_of 2 (nth 1 (face_triangles 2 trapezoid 4) []) = 2 / 9 /\
  tri_area_of 2 (nth 7 (face_triangles 2 trapezoid 4) []) = 7 / 36.
Proof.
  destruct (face_triangles_layout 2 trapezoid 4) as [_ H].
  destruct (H 0%nat ltac:(lia)) as [_ H1]. destruct (H 3%nat ltac:(lia)) as [_ H7].
  change (2 * 0 + 1)%nat with 1%nat in H1. change (2 * 3 + 1)%nat with 7%nat in H7.
  rewrite H1, H7. unfold face_centroid. cbn [Nat.eqb]. rewrite trapezoid_centroid.
  rewrite !tri_area_of_2D. unfold cross2. run_code.
  split.
  - rewrite Rabs_right by lra. lra.
  - rewrite Rabs_right by lra. lra.
Qed.

(** C5, as stated, fails: with the value 1 at the first corner of the
    trapezoid and 0 at the others, the face integral is the area of
    triangle 0 plus the area of triangle 7 (the last one), not of triangles
    0 and 1. *)
Lemma tessellation_attribution_claim_fails :
  let area k := tri_area_of 2 (nth k (face_triangles 2 trapezoid 4) []) in
  ~ (face_integral_impl 2 trapezoid 4 (Some first_corner_only)
     = bigsum 4 (fun c => nth c first_corner_only 0
                          * (area (2 * c)%nat + area (2 * c + 1)%nat))).
Proof.
  intros area H. rewrite face_integral_impl_spec in H.
  destruct trapezoid_areas as [A1 A7].
  unfold first_corner_only in H.
  cbn [bigsum nth Nat.mul Nat.add Nat.sub Nat.modulo Nat.divmod fst snd] in H.
  subst area. cbv beta in H. rewrite A1, A7 in H. lra.
Qed.

(** ** Loops that add into a buffer *)

Lemma add_at_nth (t : list R) (i j : nat) (x : R) :
  nth j (add_at t i x) 0
  = if (i =? j)%nat && (j <? length t)%nat then nth j t 0 + x else nth j t 0.
Proof.
  unfold add_at. rewrite nth_upd.
  destruct (Nat.eqb_spec i j) as [-> | Hn]; reflexivity.
Qed.

Lemma scatter_nth (idx : nat -> nat) (val : nat -> R) (M : nat) (t : list R) (j : nat) :
  nth j (fold_left (fun t c => add_at t (idx c) (val c)) (seq 0 M) t) 0
  = nth j t 0
    + bigsum M (fun c => if (idx c =? j)%nat && (j <? length t)%nat then val c else 0).
Proof.
  induction M as [|M IH]; [simpl; lra |].
  rewrite seq_S, fold_left_app. simpl fold_left. rewrite add_at_nth, IH.
  rewrite fold_add_at_length. simpl bigsum.
  destruct ((idx M =? j)%nat && (j <? length t)%nat); lra.
Qed.

Lemma seq_shift_map (s n : nat) : seq s n = map (fun d => (s + d)%nat) (seq 0 n).
Proof.
  revert s. induction n as [|n IH]; intros s; [reflexivity |].
  simpl. rewrite Nat.add_0_r. f_equal. rewrite (IH (S s)), <- seq_shift, map_map.
  apply map_ext. intros; lia.
Qed.

Lemma fold_left_map {A B C : Type} (f : A -> B -> A) (g : C -> B) (l : list C) (a : A) :
  fold_left f (map g l) a = fold_left (fun a x => f a (g x)) l a.
Proof. revert a. induction l as [|x l IH]; intros a; simpl; auto. Qed.

(** A loop nest over [(c, d)] as one loop over [e = c * m + d]. *)
Lemma fold_nested {A : Type} (F : A -> nat -> nat -> A) (m M : nat) (t : A) :
  (0 < m)%nat ->
  fold_left (fun t c => fold_left (fun t d => F t c d) (seq 0 m) t) (seq 0 M) t
  = fold_left (fun t e => F t (e / m)%nat (e mod m)%nat) (seq 0 (M * m)) t.
Proof.
  intros Hm. induction M as [|M IH]; [reflexivity |].
  replace (S M * m)%nat with (M * m + m)%nat by lia.
  rewrite (seq_S M 0), fold_left_app, IH. cbn [fold_left].
  rewrite (seq_app (M * m) m 0), fold_left_app. rewrite !Nat.add_0_l.
  rewrite (seq_shift_map (M * m) m), fold_left_map.
  apply fold_left_ext. intros a d Hd. apply in_seq in Hd.
  rewrite Nat.div_add_l, Nat.div_small, Nat.add_0_r by lia.
  rewrite Nat.add_comm, Nat.Div0.mod_add, Nat.mod_small by lia. reflexivity.
Qed.

Lemma bigsum_app (n m : nat) (f : nat -> R) :
  bigsum (n + m) f = bigsum n f + bigsum m (fun d => f (n + d)%nat).
Proof.
  induction m as [|m IH].
  - rewrite Nat.add_0_r. simpl. lra.
  - rewrite Nat.add_succ_r. simpl. rewrite IH. lra.
Qed.

Lemma bigsum_nested (m M : nat) (f : nat -> R) :
  bigsum (M * m) f = bigsum M (fun c => bigsum m (fun d => f (c * m + d)%nat)).
Proof.
  induction M as [|M IH]; [reflexivity |].
  replace (S M * m)%nat with (M * m + m)%nat by lia.
  rewrite bigsum_app, IH. reflexivity.
Qed.

(** The one term of a sum that a condition true at a single index leaves. *)
Lemma bigsum_single (n i : nat) (P : nat -> bool) (f : nat -> R) :
  (i < n)%nat -> (forall k, (k < n)%nat -> P k = true <-> k = i) ->
  bigsum n (fun k => if P k then f k else 0) = f i.
Proof.
  intros Hi HP.
  rewrite (bigsum_ext n _ (fun k => if (k =? i)%nat then f k else 0)).
  - apply bigsum_delta. exact Hi.
  - intros k Hk. specialize (HP k Hk).
    destruct (P k), (Nat.eqb_spec k i); try reflexivity.
    + exfalso. apply n0, HP. reflexivity.
    + exfalso. destruct HP as [_ HP]. specialize (HP e). discriminate.
Qed.

(** ** Which corner a triangle is credited to *)

Lemma corner_of_triangle_even (c n : nat) :
  (c < n)%nat -> corner_of_triangle (2 * c) n = c.
Proof.
  intros H. unfold corner_of_triangle.
  replace (2 * c)%nat with (c * 2)%nat by lia.
  rewrite Nat.div_mul, Nat.Div0.mod_mul by lia. rewrite Nat.add_0_r. apply Nat.mod_small, H.
Qed.

Lemma corner_of_triangle_odd (c n : nat) :
  corner_of_triangle (2 * c + 1) n = ((c + 1) mod n)%nat.
Proof.
  unfold corner_of_triangle.
  replace (2 * c + 1)%nat with (1 + c * 2)%nat by lia.
  rewrite Nat.div_add, Nat.Div0.mod_add by lia.
  change (1 / 2)%nat with 0%nat. change (1 mod 2)%nat with 1%nat. f_equal.
Qed.

Lemma cyclic_pred (n m k : nat) :
  (m < n)%nat -> (k < n)%nat -> (((m + 1) mod n)%nat = k <-> m = ((k + n - 1) mod n)%nat).
Proof.
  intros Hm Hk. destruct (Nat.eq_dec (m + 1) n) as [E | E].
  - rewrite E, Nat.Div0.mod_same. split.
    + intros <-. rewrite Nat.mod_small by lia. lia.
    + intros H. destruct (Nat.eq_dec k 0) as [-> | Hk0]; [reflexivity |].
      replace (k + n - 1)%nat with (k - 1 + 1 * n)%nat in H by lia.
      rewrite Nat.Div0.mod_add, Nat.mod_small in H by lia. lia.
  - rewrite Nat.mod_small by lia. split.
    + intros <-. replace (m + 1 + n - 1)%nat with (m + 1 * n)%nat by lia.
      rewrite Nat.Div0.mod_add, Nat.mod_small by lia. reflexivity.
    + intros H. destruct (Nat.eq_dec k 0) as [-> | Hk0].
      * rewrite Nat.mod_small in H by lia. lia.
      * replace (k + n - 1)%nat with (k - 1 + 1 * n)%nat in H by lia.
        rewrite Nat.Div0.mod_add, Nat.mod_small in H by lia. lia.
Qed.

Lemma triangle_before_spec (k n : nat) :
  (k < n)%nat -> triangle_before k n = (2 * ((k + n - 1) mod n) + 1)%nat.
Proof.
  intros H. unfold triangle_before. destruct (Nat.eq_dec k 0) as [-> | Hk].
  - rewrite !Nat.mod_small by lia. lia.
  - replace (2 * k + 2 * n - 1)%nat with (2 * k - 1 + 1 * (2 * n))%nat by lia.
    replace (k + n - 1)%nat with (k - 1 + 1 * n)%nat by lia.
    rewrite !Nat.Div0.mod_add, !Nat.mod_small by lia. lia.
Qed.

(** [compute_bodyforce_2D] gives corner [k] the areas of triangle [2 k] and
    of the triangle before it. *)
Lemma compute_bodyforce_2D_spec (points : list R) (cell_corners : list nat) (n : nat)
      (bforce target : list R) (k d : nat) :
  let coords := pick_points 2 points cell_corners n in
  let area t := tri_area_of 2 (nth t (face_triangles 2 coords n) []) in
  (k < n)%nat -> (d < 2)%nat -> (2 * n <= length target)%nat ->
  nth (2 * k + d) (compute_bodyforce_2D points cell_corners n bforce target) 0
  = nth (2 * k + d) target 0
    + nth d bforce 0 * (area (2 * k)%nat + area (triangle_before k n)).
Proof.
  intros coords area Hk Hd Hlen. unfold compute_bodyforce_2D.
  fold coords. fold (face_triangles 2 coords n).
  rewrite (fold_nested
             (fun target c d =>
                add_at target (2 * corner_of_triangle c n + d)
                       (nth d bforce 0 * tri_area_of 2 (nth c (face_triangles 2 coords n) [])))
             2 (2 * n) target) by lia.
  rewrite (scatter_nth (fun e => (2 * corner_of_triangle (e / 2) n + e mod 2)%nat)
                       (fun e => nth (e mod 2) bforce 0 * area (e / 2)%nat)).
  f_equal.
  destruct (Nat.ltb_spec (2 * k + d) (length target)) as [_ | ?]; [| lia].
  (* the steps that hit dof [2 k + d] are those of the triangles of corner [k] *)
  rewrite (bigsum_nested 2 (2 * n)).
  rewrite (bigsum_ext (2 * n) _
             (fun c => if (corner_of_triangle c n =? k)%nat
                       then nth d bforce 0 * area c else 0)).
  2:{ intros c _. cbn [bigsum].
      rewrite !Nat.div_add_l, !Nat.add_comm with (n := (c * 2)%nat), !Nat.Div0.mod_add by lia.
      change (0 / 2)%nat with 0%nat. change (1 / 2)%nat with 0%nat.
      change (0 mod 2)%nat with 0%nat. change (1 mod 2)%nat with 1%nat.
      rewrite !Nat.add_0_r, !andb_true_r.
      destruct (Nat.eqb_spec (corner_of_triangle c n) k) as [E | E];
        destruct (Nat.eqb_spec (2 * corner_of_triangle c n) (2 * k + d)) as [E0 | E0];
        destruct (Nat.eqb_spec (2 * corner_of_triangle c n + 1) (2 * k + d)) as [E1 | E1];
        try lia; try lra.
      - assert (d = 0%nat) by lia. subst d. lra.
      - assert (d = 1%nat) by lia. subst d. lra. }
  replace (2 * n)%nat with (n * 2)%nat by lia. rewrite (bigsum_nested 2 n).
  rewrite (bigsum_ext n _
             (fun m => (if (m =? k)%nat then nth d bforce 0 * area (2 * m)%nat else 0)
                       + (if ((m + 1) mod n =? k)%nat
                          then nth d bforce 0 * area (2 * m + 1)%nat else 0))).
  2:{ intros m Hm. cbn [bigsum].
      replace (m * 2 + 0)%nat with (2 * m)%nat by lia.
      replace (m * 2 + 1)%nat with (2 * m + 1)%nat by lia.
      rewrite corner_of_triangle_even, corner_of_triangle_odd by assumption. lra. }
  rewrite bigsum_plus, bigsum_delta by assumption.
  rewrite (bigsum_single n ((k + n - 1) mod n) (fun m => ((m + 1) mod n =? k)%nat)
                         (fun m => nth d bforce 0 * area (2 * m + 1)%nat)).
  - rewrite triangle_before_spec by assumption. lra.
  - apply Nat.mod_upper_bound. lia.
  - intros m Hm. rewrite Nat.eqb_eq. apply cyclic_pred; assumption.
Qed.

Lemma pick_points_length (Dim : nat) (pts : list R) (ixs : list nat) (n : nat) :
  length (pick_points Dim pts ixs n) = (n * Dim)%nat.
Proof. unfold pick_points. apply flat_rows_length. Qed.

Lemma last_nth {A : Type} (l : list A) (d : A) : last l d = nth (length l - 1) l d.
Proof.
  induction l as [|x l IH]; [reflexivity |].
  destruct l as [|y l]; [reflexivity |].
  change (last (x :: y :: l) d) with (last (y :: l) d). rewrite IH. simpl.
  rewrite Nat.sub_0_r. reflexivity.
Qed.

(** [compute_bodyforce_3D] gives corner [c] of a face the volumes over
    triangle [2 c] and over the triangle before it. *)
Lemma bodyforce_3D_face_spec (points : list R) (face_corners : list nat) (nfc start : nat)
      (centroid bforce b : list R) (c d : nat) :
  let coords := pick_points 3 points (skipn start face_corners) nfc in
  let vol t := tet_volume_of (nth t (face_triangles 3 coords nfc) []) centroid in
  let node c := nth (start + c) face_corners 0%nat in
  (c < nfc)%nat -> (d < 3)%nat ->
  (forall c', (c' < nfc)%nat -> node c' = node c -> c' = c) ->
  (3 * node c + d < length b)%nat ->
  nth (3 * node c + d) (bodyforce_3D_face points face_corners nfc start centroid bforce b) 0
  = nth (3 * node c + d) b 0
    + (vol (2 * c)%nat + vol (triangle_before c nfc)) * nth d bforce 0.
Proof.
  intros coords vol node Hc Hd Hinj Hlen. unfold bodyforce_3D_face, tessellate_face_vec.
  rewrite pick_points_length, Nat.div_mul by lia. fold coords.
  fold (face_triangles 3 coords nfc).
  destruct (face_triangles_layout 3 coords nfc) as [Ltris _].
  rewrite (fold_left_ext _
             (fun b c =>
                fold_left
                  (fun b d => add_at b (3 * node c + d)
                                     ((vol (2 * c)%nat + vol (triangle_before c nfc))
                                      * nth d bforce 0))
                  (seq 0 3) b)).
  2:{ intros a c' Hc'. apply in_seq in Hc'.
      assert (T : (if (c' =? 0)%nat then last (face_triangles 3 coords nfc) []
                   else nth (2 * c' - 1) (face_triangles 3 coords nfc) [])
                  = nth (triangle_before c' nfc) (face_triangles 3 coords nfc) []).
      { unfold triangle_before. destruct (Nat.eqb_spec c' 0) as [-> | Hn].
        - rewrite last_nth, Ltris. f_equal. rewrite Nat.mod_small by lia. lia.
        - f_equal. replace (2 * c' + 2 * nfc - 1)%nat with (2 * c' - 1 + 1 * (2 * nfc))%nat by lia.
          rewrite Nat.Div0.mod_add, Nat.mod_small by lia. reflexivity. }
      rewrite T. reflexivity. }
  rewrite (fold_nested
             (fun b c d => add_at b (3 * node c + d)
                                  ((vol (2 * c)%nat + vol (triangle_before c nfc))
                                   * nth d bforce 0))
             3 nfc b) by lia.
  rewrite (scatter_nth (fun e => (3 * node (e / 3) + e mod 3)%nat)
                       (fun e => (vol (2 * (e / 3))%nat + vol (triangle_before (e / 3) nfc))
                                 * nth (e mod 3) bforce 0)).
  f_equal.
  destruct (Nat.ltb_spec (3 * node c + d) (length b)) as [_ | ?]; [| lia].
  rewrite (bigsum_nested 3 nfc).
  rewrite (bigsum_ext nfc _
             (fun c' => if (node c' =? node c)%nat
                        then (vol (2 * c')%nat + vol (triangle_before c' nfc)) * nth d bforce 0
                        else 0)).
  - rewrite (bigsum_single nfc c (fun c' => (node c' =? node c)%nat)
                           (fun c' => (vol (2 * c')%nat + vol (triangle_before c' nfc))
                                      * nth d bforce 0)); [reflexivity | exact Hc |].
    intros c' Hc'. rewrite Nat.eqb_eq. split; [apply Hinj; exact Hc' | intros ->; reflexivity].
  - intros c' _. cbn [bigsum].
    rewrite !Nat.div_add_l, !Nat.add_comm with (n := (c' * 3)%nat), !Nat.Div0.mod_add by lia.
    change (0 / 3)%nat with 0%nat. change (1 / 3)%nat with 0%nat. change (2 / 3)%nat with 0%nat.
    change (0 mod 3)%nat with 0%nat. change (1 mod 3)%nat with 1%nat.
    change (2 mod 3)%nat with 2%nat.
    rewrite !Nat.add_0_r, !andb_true_r.
    destruct (Nat.eqb_spec (node c') (node c)) as [E | E];
      destruct (Nat.eqb_spec (3 * node c') (3 * node c + d)) as [E0 | E0];
      destruct (Nat.eqb_spec (3 * node c' + 1) (3 * node c + d)) as [E1 | E1];
      destruct (Nat.eqb_spec (3 * node c' + 2) (3 * node c + d)) as [E2 | E2];
      try lia; try lra.
    + assert (d = 0%nat) by lia. subst d. lra.
    + assert (d = 1%nat) by lia. subst d. lra.
    + assert (d = 2%nat) by lia. subst d. lra.
Qed.

(** C5 (amended).  In the tessellation of a face with [skip_if_tri = false]
    the triangles [2 c] and [2 c + 1] lie on the edge that leaves corner
    [c]: triangle [2 c] is (centroid, corner [c], edge midpoint) and
    triangle [2 c + 1] is (centroid, edge midpoint, corner [c + 1], cyclically).
    The consumers credit triangle [2 c] to corner [c] and triangle
    [2 c + 1] to corner [c + 1]: [face_integral] weights them with the
    values of those corners, and the 2D and 3D body-force distributions give
    corner [c] the areas (volumes) of triangle [2 c] and of the triangle
    before it ([2 c - 1], or the last one for [c = 0]). *)
Theorem tessellation_attribution :
  (forall Dim corners n,
      length (face_triangles Dim corners n) = (2 * n)%nat /\
      forall c, (c < n)%nat ->
                nth (2 * c) (face_triangles Dim corners n) []
                = face_centroid Dim corners n ++ slice corners (Dim * c) Dim
                                ++ edge_midpoint Dim corners n c /\
                nth (2 * c + 1) (face_triangles Dim corners n) []
                = face_centroid Dim corners n ++ edge_midpoint Dim corners n c
                                ++ slice corners (Dim * ((c + 1) mod n)) Dim) /\
  (forall Dim corners n corner_values,
      let value i := match corner_values with Some v => nth i v 0 | None => 1 end in
      let area k := tri_area_of Dim (nth k (face_triangles Dim corners n) []) in
      face_integral_impl Dim corners n corner_values
      = bigsum n (fun i => area (2 * i)%nat * value i
                           + area (2 * i + 1)%nat * value ((i + 1) mod n)%nat)) /\
  (forall points cell_corners n bforce target k d,
      let coords := pick_points 2 points cell_corners n in
      let area t := tri_area_of 2 (nth t (face_triangles 2 coords n) []) in
      (k < n)%nat -> (d < 2)%nat -> (2 * n <= length target)%nat ->
      nth (2 * k + d) (compute_bodyforce_2D points cell_corners n bforce target) 0
      = nth (2 * k + d) target 0
        + nth d bforce 0 * (area (2 * k)%nat + area (triangle_before k n))) /\
  (forall points face_corners nfc start centroid bforce b c d,
      let coords := pick_points 3 points (skipn start face_corners) nfc in
      let vol t := tet_volume_of (nth t (face_triangles 3 coords nfc) []) centroid in
      let node c := nth (start + c) face_corners 0%nat in
      (c < nfc)%nat -> (d < 3)%nat ->
      (forall c', (c' < nfc)%nat -> node c' = node c -> c' = c) ->
      (3 * node c + d < length b)%nat ->
      nth (3 * node c + d) (bodyforce_3D_face points face_corners nfc start centroid bforce b) 0
      = nth (3 * node c + d) b 0
        + (vol (2 * c)%nat + vol (triangle_before c nfc)) * nth d bforce 0).
Proof.
  split; [exact face_triangles_layout |].
  split; [exact face_integral_impl_spec |].
  split; [exact compute_bodyforce_2D_spec | exact bodyforce_3D_face_spec].
Qed.

(** ** Algebra of matrix products *)

Lemma bigsum_minus (n : nat) (f g : nat -> R) :
  bigsum n (fun k => f k - g k) = bigsum n f - bigsum n g.
Proof. induction n as [|n IH]; simpl; [| rewrite IH]; lra. Qed.

Lemma mmul_madd_l (n : nat) (A B C : matrix) (i j : nat) :
  mmul n (madd A B) C i j = mmul n A C i j + mmul n B C i j.
Proof.
  unfold mmul, madd. rewrite <- bigsum_plus. apply bigsum_ext. intros; lra.
Qed.

Lemma mmul_madd_r (n : nat) (A B C : matrix) (i j : nat) :
  mmul n A (madd B C) i j = mmul n A B i j + mmul n A C i j.
Proof.
  unfold mmul, madd. rewrite <- bigsum_plus. apply bigsum_ext. intros; lra.
Qed.

Lemma mmul_msub_l (n : nat) (A B C : matrix) (i j : nat) :
  mmul n (msub A B) C i j = mmul n A C i j - mmul n B C i j.
Proof.
  unfold mmul, msub. rewrite <- bigsum_minus. apply bigsum_ext. intros; lra.
Qed.

Lemma mmul_msub_r (n : nat) (A B C : matrix) (i j : nat) :
  mmul n A (msub B C) i j = mmul n A B i j - mmul n A C i j.
Proof.
  unfold mmul, msub. rewrite <- bigsum_minus. apply bigsum_ext. intros; lra.
Qed.

Lemma mmul_mid_l (n : nat) (A : matrix) (i j : nat) :
  (i < n)%nat -> mmul n mid A i j = A i j.
Proof.
  intros Hi. unfold mmul, mid.
  rewrite (bigsum_ext n _ (fun k => if (k =? i)%nat then A k j else 0)).
  - apply (bigsum_delta n i (fun k => A k j)). exact Hi.
  - intros k _. rewrite Nat.eqb_sym. destruct (k =? i)%nat; lra.
Qed.

Lemma mmul_mid_r (n : nat) (A : matrix) (i j : nat) :
  (j < n)%nat -> mmul n A mid i j = A i j.
Proof.
  intros Hj. unfold mmul, mid.
  rewrite (bigsum_ext n _ (fun k => if (k =? j)%nat then A i k else 0)).
  - apply (bigsum_delta n j (fun k => A i k)). exact Hj.
  - intros k _. destruct (k =? j)%nat; lra.
Qed.

Lemma mmul_mzero_r (n : nat) (A B : matrix) (i j : nat) :
  (forall k, (k < n)%nat -> B k j = 0) -> mmul n A B i j = 0.
Proof.
  intros H. unfold mmul. apply bigsum_zero. intros k Hk. rewrite H by assumption. lra.
Qed.

(** [N W^T] is a projector when [W^T N] is the identity. *)
Section Projector.
Variables (r c : nat) (NR NC WR WC : matrix).
Hypothesis Grr : meq c c (mmul r (mtrans WR) NR) mid.
Hypothesis Grc : meq c c (mmul r (mtrans WR) NC) mzero.
Hypothesis Gcr : meq c c (mmul r (mtrans WC) NR) mzero.
Hypothesis Gcc : meq c c (mmul r (mtrans WC) NC) mid.

Lemma sandwich_id (N W N' W' : matrix) (i j : nat) :
  meq c c (mmul r (mtrans W) N') mid ->
  mmul r (mmul c N (mtrans W)) (mmul c N' (mtrans W')) i j = mmul c N (mtrans W') i j.
Proof.
  intros G. rewrite mmul_assoc. apply mmul_ext; [reflexivity |]. intros a Ha.
  rewrite <- mmul_assoc.
  rewrite (mmul_ext c (mmul r (mtrans W) N') mid (mtrans W') (mtrans W') a j).
  - apply mmul_mid_l. exact Ha.
  - intros b Hb. apply G; assumption.
  - reflexivity.
Qed.

Lemma sandwich_zero (N W N' W' : matrix) (i j : nat) :
  meq c c (mmul r (mtrans W) N') mzero ->
  mmul r (mmul c N (mtrans W)) (mmul c N' (mtrans W')) i j = 0.
Proof.
  intros G. rewrite mmul_assoc. apply mmul_mzero_r. intros a Ha.
  rewrite <- mmul_assoc. unfold mmul at 1. apply bigsum_zero. intros b Hb.
  rewrite (G a b Ha Hb). unfold mzero. lra.
Qed.

Lemma projector_square (i j : nat) :
  mmul r (projector c NR NC WR WC) (projector c NR NC WR WC) i j
  = projector c NR NC WR WC i j.
Proof.
  unfold projector. rewrite mmul_madd_l, !mmul_madd_r.
  rewrite (sandwich_id NR WR NR WR i j Grr), (sandwich_zero NR WR NC WC i j Grc).
  rewrite (sandwich_zero NC WC NR WR i j Gcr), (sandwich_id NC WC NC WC i j Gcc).
  unfold madd. lra.
Qed.

Lemma complement_idempotent (ImP : list R) :
  meq r r (of_flat r ImP) (msub mid (projector c NR NC WR WC)) -> idempotent r ImP.
Proof.
  intros H i j Hi Hj.
  rewrite (mmul_ext r (of_flat r ImP) (msub mid (projector c NR NC WR WC))
                    (of_flat r ImP) (msub mid (projector c NR NC WR WC)))
    by (intros k Hk; apply H; assumption).
  rewrite (H i j Hi Hj).
  rewrite mmul_msub_l, !mmul_msub_r.
  rewrite mmul_mid_l, !mmul_mid_r, projector_square by assumption.
  unfold msub, mid. rewrite mmul_mid_l by assumption. lra.
Qed.

(** [P] fixes the columns of [NR] and of [NC]. *)
Lemma projector_fixes (i j : nat) :
  (j < c)%nat ->
  mmul r (projector c NR NC WR WC) NR i j = NR i j /\
  mmul r (projector c NR NC WR WC) NC i j = NC i j.
Proof.
  intros Hj. unfold projector. rewrite !mmul_madd_l, !mmul_assoc. split.
  - rewrite (mmul_ext c NR NR (mmul r (mtrans WR) NR) mid i j)
      by (intros; try reflexivity; apply Grr; assumption).
    rewrite (mmul_mzero_r c NC (mmul r (mtrans WC) NR) i j)
      by (intros k Hk; apply (Gcr k j Hk Hj)).
    rewrite mmul_mid_r by assumption. lra.
  - rewrite (mmul_mzero_r c NR (mmul r (mtrans WR) NC) i j)
      by (intros k Hk; apply (Grc k j Hk Hj)).
    rewrite (mmul_ext c NC NC (mmul r (mtrans WC) NC) mid i j)
      by (intros; try reflexivity; apply Gcc; assumption).
    rewrite mmul_mid_r by assumption. lra.
Qed.

Lemma complement_annihilates (ImP : list R) (i j : nat) :
  meq r r (of_flat r ImP) (msub mid (projector c NR NC WR WC)) -> (i < r)%nat -> (j < c)%nat ->
  mmul r (of_flat r ImP) NR i j = 0 /\ mmul r (of_flat r ImP) NC i j = 0.
Proof.
  intros H Hi Hj. destruct (projector_fixes i j Hj) as [F1 F2].
  rewrite (mmul_ext r (of_flat r ImP) (msub mid (projector c NR NC WR WC)) NR NR i j)
    by (intros; try reflexivity; apply H; assumption).
  rewrite (mmul_ext r (of_flat r ImP) (msub mid (projector c NR NC WR WC)) NC NC i j)
    by (intros; try reflexivity; apply H; assumption).
  rewrite !mmul_msub_l, !mmul_mid_l, F1, F2 by assumption. lra.
Qed.
End Projector.

(** ** Sums of products of block entries *)

Lemma bigsum_const0 (n : nat) : bigsum n (fun _ => 0) = 0.
Proof. apply bigsum_zero. reflexivity. Qed.

Lemma bigsum_0l (n : nat) (g : nat -> R) : bigsum n (fun i => 0 * g i) = 0.
Proof. apply bigsum_zero. intros; lra. Qed.

Lemma bigsum_0r (n : nat) (f : nat -> R) : bigsum n (fun i => f i * 0) = 0.
Proof. apply bigsum_zero. intros; lra. Qed.

Lemma bigsum_negl (n : nat) (f g : nat -> R) :
  bigsum n (fun i => - f i * g i) = - bigsum n (fun i => f i * g i).
Proof.
  rewrite <- (Rmult_1_l (bigsum n (fun i => f i * g i))), Ropp_mult_distr_l, <- bigsum_scal.
  apply bigsum_ext. intros; lra.
Qed.

Lemma bigsum_negr (n : nat) (f g : nat -> R) :
  bigsum n (fun i => f i * - g i) = - bigsum n (fun i => f i * g i).
Proof.
  rewrite <- (Rmult_1_l (bigsum n (fun i => f i * g i))), Ropp_mult_distr_l, <- bigsum_scal.
  apply bigsum_ext. intros; lra.
Qed.

Lemma bigsum_2l (n : nat) (f g : nat -> R) :
  bigsum n (fun i => 2 * f i * g i) = 2 * bigsum n (fun i => f i * g i).
Proof. rewrite <- bigsum_scal. apply bigsum_ext. intros; lra. Qed.

Lemma bigsum_const (n : nat) (c : R) : bigsum n (fun _ => c) = INR n * c.
Proof.
  induction n as [|n IH]; [simpl; lra |].
  change (bigsum (S n) (fun _ => c)) with (bigsum n (fun _ => c) + c).
  rewrite IH, S_INR. lra.
Qed.

(** Pushes a sum of products of block entries down to the sums of the
    products of their atoms. *)
Ltac split_sums :=
  repeat (rewrite bigsum_plus);
  repeat first [ rewrite bigsum_const0 | rewrite bigsum_0l | rewrite bigsum_0r
               | rewrite bigsum_negl | rewrite bigsum_negr | rewrite bigsum_2l ].

(** The sums over the nodes that the entries of [W^T N] reduce to. *)
Lemma node_sums (dim : nat) (corners q : list R) (n : nat) :
  (1 <= n)%nat -> q_moments dim corners q n ->
  let m := point_average dim corners n in
  bigsum n (fun _ => 1 / INR n * 1) = 1 /\
  (forall b, (b < dim)%nat ->
             bigsum n (fun i => 1 / INR n * (nth (dim * i + b) corners 0 - nth b m 0)) = 0) /\
  (forall a, (a < dim)%nat -> bigsum n (fun i => nth (dim * i + a) q 0 * 1) = 0) /\
  (forall a b, (a < dim)%nat -> (b < dim)%nat ->
               bigsum n (fun i => nth (dim * i + a) q 0
                                  * (nth (dim * i + b) corners 0 - nth b m 0))
               = if (a =? b)%nat then 1 / 2 else 0).
Proof.
  intros Hn [Q0 Q1] m.
  assert (Hn' : INR n <> 0) by (apply not_0_INR; lia).
  assert (Hm : forall b, (b < dim)%nat ->
                         nth b m 0 = bigsum n (fun i => nth (dim * i + b) corners 0) / INR n).
  { intros b Hb. unfold m. rewrite point_average_spec.
    rewrite (nth_map_seq (fun d => bigsum n (fun i => nth (dim * i + d) corners 0) / INR n)
                         dim b 0 Hb). reflexivity. }
  split; [rewrite bigsum_const; field; exact Hn' |]. split; [| split].
  - intros b Hb. rewrite bigsum_scal, bigsum_minus, bigsum_const, (Hm b Hb). field. exact Hn'.
  - intros a Ha. rewrite bigsum_scal_r, (Q0 a Ha). lra.
  - intros a b Ha Hb.
    rewrite (bigsum_ext n _ (fun i => nth (dim * i + a) q 0 * nth (dim * i + b) corners 0
                                      - nth b m 0 * nth (dim * i + a) q 0))
      by (intros; lra).
    rewrite bigsum_minus, bigsum_scal, (Q0 a Ha), (Q1 a b Ha Hb). lra.
Qed.

(** ** The Gram matrices of the block matrices *)

(** An entry of [W^T N] for two matrices stored as one block per node. *)
Lemma gram_blocks (gw gn : nat -> list R) (n dim c a b : nat) :
  (forall i, length (gw i) = (dim * c)%nat) -> (forall i, length (gn i) = (dim * c)%nat) ->
  (a < c)%nat -> (b < c)%nat ->
  mmul (dim * n) (mtrans (of_flat c (flat_map gw (seq 0 n))))
       (of_flat c (flat_map gn (seq 0 n))) a b
  = bigsum n (fun i => bigsum dim (fun d => nth (d * c + a) (gw i) 0 * nth (d * c + b) (gn i) 0)).
Proof.
  intros Lw Ln Ha Hb. unfold mmul, mtrans, of_flat.
  replace (dim * n)%nat with (n * dim)%nat by lia. rewrite bigsum_nested.
  apply bigsum_ext. intros i Hi. apply bigsum_ext. intros d Hd.
  replace ((i * dim + d) * c + a)%nat with (i * (dim * c) + (d * c + a))%nat by lia.
  replace ((i * dim + d) * c + b)%nat with (i * (dim * c) + (d * c + b))%nat by lia.
  rewrite (nth_flat_blocks gw n (dim * c) i (d * c + a) Lw Hi) by nia.
  rewrite (nth_flat_blocks gn n (dim * c) i (d * c + b) Ln Hi) by nia.
  reflexivity.
Qed.

Lemma gram_blocks_2D (gw gn : nat -> list R) (n a b : nat) :
  (forall i, length (gw i) = 6%nat) -> (forall i, length (gn i) = 6%nat) ->
  (a < 3)%nat -> (b < 3)%nat ->
  mmul (2 * n) (mtrans (of_flat 3 (flat_map gw (seq 0 n))))
       (of_flat 3 (flat_map gn (seq 0 n))) a b
  = bigsum n (fun i => nth a (gw i) 0 * nth b (gn i) 0
                       + nth (3 + a) (gw i) 0 * nth (3 + b) (gn i) 0).
Proof.
  intros Lw Ln Ha Hb. rewrite (gram_blocks gw gn n 2 3 a b Lw Ln Ha Hb).
  apply bigsum_ext. intros i _. cbn [bigsum Nat.mul Nat.add]. lra.
Qed.

Lemma gram_blocks_3D (gw gn : nat -> list R) (n a b : nat) :
  (forall i, length (gw i) = 18%nat) -> (forall i, length (gn i) = 18%nat) ->
  (a < 6)%nat -> (b < 6)%nat ->
  mmul (3 * n) (mtrans (of_flat 6 (flat_map gw (seq 0 n))))
       (of_flat 6 (flat_map gn (seq 0 n))) a b
  = bigsum n (fun i => nth a (gw i) 0 * nth b (gn i) 0
                       + nth (6 + a) (gw i) 0 * nth (6 + b) (gn i) 0
                       + nth (12 + a) (gw i) 0 * nth (12 + b) (gn i) 0).
Proof.
  intros Lw Ln Ha Hb. rewrite (gram_blocks gw gn n 3 6 a b Lw Ln Ha Hb).
  apply bigsum_ext. intros i _. cbn [bigsum Nat.mul Nat.add]. lra.
Qed.

Lemma compute_Wr_2D_eq (q : list R) (n : nat) :
  length q = (n * 2)%nat ->
  compute_Wr_2D q
  = Ok (flat_map (fun i => matentry_2D (1 / INR n) (nth (2 * i + 1) q 0)
                                       (1 / INR n) (- nth (2 * i) q 0))
                 (seq 0 n)).
Proof.
  intros L. unfold compute_Wr_2D. rewrite L, Nat.div_mul, Nat.eqb_refl by lia. reflexivity.
Qed.

Lemma compute_Wc_2D_eq (q : list R) (n : nat) :
  length q = (n * 2)%nat ->
  compute_Wc_2D q
  = Ok (flat_map (fun i => matentry_2D (2 * nth (2 * i) q 0) (nth (2 * i + 1) q 0)
                                       (2 * nth (2 * i + 1) q 0) (nth (2 * i) q 0))
                 (seq 0 n)).
Proof.
  intros L. unfold compute_Wc_2D. rewrite L, Nat.div_mul, Nat.eqb_refl by lia. reflexivity.
Qed.

#[export] Instance bigsum_pointwise (n : nat) :
  Proper (pointwise_relation nat eq ==> eq) (bigsum n).
Proof. intros f g H. apply bigsum_ext. intros i _. apply H. Qed.

(** The node sums of a 2D cell, with the subscripts as the code writes them. *)
Lemma node_sums_2D (corners q : list R) (n : nat) :
  (1 <= n)%nat -> q_moments 2 corners q n ->
  let m := point_average 2 corners n in
  let x i := nth (2 * i) corners 0 - nth 0 m 0 in
  let y i := nth (2 * i + 1) corners 0 - nth 1 m 0 in
  let q1 i := nth (2 * i) q 0 in
  let q2 i := nth (2 * i + 1) q 0 in
  bigsum n (fun _ => 1 / INR n * 1) = 1 /\
  (bigsum n (fun i => 1 / INR n * x i) = 0 /\ bigsum n (fun i => 1 / INR n * y i) = 0) /\
  (bigsum n (fun i => q1 i * 1) = 0 /\ bigsum n (fun i => q2 i * 1) = 0) /\
  (bigsum n (fun i => q1 i * x i) = 1 / 2 /\ bigsum n (fun i => q1 i * y i) = 0 /\
   bigsum n (fun i => q2 i * x i) = 0 /\ bigsum n (fun i => q2 i * y i) = 1 / 2).
Proof.
  intros Hn Hq. cbv zeta.
  destruct (node_sums 2 corners q n Hn Hq) as (F1 & F2 & F3 & F4).
  pose proof (F2 0%nat ltac:(lia)) as F20. pose proof (F2 1%nat ltac:(lia)) as F21.
  pose proof (F3 0%nat ltac:(lia)) as F30. pose proof (F3 1%nat ltac:(lia)) as F31.
  pose proof (F4 0%nat 0%nat ltac:(lia) ltac:(lia)) as F400.
  pose proof (F4 0%nat 1%nat ltac:(lia) ltac:(lia)) as F401.
  pose proof (F4 1%nat 0%nat ltac:(lia) ltac:(lia)) as F410.
  pose proof (F4 1%nat 1%nat ltac:(lia) ltac:(lia)) as F411.
  cbn [Nat.eqb] in F400, F401, F410, F411.
  setoid_rewrite Nat.add_0_r in F20. setoid_rewrite Nat.add_0_r in F30.
  setoid_rewrite Nat.add_0_r in F400. setoid_rewrite Nat.add_0_r in F401.
  setoid_rewrite Nat.add_0_r in F410.
  repeat split; assumption.
Qed.

Ltac three_cases a H :=
  destruct a as [|[|[|a]]]; [| | | exfalso; lia].

(** [W^T N] is the identity on the diagonal blocks and zero off them: the
    2D matrices as [compute_Nr_2D] ... [compute_Wc_2D] store them. *)
Lemma gram_2D (corners q Wr Wc : list R) (n : nat) :
  (1 <= n)%nat -> length q = (n * 2)%nat -> q_moments 2 corners q n ->
  compute_Wr_2D q = Ok Wr -> compute_Wc_2D q = Ok Wc ->
  let NR := of_flat 3 (compute_Nr_2D corners n) in
  let NC := of_flat 3 (compute_Nc_2D corners n) in
  let WR := of_flat 3 Wr in
  let WC := of_flat 3 Wc in
  meq 3 3 (mmul (2 * n) (mtrans WR) NR) mid /\
  meq 3 3 (mmul (2 * n) (mtrans WR) NC) mzero /\
  meq 3 3 (mmul (2 * n) (mtrans WC) NR) mzero /\
  meq 3 3 (mmul (2 * n) (mtrans WC) NC) mid.
Proof.
  intros Hn L Hq EWr EWc. cbv zeta.
  rewrite (compute_Wr_2D_eq q n L) in EWr. rewrite (compute_Wc_2D_eq q n L) in EWc.
  assert (E1 : Wr = flat_map (fun i => matentry_2D (1 / INR n) (nth (2 * i + 1) q 0)
                                                   (1 / INR n) (- nth (2 * i) q 0)) (seq 0 n))
    by congruence.
  assert (E2 : Wc = flat_map (fun i => matentry_2D (2 * nth (2 * i) q 0) (nth (2 * i + 1) q 0)
                                                   (2 * nth (2 * i + 1) q 0) (nth (2 * i) q 0))
                             (seq 0 n)) by congruence.
  subst Wr Wc. clear EWr EWc.
  destruct (node_sums_2D corners q n Hn Hq)
    as (F1 & (F2x & F2y) & (F3x & F3y) & (Fxx & Fxy & Fyx & Fyy)).
  cbv zeta in *.
  unfold compute_Nr_2D, compute_Nc_2D, meq.
  repeat split; intros a b Ha Hb;
    rewrite gram_blocks_2D by (reflexivity || assumption);
    three_cases a Ha; three_cases b Hb;
    unfold mid, mzero; cbn [nth matentry_2D Nat.add Nat.eqb]; split_sums;
    rewrite ?F1, ?F2x, ?F2y, ?F3x, ?F3y, ?Fxx, ?Fxy, ?Fyx, ?Fyy; lra.
Qed.

Lemma compute_Wr_3D_eq (q : list R) (n : nat) :
  length q = (n * 3)%nat ->
  compute_Wr_3D q
  = Ok (flat_map (fun i => matentry_3D (1 / INR n)
                                       (nth (3 * i + 1) q 0)
                                       (- nth (3 * i + 2) q 0)
                                       (1 / INR n)
                                       (- nth (3 * i) q 0)
                                       (nth (3 * i + 2) q 0)
                                       (1 / INR n)
                                       (- nth (3 * i + 1) q 0)
                                       (nth (3 * i) q 0))
                 (seq 0 n)).
Proof.
  intros L. unfold compute_Wr_3D. rewrite L, Nat.div_mul, Nat.eqb_refl by lia. reflexivity.
Qed.

Lemma compute_Wc_3D_eq (q : list R) (n : nat) :
  length q = (n * 3)%nat ->
  compute_Wc_3D q
  = Ok (flat_map (fun i => matentry_3D (2 * nth (3 * i) q 0)
                                       (nth (3 * i + 1) q 0)
                                       (nth (3 * i + 2) q 0)
                                       (2 * nth (3 * i + 1) q 0)
                                       (nth (3 * i) q 0)
                                       (nth (3 * i + 2) q 0)
                                       (2 * nth (3 * i + 2) q 0)
                                       (nth (3 * i + 1) q 0)
                                       (nth (3 * i) q 0))
                 (seq 0 n)).
Proof.
  intros L. unfold compute_Wc_3D. rewrite L, Nat.div_mul, Nat.eqb_refl by lia. reflexivity.
Qed.

(** The node sums of a 3D cell, with the subscripts as the code writes them. *)
Lemma node_sums_3D (corners q : list R) (n : nat) :
  (1 <= n)%nat -> q_moments 3 corners q n ->
  let m := point_average 3 corners n in
  let x i := nth (3 * i) corners 0 - nth 0 m 0 in
  let y i := nth (3 * i + 1) corners 0 - nth 1 m 0 in
  let z i := nth (3 * i + 2) corners 0 - nth 2 m 0 in
  let q1 i := nth (3 * i) q 0 in
  let q2 i := nth (3 * i + 1) q 0 in
  let q3 i := nth (3 * i + 2) q 0 in
  bigsum n (fun _ => 1 / INR n * 1) = 1 /\
  (bigsum n (fun i => 1 / INR n * x i) = 0 /\ bigsum n (fun i => 1 / INR n * y i) = 0 /\
   bigsum n (fun i => 1 / INR n * z i) = 0) /\
  (bigsum n (fun i => q1 i * 1) = 0 /\ bigsum n (fun i => q2 i * 1) = 0 /\
   bigsum n (fun i => q3 i * 1) = 0) /\
  (bigsum n (fun i => q1 i * x i) = 1 / 2 /\ bigsum n (fun i => q1 i * y i) = 0 /\
   bigsum n (fun i => q1 i * z i) = 0) /\
  (bigsum n (fun i => q2 i * x i) = 0 /\ bigsum n (fun i => q2 i * y i) = 1 / 2 /\
   bigsum n (fun i => q2 i * z i) = 0) /\
  (bigsum n (fun i => q3 i * x i) = 0 /\ bigsum n (fun i => q3 i * y i) = 0 /\
   bigsum n (fun i => q3 i * z i) = 1 / 2).
Proof.
  intros Hn Hq. cbv zeta.
  destruct (node_sums 3 corners q n Hn Hq) as (F1 & F2 & F3 & F4).
  pose proof (F2 0%nat ltac:(lia)) as F20. pose proof (F2 1%nat ltac:(lia)) as F21.
  pose proof (F2 2%nat ltac:(lia)) as F22.
  pose proof (F3 0%nat ltac:(lia)) as F30. pose proof (F3 1%nat ltac:(lia)) as F31.
  pose proof (F3 2%nat ltac:(lia)) as F32.
  pose proof (F4 0%nat 0%nat ltac:(lia) ltac:(lia)) as F400.
  pose proof (F4 0%nat 1%nat ltac:(lia) ltac:(lia)) as F401.
  pose proof (F4 0%nat 2%nat ltac:(lia) ltac:(lia)) as F402.
  pose proof (F4 1%nat 0%nat ltac:(lia) ltac:(lia)) as F410.
  pose proof (F4 1%nat 1%nat ltac:(lia) ltac:(lia)) as F411.
  pose proof (F4 1%nat 2%nat ltac:(lia) ltac:(lia)) as F412.
  pose proof (F4 2%nat 0%nat ltac:(lia) ltac:(lia)) as F420.
  pose proof (F4 2%nat 1%nat ltac:(lia) ltac:(lia)) as F421.
  pose proof (F4 2%nat 2%nat ltac:(lia) ltac:(lia)) as F422.
  cbn [Nat.eqb] in F400, F401, F402, F410, F411, F412, F420, F421, F422.
  setoid_rewrite Nat.add_0_r in F20. setoid_rewrite Nat.add_0_r in F30.
  setoid_rewrite Nat.add_0_r in F400. setoid_rewrite Nat.add_0_r in F401.
  setoid_rewrite Nat.add_0_r in F402. setoid_rewrite Nat.add_0_r in F410.
  setoid_rewrite Nat.add_0_r in F420.
  repeat split; assumption.
Qed.

Ltac six_cases a H :=
  destruct a as [|[|[|[|[|[|a]]]]]]; [| | | | | | exfalso; lia].

(** The same for the 3D matrices. *)
Lemma gram_3D (corners q Wr Wc : list R) (n : nat) :
  (1 <= n)%nat -> length q = (n * 3)%nat -> q_moments 3 corners q n ->
  compute_Wr_3D q = Ok Wr -> compute_Wc_3D q = Ok Wc ->
  let NR := of_flat 6 (compute_Nr_3D corners n) in
  let NC := of_flat 6 (compute_Nc_3D corners n) in
  let WR := of_flat 6 Wr in
  let WC := of_flat 6 Wc in
  meq 6 6 (mmul (3 * n) (mtrans WR) NR) mid /\
  meq 6 6 (mmul (3 * n) (mtrans WR) NC) mzero /\
  meq 6 6 (mmul (3 * n) (mtrans WC) NR) mzero /\
  meq 6 6 (mmul (3 * n) (mtrans WC) NC) mid.
Proof.
  intros Hn L Hq EWr EWc. cbv zeta.
  rewrite (compute_Wr_3D_eq q n L) in EWr. rewrite (compute_Wc_3D_eq q n L) in EWc.
  match type of EWr with Ok ?l = _ => assert (E1 : Wr = l) by congruence end.
  match type of EWc with Ok ?l = _ => assert (E2 : Wc = l) by congruence end.
  subst Wr Wc. clear EWr EWc.
  destruct (node_sums_3D corners q n Hn Hq)
    as (F1 & (F2x & F2y & F2z) & (F3x & F3y & F3z) & (Fxx & Fxy & Fxz)
        & (Fyx & Fyy & Fyz) & (Fzx & Fzy & Fzz)).
  cbv zeta in *.
  unfold compute_Nr_3D, compute_Nc_3D, meq.
  repeat split; intros a b Ha Hb;
    rewrite gram_blocks_3D by (reflexivity || assumption);
    six_cases a Ha; six_cases b Hb;
    unfold mid, mzero; cbn [nth matentry_3D Nat.add Nat.eqb]; split_sums;
    rewrite ?F1, ?F2x, ?F2y, ?F2z, ?F3x, ?F3y, ?F3z, ?Fxx, ?Fxy, ?Fxz,
            ?Fyx, ?Fyy, ?Fyz, ?Fzx, ?Fzy, ?Fzz; lra.
Qed.

(** ** [compute_ImP] on matrices whose Gram matrices are as above *)

Lemma compute_ImP_projector (Nr Nc Wr Wc : list R) (dim n : nat) :
  let ls := lsdim_of dim in
  let r := (dim * n)%nat in
  dim = 2%nat \/ dim = 3%nat -> length Nc = (n * (dim * ls))%nat ->
  meq ls ls (mmul r (mtrans (of_flat ls Wr)) (of_flat ls Nr)) mid ->
  meq ls ls (mmul r (mtrans (of_flat ls Wr)) (of_flat ls Nc)) mzero ->
  meq ls ls (mmul r (mtrans (of_flat ls Wc)) (of_flat ls Nr)) mzero ->
  meq ls ls (mmul r (mtrans (of_flat ls Wc)) (of_flat ls Nc)) mid ->
  exists ImP, compute_ImP Nr Nc Wr Wc dim = Ok ImP /\
              length ImP = (r * r)%nat /\
              idempotent r ImP /\ annihilates r ls ImP Nr /\ annihilates r ls ImP Nc.
Proof.
  intros ls r Hdim L Grr Grc Gcr Gcc.
  destruct (compute_ImP_spec Nr Nc Wr Wc dim n Hdim L) as [ImP [E [LI H]]].
  fold ls r in LI, H.
  assert (HP : meq r r (of_flat r ImP)
                   (msub mid (projector ls (of_flat ls Nr) (of_flat ls Nc)
                                        (of_flat ls Wr) (of_flat ls Wc)))).
  { intros i j Hi Hj. rewrite (H i j Hi Hj). reflexivity. }
  exists ImP. split; [exact E |]. split; [exact LI |]. split; [| split].
  - exact (complement_idempotent r ls _ _ _ _ Grr Grc Gcr Gcc ImP HP).
  - intros i j Hi Hj.
    exact (proj1 (complement_annihilates r ls _ _ _ _ Grr Grc Gcr Gcc ImP i j HP Hi Hj)).
  - intros i j Hi Hj.
    exact (proj2 (complement_annihilates r ls _ _ _ _ Grr Grc Gcr Gcc ImP i j HP Hi Hj)).
Qed.

(** [I - P] of a 2D cell whose q vector has the moments of a closed polygon. *)
Lemma compute_ImP_2D_idempotent (corners q : list R) (n : nat) :
  (1 <= n)%nat -> length q = (n * 2)%nat -> q_moments 2 corners q n ->
  exists Wr Wc ImP,
    compute_Wr_2D q = Ok Wr /\ compute_Wc_2D q = Ok Wc /\
    compute_ImP (compute_Nr_2D corners n) (compute_Nc_2D corners n) Wr Wc 2 = Ok ImP /\
    length ImP = (2 * n * (2 * n))%nat /\
    idempotent (2 * n) ImP /\
    annihilates (2 * n) 3 ImP (compute_Nr_2D corners n) /\
    annihilates (2 * n) 3 ImP (compute_Nc_2D corners n).
Proof.
  intros Hn L Hq.
  destruct (compute_W_2D_ok q n L) as [[Wr [EWr LWr]] [Wc [EWc LWc]]].
  destruct (gram_2D corners q Wr Wc n Hn L Hq EWr EWc) as (G1 & G2 & G3 & G4).
  destruct (compute_ImP_projector (compute_Nr_2D corners n) (compute_Nc_2D corners n) Wr Wc
                                  2 n (or_introl eq_refl) (compute_Nc_2D_length corners n)
                                  G1 G2 G3 G4) as [ImP H].
  exists Wr, Wc, ImP. split; [exact EWr |]. split; [exact EWc |]. exact H.
Qed.

(** The same for a 3D cell. *)
Lemma compute_ImP_3D_idempotent (corners q : list R) (n : nat) :
  (1 <= n)%nat -> length q = (n * 3)%nat -> q_moments 3 corners q n ->
  exists Wr Wc ImP,
    compute_Wr_3D q = Ok Wr /\ compute_Wc_3D q = Ok Wc /\
    compute_ImP (compute_Nr_3D corners n) (compute_Nc_3D corners n) Wr Wc 3 = Ok ImP /\
    length ImP = (3 * n * (3 * n))%nat /\
    idempotent (3 * n) ImP /\
    annihilates (3 * n) 6 ImP (compute_Nr_3D corners n) /\
    annihilates (3 * n) 6 ImP (compute_Nc_3D corners n).
Proof.
  intros Hn L Hq.
  destruct (compute_W_3D_ok q n L) as [[Wr [EWr LWr]] [Wc [EWc LWc]]].
  destruct (gram_3D corners q Wr Wc n Hn L Hq EWr EWc) as (G1 & G2 & G3 & G4).
  destruct (compute_ImP_projector (compute_Nr_3D corners n) (compute_Nc_3D corners n) Wr Wc
                                  3 n (or_intror eq_refl) (compute_Nc_3D_length corners n)
                                  G1 G2 G3 G4) as [ImP H].
  exists Wr, Wc, ImP. split; [exact EWr |]. split; [exact EWc |]. exact H.
Qed.

(** ** The q vector of a polygon *)

(** A sum over a cycle does not depend on where the cycle starts. *)
Lemma bigsum_cyclic (n : nat) (f : nat -> R) :
  bigsum n (fun i => f ((i + 1) mod n)%nat) = bigsum n f.
Proof.
  destruct n as [|m]; [reflexivity |].
  change (bigsum (S m) (fun i => f ((i + 1) mod S m)%nat))
    with (bigsum m (fun i => f ((i + 1) mod S m)%nat) + f ((m + 1) mod S m)%nat).
  replace (m + 1)%nat with (S m) by lia. rewrite Nat.Div0.mod_same.
  rewrite (bigsum_ext m _ (fun i => f (1 + i)%nat)).
  - change (S m) with (1 + m)%nat. rewrite (bigsum_app 1 m f). simpl. lra.
  - intros i Hi. rewrite Nat.mod_small by lia. f_equal. lia.
Qed.

Lemma bigsum_telescope (n : nat) (F : nat -> R) :
  bigsum n (fun i => F ((i + 1) mod n)%nat - F i) = 0.
Proof. rewrite bigsum_minus, bigsum_cyclic. lra. Qed.

(** What [add_at] does to the pairing of a buffer with a function of the
    subscript. *)
Lemma pair_add_at (v : list R) (idx : nat) (x : R) (g : nat -> R) :
  (idx < length v)%nat ->
  bigsum (length v) (fun k => nth k (add_at v idx x) 0 * g k)
  = bigsum (length v) (fun k => nth k v 0 * g k) + x * g idx.
Proof.
  intros Hi.
  rewrite (bigsum_ext (length v) _
             (fun k => nth k v 0 * g k + (if (k =? idx)%nat then x * g k else 0))).
  - rewrite bigsum_plus, (bigsum_delta (length v) idx (fun k => x * g k) Hi). reflexivity.
  - intros k Hk. rewrite add_at_nth.
    destruct (Nat.ltb_spec k (length v)); [| lia].
    rewrite Nat.eqb_sym. destruct (k =? idx)%nat; simpl; lra.
Qed.

(** The pairing after a loop whose every iteration adds its own term. *)
Lemma pair_fold (N : nat) (F : list R -> nat -> list R) (E g : nat -> R) (M : nat)
      (v0 : list R) :
  length v0 = N ->
  (forall v i, (i < M)%nat -> length v = N ->
               length (F v i) = N /\
               bigsum N (fun k => nth k (F v i) 0 * g k)
               = bigsum N (fun k => nth k v 0 * g k) + E i) ->
  length (fold_left F (seq 0 M) v0) = N /\
  bigsum N (fun k => nth k (fold_left F (seq 0 M) v0) 0 * g k)
  = bigsum N (fun k => nth k v0 0 * g k) + bigsum M E.
Proof.
  intros L0 H. induction M as [|M IH].
  - simpl. split; [exact L0 | lra].
  - destruct IH as [L P]; [intros v i Hi; apply H; lia |].
    rewrite seq_S, fold_left_app. simpl fold_left.
    destruct (H (fold_left F (seq 0 M) v0) M ltac:(lia) L) as [L' P'].
    split; [exact L' |]. rewrite P', P. simpl. lra.
Qed.

Lemma inext_of_mod (i n : nat) : (2 <= n)%nat -> inext_of i n = ((i + 1) mod n)%nat.
Proof.
  intros Hn. destruct i as [|i]; [| reflexivity].
  simpl. rewrite Nat.mod_small by lia. reflexivity.
Qed.

(** The pairing of [compute_q_2D] with [g] is a sum over the edges. *)
Lemma pair_compute_q_2D (corners : list R) (n : nat) (g : nat -> R) :
  (2 <= n)%nat ->
  let fac := 1 / (4 * element_volume_2D corners n) in
  let x i := nth (2 * i) corners 0 in
  let y i := nth (2 * i + 1) corners 0 in
  bigsum (n * 2) (fun k => nth k (compute_q_2D corners n) 0 * g k)
  = bigsum n (fun i =>
                let j := ((i + 1) mod n)%nat in
                fac * (y j - y i) * (g (i * 2)%nat + g (j * 2)%nat)
                + fac * - (x j - x i) * (g (i * 2 + 1)%nat + g (j * 2 + 1)%nat)).
Proof.
  intros Hn fac x y. unfold compute_q_2D. fold fac.
  match goal with
  | |- context [fold_left ?F (seq 0 n) (repeat 0 (n * 2)%nat)] =>
      destruct (pair_fold (n * 2) F
                  (fun i => let j := ((i + 1) mod n)%nat in
                            fac * (y j - y i) * (g (i * 2)%nat + g (j * 2)%nat)
                            + fac * - (x j - x i) * (g (i * 2 + 1)%nat + g (j * 2 + 1)%nat))
                  g n (repeat 0 (n * 2)) (repeat_length _ _)) as [_ P]
  end.
  - intros v i Hi L. rewrite (inext_of_mod i n Hn).
    assert (Hj : ((i + 1) mod n < n)%nat) by (apply Nat.mod_upper_bound; lia).
    set (j := ((i + 1) mod n)%nat) in *.
    cbn [seq fold_left nth]. rewrite !Nat.add_0_r.
    split; [rewrite !add_at_length; exact L |].
    rewrite <- L.
    repeat match goal with
           | |- context [bigsum (length v) (fun k => nth k (add_at ?w ?ix ?c) 0 * g k)] =>
               replace (length v) with (length w) by (rewrite ?add_at_length; reflexivity);
               rewrite (pair_add_at w ix c g) by (rewrite ?add_at_length; lia);
               rewrite ?add_at_length
           end.
    rewrite ?add_at_length. unfold x, y. cbv zeta. fold j. lra.
  - rewrite P. rewrite (bigsum_zero (n * 2)); [lra |].
    intros k _. rewrite nth_repeat. lra.
Qed.

(** The sum over the nodes of a component of q times a nodal weight, as a
    sum over the edges. *)
Lemma q_2D_weighted (corners : list R) (n a : nat) (h : nat -> R) :
  (2 <= n)%nat -> (a < 2)%nat ->
  let fac := 1 / (4 * element_volume_2D corners n) in
  let x i := nth (2 * i) corners 0 in
  let y i := nth (2 * i + 1) corners 0 in
  bigsum n (fun i => nth (2 * i + a) (compute_q_2D corners n) 0 * h i)
  = bigsum n (fun i =>
                let j := ((i + 1) mod n)%nat in
                fac * (if (a =? 0)%nat then y j - y i else - (x j - x i)) * (h i + h j)).
Proof.
  intros Hn Ha fac x y.
  set (g := fun k => if (k mod 2 =? a)%nat then h (k / 2)%nat else 0).
  assert (G0 : forall i, g (i * 2)%nat = if (a =? 0)%nat then h i else 0).
  { intros i. unfold g. rewrite Nat.Div0.mod_mul, Nat.div_mul by lia.
    rewrite Nat.eqb_sym. reflexivity. }
  assert (G1 : forall i, g (i * 2 + 1)%nat = if (a =? 0)%nat then 0 else h i).
  { intros i. unfold g. replace (i * 2 + 1)%nat with (1 + i * 2)%nat by lia.
    rewrite Nat.Div0.mod_add, Nat.div_add by lia.
    change (1 mod 2)%nat with 1%nat. change (1 / 2)%nat with 0%nat.
    destruct a as [|[|a]]; [reflexivity | reflexivity | lia]. }
  pose proof (pair_compute_q_2D corners n g Hn) as P. cbv zeta in P.
  rewrite bigsum_nested in P.
  rewrite (bigsum_ext n _ (fun i => bigsum 2 (fun d => nth (i * 2 + d) (compute_q_2D corners n) 0
                                                      * g (i * 2 + d)%nat))).
  - rewrite P. apply bigsum_ext. intros i _. cbv zeta. rewrite !G0, !G1. fold fac.
    unfold x, y. destruct (a =? 0)%nat; lra.
  - intros i _. cbn [bigsum]. rewrite Nat.add_0_r, G0, G1.
    destruct a as [|[|a]]; [| | lia]; cbn [Nat.eqb].
    + rewrite Nat.add_0_r. replace (2 * i)%nat with (i * 2)%nat by lia. lra.
    + replace (2 * i + 1)%nat with (i * 2 + 1)%nat by lia. lra.
Qed.

Lemma shoelace2_pos_n (corners : list R) (n : nat) : 0 < shoelace2 corners n -> (1 <= n)%nat.
Proof. destruct n; [unfold shoelace2; simpl; lra | lia]. Qed.

(** The moments of [compute_q_2D], given the area that the code divides by. *)
Lemma compute_q_2D_moments (corners : list R) (n : nat) :
  (2 <= n)%nat -> 0 < shoelace2 corners n ->
  element_volume_2D corners n = shoelace2 corners n / 2 ->
  q_moments 2 corners (compute_q_2D corners n) n.
Proof.
  intros Hn Hs HV.
  set (x := fun i => nth (2 * i) corners 0).
  set (y := fun i => nth (2 * i + 1) corners 0).
  assert (Hfac : 1 / (4 * element_volume_2D corners n) * shoelace2 corners n = 1 / 2)
    by (rewrite HV; field; lra).
  set (fac := 1 / (4 * element_volume_2D corners n)) in *.
  assert (HS : shoelace2 corners n
               = bigsum n (fun i => x i * y ((i + 1) mod n)%nat - x ((i + 1) mod n)%nat * y i))
    by reflexivity.
  split.
  - intros a Ha.
    rewrite (bigsum_ext n _ (fun i => nth (2 * i + a) (compute_q_2D corners n) 0 * 1))
      by (intros; lra).
    rewrite (q_2D_weighted corners n a (fun _ => 1) Hn Ha). cbv zeta. fold fac x y.
    destruct a as [|[|a]]; [| | lia]; cbn [Nat.eqb].
    + rewrite (bigsum_ext n _ (fun i => 2 * fac * (y ((i + 1) mod n)%nat - y i)))
        by (intros; unfold x, y; cbv beta; rewrite ?Nat.add_0_r; ring).
      rewrite bigsum_scal, bigsum_telescope. lra.
    + rewrite (bigsum_ext n _ (fun i => - (2 * fac) * (x ((i + 1) mod n)%nat - x i)))
        by (intros; unfold x, y; cbv beta; rewrite ?Nat.add_0_r; ring).
      rewrite bigsum_scal, bigsum_telescope. lra.
  - intros a b Ha Hb.
    rewrite (q_2D_weighted corners n a (fun i => nth (2 * i + b) corners 0) Hn Ha).
    cbv zeta. fold fac x y.
    destruct a as [|[|a]]; [| | lia]; (destruct b as [|[|b]]; [| | lia]); cbn [Nat.eqb];
      rewrite ?Nat.add_0_r; fold x y.
    + rewrite (bigsum_ext n _
                 (fun i => fac * ((x i * y ((i + 1) mod n)%nat - x ((i + 1) mod n)%nat * y i)
                                  + ((fun k => x k * y k) ((i + 1) mod n)%nat
                                     - (fun k => x k * y k) i))))
        by (intros; unfold x, y; cbv beta; rewrite ?Nat.add_0_r; ring).
      rewrite bigsum_scal, bigsum_plus, (bigsum_telescope n (fun k => x k * y k)), <- HS. lra.
    + rewrite (bigsum_ext n _
                 (fun i => fac * ((fun k => y k * y k) ((i + 1) mod n)%nat
                                  - (fun k => y k * y k) i)))
        by (intros; unfold x, y; cbv beta; rewrite ?Nat.add_0_r; ring).
      rewrite bigsum_scal, (bigsum_telescope n (fun k => y k * y k)). lra.
    + rewrite (bigsum_ext n _
                 (fun i => - fac * ((fun k => x k * x k) ((i + 1) mod n)%nat
                                    - (fun k => x k * x k) i)))
        by (intros; unfold x, y; cbv beta; rewrite ?Nat.add_0_r; ring).
      rewrite bigsum_scal, (bigsum_telescope n (fun k => x k * x k)). lra.
    + rewrite (bigsum_ext n _
                 (fun i => fac * ((x i * y ((i + 1) mod n)%nat - x ((i + 1) mod n)%nat * y i)
                                  - ((fun k => x k * y k) ((i + 1) mod n)%nat
                                     - (fun k => x k * y k) i))))
        by (intros; unfold x, y; cbv beta; rewrite ?Nat.add_0_r; ring).
      rewrite bigsum_scal, bigsum_minus, (bigsum_telescope n (fun k => x k * y k)), <- HS. lra.
Qed.

Lemma centroid_2D_pair (points : list R) (n : nat) :
  exists cx cy, centroid_2D points n = [cx; cy].
Proof.
  unfold centroid_2D.
  match goal with |- context [fold_left ?F ?l ?a] => destruct (fold_left F l a) as [result area] end.
  eexists. eexists. reflexivity.
Qed.

Lemma Rabs_half (B : R) : Rabs (B / 2) / 2 = Rabs B / 4.
Proof. unfold Rdiv. rewrite Rabs_mult, (Rabs_right (/ 2)) by lra. lra. Qed.

(** Each of the two triangles on an edge has half the area of the triangle
    between the centroid and the edge. *)
Lemma tessellation_areas_2D (corners : list R) (n i : nat) :
  (i < n)%nat ->
  let X := cross2 (centroid_2D corners n) (pt2 corners i) (pt2 corners ((i + 1) mod n)) in
  tri_area_of 2 (nth (2 * i) (face_triangles 2 corners n) []) = Rabs X / 4 /\
  tri_area_of 2 (nth (2 * i + 1) (face_triangles 2 corners n) []) = Rabs X / 4.
Proof.
  intros Hi X. subst X.
  destruct (face_triangles_layout 2 corners n) as [_ H]. destruct (H i Hi) as [E1 E2].
  rewrite E1, E2, !tri_area_of_2D. clear E1 E2 H.
  change (face_centroid 2 corners n) with (centroid_2D corners n).
  destruct (centroid_2D_pair corners n) as [cx [cy ->]].
  unfold edge_midpoint, pointmean, plc, slice, pt2, cross2.
  cbn [map seq app skipn nth]. rewrite !nth_skipn_R, !Nat.add_0_r.
  set (j := ((i + 1) mod n)%nat).
  split; rewrite <- Rabs_half; f_equal; f_equal; replace 0.5 with (/ 2) by lra; field.
Qed.

(** The area that the code computes for a polygon that is star-shaped around
    its centroid and counter-clockwise. *)
Lemma element_volume_2D_shoelace (corners : list R) (n : nat) :
  valid_cell_2D corners n -> element_volume_2D corners n = shoelace2 corners n / 2.
Proof.
  intros (Hn & Hs & Hstar).
  unfold element_volume_2D, face_integral. cbn [Nat.eqb].
  rewrite face_integral_impl_spec.
  destruct (centroid_2D_pair corners n) as [cx [cy Ec]].
  rewrite (bigsum_ext n _
             (fun i => / 2 * ((nth (2 * i) corners 0 * nth (2 * ((i + 1) mod n) + 1) corners 0
                               - nth (2 * ((i + 1) mod n)) corners 0 * nth (2 * i + 1) corners 0)
                              + (cy * ((fun k => nth (2 * k) corners 0) ((i + 1) mod n)%nat
                                       - (fun k => nth (2 * k) corners 0) i)
                                 + - cx * ((fun k => nth (2 * k + 1) corners 0) ((i + 1) mod n)%nat
                                           - (fun k => nth (2 * k + 1) corners 0) i))))).
  - rewrite bigsum_scal, !bigsum_plus, (bigsum_scal n cy), (bigsum_scal n (- cx)).
    rewrite (bigsum_telescope n (fun k => nth (2 * k) corners 0)).
    rewrite (bigsum_telescope n (fun k => nth (2 * k + 1) corners 0)).
    unfold shoelace2. lra.
  - intros i Hi. destruct (tessellation_areas_2D corners n i Hi) as [A1 A2].
    cbv zeta in A1, A2. rewrite A1, A2.
    specialize (Hstar i Hi). rewrite (Rabs_right _ (Rle_ge _ _ Hstar)).
    rewrite Ec. unfold cross2, pt2. cbn [nth]. cbv beta. lra.
Qed.

(** The q vector of such a polygon has the moments of a closed polygon. *)
Lemma valid_cell_2D_moments (corners : list R) (n : nat) :
  valid_cell_2D corners n -> q_moments 2 corners (compute_q_2D corners n) n.
Proof.
  intros H. pose proof (element_volume_2D_shoelace corners n H) as HV.
  destruct H as (Hn & Hs & _). exact (compute_q_2D_moments corners n Hn Hs HV).
Qed.

(** ** The q vector of the unit cube *)

Lemma norm3_sq (v : list R) :
  norm 3 v * norm 3 v
  = nth 0 v 0 * nth 0 v 0 + nth 1 v 0 * nth 1 v 0 + nth 2 v 0 * nth 2 v 0.
Proof.
  unfold norm.
  assert (E : fold_left (fun acc el => acc + el * el) (firstn 3 v) 0
              = nth 0 v 0 * nth 0 v 0 + nth 1 v 0 * nth 1 v 0 + nth 2 v 0 * nth 2 v 0).
  { destruct v as [|x [|y [|z v]]]; simpl; lra. }
  rewrite E. apply sqrt_sqrt. nra.
Qed.

(** Heron's formula in 3D: half the length of the cross product of two edges. *)
Lemma triarea_3D (a b c : list R) :
  triarea 3 a b c = sqrt (dot3 (trinormal a b c) (trinormal a b c)) / 2.
Proof.
  unfold triarea.
  assert (Hq : 0 <= dot3 (trinormal a b c) (trinormal a b c)) by (unfold dot3; nra).
  rewrite (heron_identity _ _ _ _ _ _ (sqrt (dot3 (trinormal a b c) (trinormal a b c)))
                          (norm3_sq (pointdiff 3 b a)) (norm3_sq (pointdiff 3 c b))
                          (norm3_sq (pointdiff 3 a c))).
  - fold (Rsqr (sqrt (dot3 (trinormal a b c) (trinormal a b c)) / 2)).
    rewrite sqrt_Rsqr; [reflexivity |].
    apply Rmult_le_pos; [apply sqrt_pos | lra].
  - rewrite (sqrt_sqrt _ Hq). unfold dot3, trinormal, pointdiff, plc. cbn [map seq nth]. ring.
Qed.

(** Evaluation that stops at Heron's formula. *)
Ltac run_geometry :=
  cbv -[Rplus Rminus Rmult Ropp Rinv Rdiv IZR Q2R R0 R1 Rlt_dec Req_dec_T sqrt Rabs Rpower
        triarea].

(** Replaces the square root of an expression whose value is the square of
    [1/2] or of [1/4]. *)
Ltac root_of_square :=
  repeat match goal with
         | |- context [sqrt ?E] =>
             first [ replace (sqrt E) with (1 / 2)
                       by (symmetry; apply sqrt_lem_1; lra)
                   | replace (sqrt E) with (1 / 4)
                       by (symmetry; apply sqrt_lem_1; lra) ]
         end.

Lemma cube_face_centroid_0 : centroid_2D_3D (cube_face 0) 4 = [1 / 2; 1 / 2; 1].
Proof.
  run_geometry. rewrite !triarea_3D. run_code. root_of_square. real_list.
Qed.

Lemma cube_face_centroid (f : nat) :
  (f < 6)%nat -> centroid_2D_3D (cube_face f) 4 = slice cube_centroids (3 * f) 3.
Proof.
  intros Hf.
  destruct f as [|[|[|[|[|[|f]]]]]]; [| | | | | | lia];
    run_geometry; rewrite !triarea_3D; run_code; root_of_square; real_list.
Qed.

(** Every triangle of the tessellation of a face of the unit cube has area 1/8. *)
Lemma cube_tessellation_areas (f t : nat) :
  (f < 6)%nat -> (t < 8)%nat ->
  tri_area_of 3 (nth t (face_triangles 3 (cube_face f) 4) []) = 1 / 8.
Proof.
  intros Hf Ht.
  destruct (face_triangles_layout 3 (cube_face f) 4) as [_ H].
  assert (E : exists c, (c < 4)%nat /\ (t = 2 * c \/ t = 2 * c + 1)%nat).
  { exists (t / 2)%nat. split; [apply Nat.Div0.div_lt_upper_bound; lia |].
    pose proof (Nat.div_mod_eq t 2) as D. pose proof (Nat.mod_upper_bound t 2). lia. }
  destruct E as [c [Hc Et]]. destruct (H c Hc) as [E1 E2].
  change (face_centroid 3 (cube_face f) 4) with (centroid_2D_3D (cube_face f) 4) in E1, E2.
  rewrite (cube_face_centroid f Hf) in E1, E2.
  unfold tri_area_of.
  destruct Et as [-> | ->]; [rewrite E1 | rewrite E2]; rewrite triarea_3D; clear E1 E2 H;
    destruct f as [|[|[|[|[|[|f]]]]]]; try lia;
    destruct c as [|[|[|[|c]]]]; try lia;
    run_code; root_of_square; lra.
Qed.

(** The face integral of nodal values over a face of the unit cube. *)
Lemma cube_face_integral (f : nat) (cv : list R) :
  (f < 6)%nat ->
  face_integral (cube_face f) 4 3 (Some cv)
  = (nth 0 cv 0 + nth 1 cv 0 + nth 2 cv 0 + nth 3 cv 0) / 4.
Proof.
  intros Hf. unfold face_integral. cbn [Nat.eqb]. rewrite face_integral_impl_spec.
  cbn [bigsum]. rewrite !(cube_tessellation_areas f) by (assumption || cbn; lia).
  cbn [Nat.add Nat.modulo Nat.divmod fst snd Nat.sub]. lra.
Qed.

Lemma compute_q_3D_unit_cube :
  compute_q_3D unit_cube 8 unit_cube_faces unit_cube_face_edges 6 1 cube_normals = unit_cube_q.
Proof.
  cbv -[Rplus Rminus Rmult Ropp Rinv Rdiv IZR Q2R R0 R1 Rlt_dec Req_dec_T sqrt Rabs Rpower
        face_integral].
  repeat match goal with
         | |- context [face_integral ?l 4 3 (Some ?cv)] =>
             first [ change l with (cube_face 0) | change l with (cube_face 1)
                   | change l with (cube_face 2) | change l with (cube_face 3)
                   | change l with (cube_face 4) | change l with (cube_face 5) ];
             rewrite !cube_face_integral by lia
         end.
  cbn [nth]. real_list.
Qed.

Lemma unit_cube_moments : q_moments 3 unit_cube unit_cube_q 8.
Proof.
  split.
  - intros a Ha. destruct a as [|[|[|a]]]; [| | | lia]; cbn; lra.
  - intros a b Ha Hb.
    destruct a as [|[|[|a]]]; [| | | lia]; (destruct b as [|[|[|b]]]; [| | | lia]); cbn; lra.
Qed.

(** ** Idempotence of [I - P] *)

Lemma fold_left_snd_length_inv {S B : Type} (f : S * list R -> B -> S * list R) (l : list B)
      (st : S * list R) :
  (forall st x, length (snd (f st x)) = length (snd st)) ->
  length (snd (fold_left f l st)) = length (snd st).
Proof.
  intros H. revert st. induction l as [|x l IH]; intros st; simpl; [reflexivity |].
  rewrite IH. apply H.
Qed.

Lemma compute_q_3D_length (corners : list R) (n : nat) (faces num_face_edges : list nat)
      (num_faces : nat) (volume : R) (normals : list R) :
  length (compute_q_3D corners n faces num_face_edges num_faces volume normals) = (n * 3)%nat.
Proof.
  unfold compute_q_3D. rewrite fold_left_snd_length_inv; [apply repeat_length |].
  intros st f. apply fold_left_snd_length_inv. intros [ix result] e. cbn [snd].
  apply fold_left_length_inv. intros; apply add_at_length.
Qed.

(** The unit square is a valid cell. *)
Lemma unit_square_valid : valid_cell_2D unit_square 4.
Proof.
  split; [lia |]. split; [run_code; lra |].
  intros i Hi. replace (centroid_2D unit_square 4) with [1 / 2; 1 / 2]
    by (symmetry; run_code; real_list).
  destruct i as [|[|[|[|i]]]]; [| | | | lia]; run_code; lra.
Qed.

(** Where C4 holds.  The matrix [I - P] that [compute_ImP] returns for the
    matrices Nr, Nc, Wr and Wc of a cell is idempotent,
    [(I - P) (I - P) = I - P] in exact arithmetic, and sends the rigid-body
    modes (the columns of Nr) and the constant-strain modes (the columns of
    Nc) to zero: in 2D for every polygon of at least two corners that is
    counter-clockwise and star-shaped around the centroid the code computes,
    with the q vector [compute_q_2D] returns; in 3D whenever the q vector
    that [compute_q_3D] returns sums to zero and has first moment [I / 2]
    against the corners, as it does when the volume and the normals handed
    to it are those of the closed cell (theorem [closed_cell_q_vector]). *)
Theorem projector_complement_idempotent :
  (forall corners n,
      valid_cell_2D corners n ->
      exists Wr Wc ImP,
        compute_Wr_2D (compute_q_2D corners n) = Ok Wr /\
        compute_Wc_2D (compute_q_2D corners n) = Ok Wc /\
        compute_ImP (compute_Nr_2D corners n) (compute_Nc_2D corners n) Wr Wc 2 = Ok ImP /\
        length ImP = (2 * n * (2 * n))%nat /\
        idempotent (2 * n) ImP /\
        annihilates (2 * n) 3 ImP (compute_Nr_2D corners n) /\
        annihilates (2 * n) 3 ImP (compute_Nc_2D corners n)) /\
  (forall corners n faces num_face_edges num_faces volume normals,
      (1 <= n)%nat ->
      q_moments 3 corners
                (compute_q_3D corners n faces num_face_edges num_faces volume normals) n ->
      exists Wr Wc ImP,
        compute_Wr_3D (compute_q_3D corners n faces num_face_edges num_faces volume normals)
        = Ok Wr /\
        compute_Wc_3D (compute_q_3D corners n faces num_face_edges num_faces volume normals)
        = Ok Wc /\
        compute_ImP (compute_Nr_3D corners n) (compute_Nc_3D corners n) Wr Wc 3 = Ok ImP /\
        length ImP = (3 * n * (3 * n))%nat /\
        idempotent (3 * n) ImP /\
        annihilates (3 * n) 6 ImP (compute_Nr_3D corners n) /\
        annihilates (3 * n) 6 ImP (compute_Nc_3D corners n)).
Proof.
  split.
  - intros corners n H.
    apply compute_ImP_2D_idempotent.
    + destruct H as (Hn & _). lia.
    + apply compute_q_2D_length.
    + apply valid_cell_2D_moments. exact H.
  - intros corners n faces num_face_edges num_faces volume normals Hn Hq.
    apply compute_ImP_3D_idempotent; [exact Hn | apply compute_q_3D_length | exact Hq].
Qed.

Lemma projector_complement_idempotent_witness :
  (exists Wr Wc ImP,
      compute_Wr_2D (compute_q_2D unit_square 4) = Ok Wr /\
      compute_Wc_2D (compute_q_2D unit_square 4) = Ok Wc /\
      compute_ImP (compute_Nr_2D unit_square 4) (compute_Nc_2D unit_square 4) Wr Wc 2 = Ok ImP /\
      length ImP = 64%nat /\
      idempotent 8 ImP /\
      annihilates 8 3 ImP (compute_Nr_2D unit_square 4) /\
      annihilates 8 3 ImP (compute_Nc_2D unit_square 4)) /\
  (exists Wr Wc ImP,
      compute_Wr_3D unit_cube_q = Ok Wr /\
      compute_Wc_3D unit_cube_q = Ok Wc /\
      compute_ImP (compute_Nr_3D unit_cube 8) (compute_Nc_3D unit_cube 8) Wr Wc 3 = Ok ImP /\
      length ImP = 576%nat /\
      idempotent 24 ImP /\
      annihilates 24 6 ImP (compute_Nr_3D unit_cube 8) /\
      annihilates 24 6 ImP (compute_Nc_3D unit_cube 8)).
Proof.
  split.
  - exact (proj1 projector_complement_idempotent unit_square 4%nat unit_square_valid).
  - rewrite <- compute_q_3D_unit_cube.
    refine (proj2 projector_complement_idempotent unit_cube 8%nat unit_cube_faces
                  unit_cube_face_edges 6%nat 1 cube_normals _ _); [lia |].
    rewrite compute_q_3D_unit_cube. exact unit_cube_moments.
Defined.

(** ** The faces of the unit cube, as the cell geometry sees them *)

Lemma tessellate_face_no_skip (Dim : nat) (corners : list R) (n : nat) :
  n <> 3%nat -> tessellate_face Dim corners n true = tessellate_face Dim corners n false.
Proof.
  intros Hn. unfold tessellate_face.
  destruct (Nat.eqb_spec n 3) as [E | _]; [contradiction | reflexivity].
Qed.

Lemma cube_face_length (f : nat) : length (cube_face f) = 12%nat.
Proof. reflexivity. Qed.

(** The unit normal and the centroid that [compute_face_geometry] writes
    for a face of the unit cube. *)
Lemma cube_face_geometry (f : nat) :
  (f < 6)%nat ->
  compute_face_geometry (cube_face f)
  = (slice cube_normals (3 * f) 3, slice cube_centroids (3 * f) 3).
Proof.
  intros Hf. unfold compute_face_geometry. rewrite cube_face_length.
  change (12 / 3)%nat with 4%nat.
  unfold tessellate_face. cbn [andb].
  change (face_centroid 3 (cube_face f) 4) with (centroid_2D_3D (cube_face f) 4).
  rewrite (cube_face_centroid f Hf).
  destruct f as [|[|[|[|[|[|f]]]]]]; [| | | | | | lia]; run_code.
  all: match goal with |- context [sqrt ?E] =>
         replace (sqrt E) with 2 by (symmetry; apply sqrt_lem_1; lra) end.
  all: f_equal; real_list.
Qed.

Ltac run_faces :=
  cbv -[Rplus Rminus Rmult Ropp Rinv Rdiv IZR Q2R R0 R1 Rlt_dec Req_dec_T sqrt Rabs Rpower
        compute_face_geometry].

Ltac name_cube_face l :=
  first [ change l with (cube_face 0) | change l with (cube_face 1)
        | change l with (cube_face 2) | change l with (cube_face 3)
        | change l with (cube_face 4) | change l with (cube_face 5) ].

(** The face loop of [compute_cell_geometry] on the unit cube writes the
    normals and centroids listed in [cube_normals] and [cube_centroids]. *)
Lemma cube_face_geometries :
  face_geometries unit_cube (extract_local_faces unit_cube_faces unit_cube_face_edges 6)
                  unit_cube_face_edges 6
  = (cube_normals, cube_centroids).
Proof.
  run_faces.
  repeat (match goal with
          | |- context [compute_face_geometry ?l] =>
              name_cube_face l; rewrite cube_face_geometry by lia
          end; run_faces).
  reflexivity.
Qed.

(** ** A star point is its own search result *)

Lemma is_star_point_spec (point normals centroids : list R) :
  is_star_point point normals centroids = true <->
  forall i, (i < length normals / 3)%nat ->
            is_behind_face point (skipn (3 * i) normals) (skipn (3 * i) centroids) = true.
Proof.
  unfold is_star_point. rewrite forallb_forall. split.
  - intros H i Hi. apply H. apply in_seq. lia.
  - intros H i Hi. apply in_seq in Hi. apply H. lia.
Qed.

(** Started at a star point, the search checks every face once and returns
    the point as it is. *)
Lemma identify_star_point_fixed (point normals centroids : list R) :
  is_star_point point normals centroids = true ->
  identify_star_point point normals centroids = Ok point.
Proof.
  intros H. rewrite is_star_point_spec in H.
  destruct (Nat.eq_dec (length normals / 3) 0) as [Z0 | NZ].
  - unfold identify_star_point. rewrite Z0. reflexivity.
  - set (N := (length normals / 3)%nat) in *.
    assert (C : forall k, candidate normals centroids N point k = point
                          /\ check_passes normals centroids N point k = true).
    { assert (P : forall k, candidate normals centroids N point k = point ->
                            check_passes normals centroids N point k = true).
      { intros k E. unfold check_passes. rewrite E. apply H. apply Nat.mod_upper_bound. exact NZ. }
      induction k as [|k [IH1 IH2]].
      - split; [reflexivity | apply P; reflexivity].
      - assert (E : candidate normals centroids N point (S k) = point)
          by (rewrite candidate_S, IH2; exact IH1).
        split; [exact E | apply P; exact E]. }
    destruct (star_search_spec point normals centroids) as (_ & R & _). cbv zeta in R.
    fold N in R. apply R. exists N. split; [lia |]. split; [| symmetry; apply C].
    split.
    + split; [lia |]. intros j _ _. apply C.
    + intros k' Hk' [Hle _]. lia.
Qed.

(** ** The cell geometry of the unit cube *)

(** The triangles of a face of the unit cube, around its centroid. *)
Lemma cube_face_triangles (f : nat) :
  (f < 6)%nat ->
  tessellate_face_vec 3 (cube_face f) true
  = flat_map (fun c => [ slice cube_centroids (3 * f) 3 ++ slice (cube_face f) (3 * c) 3
                           ++ edge_midpoint 3 (cube_face f) 4 c;
                         slice cube_centroids (3 * f) 3 ++ edge_midpoint 3 (cube_face f) 4 c
                           ++ slice (cube_face f) (3 * ((c + 1) mod 4)) 3 ])
             (seq 0 4).
Proof.
  intros Hf. unfold tessellate_face_vec. rewrite cube_face_length.
  change (12 / 3)%nat with 4%nat. rewrite tessellate_face_no_skip by lia.
  unfold tessellate_face. cbn [andb fst].
  change (face_centroid 3 (cube_face f) 4) with (centroid_2D_3D (cube_face f) 4).
  rewrite (cube_face_centroid f Hf). reflexivity.
Qed.

Lemma unit_cube_mean : point_average 3 unit_cube 8 = [1 / 2; 1 / 2; 1 / 2].
Proof. run_code. real_list. Qed.

Lemma unit_cube_centre_star : is_star_point [1 / 2; 1 / 2; 1 / 2] cube_normals cube_centroids = true.
Proof.
  apply is_star_point_spec. intros i Hi. change (length cube_normals / 3)%nat with 6%nat in Hi.
  apply is_behind_face_spec.
  destruct i as [|[|[|[|[|[|i]]]]]]; [| | | | | | lia]; run_code; lra.
Qed.

(** [compute_cell_geometry] returns on the unit cube, with the normals and
    centroids of [cube_normals] and [cube_centroids]. *)
Lemma unit_cube_geometry :
  exists geo,
    compute_cell_geometry unit_cube 8 unit_cube_faces unit_cube_face_edges 6 = Ok geo /\
    outward_normals geo = cube_normals /\ face_centroids geo = cube_centroids.
Proof.
  unfold compute_cell_geometry. rewrite cube_face_geometries.
  change (length cube_centroids =? 6 * 3)%nat with true. cbn [assert_ bind].
  assert (C : orientation_check cube_normals cube_centroids = Ok tt).
  { apply orientation_check_spec.
    unfold orientation_sum, cube_normals, cube_centroids, mean3, dot3, vec3, pt3. simpl. lra. }
  rewrite C. cbn [bind].
  rewrite unit_cube_mean, (identify_star_point_fixed _ _ _ unit_cube_centre_star). cbn [bind].
  destruct (accumulate_tetrahedra _ _ _ _ _) as [vol cc].
  eexists. split; [reflexivity |]. split; reflexivity.
Qed.

(** ** Cubes of any side, through the cell geometry *)

Ltac run_face_integrals :=
  cbv -[Rplus Rminus Rmult Ropp Rinv Rdiv IZR Q2R R0 R1 Rlt_dec Req_dec_T sqrt Rabs Rpower
        face_integral].

Lemma half_decimal : 0.5 = / 2.
Proof. lra. Qed.

Lemma sqrt_of_square (E x : R) : 0 <= x -> x * x = E -> sqrt E = x.
Proof. intros Hx HE. subst E. apply sqrt_square. exact Hx. Qed.

Lemma cube_of_face_centroid (s : R) (f : nat) :
  0 < s -> (f < 6)%nat ->
  centroid_2D_3D (cube_of_face s f) 4 = slice (cube_of_centroids s) (3 * f) 3.
Proof.
  intros Hs Hf.
  destruct f as [|[|[|[|[|[|f]]]]]]; [| | | | | | lia];
    run_geometry; rewrite !triarea_3D; run_code.
  all: repeat match goal with
         | |- context [sqrt ?E] =>
             replace (sqrt E) with (s * s / 2) by (symmetry; apply sqrt_of_square; [nra | field])
         end.
  all: repeat (f_equal; try (field; nra)).
Qed.

(** ** The conversion to [int] *)

Lemma Int_part_between (x : R) (z : Z) : IZR z <= x < IZR z + 1 -> Int_part x = z.
Proof.
  intros [H1 H2]. unfold Int_part.
  assert (E : (z + 1)%Z = up x).
  { apply tech_up; rewrite plus_IZR; lra. }
  rewrite <- E. lia.
Qed.

Lemma to_int_between (x : R) (z : Z) : (0 <= z)%Z -> IZR z <= x < IZR z + 1 -> to_int x = z.
Proof.
  intros Hz H. unfold to_int, Rlt_b.
  assert (0 <= IZR z) by (apply IZR_le; exact Hz).
  destruct (Rlt_dec x 0) as [L | _]; [lra |]. apply Int_part_between. exact H.
Qed.

(** Every triangle of the tessellation of a face has an eighth of the area of the face. *)
Lemma cube_of_tessellation_areas (s : R) (f t : nat) :
  0 < s -> (f < 6)%nat -> (t < 8)%nat ->
  tri_area_of 3 (nth t (face_triangles 3 (cube_of_face s f) 4) []) = s * s / 8.
Proof.
  intros Hs Hf Ht.
  destruct (face_triangles_layout 3 (cube_of_face s f) 4) as [_ H].
  assert (E : exists c, (c < 4)%nat /\ (t = 2 * c \/ t = 2 * c + 1)%nat).
  { exists (t / 2)%nat. split; [apply Nat.Div0.div_lt_upper_bound; lia |].
    pose proof (Nat.div_mod_eq t 2) as D. pose proof (Nat.mod_upper_bound t 2). lia. }
  destruct E as [c [Hc Et]]. destruct (H c Hc) as [E1 E2].
  change (face_centroid 3 (cube_of_face s f) 4) with (centroid_2D_3D (cube_of_face s f) 4)
    in E1, E2.
  rewrite (cube_of_face_centroid s f Hs Hf) in E1, E2.
  unfold tri_area_of.
  destruct Et as [-> | ->]; [rewrite E1 | rewrite E2]; rewrite triarea_3D; clear E1 E2 H;
    destruct f as [|[|[|[|[|[|f]]]]]]; try lia;
    destruct c as [|[|[|[|c]]]]; try lia;
    run_code; rewrite ?half_decimal;
    match goal with
    | |- sqrt ?E / 2 = _ =>
        replace (sqrt E) with (s * s / 4) by (symmetry; apply sqrt_of_square; [nra | field])
    end; field.
Qed.

(** The face integral of nodal values over a face of the cube. *)
Lemma cube_of_face_integral (s : R) (f : nat) (cv : list R) :
  0 < s -> (f < 6)%nat ->
  face_integral (cube_of_face s f) 4 3 (Some cv)
  = (nth 0 cv 0 + nth 1 cv 0 + nth 2 cv 0 + nth 3 cv 0) * (s * s / 4).
Proof.
  intros Hs Hf. unfold face_integral. cbn [Nat.eqb]. rewrite face_integral_impl_spec.
  cbn [bigsum]. rewrite !(cube_of_tessellation_areas s f) by (assumption || cbn; lia).
  cbn [Nat.add Nat.modulo Nat.divmod fst snd Nat.sub]. lra.
Qed.

Lemma cube_of_face_area (s : R) (f : nat) :
  0 < s -> (f < 6)%nat -> face_integral (cube_of_face s f) 4 3 None = s * s.
Proof.
  intros Hs Hf. unfold face_integral. cbn [Nat.eqb]. rewrite face_integral_impl_spec.
  cbn [bigsum]. rewrite !(cube_of_tessellation_areas s f) by (assumption || cbn; lia). lra.
Qed.

Ltac name_cube_of_face s l :=
  first [ change l with (cube_of_face s 0) | change l with (cube_of_face s 1)
        | change l with (cube_of_face s 2) | change l with (cube_of_face s 3)
        | change l with (cube_of_face s 4) | change l with (cube_of_face s 5) ].


Lemma compute_q_3D_cube_of (s V : R) :
  0 < s ->
  compute_q_3D (cube_of s) 8 unit_cube_faces unit_cube_face_edges 6 V cube_normals
  = cube_of_q s V.
Proof.
  intros Hs.
  cbv -[Rplus Rminus Rmult Ropp Rinv Rdiv IZR Q2R R0 R1 Rlt_dec Req_dec_T sqrt Rabs Rpower
        face_integral].
  repeat match goal with
         | |- context [face_integral ?l 4 3 (Some ?cv)] =>
             name_cube_of_face s l; rewrite !(cube_of_face_integral s) by (assumption || lia)
         end.
  cbn [nth]. repeat (f_equal; try ring).
Qed.

Lemma cube_of_moments (s : R) : 0 < s -> q_moments 3 (cube_of s) (cube_of_q s (s * s * s)) 8.
Proof.
  intros Hs. split.
  - intros a Ha. destruct a as [|[|[|a]]]; [| | | lia]; cbn; ring.
  - intros a b Ha Hb.
    destruct a as [|[|[|a]]]; [| | | lia]; (destruct b as [|[|[|b]]]; [| | | lia]); cbn;
      field; lra.
Qed.

Ltac eval_cube_of_faces s :=
  run_face_integrals;
  repeat match goal with
         | |- context [face_integral ?l 4 3 ?cv] =>
             name_cube_of_face s l;
             try rewrite !(cube_of_face_area s) by (assumption || lia);
             try rewrite !(cube_of_face_integral s) by (assumption || lia)
         end;
  cbn [nth]; field.

(** The cube of side [s] is a closed cell of volume [s^3]. *)
Lemma cube_of_closed (s : R) :
  0 < s ->
  closed_cell_3D (cube_of s) 8 unit_cube_faces unit_cube_face_edges 6 (s * s * s) cube_normals.
Proof.
  intros Hs.
  assert (H3 : 0 < s * s * s) by (repeat apply Rmult_lt_0_compat; exact Hs).
  split; [lia |]. split; [lra |]. split; [| split].
  - intros f e Hf He.
    destruct f as [|[|[|[|[|[|f]]]]]]; [| | | | | | lia];
      (destruct e as [|[|[|[|e]]]]; [| | | | cbn in He; lia]); cbn; lia.
  - intros a Ha. destruct a as [|[|[|a]]]; [| | | lia]; eval_cube_of_faces s.
  - intros a b Ha Hb.
    destruct a as [|[|[|a]]]; [| | | lia]; (destruct b as [|[|[|b]]]; [| | | lia]);
      eval_cube_of_faces s.
Qed.

Lemma cube_of_face_length (s : R) (f : nat) : length (cube_of_face s f) = 12%nat.
Proof. reflexivity. Qed.

(** The unit normal and the centroid that [compute_face_geometry] writes
    for a face of the cube. *)
Lemma cube_of_face_geometry (s : R) (f : nat) :
  0 < s -> (f < 6)%nat ->
  compute_face_geometry (cube_of_face s f)
  = (slice cube_normals (3 * f) 3, slice (cube_of_centroids s) (3 * f) 3).
Proof.
  intros Hs Hf. unfold compute_face_geometry. rewrite cube_of_face_length.
  change (12 / 3)%nat with 4%nat.
  unfold tessellate_face. cbn [andb].
  change (face_centroid 3 (cube_of_face s f) 4) with (centroid_2D_3D (cube_of_face s f) 4).
  rewrite (cube_of_face_centroid s f Hs Hf).
  destruct f as [|[|[|[|[|[|f]]]]]]; [| | | | | | lia]; run_code; rewrite ?half_decimal.
  all: match goal with |- context [sqrt ?E] =>
         replace (sqrt E) with (2 * (s * s))
           by (symmetry; apply sqrt_of_square; [nra | field]) end.
  all: f_equal; repeat (f_equal; try (field; nra)).
Qed.

(** The face loop of [compute_cell_geometry] on the cube. *)
Lemma cube_of_face_geometries (s : R) :
  0 < s ->
  face_geometries (cube_of s) (extract_local_faces unit_cube_faces unit_cube_face_edges 6)
                  unit_cube_face_edges 6
  = (cube_normals, cube_of_centroids s).
Proof.
  intros Hs. run_faces.
  repeat (match goal with
          | |- context [compute_face_geometry ?l] =>
              name_cube_of_face s l; rewrite (cube_of_face_geometry s) by (assumption || lia)
          end; run_faces).
  reflexivity.
Qed.

(** The triangles of a face of the cube, around its centroid. *)
Lemma cube_of_face_triangles (s : R) (f : nat) :
  0 < s -> (f < 6)%nat ->
  tessellate_face_vec 3 (cube_of_face s f) true
  = flat_map (fun c => [ slice (cube_of_centroids s) (3 * f) 3
                           ++ slice (cube_of_face s f) (3 * c) 3
                           ++ edge_midpoint 3 (cube_of_face s f) 4 c;
                         slice (cube_of_centroids s) (3 * f) 3
                           ++ edge_midpoint 3 (cube_of_face s f) 4 c
                           ++ slice (cube_of_face s f) (3 * ((c + 1) mod 4)) 3 ])
             (seq 0 4).
Proof.
  intros Hs Hf. unfold tessellate_face_vec. rewrite cube_of_face_length.
  change (12 / 3)%nat with 4%nat. rewrite tessellate_face_no_skip by lia.
  unfold tessellate_face. cbn [andb fst].
  change (face_centroid 3 (cube_of_face s f) 4) with (centroid_2D_3D (cube_of_face s f) 4).
  rewrite (cube_of_face_centroid s f Hs Hf). reflexivity.
Qed.

Lemma cube_of_mean (s : R) : point_average 3 (cube_of s) 8 = [s / 2; s / 2; s / 2].
Proof. run_code. repeat (f_equal; try field). Qed.

Lemma cube_of_centre_star (s : R) :
  0 < s -> is_star_point [s / 2; s / 2; s / 2] cube_normals (cube_of_centroids s) = true.
Proof.
  intros Hs.
  apply is_star_point_spec. intros i Hi. change (length cube_normals / 3)%nat with 6%nat in Hi.
  apply is_behind_face_spec.
  destruct i as [|[|[|[|[|[|i]]]]]]; [| | | | | | lia]; run_code; lra.
Qed.

Ltac run_tetrahedra :=
  cbv -[Rplus Rminus Rmult Ropp Rinv Rdiv IZR Q2R R0 R1 Rlt_dec Req_dec_T sqrt Rabs Rpower
        tessellate_face_vec tetrahedron_volume].

(** The tetrahedra between the tessellated faces of the cube and its centre:
    each has determinant [s^3 / 8], which [tetrahedron_volume] cuts to the
    integer [t]. *)
Lemma cube_of_tetrahedra (s : R) (t : Z) :
  0 < s -> to_int (s * s * s / 8) = t ->
  accumulate_tetrahedra (cube_of s) unit_cube_faces unit_cube_face_edges 6 [s / 2; s / 2; s / 2]
  = (8 * IZR (Z.abs t), [4 * IZR (Z.abs t) * s; 4 * IZR (Z.abs t) * s; 4 * IZR (Z.abs t) * s]).
Proof.
  intros Hs Ht.
  assert (V : forall a b c d,
             determinant3D (pointdiff 3 a d) (pointdiff 3 b d) (pointdiff 3 c d) = s * s * s / 8 ->
             tetrahedron_volume a b c d = IZR (Z.abs t) / 6).
  { intros a b c d E. unfold tetrahedron_volume. cbv zeta. rewrite E, Ht. reflexivity. }
  remember (IZR (Z.abs t)) as vol eqn:Evol. clear Evol Ht.
  run_tetrahedra.
  repeat (match goal with
          | |- context [tessellate_face_vec 3 ?l true] =>
              name_cube_of_face s l; rewrite (cube_of_face_triangles s) by (assumption || lia)
          end; run_tetrahedra).
  repeat match goal with
         | |- context [tetrahedron_volume ?a ?b ?c ?d] =>
             rewrite (V a b c d) by (run_code; rewrite ?half_decimal; field)
         end.
  rewrite ?half_decimal. f_equal; [field | repeat (f_equal; try field)].
Qed.

(** [compute_cell_geometry] on the cube of side [s], when the determinant
    [s^3 / 8] of its tetrahedra is cut to the positive integer [t]: the
    outward unit normals, the face centroids, the centre as centroid and
    star point, and the volume [8 t] (48 tetrahedra of volume [t / 6]). *)
Lemma cube_of_geometry (s : R) (t : Z) :
  0 < s -> to_int (s * s * s / 8) = t -> (0 < t)%Z ->
  exists geo,
    compute_cell_geometry (cube_of s) 8 unit_cube_faces unit_cube_face_edges 6 = Ok geo /\
    outward_normals geo = cube_normals /\ face_centroids geo = cube_of_centroids s /\
    volume geo = 8 * IZR t /\
    cell_centroid geo = [s / 2; s / 2; s / 2] /\
    star_point geo = [s / 2; s / 2; s / 2].
Proof.
  intros Hs Ht Hp.
  assert (Tp : 0 < IZR t) by (apply IZR_lt; exact Hp).
  unfold compute_cell_geometry. rewrite (cube_of_face_geometries s Hs).
  change (length (cube_of_centroids s) =? 6 * 3)%nat with true. cbn [assert_ bind].
  assert (C : orientation_check cube_normals (cube_of_centroids s) = Ok tt).
  { apply orientation_check_spec.
    unfold orientation_sum, cube_normals, cube_of_centroids, mean3, dot3, vec3, pt3. simpl. lra. }
  rewrite C. cbn [bind].
  rewrite cube_of_mean, (identify_star_point_fixed _ _ _ (cube_of_centre_star s Hs)). cbn [bind].
  rewrite (cube_of_tetrahedra s t Hs Ht), (Z.abs_eq t) by lia. cbn [map seq nth].
  replace (4 * IZR t * s / (8 * IZR t)) with (s / 2) by (field; lra).
  rewrite (cube_of_centre_star s Hs). eexists. split; [reflexivity |]. cbn. repeat split.
Qed.

Lemma cube_of_indexed (s : R) :
  pick_points 3 (cube_of s) [0; 1; 2; 3; 4; 5; 6; 7]%nat 8 = cube_of s.
Proof. reflexivity. Qed.

(** The local assembly of the cube returns, with the q vector
    [cube_of_q s (8 t)]. *)
Lemma cube_of_local_assembly (s : R) (t : Z) (young poisson : R)
      (stability_choice : StabilityChoice) :
  0 < s -> to_int (s * s * s / 8) = t -> (0 < t)%Z ->
  exists centroid target,
    assemble_stiffness_matrix_3D (cube_of s) unit_cube_faces unit_cube_face_edges 6
                                 young poisson stability_choice
    = Ok (centroid, [0; 1; 2; 3; 4; 5; 6; 7]%nat, target) /\
    length target = 576%nat.
Proof.
  intros Hs Ht Hp.
  unfold assemble_stiffness_matrix_3D.
  change (global_to_local_indexing unit_cube_faces unit_cube_face_edges 6)
    with ([(0, 0); (1, 1); (2, 2); (3, 3); (4, 4); (5, 5); (6, 6); (7, 7)]%nat,
          [0; 1; 2; 3; 4; 5; 6; 7]%nat).
  cbv iota beta.
  change (length [0; 1; 2; 3; 4; 5; 6; 7]%nat) with 8%nat.
  rewrite cube_of_indexed.
  change (map _ (firstn (accumulate unit_cube_face_edges 6) unit_cube_faces))
    with unit_cube_faces.
  destruct (cube_of_geometry s t Hs Ht Hp) as (geo & E & En & _ & Ev & _).
  rewrite E. cbn [bind]. rewrite En, Ev.
  change (length (cube_of s) / 3)%nat with 8%nat.
  rewrite (compute_q_3D_cube_of s _ Hs).
  destruct (compute_W_3D_ok (cube_of_q s (8 * IZR t)) 8 eq_refl)
    as [[Wr [EWr LWr]] [Wc [EWc LWc]]].
  rewrite EWr, EWc. cbn [bind].
  destruct (compute_ImP_spec (compute_Nr_3D (cube_of s) 8) (compute_Nc_3D (cube_of s) 8) Wr Wc
                             3 8 (or_intror eq_refl) (compute_Nc_3D_length (cube_of s) 8))
    as (ImP & EI & LI & _).
  rewrite EI. cbn [bind].
  destruct (final_assembly_spec Wc (compute_D_3D young poisson) (compute_Nc_3D (cube_of s) 8) ImP
                                stability_choice (8 * IZR t) 8 3 (or_intror eq_refl) eq_refl)
    as (E0 & S0 & target & _ & _ & ET & LT & _).
  rewrite ET. cbn [bind]. eexists. exists target. split; [reflexivity | exact LT].
Qed.


Lemma cube2_determinant : to_int (2 * 2 * 2 / 8) = 1%Z.
Proof. apply to_int_between; [lia | lra]. Qed.

Lemma cube2_geometry :
  exists geo,
    compute_cell_geometry cube2 8 unit_cube_faces unit_cube_face_edges 6 = Ok geo /\
    outward_normals geo = cube_normals /\ face_centroids geo = cube_of_centroids 2 /\
    volume geo = 8 /\
    cell_centroid geo = [2 / 2; 2 / 2; 2 / 2] /\ star_point geo = [2 / 2; 2 / 2; 2 / 2].
Proof.
  destruct (cube_of_geometry 2 1 ltac:(lra) cube2_determinant ltac:(lia))
    as (geo & E & En & Ec & Ev & Ecc & Es).
  exists geo. repeat split; try assumption. rewrite Ev. lra.
Qed.

Lemma cube2_q_vector :
  compute_q_3D cube2 8 unit_cube_faces unit_cube_face_edges 6 8 cube_normals = cube_of_q 2 8.
Proof. apply compute_q_3D_cube_of. lra. Qed.

Lemma cube2_moments : q_moments 3 cube2 (cube_of_q 2 8) 8.
Proof.
  replace (cube_of_q 2 8) with (cube_of_q 2 (2 * 2 * 2)) by (f_equal; lra).
  apply cube_of_moments. lra.
Qed.


Lemma cube2_local_assembly (young poisson : R) (stability_choice : StabilityChoice) :
  exists centroid target,
    assemble_stiffness_matrix_3D cube2 unit_cube_faces unit_cube_face_edges 6
                                 young poisson stability_choice
    = Ok (centroid, [0; 1; 2; 3; 4; 5; 6; 7]%nat, target) /\
    length target = 576%nat.
Proof.
  apply (cube_of_local_assembly 2 1); [lra | exact cube2_determinant | lia].
Qed.

Lemma cube2_closed :
  closed_cell_3D cube2 8 unit_cube_faces unit_cube_face_edges 6 8 cube_normals.
Proof.
  replace (closed_cell_3D cube2 8 unit_cube_faces unit_cube_face_edges 6 8 cube_normals)
    with (closed_cell_3D (cube_of 2) 8 unit_cube_faces unit_cube_face_edges 6 (2 * 2 * 2)
                         cube_normals)
    by (unfold cube2; f_equal; lra).
  apply cube_of_closed. lra.
Qed.


Lemma cube3_determinant : to_int (3 * 3 * 3 / 8) = 3%Z.
Proof. apply to_int_between; [lia | lra]. Qed.

Lemma cube3_geometry :
  exists geo,
    compute_cell_geometry cube3 8 unit_cube_faces unit_cube_face_edges 6 = Ok geo /\
    outward_normals geo = cube_normals /\ face_centroids geo = cube_of_centroids 3 /\
    volume geo = 24 /\
    cell_centroid geo = [3 / 2; 3 / 2; 3 / 2] /\ star_point geo = [3 / 2; 3 / 2; 3 / 2].
Proof.
  destruct (cube_of_geometry 3 3 ltac:(lra) cube3_determinant ltac:(lia))
    as (geo & E & En & Ec & Ev & Ecc & Es).
  exists geo. repeat split; try assumption. rewrite Ev. lra.
Qed.

(** ** The projector on the cube of side 3 *)

Lemma cube3_q_vector :
  compute_q_3D cube3 8 unit_cube_faces unit_cube_face_edges 6 24 cube_normals = cube_of_q 3 24.
Proof. apply compute_q_3D_cube_of. lra. Qed.

(** Three entries of the matrices formed from the q vector of the cube of
    side 3: of [I - P], of its square, and of its product with Nc. *)
Lemma cube3_entries (Wr Wc ImP : list R) :
  compute_Wr_3D (cube_of_q 3 24) = Ok Wr -> compute_Wc_3D (cube_of_q 3 24) = Ok Wc ->
  compute_ImP (compute_Nr_3D cube3 8) (compute_Nc_3D cube3 8) Wr Wc 3 = Ok ImP ->
  of_flat 24 ImP 0%nat 0%nat = 29 / 64 /\
  mmul 24 (of_flat 24 ImP) (of_flat 24 ImP) 0%nat 0%nat = 259 / 512 /\
  mmul 24 (of_flat 24 ImP) (of_flat 6 (compute_Nc_3D cube3 8)) 0%nat 0%nat = 3 / 16.
Proof.
  intros EWr EWc EI.
  rewrite (compute_Wr_3D_eq (cube_of_q 3 24) 8 eq_refl) in EWr.
  rewrite (compute_Wc_3D_eq (cube_of_q 3 24) 8 eq_refl) in EWc.
  destruct (compute_ImP_spec (compute_Nr_3D cube3 8) (compute_Nc_3D cube3 8) Wr Wc
                             3 8 (or_intror eq_refl) (compute_Nc_3D_length cube3 8))
    as (ImP' & EI' & _ & H).
  rewrite EI in EI'. injection EI' as <-. cbv zeta in H.
  change (3 * 8)%nat with 24%nat in H.
  split; [| split].
  - rewrite (H 0%nat 0%nat) by lia. injection EWr as <-. injection EWc as <-. run_code. lra.
  - unfold mmul. cbn [bigsum].
    rewrite !H by lia. injection EWr as <-. injection EWc as <-. run_code. lra.
  - unfold mmul. cbn [bigsum].
    rewrite !H by lia. injection EWr as <-. injection EWc as <-. run_code. lra.
Qed.

(** C4 does not hold of the code in 3D.  [compute_cell_geometry] takes the
    volume of the cell from [tetrahedron_volume], which cuts the determinant
    of each tetrahedron to an integer.  For the cube of side 3, a valid
    cell, each determinant is 27/8 and counts as 3: the volume comes out as
    24 where the cube has volume 27.  The q vector that
    [assemble_stiffness_matrix_3D] forms with it is 9/8 of what the
    divergence theorem asks for, [P = Nr Wr^T + Nc Wc^T] is not a projector,
    and [I - P] is not idempotent: its entry (0, 0) is 29/64, that of its
    square is 259/512.  Nor does it send the constant-strain modes to
    zero. *)
Theorem projector_complement_cube3 :
  exists geo Wr Wc ImP centroid target,
    assemble_stiffness_matrix_3D cube3 unit_cube_faces unit_cube_face_edges 6 1 0.3 SIMPLE
    = Ok (centroid, [0; 1; 2; 3; 4; 5; 6; 7]%nat, target) /\
    compute_cell_geometry cube3 8 unit_cube_faces unit_cube_face_edges 6 = Ok geo /\
    volume geo = 24 /\
    compute_Wr_3D (compute_q_3D cube3 8 unit_cube_faces unit_cube_face_edges 6
                                (volume geo) (outward_normals geo)) = Ok Wr /\
    compute_Wc_3D (compute_q_3D cube3 8 unit_cube_faces unit_cube_face_edges 6
                                (volume geo) (outward_normals geo)) = Ok Wc /\
    compute_ImP (compute_Nr_3D cube3 8) (compute_Nc_3D cube3 8) Wr Wc 3 = Ok ImP /\
    of_flat 24 ImP 0%nat 0%nat = 29 / 64 /\
    mmul 24 (of_flat 24 ImP) (of_flat 24 ImP) 0%nat 0%nat = 259 / 512 /\
    ~ idempotent 24 ImP /\
    ~ annihilates 24 6 ImP (compute_Nc_3D cube3 8).
Proof.
  destruct cube3_geometry as (geo & EG & En & _ & Ev & _).
  destruct (cube_of_local_assembly 3 3 1 0.3 SIMPLE ltac:(lra) cube3_determinant ltac:(lia))
    as (centroid & target & EA & _).
  destruct (compute_W_3D_ok (cube_of_q 3 24) 8 eq_refl) as [[Wr [EWr _]] [Wc [EWc _]]].
  destruct (compute_ImP_spec (compute_Nr_3D cube3 8) (compute_Nc_3D cube3 8) Wr Wc
                             3 8 (or_intror eq_refl) (compute_Nc_3D_length cube3 8))
    as (ImP & EI & _ & _).
  destruct (cube3_entries Wr Wc ImP EWr EWc EI) as (E00 & S00 & N00).
  exists geo, Wr, Wc, ImP, centroid, target.
  rewrite En, Ev, cube3_q_vector.
  split; [exact EA |]. split; [exact EG |]. split; [reflexivity |].
  split; [exact EWr |]. split; [exact EWc |]. split; [exact EI |].
  split; [exact E00 |]. split; [exact S00 |]. split.
  - intros H. specialize (H 0%nat 0%nat ltac:(lia) ltac:(lia)). rewrite S00, E00 in H. lra.
  - intros H. specialize (H 0%nat 0%nat ltac:(lia) ltac:(lia)). rewrite N00 in H.
    unfold mzero in H. lra.
Qed.

(** ** The projector on a square frustum *)

Ltac root_of_frustum :=
  repeat match goal with
         | |- context [sqrt ?E] =>
             first [ replace (sqrt E) with 1 by (symmetry; apply sqrt_of_square; lra)
                   | replace (sqrt E) with 2 by (symmetry; apply sqrt_of_square; lra)
                   | replace (sqrt E) with 3 by (symmetry; apply sqrt_of_square; lra)
                   | replace (sqrt E) with 5 by (symmetry; apply sqrt_of_square; lra)
                   | replace (sqrt E) with 7 by (symmetry; apply sqrt_of_square; lra)
                   | replace (sqrt E) with 8 by (symmetry; apply sqrt_of_square; lra)
                   | replace (sqrt E) with (25 / 2) by (symmetry; apply sqrt_of_square; lra)
                   | replace (sqrt E) with 16 by (symmetry; apply sqrt_of_square; lra)
                   | replace (sqrt E) with 20 by (symmetry; apply sqrt_of_square; lra)
                   | replace (sqrt E) with 32 by (symmetry; apply sqrt_of_square; lra)
                   | replace (sqrt E) with 50 by (symmetry; apply sqrt_of_square; lra)
                   | replace (sqrt E) with 128 by (symmetry; apply sqrt_of_square; lra) ]
         end.

Ltac six_faces f := destruct f as [|[|[|[|[|[|f]]]]]]; [| | | | | | lia].

Lemma frustum_face_centroid (f : nat) :
  (f < 6)%nat -> centroid_2D_3D (frustum_face f) 4 = slice frustum_centroids (3 * f) 3.
Proof.
  intros Hf. six_faces f; run_geometry; rewrite !triarea_3D; run_code; root_of_frustum; real_list.
Qed.

(** The corner weights of [face_integral_impl] on the faces of the frustum. *)
Lemma frustum_face_integral (f : nat) (cv : list R) :
  (f < 6)%nat ->
  face_integral (frustum_face f) 4 3 (Some cv)
  = nth (4 * f) frustum_weights 0 * nth 0 cv 0 + nth (4 * f + 1) frustum_weights 0 * nth 1 cv 0
    + nth (4 * f + 2) frustum_weights 0 * nth 2 cv 0
    + nth (4 * f + 3) frustum_weights 0 * nth 3 cv 0.
Proof.
  intros Hf. unfold face_integral. cbn [Nat.eqb]. rewrite face_integral_impl_spec.
  destruct (face_triangles_layout 3 (frustum_face f) 4) as [_ H].
  change (face_centroid 3 (frustum_face f) 4) with (centroid_2D_3D (frustum_face f) 4) in H.
  rewrite (frustum_face_centroid f Hf) in H.
  cbn [bigsum]. unfold tri_area_of.
  destruct (H 0%nat ltac:(lia)) as [A0 B0]. destruct (H 1%nat ltac:(lia)) as [A1 B1].
  destruct (H 2%nat ltac:(lia)) as [A2 B2]. destruct (H 3%nat ltac:(lia)) as [A3 B3].
  cbn [Nat.mul Nat.add] in A0, B0, A1, B1, A2, B2, A3, B3.
  cbn [Nat.mul Nat.add]. rewrite A0, B0, A1, B1, A2, B2, A3, B3. clear H A0 B0 A1 B1 A2 B2 A3 B3.
  rewrite !triarea_3D.
  six_faces f; run_code; root_of_frustum; lra.
Qed.

Ltac name_frustum_face l :=
  first [ change l with (frustum_face 0) | change l with (frustum_face 1)
        | change l with (frustum_face 2) | change l with (frustum_face 3)
        | change l with (frustum_face 4) | change l with (frustum_face 5) ].

Lemma compute_q_3D_frustum :
  compute_q_3D frustum 8 unit_cube_faces unit_cube_face_edges 6 112 frustum_normals = frustum_q.
Proof.
  run_face_integrals.
  repeat match goal with
         | |- context [face_integral ?l 4 3 (Some ?cv)] =>
             name_frustum_face l; rewrite !frustum_face_integral by lia
         end.
  cbn [nth Nat.mul Nat.add frustum_weights]. real_list.
Qed.

(** The q vector of the frustum sums to zero and has first moment [I / 2]:
    the corner weights of the face integral, taken around the area centroid
    of each face, integrate linear functions exactly. *)
Lemma frustum_moments : q_moments 3 frustum frustum_q 8.
Proof.
  split.
  - intros a Ha. destruct a as [|[|[|a]]]; [| | | lia]; cbn; lra.
  - intros a b Ha Hb.
    destruct a as [|[|[|a]]]; [| | | lia]; (destruct b as [|[|[|b]]]; [| | | lia]); cbn; lra.
Qed.

Lemma frustum_face_length (f : nat) : length (frustum_face f) = 12%nat.
Proof. reflexivity. Qed.

Lemma frustum_face_geometry (f : nat) :
  (f < 6)%nat ->
  compute_face_geometry (frustum_face f)
  = (slice frustum_normals (3 * f) 3, slice frustum_centroids (3 * f) 3).
Proof.
  intros Hf. unfold compute_face_geometry. rewrite frustum_face_length.
  change (12 / 3)%nat with 4%nat.
  unfold tessellate_face. cbn [andb].
  change (face_centroid 3 (frustum_face f) 4) with (centroid_2D_3D (frustum_face f) 4).
  rewrite (frustum_face_centroid f Hf).
  six_faces f; run_code; root_of_frustum; f_equal; real_list.
Qed.

Lemma frustum_face_geometries :
  face_geometries frustum (extract_local_faces unit_cube_faces unit_cube_face_edges 6)
                  unit_cube_face_edges 6
  = (frustum_normals, frustum_centroids).
Proof.
  run_faces.
  repeat (match goal with
          | |- context [compute_face_geometry ?l] =>
              name_frustum_face l; rewrite frustum_face_geometry by lia
          end; run_faces).
  reflexivity.
Qed.

Lemma frustum_face_triangles (f : nat) :
  (f < 6)%nat ->
  tessellate_face_vec 3 (frustum_face f) true
  = flat_map (fun c => [ slice frustum_centroids (3 * f) 3 ++ slice (frustum_face f) (3 * c) 3
                           ++ edge_midpoint 3 (frustum_face f) 4 c;
                         slice frustum_centroids (3 * f) 3 ++ edge_midpoint 3 (frustum_face f) 4 c
                           ++ slice (frustum_face f) (3 * ((c + 1) mod 4)) 3 ])
             (seq 0 4).
Proof.
  intros Hf. unfold tessellate_face_vec. rewrite frustum_face_length.
  change (12 / 3)%nat with 4%nat. rewrite tessellate_face_no_skip by lia.
  unfold tessellate_face. cbn [andb fst].
  change (face_centroid 3 (frustum_face f) 4) with (centroid_2D_3D (frustum_face f) 4).
  rewrite (frustum_face_centroid f Hf). reflexivity.
Qed.

Lemma frustum_mean : point_average 3 frustum 8 = [0 / 8; 0 / 8; 16 / 8].
Proof. run_code. real_list. Qed.

Lemma frustum_mean_star :
  is_star_point [0 / 8; 0 / 8; 16 / 8] frustum_normals frustum_centroids = true.
Proof.
  apply is_star_point_spec. intros i Hi.
  change (length frustum_normals / 3)%nat with 6%nat in Hi.
  apply is_behind_face_spec. six_faces i; run_code; lra.
Qed.

(** A tetrahedron whose determinant is a natural number has a sixth of it
    as volume. *)
Lemma tetrahedron_volume_integer (a b c d : list R) (z : Z) :
  (0 <= z)%Z ->
  determinant3D (pointdiff 3 a d) (pointdiff 3 b d) (pointdiff 3 c d) = IZR z ->
  tetrahedron_volume a b c d = IZR z / 6.
Proof.
  intros Hz E. unfold tetrahedron_volume. cbv zeta. rewrite E.
  rewrite (to_int_between (IZR z) z Hz) by lra. rewrite Z.abs_eq by exact Hz. reflexivity.
Qed.

Ltac integer_tetrahedra :=
  repeat match goal with
         | |- context [tetrahedron_volume ?a ?b ?c ?d] =>
             first [ rewrite (tetrahedron_volume_integer a b c d 2) by (try lia; run_code; lra)
                   | rewrite (tetrahedron_volume_integer a b c d 6) by (try lia; run_code; lra)
                   | rewrite (tetrahedron_volume_integer a b c d 14) by (try lia; run_code; lra)
                   | rewrite (tetrahedron_volume_integer a b c d 16) by (try lia; run_code; lra)
                   | rewrite (tetrahedron_volume_integer a b c d 32) by (try lia; run_code; lra) ]
         end.

(** The tetrahedra between the tessellated faces of the frustum and the mean
    of its corners have the determinants 2, 6, 14, 16 and 32: they add up
    to the volume 112. *)
Lemma frustum_tetrahedra :
  accumulate_tetrahedra frustum unit_cube_faces unit_cube_face_edges 6 [0 / 8; 0 / 8; 16 / 8]
  = (112, [0; 0; 144]).
Proof.
  run_tetrahedra.
  repeat (match goal with
          | |- context [tessellate_face_vec 3 ?l true] =>
              name_frustum_face l; rewrite frustum_face_triangles by lia
          end; run_tetrahedra).
  integer_tetrahedra.
  f_equal; real_list.
Qed.

(** [compute_cell_geometry] on the frustum: the outward unit normals, the
    face centroids, the volume 112, and the centroid at height 9/7 (written
    as the quotient the code forms), which is also the star point. *)
Lemma frustum_geometry :
  exists geo,
    compute_cell_geometry frustum 8 unit_cube_faces unit_cube_face_edges 6 = Ok geo /\
    outward_normals geo = frustum_normals /\ face_centroids geo = frustum_centroids /\
    volume geo = 112 /\
    cell_centroid geo = [0 / 112; 0 / 112; 144 / 112] /\
    star_point geo = [0 / 112; 0 / 112; 144 / 112].
Proof.
  unfold compute_cell_geometry. rewrite frustum_face_geometries.
  change (length frustum_centroids =? 6 * 3)%nat with true. cbn [assert_ bind].
  assert (C : orientation_check frustum_normals frustum_centroids = Ok tt).
  { apply orientation_check_spec.
    unfold orientation_sum, frustum_normals, frustum_centroids, mean3, dot3, vec3, pt3.
    simpl. lra. }
  rewrite C. cbn [bind].
  rewrite frustum_mean, (identify_star_point_fixed _ _ _ frustum_mean_star). cbn [bind].
  rewrite frustum_tetrahedra. cbn [map seq nth].
  assert (S : is_star_point [0 / 112; 0 / 112; 144 / 112] frustum_normals frustum_centroids
              = true).
  { apply is_star_point_spec. intros i Hi.
    change (length frustum_normals / 3)%nat with 6%nat in Hi.
    apply is_behind_face_spec. six_faces i; run_code; lra. }
  rewrite S. eexists. split; [reflexivity |]. cbn. repeat split.
Qed.

(** On the frustum the claim C4 holds of the code: the determinants of its
    tetrahedra are integers, the volume computed is the volume of the cell,
    and the matrix [I - P] that [assemble_stiffness_matrix_3D] forms is
    idempotent and sends the columns of Nr and Nc to zero. *)
Lemma frustum_projector :
  exists geo Wr Wc ImP,
    compute_cell_geometry frustum 8 unit_cube_faces unit_cube_face_edges 6 = Ok geo /\
    volume geo = 112 /\
    q_moments 3 frustum
              (compute_q_3D frustum 8 unit_cube_faces unit_cube_face_edges 6
                            (volume geo) (outward_normals geo)) 8 /\
    compute_Wr_3D (compute_q_3D frustum 8 unit_cube_faces unit_cube_face_edges 6
                                (volume geo) (outward_normals geo)) = Ok Wr /\
    compute_Wc_3D (compute_q_3D frustum 8 unit_cube_faces unit_cube_face_edges 6
                                (volume geo) (outward_normals geo)) = Ok Wc /\
    compute_ImP (compute_Nr_3D frustum 8) (compute_Nc_3D frustum 8) Wr Wc 3 = Ok ImP /\
    idempotent 24 ImP /\
    annihilates 24 6 ImP (compute_Nr_3D frustum 8) /\
    annihilates 24 6 ImP (compute_Nc_3D frustum 8).
Proof.
  destruct frustum_geometry as (geo & EG & En & _ & Ev & _).
  destruct (compute_ImP_3D_idempotent frustum frustum_q 8 ltac:(lia) eq_refl frustum_moments)
    as (Wr & Wc & ImP & EWr & EWc & EI & _ & Id & A1 & A2).
  exists geo, Wr, Wc, ImP. rewrite En, Ev, compute_q_3D_frustum.
  split; [exact EG |]. split; [reflexivity |]. split; [exact frustum_moments |].
  split; [exact EWr |]. split; [exact EWc |]. split; [exact EI |].
  split; [exact Id |]. split; [exact A1 | exact A2].
Qed.

(** ** The star-point search on an L-shaped prism *)

(** Replaces the square root of an expression by the number it is the
    square of, among those that occur for the faces of the prism. *)
Ltac root_among :=
  repeat match goal with
         | |- context [sqrt ?E] =>
             first [ replace (sqrt E) with (1 / 2) by (symmetry; apply sqrt_of_square; lra)
                   | replace (sqrt E) with (1 / 4) by (symmetry; apply sqrt_of_square; lra)
                   | replace (sqrt E) with (3 / 4) by (symmetry; apply sqrt_of_square; lra)
                   | replace (sqrt E) with (3 / 2) by (symmetry; apply sqrt_of_square; lra)
                   | replace (sqrt E) with 1 by (symmetry; apply sqrt_of_square; lra)
                   | replace (sqrt E) with 2 by (symmetry; apply sqrt_of_square; lra)
                   | replace (sqrt E) with 4 by (symmetry; apply sqrt_of_square; lra)
                   | replace (sqrt E) with 6 by (symmetry; apply sqrt_of_square; lra)
                   | replace (sqrt E) with 8 by (symmetry; apply sqrt_of_square; lra)
                   | replace (sqrt E) with 16 by (symmetry; apply sqrt_of_square; lra) ]
         end.

Ltac ten_cases f :=
  destruct f as [|[|[|[|[|[|[|[|[|[|f]]]]]]]]]]; [| | | | | | | | | | lia].

Lemma ell_face_centroid (f : nat) :
  (f < 10)%nat -> centroid_2D_3D (ell_face f) 4 = slice ell_centroids (3 * f) 3.
Proof.
  intros Hf. ten_cases f; run_geometry; rewrite !triarea_3D; run_code; root_among; real_list.
Qed.

Lemma ell_face_length (f : nat) : length (ell_face f) = 12%nat.
Proof. reflexivity. Qed.

Lemma ell_face_geometry (f : nat) :
  (f < 10)%nat ->
  compute_face_geometry (ell_face f)
  = (slice ell_normals (3 * f) 3, slice ell_centroids (3 * f) 3).
Proof.
  intros Hf. unfold compute_face_geometry. rewrite ell_face_length.
  change (12 / 3)%nat with 4%nat.
  unfold tessellate_face. cbn [andb].
  change (face_centroid 3 (ell_face f) 4) with (centroid_2D_3D (ell_face f) 4).
  rewrite (ell_face_centroid f Hf).
  ten_cases f; run_code; root_among; f_equal; real_list.
Qed.

Ltac name_ell_face l :=
  first [ change l with (ell_face 0) | change l with (ell_face 1)
        | change l with (ell_face 2) | change l with (ell_face 3)
        | change l with (ell_face 4) | change l with (ell_face 5)
        | change l with (ell_face 6) | change l with (ell_face 7)
        | change l with (ell_face 8) | change l with (ell_face 9) ].

(** The face loop of [compute_cell_geometry] on the prism. *)
Lemma ell_face_geometries :
  face_geometries ell_cell (extract_local_faces ell_faces ell_face_edges 10) ell_face_edges 10
  = (ell_normals, ell_centroids).
Proof.
  run_faces.
  repeat (match goal with
          | |- context [compute_face_geometry ?l] =>
              name_ell_face l; rewrite ell_face_geometry by lia
          end; run_faces).
  reflexivity.
Qed.

Lemma ell_point_average : point_average 3 ell_cell 14 = ell_mean.
Proof. run_code. real_list. Qed.

(** The normals point outward: the orientation check passes. *)
Lemma ell_orientation : orientation_check ell_normals ell_centroids = Ok tt.
Proof.
  apply orientation_check_spec.
  unfold orientation_sum, ell_normals, ell_centroids, mean3, dot3, vec3, pt3. simpl. lra.
Qed.

(** The search from the mean of the corners: the wall [x = 1] of the notch
    is checked first and fails, the point is pushed to [x = 67/70], and the
    nine checks that follow pass. *)
Lemma ell_check0 : check_passes ell_normals ell_centroids 10 ell_mean 0 = false.
Proof.
  apply not_true_iff_false. unfold check_passes. cbn [candidate]. intros E.
  apply is_behind_face_spec in E.
  unfold dot3, vec3, tol, ell_normals, ell_centroids, ell_mean in E. simpl in E. lra.
Qed.

Lemma ell_candidate (i : nat) :
  (1 <= i <= 10)%nat ->
  candidate ell_normals ell_centroids 10 ell_mean i = [67 / 70; 12 / 7; 1 / 2].
Proof.
  induction i as [|i IH]; [lia |]. intros Hi. rewrite candidate_S.
  destruct (Nat.eq_dec i 0) as [-> | Hn].
  - rewrite ell_check0. cbn [candidate].
    unfold push_behind, ell_normals, ell_centroids, ell_mean. simpl.
    repeat (f_equal; try lra).
  - specialize (IH ltac:(lia)).
    assert (C : check_passes ell_normals ell_centroids 10 ell_mean i = true).
    { unfold check_passes. rewrite IH. apply is_behind_face_spec.
      do 10 (destruct i as [|i];
             [try lia; unfold dot3, vec3, tol, ell_normals, ell_centroids; simpl; lra |]).
      lia. }
    rewrite C. exact IH.
Qed.

Lemma ell_check (i : nat) :
  (1 <= i < 10)%nat -> check_passes ell_normals ell_centroids 10 ell_mean i = true.
Proof.
  intros Hi. unfold check_passes. rewrite ell_candidate by lia.
  apply is_behind_face_spec.
  do 10 (destruct i as [|i];
         [try lia; unfold dot3, vec3, tol, ell_normals, ell_centroids; simpl; lra |]).
  lia.
Qed.

Lemma ell_first_settled :
  settled ell_normals ell_centroids 10 ell_mean 10 /\
  forall k', (k' < 10)%nat -> ~ settled ell_normals ell_centroids 10 ell_mean k'.
Proof.
  split.
  - split; [lia |]. intros j H1 H2. apply ell_check. lia.
  - intros k' Hk' [H _]. lia.
Qed.

(** C7, as stated, fails.  For the L-shaped prism, [compute_cell_geometry]
    passes the orientation check and starts the search at the mean of the
    corners, with the normals and centroids of its face loop.  The search
    returns after 10 iterations, the first of which found the point not
    behind its face: the 10 checks before the return did not all pass. *)
Lemma star_search_claim_fails :
  let fg := face_geometries ell_cell (extract_local_faces ell_faces ell_face_edges 10)
                            ell_face_edges 10 in
  let start := point_average 3 ell_cell 14 in
  orientation_check (fst fg) (snd fg) = Ok tt /\
  ~ (forall p, identify_star_point start (fst fg) (snd fg) = Ok p ->
               let k := star_iterations start (fst fg) (snd fg) in
               (10 <= k)%nat /\
               forall j, (k <= j + 10)%nat -> (j < k)%nat ->
                         check_passes (fst fg) (snd fg) 10 start j = true).
Proof.
  cbv zeta. rewrite ell_face_geometries, ell_point_average. cbn [fst snd].
  split; [exact ell_orientation |].
  intros H.
  destruct (star_search_spec ell_mean ell_normals ell_centroids) as [_ [R [I _]]].
  change (length ell_normals / 3)%nat with 10%nat in *.
  assert (It : star_iterations ell_mean ell_normals ell_centroids = 10%nat).
  { apply I; [lia | exact ell_first_settled]. }
  assert (Ret : identify_star_point ell_mean ell_normals ell_centroids
                = Ok (candidate ell_normals ell_centroids 10 ell_mean 10)).
  { apply R. exists 10%nat. split; [lia |]. split; [exact ell_first_settled | reflexivity]. }
  specialize (H _ Ret). rewrite It in H. destruct H as [_ H].
  specialize (H 0%nat ltac:(lia) ltac:(lia)). rewrite ell_check0 in H. discriminate.
Qed.

(** ** What the trivial-equation pass leaves in the rows of the fixed dofs *)

Lemma occurrences_app (l1 l2 : list triplet) (i j : Z) :
  occurrences (l1 ++ l2) i j = (occurrences l1 i j + occurrences l2 i j)%nat.
Proof. unfold occurrences. rewrite filter_app, length_app. reflexivity. Qed.

Lemma occurrences_cons (t : triplet) (l : list triplet) (i j : Z) :
  occurrences (t :: l) i j
  = ((if ((trow t =? i) && (tcol t =? j))%Z then 1 else 0) + occurrences l i j)%nat.
Proof. unfold occurrences. simpl. destruct ((trow t =? i) && (tcol t =? j))%Z; reflexivity. Qed.

Lemma occurrences_insert_by_col (t : triplet) (l : list triplet) (i j : Z) :
  occurrences (insert_by_col t l) i j = occurrences (t :: l) i j.
Proof.
  induction l as [|h r IH]; [reflexivity |]. simpl insert_by_col.
  destruct (tcol h <? tcol t)%Z; [| reflexivity].
  rewrite !occurrences_cons in *. rewrite IH. lia.
Qed.

(** Sorting by column moves triplets, it adds and drops none. *)
Lemma occurrences_sort_by_col (A : list triplet) (i j : Z) :
  occurrences (sort_by_col A) i j = occurrences A i j.
Proof.
  induction A as [|t A IH]; [reflexivity |].
  unfold sort_by_col in *. simpl fold_right.
  rewrite occurrences_insert_by_col, !occurrences_cons, IH. reflexivity.
Qed.

Lemma lower_bound_split (l : list triplet) (dof : Z) :
  fst (lower_bound l dof) ++ snd (lower_bound l dof) = l.
Proof.
  induction l as [|h r IH]; [reflexivity |]. simpl.
  destruct (tcol h <? dof)%Z; [| reflexivity].
  destruct (lower_bound r dof) as [s rest]. simpl in *. rewrite IH. reflexivity.
Qed.

Lemma find_if_other_split (l : list triplet) (dof : Z) :
  fst (find_if_other l dof) ++ snd (find_if_other l dof) = l.
Proof.
  induction l as [|h r IH]; [reflexivity |]. simpl.
  destruct (negb (tcol h =? dof)%Z); [reflexivity |].
  destruct (find_if_other r dof) as [s rest]. simpl in *. rewrite IH. reflexivity.
Qed.

Lemma occurrences_zeroed (l : list triplet) (i j : Z) :
  occurrences (map (fun t => (trow t, tcol t, 0)) l) i j = occurrences l i j.
Proof.
  induction l as [|t l IH]; [reflexivity |]. simpl map. rewrite !occurrences_cons, IH.
  reflexivity.
Qed.

(** The column-elimination loop keeps every triplet at its position. *)
Lemma occurrences_eliminate_columns (zero : bool) (A : list triplet) (b : list R) (nf : nat)
      (ixs : list Z) (vals : list R) (i j : Z) :
  occurrences (fst (eliminate_columns zero A b nf ixs vals)) i j = occurrences A i j.
Proof.
  unfold eliminate_columns.
  set (step := fun (st : list triplet * list triplet * list R) (k : nat) => _).
  assert (H : forall l st,
             occurrences (fst (fst (fold_left step l st)) ++ snd (fst (fold_left step l st))) i j
             = occurrences (fst (fst st) ++ snd (fst st)) i j).
  { induction l as [|k l IH]; intros st; simpl; [reflexivity |].
    rewrite IH. destruct st as [[done todo] b0]. unfold step. cbn [fst snd].
    pose proof (lower_bound_split todo (nth k ixs 0%Z)) as LS.
    destruct (lower_bound todo (nth k ixs 0%Z)) as [skipped start]. cbn [fst snd] in LS.
    destruct start as [|h r]; [reflexivity |].
    destruct (tcol h =? nth k ixs 0%Z)%Z; [| reflexivity].
    pose proof (find_if_other_split (h :: r) (nth k ixs 0%Z)) as FS.
    destruct (find_if_other (h :: r) (nth k ixs 0%Z)) as [run rest]. cbn [fst snd] in *.
    rewrite <- LS, <- FS. rewrite !occurrences_app.
    destruct zero; rewrite ?occurrences_zeroed; lia. }
  specialize (H (seq 0 nf) ([], A, b)).
  destruct (fold_left step (seq 0 nf) ([], A, b)) as [[done todo] b']. exact H.
Qed.

Lemma set_difference_In (l1 l2 : list Z) (x : Z) :
  StronglySorted Z.lt l1 -> StronglySorted Z.lt l2 ->
  In x (set_difference l1 l2) -> In x l1 /\ ~ In x l2.
Proof.
  revert l2. induction l1 as [|a t1 IH1]; intros l2 S1 S2 H; [contradiction |].
  inversion S1 as [|? ? S1' F1]; subst. rewrite Forall_forall in F1.
  induction l2 as [|y t2 IH2].
  - rewrite set_difference_nil_r in H. split; [exact H | intros []].
  - inversion S2 as [|? ? S2' F2]; subst. rewrite Forall_forall in F2.
    rewrite set_difference_cons in H.
    destruct (Z.ltb_spec a y) as [Hay | Hay].
    + destruct H as [<- | H].
      * split; [left; reflexivity |]. intros [E | Hin]; [lia |]. specialize (F2 _ Hin). lia.
      * destruct (IH1 (y :: t2) S1' S2 H) as [I1 I2]. split; [right; exact I1 | exact I2].
    + destruct (Z.ltb_spec y a) as [Hya | Hya].
      * destruct (IH2 S2' H) as [I1 I2]. split; [exact I1 |].
        intros [E | Hin]; [| exact (I2 Hin)]. subst x.
        destruct I1 as [E | Hin]; [lia |]. specialize (F1 _ Hin). lia.
      * assert (a = y) by lia. subst y.
        destruct (IH1 t2 S1' S2' H) as [I1 I2]. split; [right; exact I1 |].
        intros [E | Hin]; [| exact (I2 Hin)]. subst x. specialize (F1 _ I1). lia.
Qed.

Lemma nthZ_updZ_other {A : Type} (v : list A) (i d : Z) (x dflt : A) :
  i <> d -> nthZ (updZ v i x) d dflt = nthZ v d dflt.
Proof.
  intros Hn. unfold nthZ. rewrite updZ_length.
  destruct (in_range d (length v)) eqn:Rd; [| reflexivity].
  unfold updZ. destruct (in_range i (length v)) eqn:Ri; [| reflexivity].
  apply nth_upd_other. unfold in_range in *. lia.
Qed.

Lemma nthZ_updZ_same {A : Type} (v : list A) (d : Z) (x dflt : A) :
  in_range d (length v) = true -> nthZ (updZ v d x) d dflt = x.
Proof.
  intros Rd. unfold nthZ. rewrite updZ_length, Rd. unfold updZ. rewrite Rd.
  apply nth_upd_same. unfold in_range in Rd. lia.
Qed.

(** A scatter loop leaves alone the positions it is not told to write. *)
Lemma fold_updZ_untouched {A : Type} (f : nat -> Z) (g : nat -> A) (l : list nat)
      (v0 : list A) (d : Z) (dflt : A) :
  (forall k, In k l -> f k <> d) ->
  nthZ (fold_left (fun v k => updZ v (f k) (g k)) l v0) d dflt = nthZ v0 d dflt.
Proof.
  revert v0. induction l as [|k l IH]; intros v0 H; simpl; [reflexivity |].
  rewrite IH by (intros; apply H; right; assumption).
  apply nthZ_updZ_other. apply H. left; reflexivity.
Qed.

(** The inverse renumbering holds the discard flag at every fixed dof. *)
Lemma renum_inv_fixed (n nf : nat) (ixs : list Z) (d : Z) :
  fixed_dofs_ok n nf ixs -> In d (firstn nf ixs) ->
  nthZ (snd (fst (renumbering n nf ixs))) d 0%Z = snd (renumbering n nf ixs).
Proof.
  intros (L & S & N & I) Hd. unfold renumbering. cbn [fst snd].
  set (renum := set_difference (iota n) (firstn nf ixs)).
  rewrite (fold_updZ_untouched (fun i => nth i renum 0%Z) (fun i => Z.of_nat i)).
  - unfold nthZ. rewrite repeat_length.
    assert (R : in_range d n = true) by (specialize (I d Hd); unfold in_range; lia).
    rewrite R. rewrite (nth_indep _ 0%Z (Z.of_nat n + 1)%Z); [apply nth_repeat |].
    rewrite repeat_length. unfold in_range in R. lia.
  - intros k Hk E. apply in_seq in Hk.
    assert (Hin : In d renum) by (rewrite <- E; apply nth_In; lia).
    destruct (set_difference_In (iota n) (firstn nf ixs) d (iota_sorted n)
                                (sorted_nodup_strict _ S N) Hin) as [_ Hnot].
    exact (Hnot Hd).
Qed.

(** The last loop of the pass writes the prescribed value of each fixed dof. *)
Lemma fixed_values_written (b : list R) (nf : nat) (ixs : list Z) (vals : list R) (i : nat) :
  fixed_dofs_ok (length b) nf ixs -> (i < nf)%nat ->
  nthZ (fold_left (fun b k => updZ b (nth k ixs 0%Z) (nth k vals 0)) (seq 0 nf) b)
       (nth i ixs 0%Z) 0
  = nth i vals 0.
Proof.
  intros (L & S & N & I) Hi.
  assert (D : forall k, (k < nf)%nat -> k <> i -> nth k ixs 0%Z <> nth i ixs 0%Z).
  { intros k Hk Hne E.
    rewrite NoDup_nth with (d := 0%Z) in N.
    apply Hne, N; rewrite ?length_firstn; try lia.
    all: rewrite ?nth_firstn.
    all: destruct (Nat.ltb_spec k nf), (Nat.ltb_spec i nf); try lia.
    all: try exact E. }
  assert (R : forall b0 : list R, length b0 = length b -> in_range (nth i ixs 0%Z) (length b0) = true).
  { intros b0 E. rewrite E.
    assert (Hin : In (nth i ixs 0%Z) (firstn nf ixs)).
    { replace (nth i ixs 0%Z) with (nth i (firstn nf ixs) 0%Z).
      - apply nth_In. rewrite length_firstn. lia.
      - rewrite nth_firstn. destruct (Nat.ltb_spec i nf); [reflexivity | lia]. }
    specialize (I _ Hin). unfold in_range. lia. }
  assert (G : forall m, (i < m)%nat -> (m <= nf)%nat ->
                        nthZ (fold_left (fun b k => updZ b (nth k ixs 0%Z) (nth k vals 0))
                                        (seq 0 m) b) (nth i ixs 0%Z) 0
                        = nth i vals 0).
  { induction m as [|m IH]; intros H1 H2; [lia |].
    rewrite seq_S, fold_left_app. simpl fold_left.
    destruct (Nat.eq_dec m i) as [-> | Hne].
    - apply nthZ_updZ_same. apply R.
      apply fold_left_length_inv. intros; apply updZ_length.
    - rewrite nthZ_updZ_other by (apply D; lia). apply IH; lia. }
  apply G; lia.
Qed.

(** The summed value at a position all of whose triplets are overwritten by
    the pass: the number of those triplets on the diagonal, zero off it. *)
Lemma coo_value_overwritten (renum_inv : list Z) (discard_flag : Z) (l : list triplet) (i j : Z) :
  ((nthZ renum_inv i 0 =? discard_flag) || (nthZ renum_inv j 0 =? discard_flag))%Z = true ->
  coo_value
    (map (fun el =>
            if ((nthZ renum_inv (trow el) 0 =? discard_flag)
                || (nthZ renum_inv (tcol el) 0 =? discard_flag))%Z
            then (if (trow el =? tcol el)%Z then (trow el, tcol el, 1)
                  else (trow el, tcol el, 0))
            else el) l) i j
  = if (i =? j)%Z then INR (occurrences l i j) else 0.
Proof.
  intros F. induction l as [|t l IH]; [simpl; destruct (i =? j)%Z; reflexivity |].
  rewrite occurrences_cons. cbn [map coo_value fold_right]. fold (coo_value) in *.
  unfold coo_value in IH. cbv zeta.
  destruct t as [[r c] v]. unfold trow, tcol, tval in *. cbn [fst snd] in *.
  destruct (Z.eqb_spec r i) as [-> | Hr].
  - destruct (Z.eqb_spec c j) as [-> | Hc].
    + rewrite F. cbn [andb].
      destruct (Z.eqb_spec i j) as [E | E]; cbn [fst snd].
      * rewrite !Z.eqb_refl. cbn [andb]. rewrite IH, plus_INR. simpl INR. lra.
      * rewrite !Z.eqb_refl. cbn [andb]. rewrite IH. lra.
    + assert (Ec : (c =? j)%Z = false) by (apply Z.eqb_neq; exact Hc).
      destruct ((nthZ renum_inv i 0 =? discard_flag) || (nthZ renum_inv c 0 =? discard_flag))%Z;
        [destruct (i =? c)%Z |]; cbn [fst snd andb]; rewrite ?Z.eqb_refl, Ec; cbn [andb];
        rewrite IH; reflexivity.
  - assert (Er : (r =? i)%Z = false) by (apply Z.eqb_neq; exact Hr).
    destruct ((nthZ renum_inv r 0 =? discard_flag) || (nthZ renum_inv c 0 =? discard_flag))%Z;
      [destruct (r =? c)%Z |]; cbn [fst snd andb]; rewrite Er; cbn [andb];
      rewrite IH; reflexivity.
Qed.

(** X1.  What [set_boundary_conditions] leaves at the fixed dofs, whatever
    the triplet list, when the fixed dofs are ascending, distinct and in
    range: the size of [b] is unchanged, the right-hand side entry of a fixed
    dof is its prescribed value, every other position of its row and of its
    column sums to zero, and its diagonal position sums to the number of
    triplets the list holds there (1 only if there is exactly one). *)
Theorem set_boundary_conditions_fixed_rows (A : list triplet) (b : list R) (nf : nat) (ixs : list Z)
      (vals : list R) :
  fixed_dofs_ok (length b) nf ixs ->
  exists A' b',
    set_boundary_conditions A b nf ixs vals = Returns (A', b') /\
    length b' = length b /\
    forall i, (i < nf)%nat ->
              let d := nth i ixs 0%Z in
              coo_value A' d d = INR (occurrences A d d) /\
              (forall j, j <> d -> coo_value A' d j = 0 /\ coo_value A' j d = 0) /\
              nthZ b' d 0 = nth i vals 0.
Proof.
  intros Hok. pose proof Hok as (L & S & N & I).
  unfold set_boundary_conditions.
  pose proof S as S'. apply is_sorted_Sorted in S'. rewrite S'. cbn [negb].
  pose proof (eliminate_columns_length true (sort_by_col A) b nf ixs vals) as Lb.
  pose proof (fun i j => occurrences_eliminate_columns true (sort_by_col A) b nf ixs vals i j)
    as Occ.
  destruct (eliminate_columns true (sort_by_col A) b nf ixs vals) as [A2 b2].
  cbn [fst snd] in Lb, Occ.
  assert (Hok2 : fixed_dofs_ok (length b2) nf ixs) by (rewrite Lb; exact Hok).
  pose proof (fun d => renum_inv_fixed (length b2) nf ixs d Hok2) as RI.
  destruct (renumbering (length b2) nf ixs) as [[renum renum_inv] discard].
  cbn [fst snd] in RI.
  eexists. eexists. split; [reflexivity |].
  split; [rewrite fold_left_length_inv; [exact Lb | intros; apply updZ_length] |].
  intros i Hi. set (d := nth i ixs 0%Z).
  assert (Hin : In d (firstn nf ixs)).
  { unfold d. replace (nth i ixs 0%Z) with (nth i (firstn nf ixs) 0%Z).
    - apply nth_In. rewrite length_firstn. lia.
    - rewrite nth_firstn. destruct (Nat.ltb_spec i nf); [reflexivity | lia]. }
  assert (Fd : (nthZ renum_inv d 0 =? discard)%Z = true) by (apply Z.eqb_eq, RI, Hin).
  split; [| split].
  - rewrite coo_value_overwritten by (rewrite Fd; reflexivity).
    rewrite Z.eqb_refl, Occ, occurrences_sort_by_col. reflexivity.
  - intros j Hj. split.
    + rewrite coo_value_overwritten by (rewrite Fd; reflexivity).
      destruct (Z.eqb_spec d j); [congruence | reflexivity].
    + rewrite coo_value_overwritten by (rewrite Fd; apply orb_true_r).
      destruct (Z.eqb_spec j d); [congruence | reflexivity].
  - apply fixed_values_written; assumption.
Qed.

Lemma chain_fixed_dofs_ok : fixed_dofs_ok (length chain_b) 1 [1%Z].
Proof.
  split; [simpl; lia |]. split; [repeat constructor |]. split; [repeat constructor; simpl; tauto |].
  simpl. intros d [<- | []]. lia.
Qed.

Lemma set_boundary_conditions_fixed_rows_witness :
  exists A' b',
    set_boundary_conditions chain_A chain_b 1 [1%Z] [5] = Returns (A', b') /\
    length b' = length chain_b /\
    forall i, (i < 1)%nat ->
              let d := nth i [1%Z] 0%Z in
              coo_value A' d d = INR (occurrences chain_A d d) /\
              (forall j, j <> d -> coo_value A' d j = 0 /\ coo_value A' j d = 0) /\
              nthZ b' d 0 = nth i [5] 0.
Proof.
  exact (set_boundary_conditions_fixed_rows chain_A chain_b 1 [1%Z] [5] chain_fixed_dofs_ok).
Defined.

(** ** Further properties of the kernels *)

(** X2.  Started at a point that is behind every face, the star-point
    search checks each face once and returns the point unchanged. *)
Theorem star_point_is_returned (point normals centroids : list R) :
  is_star_point point normals centroids = true ->
  identify_star_point point normals centroids = Ok point.
Proof. exact (identify_star_point_fixed point normals centroids). Qed.

Lemma star_point_is_returned_witness :
  identify_star_point [1 / 2; 1 / 2; 1 / 2] cube_normals cube_centroids
  = Ok [1 / 2; 1 / 2; 1 / 2].
Proof.
  exact (star_point_is_returned [1 / 2; 1 / 2; 1 / 2] cube_normals cube_centroids
                                unit_cube_centre_star).
Defined.

(** X4.  For a polygon that is counter-clockwise and star-shaped around the
    centroid the code computes, [element_volume_2D] is the shoelace area,
    and the q vector of [compute_q_2D] sums to zero and has first moment
    [I / 2] against the corners. *)
Theorem polygon_q_vector (corners : list R) (n : nat) :
  valid_cell_2D corners n ->
  element_volume_2D corners n = shoelace2 corners n / 2 /\
  length (compute_q_2D corners n) = (n * 2)%nat /\
  q_moments 2 corners (compute_q_2D corners n) n.
Proof.
  intros H. split; [exact (element_volume_2D_shoelace corners n H) |].
  split; [apply compute_q_2D_length | exact (valid_cell_2D_moments corners n H)].
Qed.

Lemma polygon_q_vector_witness :
  element_volume_2D unit_square 4 = shoelace2 unit_square 4 / 2 /\
  length (compute_q_2D unit_square 4) = 8%nat /\
  q_moments 2 unit_square (compute_q_2D unit_square 4) 4.
Proof. exact (polygon_q_vector unit_square 4 unit_square_valid). Defined.

(** X5.  [compute_ImP] returns the matrix [I - (Nr Wr^T + Nc Wc^T)], of
    [dim * n] rows and columns, for the buffers of a cell of [n] nodes in
    dimension [dim] (2 or 3). *)
Theorem compute_ImP_formula (Nr Nc Wr Wc : list R) (dim n : nat) :
  let ls := lsdim_of dim in
  let r := (dim * n)%nat in
  dim = 2%nat \/ dim = 3%nat -> length Nc = (n * (dim * ls))%nat ->
  exists ImP, compute_ImP Nr Nc Wr Wc dim = Ok ImP /\
              length ImP = (r * r)%nat /\
              forall i j, (i < r)%nat -> (j < r)%nat ->
                          of_flat r ImP i j
                          = mid i j - projector ls (of_flat ls Nr) (of_flat ls Nc)
                                                (of_flat ls Wr) (of_flat ls Wc) i j.
Proof. exact (compute_ImP_spec Nr Nc Wr Wc dim n). Qed.

Lemma compute_ImP_formula_witness :
  exists ImP, compute_ImP sq_Nr sq_Nc sq_Wr sq_Wc 2 = Ok ImP /\
              length ImP = 64%nat /\
              forall i j, (i < 8)%nat -> (j < 8)%nat ->
                          of_flat 8 ImP i j
                          = mid i j - projector 3 (of_flat 3 sq_Nr) (of_flat 3 sq_Nc)
                                                (of_flat 3 sq_Wr) (of_flat 3 sq_Wc) i j.
Proof.
  exact (compute_ImP_formula sq_Nr sq_Nc sq_Wr sq_Wc 2 4 (or_introl eq_refl) eq_refl).
Defined.

(** X6.  [matmul] returns [fac] times the product of its two arguments,
    each read transposed or not as its flag says, when the inner dimensions
    agree (it throws [std::invalid_argument] otherwise). *)
Theorem matmul_is_product (data1 : list R) (r1 c1 : nat) (t1 : bool)
        (data2 : list R) (r2 c2 : nat) (t2 : bool) (fac : R) :
  let m := if t1 then c1 else r1 in
  let K := if t1 then r1 else c1 in
  let K2 := if t2 then c2 else r2 in
  let n := if t2 then r2 else c2 in
  (K = K2 ->
   exists M, matmul data1 r1 c1 t1 data2 r2 c2 t2 fac = Ok M /\
             length M = (m * n)%nat /\
             forall i j, (i < m)%nat -> (j < n)%nat ->
                         of_flat n M i j
                         = fac * mmul K (as_matrix t1 c1 data1) (as_matrix t2 c2 data2) i j) /\
  (K <> K2 -> matmul data1 r1 c1 t1 data2 r2 c2 t2 fac = Throw invalid_argument).
Proof.
  intros m K K2 n. split; [exact (matmul_spec data1 r1 c1 t1 data2 r2 c2 t2 fac) |].
  intros Hne. unfold matmul. subst K K2.
  destruct t1, t2; cbn [fst snd];
    match goal with |- context [(?a =? ?b)%nat] =>
      destruct (Nat.eqb_spec a b) as [E | E]; [contradiction | reflexivity] end.
Qed.

Lemma matmul_is_product_witness :
  exists M, matmul [1; 2; 3; 4] 2 2 false [0; 1; 1; 0] 2 2 true 2 = Ok M /\
            length M = 4%nat /\
            forall i j, (i < 2)%nat -> (j < 2)%nat ->
                        of_flat 2 M i j
                        = 2 * mmul 2 (as_matrix false 2 [1; 2; 3; 4])
                                   (as_matrix true 2 [0; 1; 1; 0]) i j.
Proof.
  exact (proj1 (matmul_is_product [1; 2; 3; 4] 2 2 false [0; 1; 1; 0] 2 2 true 2) eq_refl).
Defined.

(** ** Symmetry and null space of the local stiffness matrix *)

Lemma mtrans_mmul (n : nat) (A B : matrix) (i j : nat) :
  mtrans (mmul n A B) i j = mmul n (mtrans B) (mtrans A) i j.
Proof. unfold mtrans, mmul. apply bigsum_ext. intros; lra. Qed.

(** [A^T S A] is symmetric when [S] is. *)
Lemma congruence_symmetric (n : nat) (A S : matrix) :
  msym n S -> forall i j, mmul n (mmul n (mtrans A) S) A i j
                          = mmul n (mmul n (mtrans A) S) A j i.
Proof.
  intros HS i j.
  change (mmul n (mmul n (mtrans A) S) A j i) with (mtrans (mmul n (mmul n (mtrans A) S) A) i j).
  rewrite mtrans_mmul, mmul_assoc.
  apply mmul_ext; [reflexivity |]. intros k Hk.
  rewrite mtrans_mmul. apply mmul_ext; [| reflexivity]. intros l Hl.
  unfold mtrans. symmetry. apply HS; assumption.
Qed.

(** [W D W^T] is symmetric when [D] is. *)
Lemma sandwich_symmetric (n : nat) (W D : matrix) :
  msym n D -> forall i j, mmul n (mmul n W D) (mtrans W) i j
                          = mmul n (mmul n W D) (mtrans W) j i.
Proof.
  intros HD i j.
  change (mmul n (mmul n W D) (mtrans W) j i)
    with (mtrans (mmul n (mmul n W D) (mtrans W)) i j).
  rewrite mtrans_mmul, mmul_assoc.
  apply mmul_ext; [reflexivity |]. intros k Hk.
  rewrite mtrans_mmul. apply mmul_ext; [| reflexivity]. intros l Hl.
  unfold mtrans. symmetry. apply HD; assumption.
Qed.

Lemma mmul_mscale_l (n : nat) (c : R) (A B : matrix) (i j : nat) :
  mmul n (mscale c A) B i j = c * mmul n A B i j.
Proof.
  unfold mmul, mscale. rewrite <- bigsum_scal. apply bigsum_ext. intros; lra.
Qed.

(** The matrix [final_assembly] returns is symmetric when [D] is. *)
Lemma final_assembly_symmetric (Wc D Nc ImP : list R) (sc : StabilityChoice) (vol : R)
      (num_nodes dim : nat) :
  let ls := lsdim_of dim in
  let totdim := (dim * num_nodes)%nat in
  dim = 2%nat \/ dim = 3%nat -> length D = (ls * ls)%nat -> msym ls (of_flat ls D) ->
  forall target, final_assembly Wc D Nc ImP sc vol num_nodes dim = Ok target ->
                 msym totdim (of_flat totdim target).
Proof.
  intros ls totdim Hdim LD HD target ET.
  destruct (final_assembly_spec Wc D Nc ImP sc vol num_nodes dim Hdim LD)
    as (E & S & target' & EE & ES & ET' & LT & HT).
  fold ls totdim in HT, LT. rewrite ET in ET'. injection ET' as <-.
  destruct (select_S_spec E Nc D sc vol num_nodes dim Hdim LD) as (S' & ES' & _ & HS).
  fold ls totdim in HS. rewrite ES in ES'. injection ES' as <-.
  assert (SS : msym totdim (of_flat totdim S)).
  { intros i j Hi Hj. unfold mtrans. rewrite (HS i j Hi Hj), (HS j i Hj Hi).
    rewrite (Nat.eqb_sym j i). destruct (Nat.eqb_spec i j) as [-> | _]; reflexivity. }
  intros i j Hi Hj. unfold mtrans. rewrite (HT i j Hi Hj), (HT j i Hj Hi).
  rewrite (sandwich_symmetric ls (of_flat ls Wc) (of_flat ls D) HD i j).
  rewrite (congruence_symmetric totdim (of_flat totdim ImP) (of_flat totdim S) SS i j).
  reflexivity.
Qed.

(** The matrix [final_assembly] returns sends to zero every column that
    [Wc^T] and [I - P] both send to zero. *)
Lemma final_assembly_null (Wc D Nc ImP N : list R) (sc : StabilityChoice) (vol : R)
      (num_nodes dim c : nat) :
  let ls := lsdim_of dim in
  let totdim := (dim * num_nodes)%nat in
  dim = 2%nat \/ dim = 3%nat -> length D = (ls * ls)%nat ->
  meq ls c (mmul totdim (mtrans (of_flat ls Wc)) (of_flat c N)) mzero ->
  annihilates totdim c ImP N ->
  forall target, final_assembly Wc D Nc ImP sc vol num_nodes dim = Ok target ->
                 annihilates totdim c target N.
Proof.
  intros ls totdim Hdim LD HW HI target ET.
  destruct (final_assembly_spec Wc D Nc ImP sc vol num_nodes dim Hdim LD)
    as (E & S & target' & EE & ES & ET' & LT & HT).
  fold ls totdim in HT, LT. rewrite ET in ET'. injection ET' as <-.
  intros i j Hi Hj. unfold mzero.
  rewrite (mmul_ext totdim (of_flat totdim target)
             (madd (mscale vol (mmul ls (mmul ls (of_flat ls Wc) (of_flat ls D))
                                     (mtrans (of_flat ls Wc))))
                   (mmul totdim (mmul totdim (mtrans (of_flat totdim ImP)) (of_flat totdim S))
                         (of_flat totdim ImP)))
             (of_flat c N) (of_flat c N) i j)
    by (intros k Hk; try reflexivity; unfold madd, mscale; apply HT; assumption).
  rewrite mmul_madd_l, mmul_mscale_l, !mmul_assoc.
  rewrite (mmul_mzero_r ls)
    by (intros k Hk; apply mmul_mzero_r; intros l Hl; apply (HW l j Hl Hj)).
  rewrite (mmul_mzero_r totdim)
    by (intros k Hk; apply mmul_mzero_r; intros l Hl; apply (HI l j Hl Hj)).
  lra.
Qed.

Lemma compute_D_2D_symmetric (young poisson : R) :
  msym 3 (of_flat 3 (compute_D_2D young poisson)).
Proof.
  intros i j Hi Hj. unfold mtrans, of_flat, compute_D_2D.
  destruct i as [|[|[|i]]]; [| | | lia]; (destruct j as [|[|[|j]]]; [| | | lia]); reflexivity.
Qed.

Lemma compute_D_3D_symmetric (young poisson : R) :
  msym 6 (of_flat 6 (compute_D_3D young poisson)).
Proof.
  intros i j Hi Hj. unfold mtrans, of_flat, compute_D_3D.
  destruct i as [|[|[|[|[|[|i]]]]]]; [| | | | | | lia];
    (destruct j as [|[|[|[|[|[|j]]]]]]; [| | | | | | lia]); reflexivity.
Qed.

(** X7.  The local stiffness matrix of a 2D cell: [assemble_stiffness_matrix_2D]
    always returns, the matrix has [2 n] rows and columns and is symmetric,
    and for a valid cell (counter-clockwise, star-shaped around its centroid)
    it sends the three rigid-body modes, the columns of Nr, to zero. *)
Theorem local_stiffness_2D (points : list R) (corner_ixs : list nat) (n : nat)
      (young poisson : R) (sc : StabilityChoice) :
  let corners := pick_points 2 points corner_ixs n in
  exists target,
    assemble_stiffness_matrix_2D points corner_ixs n young poisson sc = Ok target /\
    length target = (2 * n * (2 * n))%nat /\
    msym (2 * n) (of_flat (2 * n) target) /\
    (valid_cell_2D corners n -> annihilates (2 * n) 3 target (compute_Nr_2D corners n)).
Proof.
  intros corners.
  destruct (assemble_stiffness_matrix_2D_ok points corner_ixs n young poisson sc)
    as [target [ET LT]].
  exists target. split; [exact ET |]. split; [exact LT |].
  unfold assemble_stiffness_matrix_2D in ET. fold corners in ET.
  destruct (compute_W_2D_ok (compute_q_2D corners n) n (compute_q_2D_length corners n))
    as [[Wr [E1 L1]] [Wc [E2 L2]]].
  rewrite E1, E2 in ET. cbn [bind] in ET.
  destruct (compute_ImP_spec (compute_Nr_2D corners n) (compute_Nc_2D corners n) Wr Wc 2 n
                             (or_introl eq_refl) (compute_Nc_2D_length corners n))
    as [ImP [E3 _]].
  rewrite E3 in ET. cbn [bind] in ET.
  split.
  - exact (final_assembly_symmetric Wc (compute_D_2D young poisson) (compute_Nc_2D corners n)
                                    ImP sc (element_volume_2D corners n) n 2
                                    (or_introl eq_refl) eq_refl
                                    (compute_D_2D_symmetric young poisson) target ET).
  - intros Hv.
    assert (Hn : (1 <= n)%nat) by (destruct Hv as (Hn & _); lia).
    pose proof (valid_cell_2D_moments corners n Hv) as Hq.
    destruct (gram_2D corners (compute_q_2D corners n) Wr Wc n Hn
                      (compute_q_2D_length corners n) Hq E1 E2) as (G1 & G2 & G3 & G4).
    destruct (compute_ImP_projector (compute_Nr_2D corners n) (compute_Nc_2D corners n) Wr Wc
                                    2 n (or_introl eq_refl) (compute_Nc_2D_length corners n)
                                    G1 G2 G3 G4) as (ImP' & E3' & _ & _ & A1 & _).
    rewrite E3 in E3'. injection E3' as <-.
    exact (final_assembly_null Wc (compute_D_2D young poisson) (compute_Nc_2D corners n) ImP
                               (compute_Nr_2D corners n) sc (element_volume_2D corners n)
                               n 2 3 (or_introl eq_refl) eq_refl G3 A1 target ET).
Qed.

(** X8.  The local stiffness matrix of a 3D cell, when
    [assemble_stiffness_matrix_3D] returns: the corners are numbered as
    [global_to_local_indexing] says, the matrix has [3 n] rows and columns and
    is symmetric, and it sends the six rigid-body modes, the columns of Nr,
    to zero when the q vector of the cell sums to zero and has first moment
    [I / 2] against the corners. *)
Theorem local_stiffness_3D (points : list R) (faces num_face_edges : list nat)
      (num_faces : nat) (young poisson : R) (sc : StabilityChoice)
      (centroid : list R) (indexing : list nat) (target : list R) :
  assemble_stiffness_matrix_3D points faces num_face_edges num_faces young poisson sc
  = Ok (centroid, indexing, target) ->
  let n := length indexing in
  let corners := pick_points 3 points indexing n in
  let faces_loc := map (map_find (fst (global_to_local_indexing faces num_face_edges num_faces)))
                       (firstn (accumulate num_face_edges num_faces) faces) in
  indexing = snd (global_to_local_indexing faces num_face_edges num_faces) /\
  length target = (3 * n * (3 * n))%nat /\
  msym (3 * n) (of_flat (3 * n) target) /\
  exists geo,
    compute_cell_geometry corners n faces_loc num_face_edges num_faces = Ok geo /\
    centroid = cell_centroid geo /\
    (q_moments 3 corners
               (compute_q_3D corners n faces_loc num_face_edges num_faces
                             (volume geo) (outward_normals geo)) n ->
     (1 <= n)%nat ->
     annihilates (3 * n) 6 target (compute_Nr_3D corners n)).
Proof.
  unfold assemble_stiffness_matrix_3D.
  destruct (global_to_local_indexing faces num_face_edges num_faces) as [reindex indexing'].
  cbn [fst snd]. set (n' := length indexing').
  set (corners' := pick_points 3 points indexing' n').
  set (faces_loc' := map (map_find reindex) (firstn (accumulate num_face_edges num_faces) faces)).
  destruct (compute_cell_geometry corners' n' faces_loc' num_face_edges num_faces)
    as [geo | e] eqn:EG; cbn [bind]; [| discriminate].
  assert (Ln : (length corners' / 3)%nat = n').
  { unfold corners'. rewrite pick_points_length. apply Nat.div_mul. lia. }
  rewrite Ln.
  set (q := compute_q_3D corners' n' faces_loc' num_face_edges num_faces
                         (volume geo) (outward_normals geo)).
  assert (Lq : length q = (n' * 3)%nat) by apply compute_q_3D_length.
  destruct (compute_W_3D_ok q n' Lq) as [[Wr [E1 L1]] [Wc [E2 L2]]].
  rewrite E1, E2. cbn [bind].
  destruct (compute_ImP_spec (compute_Nr_3D corners' n') (compute_Nc_3D corners' n') Wr Wc 3 n'
                             (or_intror eq_refl) (compute_Nc_3D_length corners' n'))
    as [ImP [E3 _]].
  rewrite E3. cbn [bind].
  destruct (final_assembly_spec Wc (compute_D_3D young poisson) (compute_Nc_3D corners' n') ImP
                                sc (volume geo) n' 3 (or_intror eq_refl) eq_refl)
    as (E0 & S0 & target' & _ & _ & ET & LT & _).
  rewrite ET. cbn [bind]. intros H. injection H as <- <- <-.
  fold n' corners'. cbv zeta.
  split; [reflexivity |]. split; [exact LT |]. split.
  - exact (final_assembly_symmetric Wc (compute_D_3D young poisson) (compute_Nc_3D corners' n')
                                    ImP sc (volume geo) n' 3 (or_intror eq_refl) eq_refl
                                    (compute_D_3D_symmetric young poisson) target' ET).
  - exists geo. split; [exact EG |]. split; [reflexivity |]. fold q. intros Hq Hn.
    destruct (gram_3D corners' q Wr Wc n' Hn Lq Hq E1 E2) as (G1 & G2 & G3 & G4).
    destruct (compute_ImP_projector (compute_Nr_3D corners' n') (compute_Nc_3D corners' n') Wr Wc
                                    3 n' (or_intror eq_refl) (compute_Nc_3D_length corners' n')
                                    G1 G2 G3 G4) as (ImP' & E3' & _ & _ & A1 & _).
    rewrite E3 in E3'. injection E3' as <-.
    exact (final_assembly_null Wc (compute_D_3D young poisson) (compute_Nc_3D corners' n') ImP
                               (compute_Nr_3D corners' n') sc (volume geo)
                               n' 3 6 (or_intror eq_refl) eq_refl G3 A1 target' ET).
Qed.

Lemma local_stiffness_2D_witness :
  exists target,
    assemble_stiffness_matrix_2D unit_square [0; 1; 2; 3]%nat 4 1 0.3 SIMPLE = Ok target /\
    length target = 64%nat /\
    msym 8 (of_flat 8 target) /\
    annihilates 8 3 target (compute_Nr_2D unit_square 4).
Proof.
  destruct (local_stiffness_2D unit_square [0; 1; 2; 3]%nat 4 1 0.3 SIMPLE)
    as (target & E & L & Sy & Nu).
  exists target. split; [exact E |]. split; [exact L |]. split; [exact Sy |].
  exact (Nu unit_square_valid).
Defined.

Lemma local_stiffness_3D_witness :
  exists centroid target,
    assemble_stiffness_matrix_3D cube2 unit_cube_faces unit_cube_face_edges 6 1 0.3 SIMPLE
    = Ok (centroid, [0; 1; 2; 3; 4; 5; 6; 7]%nat, target) /\
    length target = 576%nat /\
    msym 24 (of_flat 24 target) /\
    annihilates 24 6 target (compute_Nr_3D cube2 8).
Proof.
  destruct (cube2_local_assembly 1 0.3 SIMPLE) as (centroid & target & E & _).
  destruct (local_stiffness_3D cube2 unit_cube_faces unit_cube_face_edges 6 1 0.3 SIMPLE
                               centroid [0; 1; 2; 3; 4; 5; 6; 7]%nat target E)
    as (_ & L & Sy & geo & EG & _ & Nu).
  exists centroid, target. split; [exact E |]. split; [exact L |]. split; [exact Sy |].
  destruct cube2_geometry as (geo' & EG' & En & _ & Ev & _).
  change (compute_cell_geometry cube2 8 unit_cube_faces unit_cube_face_edges 6 = Ok geo)
    in EG.
  rewrite EG in EG'. injection EG' as <-.
  apply Nu; [| simpl; lia]. rewrite En, Ev.
  change (q_moments 3 cube2
                    (compute_q_3D cube2 8 unit_cube_faces unit_cube_face_edges 6 8
                                  cube_normals) 8).
  rewrite cube2_q_vector. exact cube2_moments.
Defined.

(** ** The local stiffness matrix of a cell *)

(** The matrix [assemble_stiffness_matrix_2D] writes, in terms of the
    matrices it forms on the way. *)
Lemma assemble_stiffness_matrix_2D_formula (points : list R) (corner_ixs : list nat) (n : nat)
      (young poisson : R) (sc : StabilityChoice) :
  let corners := pick_points 2 points corner_ixs n in
  let area := element_volume_2D corners n in
  let q := compute_q_2D corners n in
  let D := compute_D_2D young poisson in
  let Nr := compute_Nr_2D corners n in
  let Nc := compute_Nc_2D corners n in
  exists Wr Wc ImP E S target,
    compute_Wr_2D q = Ok Wr /\ compute_Wc_2D q = Ok Wc /\
    compute_ImP Nr Nc Wr Wc 2 = Ok ImP /\
    consistent_block Wc D area n 2 = Ok E /\
    select_S E Nc D sc area n 2 = Ok S /\
    assemble_stiffness_matrix_2D points corner_ixs n young poisson sc = Ok target /\
    length target = (2 * n * (2 * n))%nat /\
    forall i j, (i < 2 * n)%nat -> (j < 2 * n)%nat ->
                of_flat (2 * n) target i j
                = area * mmul 3 (mmul 3 (of_flat 3 Wc) (of_flat 3 D)) (mtrans (of_flat 3 Wc)) i j
                  + mmul (2 * n) (mmul (2 * n) (mtrans (of_flat (2 * n) ImP)) (of_flat (2 * n) S))
                         (of_flat (2 * n) ImP) i j.
Proof.
  intros corners area q D Nr Nc. unfold assemble_stiffness_matrix_2D.
  fold corners. fold area q D Nr Nc.
  destruct (compute_W_2D_ok q n (compute_q_2D_length corners n)) as [[Wr [E1 L1]] [Wc [E2 L2]]].
  rewrite E1, E2. cbn [bind].
  destruct (compute_ImP_spec Nr Nc Wr Wc 2 n (or_introl eq_refl) (compute_Nc_2D_length corners n))
    as [ImP [E3 _]].
  rewrite E3. cbn [bind].
  destruct (final_assembly_spec Wc D Nc ImP sc area n 2 (or_introl eq_refl) eq_refl)
    as (E & S & target & EE & ES & ET & LT & HT).
  exists Wr, Wc, ImP, E, S, target. repeat (split; [assumption || reflexivity |]). exact HT.
Qed.

(** The matrix [assemble_stiffness_matrix_3D] writes when it returns, in
    terms of the geometry and the matrices it forms on the way. *)
Lemma assemble_stiffness_matrix_3D_formula (points : list R) (faces num_face_edges : list nat)
      (num_faces : nat) (young poisson : R) (sc : StabilityChoice)
      (centroid : list R) (indexing : list nat) (target : list R) :
  assemble_stiffness_matrix_3D points faces num_face_edges num_faces young poisson sc
  = Ok (centroid, indexing, target) ->
  let n := length indexing in
  let corners := pick_points 3 points indexing n in
  let faces_loc := map (map_find (fst (global_to_local_indexing faces num_face_edges num_faces)))
                       (firstn (accumulate num_face_edges num_faces) faces) in
  let D := compute_D_3D young poisson in
  let Nr := compute_Nr_3D corners n in
  let Nc := compute_Nc_3D corners n in
  exists geo Wr Wc ImP E S,
    compute_cell_geometry corners n faces_loc num_face_edges num_faces = Ok geo /\
    let q := compute_q_3D corners n faces_loc num_face_edges num_faces
                          (volume geo) (outward_normals geo) in
    compute_Wr_3D q = Ok Wr /\ compute_Wc_3D q = Ok Wc /\
    compute_ImP Nr Nc Wr Wc 3 = Ok ImP /\
    consistent_block Wc D (volume geo) n 3 = Ok E /\
    select_S E Nc D sc (volume geo) n 3 = Ok S /\
    length target = (3 * n * (3 * n))%nat /\
    forall i j, (i < 3 * n)%nat -> (j < 3 * n)%nat ->
                of_flat (3 * n) target i j
                = volume geo * mmul 6 (mmul 6 (of_flat 6 Wc) (of_flat 6 D))
                                    (mtrans (of_flat 6 Wc)) i j
                  + mmul (3 * n) (mmul (3 * n) (mtrans (of_flat (3 * n) ImP)) (of_flat (3 * n) S))
                         (of_flat (3 * n) ImP) i j.
Proof.
  unfold assemble_stiffness_matrix_3D.
  destruct (global_to_local_indexing faces num_face_edges num_faces) as [reindex indexing'].
  cbn [fst snd]. set (n' := length indexing').
  set (corners' := pick_points 3 points indexing' n').
  set (faces_loc' := map (map_find reindex) (firstn (accumulate num_face_edges num_faces) faces)).
  destruct (compute_cell_geometry corners' n' faces_loc' num_face_edges num_faces)
    as [geo | e] eqn:EG; cbn [bind]; [| discriminate].
  assert (Ln : (length corners' / 3)%nat = n').
  { unfold corners'. rewrite pick_points_length. apply Nat.div_mul. lia. }
  rewrite Ln.
  set (q := compute_q_3D corners' n' faces_loc' num_face_edges num_faces
                         (volume geo) (outward_normals geo)).
  destruct (compute_W_3D_ok q n' (compute_q_3D_length _ _ _ _ _ _ _))
    as [[Wr [E1 L1]] [Wc [E2 L2]]].
  rewrite E1, E2. cbn [bind].
  destruct (compute_ImP_spec (compute_Nr_3D corners' n') (compute_Nc_3D corners' n') Wr Wc 3 n'
                             (or_intror eq_refl) (compute_Nc_3D_length corners' n'))
    as [ImP [E3 _]].
  rewrite E3. cbn [bind].
  destruct (final_assembly_spec Wc (compute_D_3D young poisson) (compute_Nc_3D corners' n') ImP
                                sc (volume geo) n' 3 (or_intror eq_refl) eq_refl)
    as (E0 & S0 & target' & EE & ES & ET & LT & HT).
  rewrite ET. cbn [bind]. intros H. injection H as <- <- <-.
  fold n' corners'. cbv zeta.
  exists geo, Wr, Wc, ImP, E0, S0. fold q.
  repeat (split; [assumption || reflexivity |]). exact HT.
Qed.

(** C1.  The local stiffness matrix is, entry by entry, the sum of the
    consistent part [volume * Wc * D * Wc^T] and the stability part
    [(I-P)^T * S * (I-P)], where [S] is the stability matrix selected by the
    stability choice: for [final_assembly] on any buffers of a cell of
    [num_nodes] nodes in dimension 2 or 3; for [assemble_stiffness_matrix_2D],
    which always returns, with the area, the matrices Wc, D and I-P it forms
    from the corner coordinates, Young's modulus and Poisson ratio; and for
    [assemble_stiffness_matrix_3D] whenever it returns, with the volume of
    the cell geometry and the 3D matrices. *)
Theorem final_assembly_stiffness :
  (forall Wc D Nc ImP stability_choice volume num_nodes dim,
      let ls := lsdim_of dim in
      let totdim := (dim * num_nodes)%nat in
      dim = 2%nat \/ dim = 3%nat -> length D = (ls * ls)%nat ->
      exists E S target,
        consistent_block Wc D volume num_nodes dim = Ok E /\
        select_S E Nc D stability_choice volume num_nodes dim = Ok S /\
        final_assembly Wc D Nc ImP stability_choice volume num_nodes dim = Ok target /\
        length target = (totdim * totdim)%nat /\
        forall i j, (i < totdim)%nat -> (j < totdim)%nat ->
                    of_flat totdim target i j
                    = volume * mmul ls (mmul ls (of_flat ls Wc) (of_flat ls D))
                                    (mtrans (of_flat ls Wc)) i j
                      + mmul totdim (mmul totdim (mtrans (of_flat totdim ImP))
                                          (of_flat totdim S))
                             (of_flat totdim ImP) i j) /\
  (forall points corner_ixs n young poisson stability_choice,
      let corners := pick_points 2 points corner_ixs n in
      let area := element_volume_2D corners n in
      let q := compute_q_2D corners n in
      let D := compute_D_2D young poisson in
      let Nr := compute_Nr_2D corners n in
      let Nc := compute_Nc_2D corners n in
      exists Wr Wc ImP E S target,
        compute_Wr_2D q = Ok Wr /\ compute_Wc_2D q = Ok Wc /\
        compute_ImP Nr Nc Wr Wc 2 = Ok ImP /\
        consistent_block Wc D area n 2 = Ok E /\
        select_S E Nc D stability_choice area n 2 = Ok S /\
        assemble_stiffness_matrix_2D points corner_ixs n young poisson stability_choice
        = Ok target /\
        length target = (2 * n * (2 * n))%nat /\
        forall i j, (i < 2 * n)%nat -> (j < 2 * n)%nat ->
                    of_flat (2 * n) target i j
                    = area * mmul 3 (mmul 3 (of_flat 3 Wc) (of_flat 3 D))
                                  (mtrans (of_flat 3 Wc)) i j
                      + mmul (2 * n) (mmul (2 * n) (mtrans (of_flat (2 * n) ImP))
                                           (of_flat (2 * n) S))
                             (of_flat (2 * n) ImP) i j) /\
  (forall points faces num_face_edges num_faces young poisson stability_choice
          centroid indexing target,
      assemble_stiffness_matrix_3D points faces num_face_edges num_faces
                                   young poisson stability_choice
      = Ok (centroid, indexing, target) ->
      let n := length indexing in
      let corners := pick_points 3 points indexing n in
      let faces_loc :=
        map (map_find (fst (global_to_local_indexing faces num_face_edges num_faces)))
            (firstn (accumulate num_face_edges num_faces) faces) in
      let D := compute_D_3D young poisson in
      let Nr := compute_Nr_3D corners n in
      let Nc := compute_Nc_3D corners n in
      exists geo Wr Wc ImP E S,
        compute_cell_geometry corners n faces_loc num_face_edges num_faces = Ok geo /\
        let q := compute_q_3D corners n faces_loc num_face_edges num_faces
                              (volume geo) (outward_normals geo) in
        compute_Wr_3D q = Ok Wr /\ compute_Wc_3D q = Ok Wc /\
        compute_ImP Nr Nc Wr Wc 3 = Ok ImP /\
        consistent_block Wc D (volume geo) n 3 = Ok E /\
        select_S E Nc D stability_choice (volume geo) n 3 = Ok S /\
        length target = (3 * n * (3 * n))%nat /\
        forall i j, (i < 3 * n)%nat -> (j < 3 * n)%nat ->
                    of_flat (3 * n) target i j
                    = volume geo * mmul 6 (mmul 6 (of_flat 6 Wc) (of_flat 6 D))
                                        (mtrans (of_flat 6 Wc)) i j
                      + mmul (3 * n) (mmul (3 * n) (mtrans (of_flat (3 * n) ImP))
                                           (of_flat (3 * n) S))
                             (of_flat (3 * n) ImP) i j).
Proof.
  split; [exact final_assembly_spec |].
  split; [exact assemble_stiffness_matrix_2D_formula | exact assemble_stiffness_matrix_3D_formula].
Qed.

Lemma final_assembly_stiffness_witness :
  (exists E S target,
      consistent_block sq_Wc sq_D 1 4 2 = Ok E /\
      select_S E sq_Nc sq_D HARMONIC 1 4 2 = Ok S /\
      final_assembly sq_Wc sq_D sq_Nc sq_ImP HARMONIC 1 4 2 = Ok target /\
      length target = 64%nat /\
      forall i j, (i < 8)%nat -> (j < 8)%nat ->
                  of_flat 8 target i j
                  = 1 * mmul 3 (mmul 3 (of_flat 3 sq_Wc) (of_flat 3 sq_D))
                             (mtrans (of_flat 3 sq_Wc)) i j
                    + mmul 8 (mmul 8 (mtrans (of_flat 8 sq_ImP)) (of_flat 8 S))
                           (of_flat 8 sq_ImP) i j) /\
  (exists geo Wr Wc ImP E S centroid target,
      assemble_stiffness_matrix_3D cube2 unit_cube_faces unit_cube_face_edges 6
                                   1 0.3 D_RECIPE
      = Ok (centroid, [0; 1; 2; 3; 4; 5; 6; 7]%nat, target) /\
      compute_cell_geometry cube2 8 unit_cube_faces unit_cube_face_edges 6 = Ok geo /\
      compute_Wr_3D (compute_q_3D cube2 8 unit_cube_faces unit_cube_face_edges 6
                                  (volume geo) (outward_normals geo)) = Ok Wr /\
      compute_Wc_3D (compute_q_3D cube2 8 unit_cube_faces unit_cube_face_edges 6
                                  (volume geo) (outward_normals geo)) = Ok Wc /\
      compute_ImP (compute_Nr_3D cube2 8) (compute_Nc_3D cube2 8) Wr Wc 3 = Ok ImP /\
      consistent_block Wc (compute_D_3D 1 0.3) (volume geo) 8 3 = Ok E /\
      select_S E (compute_Nc_3D cube2 8) (compute_D_3D 1 0.3) D_RECIPE (volume geo) 8 3
      = Ok S /\
      length target = 576%nat /\
      forall i j, (i < 24)%nat -> (j < 24)%nat ->
                  of_flat 24 target i j
                  = volume geo * mmul 6 (mmul 6 (of_flat 6 Wc) (of_flat 6 (compute_D_3D 1 0.3)))
                                      (mtrans (of_flat 6 Wc)) i j
                    + mmul 24 (mmul 24 (mtrans (of_flat 24 ImP)) (of_flat 24 S))
                           (of_flat 24 ImP) i j).
Proof.
  split.
  - exact (proj1 final_assembly_stiffness sq_Wc sq_D sq_Nc sq_ImP HARMONIC 1 4%nat 2%nat
                 (or_introl eq_refl) eq_refl).
  - destruct (cube2_local_assembly 1 0.3 D_RECIPE) as (centroid & target & E & _).
    destruct (proj2 (proj2 final_assembly_stiffness) cube2 unit_cube_faces
                    unit_cube_face_edges 6%nat 1 0.3 D_RECIPE centroid
                    [0; 1; 2; 3; 4; 5; 6; 7]%nat target E)
      as (geo & Wr & Wc & ImP & E0 & S0 & H).
    exists geo, Wr, Wc, ImP, E0, S0, centroid, target. split; [exact E | exact H].
Defined.

(** ** The q vector of a closed polyhedral cell *)

(** The pairing after a loop that threads a counter next to the buffer. *)
Lemma pair_fold_counter (N : nat) (F : nat * list R -> nat -> nat * list R)
      (sigma : nat -> nat) (E g : nat -> R) (M : nat) (st0 : nat * list R) :
  fst st0 = sigma 0%nat -> length (snd st0) = N ->
  (forall st i, (i < M)%nat -> fst st = sigma i -> length (snd st) = N ->
                fst (F st i) = sigma (S i) /\ length (snd (F st i)) = N /\
                bigsum N (fun k => nth k (snd (F st i)) 0 * g k)
                = bigsum N (fun k => nth k (snd st) 0 * g k) + E i) ->
  fst (fold_left F (seq 0 M) st0) = sigma M /\
  length (snd (fold_left F (seq 0 M) st0)) = N /\
  bigsum N (fun k => nth k (snd (fold_left F (seq 0 M) st0)) 0 * g k)
  = bigsum N (fun k => nth k (snd st0) 0 * g k) + bigsum M E.
Proof.
  intros S0 L0 H. induction M as [|M IH].
  - simpl. split; [exact S0 |]. split; [exact L0 | lra].
  - destruct IH as (S1 & L1 & P1); [intros st i Hi; apply H; lia |].
    rewrite seq_S, fold_left_app. simpl fold_left.
    destruct (H (fold_left F (seq 0 M) st0) M ltac:(lia) S1 L1) as (S2 & L2 & P2).
    split; [exact S2 |]. split; [exact L2 |]. rewrite P2, P1. simpl. lra.
Qed.

(** What the three [add_at] of one face corner do to the pairing. *)
Lemma pair_add3 (result : list R) (v : nat) (c : R) (normal : list R) (g : nat -> R) :
  (3 * v + 2 < length result)%nat ->
  let result' := fold_left (fun result d => add_at result (3 * v + d) (c * nth d normal 0))
                           (seq 0 3) result in
  length result' = length result /\
  bigsum (length result) (fun k => nth k result' 0 * g k)
  = bigsum (length result) (fun k => nth k result 0 * g k)
    + bigsum 3 (fun d => c * nth d normal 0 * g (3 * v + d)%nat).
Proof.
  intros Hv. cbn [seq fold_left]. cbv zeta.
  split; [rewrite !add_at_length; reflexivity |].
  repeat match goal with
         | |- context [bigsum (length result) (fun k => nth k (add_at ?w ?ix ?x) 0 * g k)] =>
             replace (length result) with (length w) by (rewrite ?add_at_length; reflexivity);
             rewrite (pair_add_at w ix x g) by (rewrite ?add_at_length; lia);
             rewrite ?add_at_length
         end.
  cbn [bigsum]. lra.
Qed.

(** The pairing of [compute_q_3D] with [g] is a sum over the faces and
    their corners. *)
Lemma pair_compute_q_3D (corners : list R) (n : nat) (faces num_face_edges : list nat)
      (num_faces : nat) (volume : R) (normals : list R) (g : nat -> R) :
  (forall f e, (f < num_faces)%nat -> (e < nth f num_face_edges 0)%nat ->
               (nth (accumulate num_face_edges f + e) faces 0 < n)%nat) ->
  bigsum (n * 3)
         (fun k => nth k (compute_q_3D corners n faces num_face_edges num_faces volume normals) 0
                   * g k)
  = bigsum num_faces
      (fun f =>
         bigsum (nth f num_face_edges 0%nat)
           (fun e =>
              bigsum 3
                (fun d =>
                   1 / (2 * volume)
                   * face_integral (cell_face corners faces num_face_edges f)
                                   (nth f num_face_edges 0%nat) 3
                                   (Some (upd (repeat 0 (nth f num_face_edges 0%nat)) e 1))
                   * nth d (skipn (3 * f) normals) 0
                   * g (3 * nth (accumulate num_face_edges f + e) faces 0%nat + d)%nat))).
Proof.
  intros Hix. unfold compute_q_3D.
  match goal with
  | |- context [fold_left ?F (seq 0 num_faces) ?st0] =>
      destruct (pair_fold_counter (n * 3) F (accumulate num_face_edges)
                  (fun f =>
                     bigsum (nth f num_face_edges 0%nat)
                       (fun e =>
                          bigsum 3
                            (fun d =>
                               1 / (2 * volume)
                               * face_integral (cell_face corners faces num_face_edges f)
                                               (nth f num_face_edges 0%nat) 3
                                               (Some (upd (repeat 0 (nth f num_face_edges 0%nat))
                                                          e 1))
                               * nth d (skipn (3 * f) normals) 0
                               * g (3 * nth (accumulate num_face_edges f + e) faces 0%nat
                                    + d)%nat)))
                  g num_faces st0) as (_ & _ & P)
  end.
  - reflexivity.
  - apply repeat_length.
  - intros st f Hf Sf Lf.
    set (nfe := nth f num_face_edges 0%nat).
    match goal with
    | |- context [fold_left ?G (seq 0 nfe) st] =>
        destruct (pair_fold_counter (n * 3) G (fun e => (accumulate num_face_edges f + e)%nat)
                    (fun e =>
                       bigsum 3
                         (fun d =>
                            1 / (2 * volume)
                            * face_integral (cell_face corners faces num_face_edges f) nfe 3
                                            (Some (upd (repeat 0 nfe) e 1))
                            * nth d (skipn (3 * f) normals) 0
                            * g (3 * nth (accumulate num_face_edges f + e) faces 0%nat + d)%nat))
                    g nfe st) as (S' & L' & P')
    end.
    + rewrite Sf. lia.
    + exact Lf.
    + intros [cur result] e He Se Le. cbn [fst snd] in *. subst cur.
      specialize (Hix f e Hf He).
      destruct (pair_add3 result (nth (accumulate num_face_edges f + e) faces 0%nat)
                          (1 / (2 * volume)
                           * face_integral (pick_points 3 corners (skipn (fst st) faces) nfe) nfe 3
                                           (Some (upd (repeat 0 nfe) e 1)))
                          (skipn (3 * f) normals) g ltac:(lia)) as [L2 P2].
      cbv zeta in L2, P2. rewrite Le in P2.
      split; [lia |]. split; [rewrite L2; exact Le |].
      rewrite P2. f_equal. apply bigsum_ext. intros d _. unfold cell_face. fold nfe.
      rewrite Sf. reflexivity.
    + split; [rewrite S'; rewrite accumulate_S; reflexivity |].
      split; [exact L' | exact P'].
  - rewrite P. rewrite (bigsum_zero (n * 3)); [lra |].
    intros k _. cbn [snd]. rewrite nth_repeat. lra.
Qed.

(** A face integral is linear in the corner values: the integrals of the
    nodal basis functions, weighted, add up to the integral of the weights. *)
Lemma face_integral_units (Dim : nat) (pts : list R) (m : nat) (w : nat -> R) :
  bigsum m (fun e => w e * face_integral_impl Dim pts m (Some (upd (repeat 0 m) e 1)))
  = face_integral_impl Dim pts m (Some (map w (seq 0 m))).
Proof.
  destruct (Nat.eq_dec m 0) as [-> | Hm]; [reflexivity |].
  rewrite face_integral_impl_spec. cbv zeta.
  set (A := fun k => tri_area_of Dim (nth k (face_triangles Dim pts m) [])).
  set (F := fun e i => (if (e =? i)%nat then A (2 * i)%nat * w i else 0)
                       + (if (e =? (i + 1) mod m)%nat
                          then A (2 * i + 1)%nat * w ((i + 1) mod m)%nat else 0)).
  rewrite (bigsum_ext m _ (fun e => bigsum m (fun i => F e i))).
  - rewrite (bigsum_swap m m F). apply bigsum_ext. intros i Hi.
    assert (Hj : ((i + 1) mod m < m)%nat) by (apply Nat.mod_upper_bound; exact Hm).
    unfold F. rewrite bigsum_plus.
    rewrite (bigsum_delta m i (fun _ => A (2 * i)%nat * w i) Hi).
    rewrite (bigsum_delta m ((i + 1) mod m)
                          (fun _ => A (2 * i + 1)%nat * w ((i + 1) mod m)%nat) Hj).
    rewrite !nth_map_seq by assumption. reflexivity.
  - intros e He. rewrite face_integral_impl_spec. cbv zeta. fold A.
    rewrite <- bigsum_scal. apply bigsum_ext. intros i Hi.
    assert (Hj : ((i + 1) mod m < m)%nat) by (apply Nat.mod_upper_bound; exact Hm).
    unfold F. rewrite !nth_upd, repeat_length, !nth_repeat.
    destruct (Nat.ltb_spec e m) as [_ | Hge]; [| lia]. rewrite !andb_true_r.
    destruct (Nat.eqb_spec e i) as [E1 | _], (Nat.eqb_spec e ((i + 1) mod m)) as [E2 | _];
      rewrite <- ?E2, <- ?E1; unfold A; lra.
Qed.

Lemma face_integral_ones (Dim : nat) (pts : list R) (m : nat) :
  face_integral_impl Dim pts m (Some (map (fun _ => 1) (seq 0 m)))
  = face_integral_impl Dim pts m None.
Proof.
  destruct (Nat.eq_dec m 0) as [-> | Hm]; [reflexivity |].
  rewrite !face_integral_impl_spec. cbv zeta. apply bigsum_ext. intros i Hi.
  rewrite !nth_map_seq; [reflexivity | apply Nat.mod_upper_bound; exact Hm | exact Hi].
Qed.

(** The sum over the nodes of a component of the 3D q vector times a nodal
    weight, as a sum over the faces of face integrals of the weight. *)
Lemma q_3D_weighted (corners : list R) (n : nat) (faces num_face_edges : list nat)
      (num_faces : nat) (volume : R) (normals : list R) (a : nat) (h : nat -> R) :
  (forall f e, (f < num_faces)%nat -> (e < nth f num_face_edges 0)%nat ->
               (nth (accumulate num_face_edges f + e) faces 0 < n)%nat) ->
  (a < 3)%nat ->
  bigsum n (fun i => nth (3 * i + a)
                         (compute_q_3D corners n faces num_face_edges num_faces volume normals) 0
                     * h i)
  = 1 / (2 * volume)
    * bigsum num_faces
        (fun f =>
           nth (3 * f + a) normals 0
           * face_integral (cell_face corners faces num_face_edges f)
                           (nth f num_face_edges 0%nat) 3
                           (Some (map (fun e => h (nth (accumulate num_face_edges f + e) faces 0%nat))
                                      (seq 0 (nth f num_face_edges 0%nat))))).
Proof.
  intros Hix Ha.
  set (q := compute_q_3D corners n faces num_face_edges num_faces volume normals).
  set (g := fun k => if (k mod 3 =? a)%nat then h (k / 3)%nat else 0).
  assert (G : forall v d, (d < 3)%nat -> g (3 * v + d)%nat = if (d =? a)%nat then h v else 0).
  { intros v d Hd. unfold g. replace (3 * v + d)%nat with (d + v * 3)%nat by lia.
    rewrite Nat.Div0.mod_add, Nat.div_add, Nat.mod_small, Nat.div_small by lia.
    reflexivity. }
  pose proof (pair_compute_q_3D corners n faces num_face_edges num_faces volume normals g Hix)
    as P. fold q in P.
  rewrite bigsum_nested in P.
  rewrite (bigsum_ext n _ (fun i => bigsum 3 (fun d => nth (i * 3 + d) q 0 * g (i * 3 + d)%nat))).
  - rewrite P, <- bigsum_scal. apply bigsum_ext. intros f Hf.
    set (nfe := nth f num_face_edges 0%nat).
    change (face_integral (cell_face corners faces num_face_edges f) nfe 3)
      with (face_integral_impl 3 (cell_face corners faces num_face_edges f) nfe).
    rewrite <- (face_integral_units 3 (cell_face corners faces num_face_edges f) nfe
                  (fun e => h (nth (accumulate num_face_edges f + e) faces 0%nat))).
    rewrite <- !bigsum_scal. apply bigsum_ext. intros e He.
    cbn [bigsum]. rewrite !G by lia. rewrite !nth_skipn_R.
    change (face_integral (cell_face corners faces num_face_edges f) nfe 3)
      with (face_integral_impl 3 (cell_face corners faces num_face_edges f) nfe).
    destruct a as [|[|[|a]]]; [| | | lia]; cbn [Nat.eqb]; lra.
  - intros i _. cbn [bigsum].
    replace (i * 3 + 0)%nat with (3 * i + 0)%nat by lia.
    replace (i * 3 + 1)%nat with (3 * i + 1)%nat by lia.
    replace (i * 3 + 2)%nat with (3 * i + 2)%nat by lia.
    rewrite !G by lia.
    destruct a as [|[|[|a]]]; [| | | lia]; cbn [Nat.eqb]; lra.
Qed.

Lemma cell_face_coordinate (corners : list R) (faces num_face_edges : list nat) (f b : nat) :
  (b < 3)%nat ->
  map (fun e => nth (3 * nth (accumulate num_face_edges f + e) faces 0%nat + b) corners 0)
      (seq 0 (nth f num_face_edges 0%nat))
  = coordinate b (cell_face corners faces num_face_edges f) (nth f num_face_edges 0%nat).
Proof.
  intros Hb. unfold coordinate. apply map_ext_in. intros e He. apply in_seq in He.
  unfold cell_face, pick_points.
  replace (3 * e + b)%nat with (e * 3 + b)%nat by lia.
  rewrite (nth_flat_rows
             (fun i d => nth (nth i (skipn (accumulate num_face_edges f) faces) 0%nat * 3 + d)
                             corners 0)
             (nth f num_face_edges 0%nat) 3 e b 0) by lia.
  rewrite nth_skipn_gen. f_equal. lia.
Qed.

(** The q vector of a closed cell sums to zero and has first moment [I / 2]. *)
Lemma closed_cell_3D_moments (corners : list R) (n : nat) (faces num_face_edges : list nat)
      (num_faces : nat) (volume : R) (normals : list R) :
  closed_cell_3D corners n faces num_face_edges num_faces volume normals ->
  q_moments 3 corners
            (compute_q_3D corners n faces num_face_edges num_faces volume normals) n.
Proof.
  intros (Hn & HV & Hix & H0 & H1). split.
  - intros a Ha.
    rewrite (bigsum_ext n _
               (fun i => nth (3 * i + a)
                             (compute_q_3D corners n faces num_face_edges num_faces volume normals)
                             0 * 1))
      by (intros; lra).
    rewrite (q_3D_weighted corners n faces num_face_edges num_faces volume normals a
                           (fun _ => 1) Hix Ha).
    rewrite (bigsum_ext num_faces _
               (fun f => nth (3 * f + a) normals 0
                         * face_integral (cell_face corners faces num_face_edges f)
                                         (nth f num_face_edges 0%nat) 3 None)).
    + rewrite (H0 a Ha). lra.
    + intros f _. f_equal. apply face_integral_ones.
  - intros a b Ha Hb.
    rewrite (q_3D_weighted corners n faces num_face_edges num_faces volume normals a
                           (fun i => nth (3 * i + b) corners 0) Hix Ha).
    rewrite (bigsum_ext num_faces _
               (fun f => nth (3 * f + a) normals 0
                         * face_integral (cell_face corners faces num_face_edges f)
                                         (nth f num_face_edges 0%nat) 3
                                         (Some (coordinate b (cell_face corners faces
                                                                        num_face_edges f)
                                                           (nth f num_face_edges 0%nat))))).
    + rewrite (H1 a b Ha Hb). destruct (a =? b)%nat; [field; exact HV | lra].
    + intros f _. rewrite cell_face_coordinate by exact Hb. reflexivity.
Qed.

Lemma cube_face_area (f : nat) : (f < 6)%nat -> face_integral (cube_face f) 4 3 None = 1.
Proof.
  intros Hf. unfold face_integral. cbn [Nat.eqb]. rewrite face_integral_impl_spec.
  cbn [bigsum]. rewrite !(cube_tessellation_areas f) by (assumption || cbn; lia). lra.
Qed.

Ltac eval_cube_faces :=
  run_face_integrals;
  repeat match goal with
         | |- context [face_integral ?l 4 3 ?cv] =>
             name_cube_face l;
             try rewrite !cube_face_area by lia; try rewrite !cube_face_integral by lia
         end;
  cbn [nth]; lra.

(** The unit cube is a closed cell. *)
Lemma unit_cube_closed :
  closed_cell_3D unit_cube 8 unit_cube_faces unit_cube_face_edges 6 1 cube_normals.
Proof.
  split; [lia |]. split; [lra |]. split; [| split].
  - intros f e Hf He.
    destruct f as [|[|[|[|[|[|f]]]]]]; [| | | | | | lia];
      (destruct e as [|[|[|[|e]]]]; [| | | | cbn in He; lia]); cbn; lia.
  - intros a Ha. destruct a as [|[|[|a]]]; [| | | lia]; eval_cube_faces.
  - intros a b Ha Hb.
    destruct a as [|[|[|a]]]; [| | | lia]; (destruct b as [|[|[|b]]]; [| | | lia]);
      eval_cube_faces.
Qed.

(** X9.  For a closed cell, that is when the face integrals of the code
    satisfy the identities of the divergence theorem (the face areas times
    the normals add up to zero, the first moments of the faces times the
    normals add up to the volume times the identity) and the faces refer to
    corners of the cell, the q vector of [compute_q_3D] sums to zero and has
    first moment [I / 2], and the matrix [I - P] formed from it is
    idempotent and sends the columns of Nr and Nc to zero. *)
Theorem closed_cell_q_vector (corners : list R) (n : nat) (faces num_face_edges : list nat)
        (num_faces : nat) (volume : R) (normals : list R) :
  closed_cell_3D corners n faces num_face_edges num_faces volume normals ->
  let q := compute_q_3D corners n faces num_face_edges num_faces volume normals in
  length q = (n * 3)%nat /\ q_moments 3 corners q n /\
  exists Wr Wc ImP,
    compute_Wr_3D q = Ok Wr /\ compute_Wc_3D q = Ok Wc /\
    compute_ImP (compute_Nr_3D corners n) (compute_Nc_3D corners n) Wr Wc 3 = Ok ImP /\
    length ImP = (3 * n * (3 * n))%nat /\
    idempotent (3 * n) ImP /\
    annihilates (3 * n) 6 ImP (compute_Nr_3D corners n) /\
    annihilates (3 * n) 6 ImP (compute_Nc_3D corners n).
Proof.
  intros H q. pose proof (closed_cell_3D_moments _ _ _ _ _ _ _ H) as Hq. fold q in Hq.
  assert (Lq : length q = (n * 3)%nat) by apply compute_q_3D_length.
  split; [exact Lq |]. split; [exact Hq |].
  destruct H as (Hn & _). exact (compute_ImP_3D_idempotent corners q n Hn Lq Hq).
Qed.

Lemma closed_cell_q_vector_witness :
  length (compute_q_3D unit_cube 8 unit_cube_faces unit_cube_face_edges 6 1 cube_normals)
  = 24%nat /\
  q_moments 3 unit_cube
            (compute_q_3D unit_cube 8 unit_cube_faces unit_cube_face_edges 6 1 cube_normals) 8 /\
  exists Wr Wc ImP,
    compute_Wr_3D (compute_q_3D unit_cube 8 unit_cube_faces unit_cube_face_edges 6 1 cube_normals)
    = Ok Wr /\
    compute_Wc_3D (compute_q_3D unit_cube 8 unit_cube_faces unit_cube_face_edges 6 1 cube_normals)
    = Ok Wc /\
    compute_ImP (compute_Nr_3D unit_cube 8) (compute_Nc_3D unit_cube 8) Wr Wc 3 = Ok ImP /\
    length ImP = 576%nat /\
    idempotent 24 ImP /\
    annihilates 24 6 ImP (compute_Nr_3D unit_cube 8) /\
    annihilates 24 6 ImP (compute_Nc_3D unit_cube 8).
Proof.
  exact (closed_cell_q_vector unit_cube 8 unit_cube_faces unit_cube_face_edges 6 1 cube_normals
                              unit_cube_closed).
Defined.

(** ** What the boundary-condition passes do to the free dofs *)

Lemma coo_value_app (l1 l2 : list triplet) (i j : Z) :
  coo_value (l1 ++ l2) i j = coo_value l1 i j + coo_value l2 i j.
Proof.
  unfold coo_value. induction l1 as [|t l1 IH]; simpl; [lra |].
  destruct ((trow t =? i) && (tcol t =? j))%Z; rewrite IH; lra.
Qed.

Lemma coo_value_cons (t : triplet) (l : list triplet) (i j : Z) :
  coo_value (t :: l) i j
  = (if ((trow t =? i) && (tcol t =? j))%Z then tval t else 0) + coo_value l i j.
Proof. unfold coo_value. simpl. destruct ((trow t =? i) && (tcol t =? j))%Z; lra. Qed.

Lemma coo_value_insert_by_col (t : triplet) (l : list triplet) (i j : Z) :
  coo_value (insert_by_col t l) i j = coo_value (t :: l) i j.
Proof.
  induction l as [|h r IH]; [reflexivity |]. simpl insert_by_col.
  destruct (tcol h <? tcol t)%Z; [| reflexivity].
  rewrite !coo_value_cons in *. rewrite IH. lra.
Qed.

Lemma coo_value_sort_by_col (A : list triplet) (i j : Z) :
  coo_value (sort_by_col A) i j = coo_value A i j.
Proof.
  induction A as [|t A IH]; [reflexivity |].
  unfold sort_by_col in *. simpl fold_right.
  rewrite coo_value_insert_by_col, !coo_value_cons, IH. reflexivity.
Qed.

(** A list none of whose triplets is in column [j] has nothing at [(i, j)]. *)
Lemma coo_value_no_col (l : list triplet) (i j : Z) :
  (forall t, In t l -> tcol t <> j) -> coo_value l i j = 0.
Proof.
  induction l as [|t l IH]; intros H; [reflexivity |].
  rewrite coo_value_cons, IH by (intros; apply H; right; assumption).
  assert (E : (tcol t =? j)%Z = false) by (apply Z.eqb_neq, H; left; reflexivity).
  rewrite E, andb_false_r. lra.
Qed.

Lemma coo_value_zeroed (l : list triplet) (i j : Z) :
  coo_value (map (fun t => (trow t, tcol t, 0)) l) i j = 0.
Proof.
  induction l as [|t l IH]; [reflexivity |]. simpl map. rewrite coo_value_cons, IH.
  unfold trow, tcol, tval. cbn [fst snd].
  destruct ((fst (fst t) =? i) && (snd (fst t) =? j))%Z; lra.
Qed.

Lemma insert_by_col_In (t x : triplet) (l : list triplet) :
  In x (insert_by_col t l) -> x = t \/ In x l.
Proof.
  induction l as [|h r IH]; simpl.
  - intros [<- | []]. left; reflexivity.
  - destruct (tcol h <? tcol t)%Z; simpl.
    + intros [<- | H]; [right; left; reflexivity |].
      destruct (IH H) as [-> | H']; [left; reflexivity | right; right; exact H'].
    + intros [<- | [<- | H]]; [left | right; left | right; right]; auto.
Qed.

Lemma insert_by_col_sorted (t : triplet) (l : list triplet) :
  StronglySorted by_col l -> StronglySorted by_col (insert_by_col t l).
Proof.
  induction 1 as [|h r S IH F]; simpl.
  - repeat constructor.
  - rewrite Forall_forall in F. destruct (Z.ltb_spec (tcol h) (tcol t)) as [L | L].
    + constructor; [exact IH |]. rewrite Forall_forall. intros x Hx.
      destruct (insert_by_col_In _ _ _ Hx) as [-> | Hx']; [unfold by_col; lia | apply F, Hx'].
    + constructor; [constructor; [exact S | rewrite Forall_forall; exact F] |].
      rewrite Forall_forall. intros x [<- | Hx]; [exact L |].
      specialize (F x Hx). unfold by_col in *. lia.
Qed.

Lemma sort_by_col_sorted (A : list triplet) : StronglySorted by_col (sort_by_col A).
Proof.
  induction A as [|t A IH]; [constructor |]. apply insert_by_col_sorted, IH.
Qed.

Lemma lower_bound_skipped (l : list triplet) (dof : Z) (t : triplet) :
  In t (fst (lower_bound l dof)) -> (tcol t < dof)%Z.
Proof.
  induction l as [|h r IH]; simpl; [intros [] |].
  destruct (Z.ltb_spec (tcol h) dof) as [L | L]; [| intros []].
  destruct (lower_bound r dof) as [s rest]. simpl in *. intros [<- | H]; [exact L | exact (IH H)].
Qed.

Lemma lower_bound_start (l : list triplet) (dof : Z) (h : triplet) (r : list triplet) :
  snd (lower_bound l dof) = h :: r -> (dof <= tcol h)%Z.
Proof.
  induction l as [|x l IH]; simpl; [discriminate |].
  destruct (Z.ltb_spec (tcol x) dof) as [L | L].
  - destruct (lower_bound l dof) as [s rest]. simpl in *. exact IH.
  - simpl. intros E. injection E as <- _. exact L.
Qed.

Lemma find_if_other_run (l : list triplet) (dof : Z) (t : triplet) :
  In t (fst (find_if_other l dof)) -> tcol t = dof.
Proof.
  induction l as [|h r IH]; simpl; [intros [] |].
  destruct (Z.eqb_spec (tcol h) dof) as [E | E]; simpl; [| intros []].
  destruct (find_if_other r dof) as [s rest]. simpl in *. intros [<- | H]; [exact E | exact (IH H)].
Qed.

Lemma find_if_other_rest (l : list triplet) (dof : Z) (h : triplet) (r : list triplet) :
  snd (find_if_other l dof) = h :: r -> tcol h <> dof.
Proof.
  induction l as [|x l IH]; simpl; [discriminate |].
  destruct (Z.eqb_spec (tcol x) dof) as [E | E]; simpl.
  - destruct (find_if_other l dof) as [s rest]. simpl in *. exact IH.
  - intros E'. injection E' as <- _. exact E.
Qed.

Lemma sorted_app_r (l1 l2 : list triplet) :
  StronglySorted by_col (l1 ++ l2) -> StronglySorted by_col l2.
Proof.
  induction l1 as [|x l1 IH]; simpl; [auto |]. intros S. inversion S; subst. auto.
Qed.

Lemma sorted_head_least (h : triplet) (r : list triplet) (t : triplet) :
  StronglySorted by_col (h :: r) -> In t (h :: r) -> (tcol h <= tcol t)%Z.
Proof.
  intros S [<- | H]; [lia |]. inversion S as [|? ? _ F]; subst.
  rewrite Forall_forall in F. exact (F t H).
Qed.

(** [b[row] -= value * fixed_value] along a run of one column [dof]. *)
Lemma move_to_rhs_spec (run : list triplet) (v : R) (b : list R) (r dof : Z) :
  (forall t, In t run -> tcol t = dof) ->
  in_range r (length b) = true ->
  nthZ (move_to_rhs run v b) r 0 = nthZ b r 0 - coo_value run r dof * v.
Proof.
  unfold move_to_rhs. revert b. induction run as [|t run IH]; intros b H Rr; simpl fold_left.
  - unfold coo_value. simpl. lra.
  - rewrite IH; [| intros; apply H; right; assumption | rewrite updZ_length; exact Rr].
    rewrite coo_value_cons.
    assert (E : (tcol t =? dof)%Z = true) by (apply Z.eqb_eq, H; left; reflexivity).
    rewrite E, andb_true_r.
    destruct (Z.eqb_spec (trow t) r) as [-> | Hne].
    + rewrite nthZ_updZ_same by exact Rr. lra.
    + rewrite nthZ_updZ_other by exact Hne. lra.
Qed.

Lemma eliminate_columns_fold (zero : bool) (A : list triplet) (b : list R) (nf : nat)
      (ixs : list Z) (vals : list R) :
  eliminate_columns zero A b nf ixs vals
  = let '(done, todo, b') := fold_left (eliminate_step zero ixs vals) (seq 0 nf) ([], A, b) in
    (done ++ todo, b').
Proof. reflexivity. Qed.

(** What one round does, when the triplets still to be visited are in
    column order: the right-hand side loses the column of the dof, and the
    triplets that remain are those of the later columns. *)
Lemma eliminate_step_spec (zero : bool) (ixs : list Z) (vals : list R)
      (done todo : list triplet) (b : list R) (i : nat) :
  StronglySorted by_col todo ->
  let dof := nth i ixs 0%Z in
  let st' := eliminate_step zero ixs vals (done, todo, b) i in
  StronglySorted by_col (snd (fst st')) /\
  length (snd st') = length b /\
  (forall r, in_range r (length b) = true ->
             nthZ (snd st') r 0 = nthZ b r 0 - coo_value todo r dof * nth i vals 0) /\
  (forall r c, (dof < c)%Z -> coo_value (snd (fst st')) r c = coo_value todo r c) /\
  (forall r c, c <> dof ->
               coo_value (fst (fst st') ++ snd (fst st')) r c = coo_value (done ++ todo) r c) /\
  (zero = false ->
   forall r c, coo_value (fst (fst st') ++ snd (fst st')) r c = coo_value (done ++ todo) r c).
Proof.
  intros S dof st'. unfold st', eliminate_step. fold dof.
  pose proof (lower_bound_split todo dof) as LS.
  pose proof (lower_bound_skipped todo dof) as LK.
  pose proof (lower_bound_start todo dof) as LH.
  destruct (lower_bound todo dof) as [skipped start]. cbn [fst snd] in *.
  assert (Sst : StronglySorted by_col start) by (apply (sorted_app_r skipped); rewrite LS; exact S).
  assert (Z0 : forall r, coo_value skipped r dof = 0).
  { intros r. apply coo_value_no_col. intros t Ht E. specialize (LK t Ht). lia. }
  destruct start as [|h rr].
  - cbn [fst snd]. repeat split; auto.
    intros r Rr. rewrite <- LS, coo_value_app, Z0. unfold coo_value at 1. simpl. lra.
  - specialize (LH h rr eq_refl).
    destruct (Z.eqb_spec (tcol h) dof) as [E | E].
    + pose proof (find_if_other_split (h :: rr) dof) as FS.
      pose proof (find_if_other_run (h :: rr) dof) as FR.
      pose proof (find_if_other_rest (h :: rr) dof) as FH.
      destruct (find_if_other (h :: rr) dof) as [run rest]. cbn [fst snd] in *.
      assert (Srest : StronglySorted by_col rest)
        by (apply (sorted_app_r run); rewrite FS; exact Sst).
      assert (Rgt : forall t, In t rest -> (dof < tcol t)%Z).
      { intros t Ht. destruct rest as [|h' r']; [destruct Ht |].
        specialize (FH h' r' eq_refl).
        pose proof (sorted_head_least h' r' t Srest Ht) as H1.
        assert (H2 : (tcol h <= tcol h')%Z).
        { apply (sorted_head_least h rr h' Sst). rewrite <- FS. apply in_or_app. right.
          left; reflexivity. }
        lia. }
      split; [exact Srest |]. split; [apply move_to_rhs_length |]. split; [| split; [| split]].
      * intros r Rr. rewrite (move_to_rhs_spec run _ b r dof FR Rr).
        rewrite <- LS, <- FS, !coo_value_app, Z0.
        rewrite (coo_value_no_col rest r dof)
          by (intros t Ht Et; specialize (Rgt t Ht); lia). lra.
      * intros r c Hc. rewrite <- LS, <- FS, !coo_value_app.
        rewrite (coo_value_no_col skipped r c)
          by (intros t Ht Et; specialize (LK t Ht); lia).
        rewrite (coo_value_no_col run r c)
          by (intros t Ht Et; specialize (FR t Ht); lia). lra.
      * intros r c Hc. rewrite <- LS, <- FS, !coo_value_app.
        rewrite (coo_value_no_col run r c)
          by (intros t Ht Et; specialize (FR t Ht); lia).
        destruct zero; [rewrite coo_value_zeroed; lra |].
        rewrite (coo_value_no_col run r c)
          by (intros t Ht Et; specialize (FR t Ht); lia). lra.
      * intros -> r c. rewrite <- LS, <- FS, !coo_value_app. lra.
    + cbn [fst snd]. repeat split; auto.
      intros r Rr. rewrite <- LS, coo_value_app, Z0.
      rewrite (coo_value_no_col (h :: rr) r dof); [lra |].
      intros t Ht Et. pose proof (sorted_head_least h rr t Sst Ht). lia.
Qed.

Lemma eliminate_loop_spec (zero : bool) (ixs : list Z) (vals : list R)
      (A : list triplet) (b : list R) (m : nat) :
  StronglySorted by_col A -> ascending m ixs ->
  let st := fold_left (eliminate_step zero ixs vals) (seq 0 m) ([], A, b) in
  StronglySorted by_col (snd (fst st)) /\
  length (snd st) = length b /\
  (forall r, in_range r (length b) = true ->
             nthZ (snd st) r 0
             = nthZ b r 0 - bigsum m (fun i => coo_value A r (nth i ixs 0%Z) * nth i vals 0)) /\
  (forall r c, (forall j, (j < m)%nat -> (nth j ixs 0 < c)%Z) ->
               coo_value (snd (fst st)) r c = coo_value A r c) /\
  (forall r c, (forall j, (j < m)%nat -> nth j ixs 0%Z <> c) ->
               coo_value (fst (fst st) ++ snd (fst st)) r c = coo_value A r c) /\
  (zero = false ->
   forall r c, coo_value (fst (fst st) ++ snd (fst st)) r c = coo_value A r c).
Proof.
  intros SA. induction m as [|m IH]; intros Asc.
  - simpl. repeat split; auto. intros; lra.
  - assert (Asc' : ascending m ixs) by (intros j k H1 H2; apply Asc; lia).
    specialize (IH Asc'). cbv zeta in IH |- *.
    rewrite seq_S, fold_left_app. simpl fold_left.
    destruct (fold_left (eliminate_step zero ixs vals) (seq 0 m) ([], A, b))
      as [[done todo] b1]. cbn [fst snd] in IH.
    destruct IH as (S1 & L1 & B1 & T1 & D1 & K1).
    pose proof (eliminate_step_spec zero ixs vals done todo b1 m S1) as ST.
    cbv zeta in ST. destruct ST as (S2 & L2 & B2 & T2 & D2 & K2).
    split; [exact S2 |]. split; [lia |]. split; [| split; [| split]].
    + intros r Rr. rewrite B2 by (rewrite L1; exact Rr). rewrite B1 by exact Rr.
      rewrite T1 by (intros j Hj; apply Asc; lia). simpl bigsum. lra.
    + intros r c Hc. rewrite T2 by (apply Hc; lia). apply T1. intros j Hj. apply Hc. lia.
    + intros r c Hc. rewrite D2 by (intros E; apply (Hc m); [lia | symmetry; exact E]).
      apply D1. intros j Hj. apply Hc. lia.
    + intros Hz r c. rewrite K2 by exact Hz. apply K1. exact Hz.
Qed.

Lemma strict_ascending (nf : nat) (ixs : list Z) :
  (nf <= length ixs)%nat -> StronglySorted Z.lt (firstn nf ixs) -> ascending nf ixs.
Proof.
  intros L S j k Hjk Hk.
  assert (G : forall l : list Z, StronglySorted Z.lt l ->
                forall j k, (j < k)%nat -> (k < length l)%nat -> (nth j l 0 < nth k l 0)%Z).
  { clear. induction 1 as [|x l S IH F]; intros j k Hjk Hk; simpl in Hk; [lia |].
    rewrite Forall_forall in F. destruct k as [|k]; [lia |]. destruct j as [|j]; simpl.
    - apply F, nth_In. lia.
    - apply IH; lia. }
  specialize (G _ S j k Hjk). rewrite length_firstn, !nth_firstn in G.
  destruct (Nat.ltb_spec j nf), (Nat.ltb_spec k nf); lia.
Qed.

Lemma set_difference_complete (l1 l2 : list Z) (x : Z) :
  StronglySorted Z.lt l1 -> StronglySorted Z.lt l2 ->
  In x l1 -> ~ In x l2 -> In x (set_difference l1 l2).
Proof.
  revert l2. induction l1 as [|a t1 IH1]; intros l2 S1 S2 H1 H2; [contradiction |].
  inversion S1 as [|? ? S1' F1]; subst.
  induction l2 as [|y t2 IH2].
  - rewrite set_difference_nil_r. exact H1.
  - inversion S2 as [|? ? S2' F2]; subst.
    rewrite set_difference_cons.
    destruct (Z.ltb_spec a y) as [Hay | Hay].
    + destruct H1 as [<- | H1]; [left; reflexivity |]. right. apply IH1; assumption.
    + destruct (Z.ltb_spec y a) as [Hya | Hya].
      * apply IH2; [assumption |]. intros H. apply H2. right; exact H.
      * assert (a = y) by lia. subst y.
        destruct H1 as [<- | H1]; [exfalso; apply H2; left; reflexivity |].
        apply IH1; [assumption | assumption | assumption |].
        intros H. apply H2. right; exact H.
Qed.

Lemma set_difference_sorted (l1 l2 : list Z) :
  StronglySorted Z.lt l1 -> StronglySorted Z.lt l2 ->
  StronglySorted Z.lt (set_difference l1 l2).
Proof.
  revert l2. induction l1 as [|a t1 IH1]; intros l2 S1 S2; [constructor |].
  inversion S1 as [|? ? S1' F1]; subst.
  induction l2 as [|y t2 IH2].
  - rewrite set_difference_nil_r. exact S1.
  - inversion S2 as [|? ? S2' F2]; subst.
    rewrite set_difference_cons.
    destruct (Z.ltb_spec a y) as [Hay | Hay].
    + constructor; [apply IH1; assumption |].
      rewrite Forall_forall in *. intros x Hx.
      apply set_difference_In in Hx; [| assumption | assumption]. apply F1, Hx.
    + destruct (Z.ltb_spec y a) as [Hya | Hya]; [apply IH2; assumption |].
      apply IH1; assumption.
Qed.

(** The free dofs of a system of [n] unknowns: [renum] of both passes. *)
Lemma renum_In (n nf : nat) (ixs : list Z) (x : Z) :
  fixed_dofs_ok n nf ixs ->
  In x (set_difference (iota n) (firstn nf ixs))
  <-> (0 <= x < Z.of_nat n)%Z /\ ~ In x (firstn nf ixs).
Proof.
  intros (L & S & N & I). pose proof (sorted_nodup_strict _ S N) as S'. split.
  - intros H. apply set_difference_In in H; [| apply iota_sorted | exact S'].
    destruct H as [H1 H2]. split; [apply iota_In, H1 | exact H2].
  - intros [H1 H2]. apply set_difference_complete; [apply iota_sorted | exact S' | | exact H2].
    apply iota_In, H1.
Qed.

(** A scatter loop that writes position [f k] for some [k] leaves there a
    value [g k'] of one of its rounds. *)
Lemma fold_updZ_written {A : Type} (f : nat -> Z) (g : nat -> A) (l : list nat)
      (v0 : list A) (d : Z) (dflt : A) :
  in_range d (length v0) = true ->
  (exists k, In k l /\ f k = d) ->
  exists k, In k l /\ f k = d /\
            nthZ (fold_left (fun v k => updZ v (f k) (g k)) l v0) d dflt = g k.
Proof.
  revert v0. induction l as [|k l IH] using rev_ind; intros v0 Rd [k0 [Hk0 E0]].
  - destruct Hk0.
  - rewrite fold_left_app. simpl fold_left.
    destruct (Z.eq_dec (f k) d) as [E | E].
    + exists k. split; [apply in_or_app; right; left; reflexivity |]. split; [exact E |].
      rewrite E. apply nthZ_updZ_same.
      rewrite fold_left_length_inv by (intros; apply updZ_length). exact Rd.
    + apply in_app_or in Hk0. destruct Hk0 as [Hk0 | [-> | []]]; [| contradiction].
      destruct (IH v0 Rd (ex_intro _ k0 (conj Hk0 E0))) as [k' [H1 [H2 H3]]].
      exists k'. split; [apply in_or_app; left; exact H1 |]. split; [exact H2 |].
      rewrite nthZ_updZ_other by exact E. exact H3.
Qed.

(** The inverse renumbering of a free dof is its rank among the free dofs,
    and so is not the discard flag. *)
Lemma renum_inv_free (n nf : nat) (ixs : list Z) (r : Z) :
  fixed_dofs_ok n nf ixs -> (0 <= r < Z.of_nat n)%Z -> ~ In r (firstn nf ixs) ->
  let renum := fst (fst (renumbering n nf ixs)) in
  let renum_inv := snd (fst (renumbering n nf ixs)) in
  exists i, (i < length renum)%nat /\ nth i renum 0%Z = r /\
            nthZ renum_inv r 0%Z = Z.of_nat i /\
            nthZ renum_inv r 0%Z <> snd (renumbering n nf ixs).
Proof.
  intros Hok Hr Hfree. unfold renumbering. cbn [fst snd].
  set (renum := set_difference (iota n) (firstn nf ixs)).
  assert (Hin : In r renum) by (apply renum_In; [exact Hok | split; assumption]).
  destruct (In_nth _ _ 0%Z Hin) as [i0 [Hi0 E0]].
  destruct (fold_updZ_written (fun i => nth i renum 0%Z) (fun i => Z.of_nat i)
                              (seq 0 (length renum)) (repeat (Z.of_nat n + 1)%Z n) r 0%Z)
    as [k [Hk [Ek Hv]]].
  - rewrite repeat_length. unfold in_range. lia.
  - exists i0. split; [apply in_seq; lia | exact E0].
  - apply in_seq in Hk. exists k. split; [lia |]. split; [exact Ek |]. split; [exact Hv |].
    rewrite Hv. pose proof (renum_length n nf ixs Hok) as Ln. fold renum in Ln. lia.
Qed.

(** The trivial-equation pass leaves alone the positions whose row and
    column are free. *)
Lemma coo_value_kept (renum_inv : list Z) (discard_flag : Z) (l : list triplet) (i j : Z) :
  nthZ renum_inv i 0%Z <> discard_flag -> nthZ renum_inv j 0%Z <> discard_flag ->
  coo_value
    (map (fun el =>
            if ((nthZ renum_inv (trow el) 0 =? discard_flag)
                || (nthZ renum_inv (tcol el) 0 =? discard_flag))%Z
            then (if (trow el =? tcol el)%Z then (trow el, tcol el, 1)
                  else (trow el, tcol el, 0))
            else el) l) i j
  = coo_value l i j.
Proof.
  intros Fi Fj. induction l as [|t l IH]; [reflexivity |].
  cbn [map]. rewrite !coo_value_cons, IH. f_equal.
  destruct t as [[r c] v]. unfold trow, tcol, tval. cbn [fst snd].
  destruct (Z.eqb_spec r i) as [-> | Hr], (Z.eqb_spec c j) as [-> | Hc].
  - apply Z.eqb_neq in Fi, Fj. rewrite Fi, Fj. cbn [orb fst snd].
    rewrite !Z.eqb_refl. reflexivity.
  - destruct ((nthZ renum_inv i 0 =? discard_flag) || (nthZ renum_inv c 0 =? discard_flag))%Z;
      [destruct (i =? c)%Z |]; cbn [fst snd];
      rewrite ?Z.eqb_refl; (destruct (Z.eqb_spec c j); [contradiction |]);
      rewrite ?andb_false_r; reflexivity.
  - destruct ((nthZ renum_inv r 0 =? discard_flag) || (nthZ renum_inv j 0 =? discard_flag))%Z;
      [destruct (r =? j)%Z |]; cbn [fst snd];
      (destruct (Z.eqb_spec r i); [contradiction |]); reflexivity.
  - destruct ((nthZ renum_inv r 0 =? discard_flag) || (nthZ renum_inv c 0 =? discard_flag))%Z;
      [destruct (r =? c)%Z |]; cbn [fst snd];
      (destruct (Z.eqb_spec r i); [contradiction |]); reflexivity.
Qed.

(** X10.  What [set_boundary_conditions] does to the free dofs, when the
    fixed dofs are ascending, distinct and in range: the right-hand side
    entry of a free row [r] becomes [b[r]] minus the sum, over the fixed
    dofs, of the summed matrix value at [(r, dof)] times the prescribed
    value of the dof; and the summed matrix value at a position whose row
    and column are both free is what it was. *)
Theorem set_boundary_conditions_free_rows (A : list triplet) (b : list R) (nf : nat)
        (ixs : list Z) (vals : list R) :
  fixed_dofs_ok (length b) nf ixs ->
  exists A' b',
    set_boundary_conditions A b nf ixs vals = Returns (A', b') /\
    forall r, (0 <= r < Z.of_nat (length b))%Z -> ~ In r (firstn nf ixs) ->
              nthZ b' r 0
              = nthZ b r 0 - bigsum nf (fun i => coo_value A r (nth i ixs 0%Z) * nth i vals 0) /\
              forall c, (0 <= c < Z.of_nat (length b))%Z -> ~ In c (firstn nf ixs) ->
                        coo_value A' r c = coo_value A r c.
Proof.
  intros Hok. pose proof Hok as (L & S & N & I).
  unfold set_boundary_conditions.
  pose proof S as S'. apply is_sorted_Sorted in S'. rewrite S'. cbn [negb].
  rewrite eliminate_columns_fold.
  pose proof (eliminate_loop_spec true ixs vals (sort_by_col A) b nf (sort_by_col_sorted A)
                (strict_ascending nf ixs L (sorted_nodup_strict _ S N))) as EL.
  cbv zeta in EL.
  destruct (fold_left (eliminate_step true ixs vals) (seq 0 nf) ([], sort_by_col A, b))
    as [[done todo] b2]. cbn [fst snd] in EL. destruct EL as (_ & Lb & B2 & _ & D2 & _).
  assert (Hok2 : fixed_dofs_ok (length b2) nf ixs) by (rewrite Lb; exact Hok).
  pose proof (fun r => renum_inv_free (length b2) nf ixs r Hok2) as RF. cbv zeta in RF.
  destruct (renumbering (length b2) nf ixs) as [[renum renum_inv] discard].
  cbn [fst snd] in RF.
  eexists. eexists. split; [reflexivity |].
  intros r Hr Fr.
  assert (NotFixed : forall x k, ~ In x (firstn nf ixs) -> (k < nf)%nat -> nth k ixs 0%Z <> x).
  { intros x k Hx Hk E. apply Hx. rewrite <- E.
    replace (nth k ixs 0%Z) with (nth k (firstn nf ixs) 0%Z).
    - apply nth_In. rewrite length_firstn. lia.
    - rewrite nth_firstn. destruct (Nat.ltb_spec k nf); [reflexivity | lia]. }
  split.
  - rewrite fold_updZ_untouched by (intros k Hk; apply in_seq in Hk; apply NotFixed; [exact Fr | lia]).
    rewrite B2 by (unfold in_range; lia).
    apply f_equal. apply bigsum_ext. intros i Hi. rewrite coo_value_sort_by_col. reflexivity.
  - intros c Hc Fc.
    destruct (RF r) as [i [_ [_ [_ Nr]]]]; [lia | exact Fr |].
    destruct (RF c) as [j [_ [_ [_ Nc]]]]; [lia | exact Fc |].
    rewrite coo_value_kept by assumption.
    rewrite D2 by (intros k Hk; apply NotFixed; assumption).
    apply coo_value_sort_by_col.
Qed.

(** Without zeroing, a round keeps the triplet list as it is. *)
Lemma eliminate_step_keeps (ixs : list Z) (vals : list R) (done todo : list triplet)
      (b : list R) (i : nat) :
  let st' := eliminate_step false ixs vals (done, todo, b) i in
  fst (fst st') ++ snd (fst st') = done ++ todo.
Proof.
  cbv zeta. unfold eliminate_step.
  pose proof (lower_bound_split todo (nth i ixs 0%Z)) as LS.
  destruct (lower_bound todo (nth i ixs 0%Z)) as [skipped start]. cbn [fst snd] in LS.
  destruct start as [|h r]; [reflexivity |].
  destruct (tcol h =? nth i ixs 0%Z)%Z; [| reflexivity].
  pose proof (find_if_other_split (h :: r) (nth i ixs 0%Z)) as FS.
  destruct (find_if_other (h :: r) (nth i ixs 0%Z)) as [run rest]. cbn [fst snd] in *.
  rewrite <- LS, <- FS, <- !app_assoc. reflexivity.
Qed.

Lemma eliminate_columns_keeps (A : list triplet) (b : list R) (nf : nat) (ixs : list Z)
      (vals : list R) :
  fst (eliminate_columns false A b nf ixs vals) = A.
Proof.
  rewrite eliminate_columns_fold.
  assert (H : forall l st,
             fst (fst (fold_left (eliminate_step false ixs vals) l st))
             ++ snd (fst (fold_left (eliminate_step false ixs vals) l st))
             = fst (fst st) ++ snd (fst st)).
  { induction l as [|k l IH]; intros st; simpl; [reflexivity |].
    rewrite IH. destruct st as [[done todo] b0]. apply eliminate_step_keeps. }
  specialize (H (seq 0 nf) ([], A, b)).
  destruct (fold_left (eliminate_step false ixs vals) (seq 0 nf) ([], A, b)) as [[done todo] b'].
  exact H.
Qed.

Lemma sort_by_col_In (A : list triplet) (t : triplet) : In t (sort_by_col A) -> In t A.
Proof.
  induction A as [|a A IH]; [intros [] |]. unfold sort_by_col in *. simpl fold_right.
  intros H. destruct (insert_by_col_In _ _ _ H) as [-> | H']; [left; reflexivity | right; auto].
Qed.

(** Dropping the triplets of the fixed dofs and renumbering the others. *)
Lemma coo_value_renumbered (rho : Z -> Z) (flag : Z) (l : list triplet) (ri rj i j : Z) :
  rho ri = i -> rho rj = j -> i <> flag -> j <> flag ->
  (forall t, In t l -> rho (trow t) = i -> trow t = ri) ->
  (forall t, In t l -> rho (tcol t) = j -> tcol t = rj) ->
  coo_value
    (map (fun el => (rho (trow el), rho (tcol el), tval el))
         (filter (fun el => negb ((rho (trow el) =? flag) || (rho (tcol el) =? flag))%Z) l)) i j
  = coo_value l ri rj.
Proof.
  intros Ei Ej Fi Fj. induction l as [|t l IH]; intros Hr Hc; [reflexivity |].
  specialize (IH (fun t H => Hr t (or_intror H)) (fun t H => Hc t (or_intror H))).
  specialize (Hr t (or_introl eq_refl)). specialize (Hc t (or_introl eq_refl)).
  rewrite coo_value_cons. cbn [filter].
  destruct t as [[r c] v]. unfold trow, tcol, tval in *. cbn [fst snd] in *.
  destruct (Z.eqb_spec (rho r) flag) as [Er | Er]; cbn [orb negb].
  - rewrite IH. destruct (Z.eqb_spec r ri) as [-> | ]; [congruence |]. cbn [andb]. lra.
  - destruct (Z.eqb_spec (rho c) flag) as [Ec | Ec]; cbn [negb].
    + rewrite IH. destruct (Z.eqb_spec c rj) as [-> | ]; [congruence |].
      rewrite andb_false_r. lra.
    + cbn [map]. rewrite coo_value_cons, IH. unfold trow, tcol, tval. cbn [fst snd]. f_equal.
      destruct (Z.eqb_spec (rho r) i) as [E1 | E1], (Z.eqb_spec (rho c) j) as [E2 | E2];
        cbn [andb].
      * rewrite (Hr E1), (Hc E2), !Z.eqb_refl. reflexivity.
      * destruct (Z.eqb_spec c rj) as [-> | ]; [congruence |]. rewrite andb_false_r. reflexivity.
      * destruct (Z.eqb_spec r ri) as [-> | ]; [congruence |]. reflexivity.
      * destruct (Z.eqb_spec r ri) as [-> | ]; [congruence |]. reflexivity.
Qed.

Lemma sorted_nth_ge (l : list Z) (lo : Z) (i : nat) :
  StronglySorted Z.lt l -> (forall x, In x l -> (lo <= x)%Z) -> (i < length l)%nat ->
  (lo + Z.of_nat i <= nth i l 0)%Z.
Proof.
  intros S. revert lo i. induction S as [|x l S IH F]; intros lo i H Hi; simpl in Hi; [lia |].
  rewrite Forall_forall in F. destruct i as [|i]; simpl nth.
  - specialize (H x (or_introl eq_refl)). lia.
  - assert (G : (x + 1 + Z.of_nat i <= nth i l 0)%Z).
    { apply IH; [| lia]. intros y Hy. specialize (F y Hy). lia. }
    specialize (H x (or_introl eq_refl)). lia.
Qed.

Lemma sorted_nth_inj (l : list Z) (i j : nat) :
  StronglySorted Z.lt l -> (i < length l)%nat -> (j < length l)%nat ->
  nth i l 0%Z = nth j l 0%Z -> i = j.
Proof.
  intros S Hi Hj E.
  assert (N : NoDup l).
  { clear -S. induction S as [|x l S IH F]; constructor; [| exact IH].
    rewrite Forall_forall in F. intros H. specialize (F x H). lia. }
  rewrite NoDup_nth with (d := 0%Z) in N. apply N; assumption.
Qed.

(** The loop [b[i] = b[renum[i]]]: reading never hits a position already
    written, since [renum[i] >= i]. *)
Lemma compress_loop (renum : list Z) (b : list R) (m : nat) :
  (forall i, (i < m)%nat -> (Z.of_nat i <= nth i renum 0 < Z.of_nat (length b))%Z) ->
  let b' := fold_left (fun b i => upd b i (nthZ b (nth i renum 0%Z) 0)) (seq 0 m) b in
  length b' = length b /\
  (forall i, (i < m)%nat -> nth i b' 0 = nthZ b (nth i renum 0%Z) 0) /\
  (forall p, (m <= p)%nat -> nth p b' 0 = nth p b 0).
Proof.
  induction m as [|m IH]; intros H; cbv zeta.
  - simpl. repeat split; auto. intros; lia.
  - rewrite seq_S, fold_left_app. simpl fold_left.
    destruct (IH (fun i Hi => H i (Nat.lt_lt_succ_r _ _ Hi))) as (L1 & V1 & P1).
    set (bm := fold_left _ (seq 0 m) b) in *.
    assert (Rm : nthZ bm (nth m renum 0%Z) 0 = nthZ b (nth m renum 0%Z) 0).
    { specialize (H m (Nat.lt_succ_diag_r m)). unfold nthZ. rewrite L1.
      destruct (in_range (nth m renum 0%Z) (length b)); [| reflexivity].
      apply P1. lia. }
    split; [rewrite upd_length; exact L1 |]. split.
    + intros i Hi. destruct (Nat.eq_dec i m) as [-> | Hne].
      * rewrite nth_upd_same by (specialize (H m (Nat.lt_succ_diag_r m)); lia). exact Rm.
      * rewrite nth_upd_other by lia. apply V1. lia.
    + intros p Hp. rewrite nth_upd_other by lia. apply P1. lia.
Qed.

Lemma nth_resize (l : list R) (n i : nat) :
  (i < n)%nat -> (n <= length l)%nat -> nth i (resize l n) 0 = nth i l 0.
Proof.
  intros Hi Hn. unfold resize. rewrite app_nth1 by (rewrite length_firstn; lia).
  rewrite nth_firstn. destruct (Nat.ltb_spec i n); [reflexivity | lia].
Qed.

(** The system [reduce_system] leaves. *)
Lemma reduce_system_spec (A : list triplet) (b : list R) (nf : nat)
        (ixs : list Z) (vals : list R) :
  fixed_dofs_ok (length b) nf ixs ->
  (forall t, In t A -> (0 <= trow t < Z.of_nat (length b))%Z
                       /\ (0 <= tcol t < Z.of_nat (length b))%Z) ->
  exists A' b' free,
    reduce_system A b nf ixs vals = Returns (A', b') /\
    StronglySorted Z.lt free /\
    (forall d, In d free <-> (0 <= d < Z.of_nat (length b))%Z /\ ~ In d (firstn nf ixs)) /\
    length b' = length free /\
    forall i, (i < length free)%nat ->
              nth i b' 0
              = nthZ b (nth i free 0%Z) 0
                - bigsum nf (fun k => coo_value A (nth i free 0%Z) (nth k ixs 0%Z) * nth k vals 0) /\
              forall j, (j < length free)%nat ->
                        coo_value A' (Z.of_nat i) (Z.of_nat j)
                        = coo_value A (nth i free 0%Z) (nth j free 0%Z).
Proof.
  intros Hok Hrange. pose proof Hok as (L & S & N & I).
  unfold reduce_system.
  pose proof S as S'. apply is_sorted_Sorted in S'. rewrite S'. cbn [negb].
  pose proof (eliminate_columns_keeps (sort_by_col A) b nf ixs vals) as KA.
  rewrite eliminate_columns_fold in *.
  pose proof (eliminate_loop_spec false ixs vals (sort_by_col A) b nf (sort_by_col_sorted A)
                (strict_ascending nf ixs L (sorted_nodup_strict _ S N))) as EL.
  cbv zeta in EL.
  destruct (fold_left (eliminate_step false ixs vals) (seq 0 nf) ([], sort_by_col A, b))
    as [[done todo] b2]. cbn [fst snd] in EL, KA. destruct EL as (_ & Lb & B2 & _ & _ & _).
  assert (Hok2 : fixed_dofs_ok (length b2) nf ixs) by (rewrite Lb; exact Hok).
  pose proof (fun r => renum_inv_free (length b2) nf ixs r Hok2) as RF. cbv zeta in RF.
  pose proof (fun d => renum_inv_fixed (length b2) nf ixs d Hok2) as RX.
  pose proof (renumbering_renum (length b2) nf ixs) as Rn.
  pose proof (fun x => renum_In (length b2) nf ixs x Hok2) as RI.
  pose proof (renum_length (length b2) nf ixs Hok2) as RL.
  destruct (renumbering (length b2) nf ixs) as [[renum renum_inv] discard].
  cbn [fst snd] in RF, RX, Rn. rewrite <- Rn in RI, RL.
  assert (SR : StronglySorted Z.lt renum).
  { rewrite Rn. apply set_difference_sorted; [apply iota_sorted | apply sorted_nodup_strict; assumption]. }
  exists (map (fun el => (nthZ renum_inv (trow el) 0%Z, nthZ renum_inv (tcol el) 0%Z, tval el))
              (filter (fun el => negb ((nthZ renum_inv (trow el) 0 =? discard)
                                       || (nthZ renum_inv (tcol el) 0 =? discard))%Z)
                      (done ++ todo))).
  eexists. exists renum. split; [reflexivity |].
  split; [exact SR |]. split; [intros d; rewrite <- Lb; apply RI |].
  split; [apply resize_length |].
  assert (Rbound : forall i, (i < length renum)%nat ->
                             (Z.of_nat i <= nth i renum 0 < Z.of_nat (length b2))%Z).
  { intros i Hi. split.
    - apply (sorted_nth_ge renum 0 i SR); [| exact Hi]. intros x Hx. apply RI in Hx. lia.
    - assert (Hin : In (nth i renum 0%Z) renum) by (apply nth_In; exact Hi).
      apply RI in Hin. lia. }
  destruct (compress_loop renum b2 (length renum) Rbound) as (L3 & V3 & _).
  assert (Rank : forall i, (i < length renum)%nat ->
                           nthZ renum_inv (nth i renum 0%Z) 0%Z = Z.of_nat i
                           /\ Z.of_nat i <> discard).
  { intros i Hi.
    assert (Hin : In (nth i renum 0%Z) renum) by (apply nth_In; exact Hi).
    apply RI in Hin. destruct Hin as [H1 H2].
    destruct (RF _ H1 H2) as [i0 [Hi0 [E0 [V0 N0]]]].
    assert (i0 = i) by (apply (sorted_nth_inj renum); assumption). subst i0.
    split; [exact V0 | rewrite <- V0; exact N0]. }
  assert (Inj : forall z i, (0 <= z < Z.of_nat (length b2))%Z -> (i < length renum)%nat ->
                            nthZ renum_inv z 0%Z = Z.of_nat i -> z = nth i renum 0%Z).
  { intros z i Hz Hi E.
    destruct (in_dec Z.eq_dec z (firstn nf ixs)) as [Hfix | Hfree].
    - exfalso. rewrite (RX z Hfix) in E. destruct (Rank i Hi) as [_ Ne]. congruence.
    - destruct (RF z Hz Hfree) as [i0 [Hi0 [E0 [V0 _]]]].
      assert (i0 = i) by lia. subst i0. symmetry. exact E0. }
  intros i Hi. split.
  - rewrite nth_resize; [| exact Hi | rewrite L3, RL; lia].
    rewrite V3 by exact Hi.
    rewrite B2 by (specialize (Rbound i Hi); unfold in_range; lia).
    apply f_equal. apply bigsum_ext. intros k Hk. rewrite coo_value_sort_by_col. reflexivity.
  - intros j Hj.
    destruct (Rank i Hi) as [Ri Ni]. destruct (Rank j Hj) as [Rj Nj].
    rewrite (coo_value_renumbered (fun z => nthZ renum_inv z 0%Z) discard (done ++ todo)
                                  (nth i renum 0%Z) (nth j renum 0%Z)); try assumption.
    + rewrite KA. apply coo_value_sort_by_col.
    + intros t Ht E. apply Inj; [| exact Hi | exact E].
      rewrite KA in Ht. apply sort_by_col_In in Ht. rewrite Lb. apply Hrange, Ht.
    + intros t Ht E. apply Inj; [| exact Hj | exact E].
      rewrite KA in Ht. apply sort_by_col_In in Ht. rewrite Lb. apply Hrange, Ht.
Qed.

(** X11.  The system [reduce_system] leaves, when the fixed dofs are
    ascending, distinct and in range and every triplet has its row and
    column in range.  With [free] the free dofs in ascending order, the new
    right-hand side has one entry per free dof, entry [i] being
    [b[free[i]]] minus the sum, over the fixed dofs, of the summed matrix
    value at [(free[i], dof)] times the prescribed value; and the summed
    value of the new matrix at [(i, j)] is that of the old one at
    [(free[i], free[j])]. *)
Theorem reduce_system_free_system (A : list triplet) (b : list R) (nf : nat)
        (ixs : list Z) (vals : list R) :
  fixed_dofs_ok (length b) nf ixs ->
  (forall t, In t A -> (0 <= trow t < Z.of_nat (length b))%Z
                       /\ (0 <= tcol t < Z.of_nat (length b))%Z) ->
  exists A' b' free,
    reduce_system A b nf ixs vals = Returns (A', b') /\
    StronglySorted Z.lt free /\
    (forall d, In d free <-> (0 <= d < Z.of_nat (length b))%Z /\ ~ In d (firstn nf ixs)) /\
    length b' = length free /\
    forall i, (i < length free)%nat ->
              nth i b' 0
              = nthZ b (nth i free 0%Z) 0
                - bigsum nf (fun k => coo_value A (nth i free 0%Z) (nth k ixs 0%Z) * nth k vals 0) /\
              forall j, (j < length free)%nat ->
                        coo_value A' (Z.of_nat i) (Z.of_nat j)
                        = coo_value A (nth i free 0%Z) (nth j free 0%Z).
Proof. exact (reduce_system_spec A b nf ixs vals). Qed.

Lemma chain_in_range (t : triplet) :
  In t chain_A -> (0 <= trow t < Z.of_nat (length chain_b))%Z
                  /\ (0 <= tcol t < Z.of_nat (length chain_b))%Z.
Proof.
  unfold chain_A. simpl. intros H.
  repeat (destruct H as [<- | H]; [cbn; lia |]). destruct H.
Qed.

Lemma set_boundary_conditions_free_rows_witness :
  exists A' b',
    set_boundary_conditions chain_A chain_b 1 [1%Z] [5] = Returns (A', b') /\
    forall r, (0 <= r < Z.of_nat (length chain_b))%Z -> ~ In r (firstn 1 [1%Z]) ->
              nthZ b' r 0
              = nthZ chain_b r 0
                - bigsum 1 (fun i => coo_value chain_A r (nth i [1%Z] 0%Z) * nth i [5] 0) /\
              forall c, (0 <= c < Z.of_nat (length chain_b))%Z -> ~ In c (firstn 1 [1%Z]) ->
                        coo_value A' r c = coo_value chain_A r c.
Proof.
  exact (set_boundary_conditions_free_rows chain_A chain_b 1 [1%Z] [5] chain_fixed_dofs_ok).
Defined.

Lemma reduce_system_free_system_witness :
  exists A' b' free,
    reduce_system chain_A chain_b 1 [1%Z] [5] = Returns (A', b') /\
    StronglySorted Z.lt free /\
    (forall d, In d free <-> (0 <= d < Z.of_nat (length chain_b))%Z /\ ~ In d (firstn 1 [1%Z])) /\
    length b' = length free /\
    forall i, (i < length free)%nat ->
              nth i b' 0
              = nthZ chain_b (nth i free 0%Z) 0
                - bigsum 1 (fun k => coo_value chain_A (nth i free 0%Z) (nth k [1%Z] 0%Z)
                                     * nth k [5] 0) /\
              forall j, (j < length free)%nat ->
                        coo_value A' (Z.of_nat i) (Z.of_nat j)
                        = coo_value chain_A (nth i free 0%Z) (nth j free 0%Z).
Proof.
  exact (reduce_system_free_system chain_A chain_b 1 [1%Z] [5] chain_fixed_dofs_ok
                                   chain_in_range).
Defined.

(** ** The local numbering of the corners of a cell *)

Lemma set_insert_In (x y : nat) (s : list nat) :
  In y (set_insert x s) <-> y = x \/ In y s.
Proof.
  induction s as [|h t IH]; simpl; [intuition |].
  destruct (Nat.ltb_spec x h); simpl; [intuition |].
  destruct (Nat.eqb_spec x h); simpl; [subst; intuition |].
  rewrite IH. intuition.
Qed.

Lemma set_insert_sorted (x : nat) (s : list nat) :
  StronglySorted lt s -> StronglySorted lt (set_insert x s).
Proof.
  induction 1 as [|h t S IH F]; simpl; [repeat constructor |].
  rewrite Forall_forall in F.
  destruct (Nat.ltb_spec x h).
  - constructor; [constructor; [exact S | rewrite Forall_forall; exact F] |].
    rewrite Forall_forall. intros y [<- | Hy]; [exact H | specialize (F y Hy); lia].
  - destruct (Nat.eqb_spec x h); [constructor; [exact S | rewrite Forall_forall; exact F] |].
    constructor; [exact IH |]. rewrite Forall_forall. intros y Hy.
    apply set_insert_In in Hy. destruct Hy as [-> | Hy]; [lia | exact (F y Hy)].
Qed.

(** The content of the [std::set] built from a range. *)
Lemma set_of_range (l s : list nat) :
  StronglySorted lt s ->
  StronglySorted lt (fold_left (fun s x => set_insert x s) l s) /\
  forall y, In y (fold_left (fun s x => set_insert x s) l s) <-> In y l \/ In y s.
Proof.
  revert s. induction l as [|x l IH]; intros s S; simpl; [split; [exact S | intuition] |].
  destruct (IH (set_insert x s) (set_insert_sorted x s S)) as [S' H']. split; [exact S' |].
  intros y. rewrite H', set_insert_In. intuition.
Qed.

Lemma sorted_nat_nth_inj (l : list nat) (i j : nat) :
  StronglySorted lt l -> (i < length l)%nat -> (j < length l)%nat ->
  nth i l 0%nat = nth j l 0%nat -> i = j.
Proof.
  intros S Hi Hj E.
  assert (N : NoDup l).
  { clear -S. induction S as [|x l S IH F]; constructor; [| exact IH].
    rewrite Forall_forall in F. intros H. specialize (F x H). lia. }
  rewrite NoDup_nth with (d := 0%nat) in N. apply N; assumption.
Qed.

(** Looking up the key of entry [i] in the map built by the loop
    [reindex[indexing[i]] = i]. *)
Lemma map_find_at (indexing : list nat) (s n i : nat) :
  (forall j, (s <= j < i)%nat -> nth j indexing 0%nat <> nth i indexing 0%nat) ->
  (s <= i < s + n)%nat ->
  map_find (map (fun i => (nth i indexing 0%nat, i)) (seq s n)) (nth i indexing 0%nat) = i.
Proof.
  revert s. induction n as [|n IH]; intros s H Hi; [lia |]. simpl.
  destruct (Nat.eqb_spec (nth s indexing 0%nat) (nth i indexing 0%nat)) as [E | E].
  - destruct (Nat.eq_dec s i) as [-> | Hne]; [reflexivity |].
    exfalso. apply (H s); [lia | exact E].
  - assert (s <> i) by (intros ->; apply E; reflexivity).
    apply IH; [| lia]. intros j Hj. apply H. lia.
Qed.

Lemma pick_points_nth (Dim : nat) (pts : list R) (ixs : list nat) (n p d : nat) :
  (p < n)%nat -> (d < Dim)%nat ->
  nth (p * Dim + d) (pick_points Dim pts ixs n) 0 = nth (nth p ixs 0%nat * Dim + d) pts 0.
Proof.
  intros Hp Hd. unfold pick_points.
  apply (nth_flat_rows (fun i d => nth (nth i ixs 0%nat * Dim + d) pts 0) n Dim p d 0 Hp Hd).
Qed.

Lemma global_to_local_indexing_spec (faces num_face_edges : list nat) (num_faces : nat) :
  let reindex := fst (global_to_local_indexing faces num_face_edges num_faces) in
  let indexing := snd (global_to_local_indexing faces num_face_edges num_faces) in
  let used := used_corners faces num_face_edges num_faces in
  StronglySorted lt indexing /\
  (forall I, In I indexing <-> In I used) /\
  (forall i, (i < length indexing)%nat -> map_find reindex (nth i indexing 0%nat) = i) /\
  (forall I, In I used ->
             (map_find reindex I < length indexing)%nat /\
             nth (map_find reindex I) indexing 0%nat = I).
Proof.
  cbv zeta. unfold global_to_local_indexing, used_corners. cbn [fst snd].
  set (used := firstn (accumulate num_face_edges num_faces) faces).
  destruct (set_of_range used [] (SSorted_nil lt)) as [S H].
  set (indexing := fold_left (fun s x => set_insert x s) used []) in *.
  assert (F : forall i, (i < length indexing)%nat ->
                        map_find (map (fun i => (nth i indexing 0%nat, i))
                                      (seq 0 (length indexing))) (nth i indexing 0%nat) = i).
  { intros i Hi. apply map_find_at; [| lia]. intros j Hj E.
    assert (j = i) by (apply (sorted_nat_nth_inj indexing); [exact S | lia | lia | exact E]).
    lia. }
  split; [exact S |]. split; [intros I; rewrite H; simpl; intuition |]. split; [exact F |].
  intros I HI.
  assert (Hin : In I indexing) by (apply H; left; exact HI).
  destruct (In_nth _ _ 0%nat Hin) as [i [Hi E]]. rewrite <- E, (F i Hi). split; [exact Hi | reflexivity].
Qed.

(** X12.  The local numbering of [global_to_local_indexing]: [indexing]
    lists the corner numbers used by the faces of the cell, each once and
    in ascending order; the map sends each of them to its position in
    [indexing], and [indexing] sends the position back; and the local face
    list read against the local corner list ([pick_points] on [indexing])
    names the same points as the global face list read against [points]. *)
Theorem local_numbering (points : list R) (faces num_face_edges : list nat) (num_faces : nat) :
  let reindex := fst (global_to_local_indexing faces num_face_edges num_faces) in
  let indexing := snd (global_to_local_indexing faces num_face_edges num_faces) in
  let used := used_corners faces num_face_edges num_faces in
  StronglySorted lt indexing /\
  (forall I, In I indexing <-> In I used) /\
  (forall i, (i < length indexing)%nat -> map_find reindex (nth i indexing 0%nat) = i) /\
  (forall I, In I used ->
             (map_find reindex I < length indexing)%nat /\
             nth (map_find reindex I) indexing 0%nat = I) /\
  forall k d, (k < length used)%nat -> (d < 3)%nat ->
              nth (nth k (local_faces faces num_face_edges num_faces) 0%nat * 3 + d)
                  (local_corners points faces num_face_edges num_faces) 0
              = nth (nth k faces 0%nat * 3 + d) points 0.
Proof.
  cbv zeta.
  destruct (global_to_local_indexing_spec faces num_face_edges num_faces) as (S & HI & HF & HR).
  cbv zeta in HI, HF, HR.
  split; [exact S |]. split; [exact HI |]. split; [exact HF |]. split; [exact HR |].
  intros k d Hk Hd. unfold local_faces, local_corners.
  set (reindex := fst (global_to_local_indexing faces num_face_edges num_faces)) in *.
  set (indexing := snd (global_to_local_indexing faces num_face_edges num_faces)) in *.
  set (used := used_corners faces num_face_edges num_faces) in *.
  rewrite (nth_indep _ 0%nat (map_find reindex 0%nat)) by (rewrite length_map; exact Hk).
  rewrite map_nth.
  assert (Hin : In (nth k used 0%nat) used) by (apply nth_In; exact Hk).
  destruct (HR _ Hin) as [Hlt Eq].
  rewrite pick_points_nth by assumption. rewrite Eq.
  unfold used, used_corners. rewrite nth_firstn.
  unfold used, used_corners in Hk. rewrite length_firstn in Hk.
  destruct (Nat.ltb_spec k (accumulate num_face_edges num_faces)); [reflexivity | lia].
Qed.

(** ** The stress of a cell *)

(** A loop nest on a pair of buffers that do not depend on each other. *)
Lemma fold_pair {A B X : Type} (f : A -> X -> A) (g : B -> X -> B) (l : list X) (a : A) (b : B) :
  fold_left (fun (st : A * B) x => let '(a, b) := st in (f a x, g b x)) l (a, b)
  = (fold_left f l a, fold_left g l b).
Proof. revert a b. induction l as [|x l IH]; intros a b; simpl; [reflexivity | apply IH]. Qed.

Lemma fold_pair_nested {A B X Y : Type} (f : A -> X -> Y -> A) (g : B -> X -> Y -> B)
      (l1 : list X) (l2 : list Y) (a : A) (b : B) :
  fold_left (fun (st : A * B) x =>
               fold_left (fun (st : A * B) y => let '(a, b) := st in (f a x y, g b x y)) l2 st)
            l1 (a, b)
  = (fold_left (fun a x => fold_left (fun a y => f a x y) l2 a) l1 a,
     fold_left (fun b x => fold_left (fun b y => g b x y) l2 b) l1 b).
Proof.
  revert a b. induction l1 as [|x l1 IH]; intros a b; simpl; [reflexivity |].
  rewrite (fold_pair (fun a y => f a x y) (fun b y => g b x y)). apply IH.
Qed.

(** A loop that appends one element per round. *)
Lemma fold_append {A X : Type} (h : X -> A) (l : list X) (l0 : list A) :
  fold_left (fun acc x => acc ++ [h x]) l l0 = l0 ++ map h l.
Proof.
  revert l0. induction l as [|x l IH]; intros l0; simpl; [symmetry; apply app_nil_r |].
  rewrite IH, <- app_assoc. reflexivity.
Qed.

Lemma fold_append_nested {A X Y : Type} (h : X -> Y -> A) (l1 : list X) (l2 : list Y)
      (l0 : list A) :
  fold_left (fun acc x => fold_left (fun acc y => acc ++ [h x y]) l2 acc) l1 l0
  = l0 ++ flat_map (fun x => map (h x) l2) l1.
Proof.
  revert l0. induction l1 as [|x l1 IH]; intros l0; simpl; [symmetry; apply app_nil_r |].
  rewrite IH, fold_append, <- app_assoc. reflexivity.
Qed.

Lemma fold_id {A X : Type} (l : list X) (a : A) : fold_left (fun acc _ => acc) l a = a.
Proof. induction l; simpl; auto. Qed.

(** A loop that writes position [e] in round [e]. *)
Lemma write_loop {A : Type} (f : nat -> A) (M : nat) (l : list A) (k : nat) (d : A) :
  (M <= length l)%nat ->
  nth k (fold_left (fun l e => upd l e (f e)) (seq 0 M) l) d
  = if (k <? M)%nat then f k else nth k l d.
Proof.
  induction M as [|M IH]; intros HM; [reflexivity |].
  rewrite seq_S, fold_left_app. simpl fold_left.
  assert (L : length (fold_left (fun l e => upd l e (f e)) (seq 0 M) l) = length l)
    by (apply fold_left_length_inv; intros; apply upd_length).
  destruct (Nat.eq_dec k M) as [-> | Hne].
  - rewrite nth_upd_same by lia. destruct (Nat.ltb_spec M (S M)); [reflexivity | lia].
  - rewrite nth_upd_other by lia. rewrite IH by lia.
    destruct (Nat.ltb_spec k M), (Nat.ltb_spec k (S M)); try lia; reflexivity.
Qed.

Lemma write_loop_length {A : Type} (p : nat -> nat) (f : nat -> A) (xs : list nat) (l : list A) :
  length (fold_left (fun l e => upd l (p e) (f e)) xs l) = length l.
Proof. apply fold_left_length_inv. intros; apply upd_length. Qed.

(** A loop nest that writes position [i * m + j] in round [(i, j)]. *)
Lemma write_nest {A : Type} (f : nat -> nat -> A) (N m : nat) (l : list A) (i j : nat) (d : A) :
  (N * m <= length l)%nat -> (i < N)%nat -> (j < m)%nat ->
  nth (i * m + j)
      (fold_left (fun l i => fold_left (fun l j => upd l (i * m + j) (f i j)) (seq 0 m) l)
                 (seq 0 N) l) d
  = f i j.
Proof.
  intros HL Hi Hj.
  rewrite (fold_nested (fun l i j => upd l (i * m + j) (f i j)) m N l) by lia.
  rewrite (fold_left_ext _ (fun l e => upd l e (f (e / m) (e mod m))%nat)).
  - rewrite write_loop by exact HL.
    destruct (Nat.ltb_spec (i * m + j) (N * m)) as [_ | H]; [| nia].
    rewrite Nat.div_add_l, Nat.div_small, Nat.add_0_r by lia.
    rewrite Nat.add_comm, Nat.Div0.mod_add, Nat.mod_small by lia. reflexivity.
  - intros a e _. f_equal. pose proof (Nat.div_mod_eq e m). lia.
Qed.

(** [local_disp] and [global_index]. *)
Lemma gather_local_spec (indexing : list nat) (disp : list R) :
  let n := length indexing in
  length (fst (gather_local indexing disp)) = (n * 3)%nat /\
  length (snd (gather_local indexing disp)) = (n * 3)%nat /\
  forall j, (j < n * 3)%nat ->
            nth j (fst (gather_local indexing disp)) 0 = cell_disp indexing disp j /\
            nth j (snd (gather_local indexing disp)) 0%nat
            = (3 * nth (j / 3) indexing 0 + j mod 3)%nat.
Proof.
  cbv zeta. unfold gather_local. set (n := length indexing).
  rewrite (fold_pair_nested
             (fun (ld : list R) i d => upd ld (3 * i + d) (nth (3 * nth i indexing 0%nat + d) disp 0))
             (fun (gi : list nat) i d => upd gi (3 * i + d) (3 * nth i indexing 0 + d)%nat)).
  cbn [fst snd].
  rewrite !(fold_nested _ 3 n) by lia.
  split; [rewrite write_loop_length; apply repeat_length |].
  split; [rewrite write_loop_length; apply repeat_length |].
  intros j Hj.
  rewrite (fold_left_ext _ (fun l e => upd l e (cell_disp indexing disp e)))
    by (intros a e _; unfold cell_disp; f_equal; pose proof (Nat.div_mod_eq e 3); lia).
  rewrite (fold_left_ext (fun (t : list nat) e => upd t _ _)
                         (fun l e => upd l e (3 * nth (e / 3) indexing 0 + e mod 3)%nat))
    by (intros a e _; f_equal; pose proof (Nat.div_mod_eq e 3); lia).
  rewrite !write_loop by (rewrite repeat_length; lia).
  destruct (Nat.ltb_spec j (n * 3)); [split; reflexivity | lia].
Qed.

(** The matrix that is applied to the local displacement. *)
Lemma stress_matrix_spec (Wc : list R) (young poisson : R) (totdim : nat) (do_stress : bool) :
  exists M, stress_matrix Wc young poisson totdim do_stress = Ok M /\
            forall i j, (i < 6)%nat -> (j < totdim)%nat ->
                        nth (i * totdim + j) M 0
                        = if do_stress
                          then mmul 6 (of_flat 6 (compute_D_3D young poisson))
                                    (mtrans (of_flat 6 Wc)) i j
                          else mtrans (of_flat 6 Wc) i j.
Proof.
  unfold stress_matrix. destruct do_stress.
  - destruct (matmul_spec (compute_D_3D young poisson) 6 6 false Wc totdim 6 true 1 eq_refl)
      as [M [E [L H]]].
    exists M. split; [exact E |]. intros i j Hi Hj. cbv zeta in H.
    specialize (H i j Hi Hj). unfold of_flat at 1 in H. rewrite H. unfold as_matrix. lra.
  - eexists. split; [reflexivity |]. intros i j Hi Hj.
    rewrite (write_nest (fun i j => nth (j * 6 + i) Wc 0) 6 totdim)
      by (rewrite ?repeat_length; lia).
    reflexivity.
Qed.

(** A row of a buffer into which a loop adds one term per round. *)
Lemma add_row (i : nat) (v : nat -> R) (m : nat) (s : list R) (k : nat) :
  nth k (fold_left (fun s j => add_at s i (v j)) (seq 0 m) s) 0
  = nth k s 0 + if (i =? k)%nat && (k <? length s)%nat then bigsum m v else 0.
Proof.
  rewrite (scatter_nth (fun _ => i) v m s k).
  destruct ((i =? k)%nat && (k <? length s)%nat); [reflexivity |].
  rewrite bigsum_const0. reflexivity.
Qed.

Lemma add_rows (v : nat -> nat -> R) (N m : nat) (s : list R) (k : nat) :
  let s' := fold_left (fun s i => fold_left (fun s j => add_at s i (v i j)) (seq 0 m) s)
                      (seq 0 N) s in
  length s' = length s /\
  nth k s' 0 = nth k s 0 + if (k <? N)%nat && (k <? length s)%nat then bigsum m (v k) else 0.
Proof.
  cbv zeta. induction N as [|N IH]; [simpl; split; [reflexivity | lra] |].
  rewrite seq_S, fold_left_app. simpl fold_left. destruct IH as [L IH].
  split; [rewrite fold_add_at_length; exact L |].
  rewrite add_row, IH, L.
  destruct (Nat.eqb_spec N k) as [-> | Hne].
  - destruct (Nat.ltb_spec k k); [lia |]. destruct (Nat.ltb_spec k (S k)); [| lia].
    cbn [andb]. lra.
  - destruct (Nat.ltb_spec k N), (Nat.ltb_spec k (S N)); try lia; cbn [andb]; lra.
Qed.

Lemma nthZ_of_nat (x : list R) (k : nat) : nthZ x (Z.of_nat k) 0 = nth k x 0.
Proof.
  unfold nthZ, in_range. rewrite Nat2Z.id.
  destruct (Z.leb_spec 0 (Z.of_nat k)); [| lia].
  destruct (Z.ltb_spec (Z.of_nat k) (Z.of_nat (length x))); [reflexivity |].
  cbn [andb]. symmetry. apply nth_overflow. lia.
Qed.

Lemma coo_apply_app (l1 l2 : list triplet) (x : list R) (i : Z) :
  coo_apply (l1 ++ l2) x i = coo_apply l1 x i + coo_apply l2 x i.
Proof.
  unfold coo_apply. induction l1 as [|t l1 IH]; simpl; [lra |].
  destruct (trow t =? i)%Z; rewrite IH; lra.
Qed.

(** One row of triplets applied to a vector. *)
Lemma coo_apply_row (r : Z) (c : nat -> Z) (v : nat -> R) (m : nat) (x : list R) (i : Z) :
  coo_apply (map (fun j => (r, c j, v j)) (seq 0 m)) x i
  = if (r =? i)%Z then bigsum m (fun j => v j * nthZ x (c j) 0) else 0.
Proof.
  induction m as [|m IH]; [simpl; destruct (r =? i)%Z; reflexivity |].
  rewrite seq_S, map_app, coo_apply_app, IH. simpl. unfold trow, tcol, tval. cbn [fst snd].
  destruct (r =? i)%Z; lra.
Qed.

Lemma coo_apply_rows (r : nat -> Z) (c : nat -> Z) (v : nat -> nat -> R) (N m : nat)
      (x : list R) (i : Z) (k : nat) :
  (k < N)%nat -> r k = i -> (forall k', (k' < N)%nat -> r k' = i -> k' = k) ->
  coo_apply (flat_map (fun a => map (fun j => (r a, c j, v a j)) (seq 0 m)) (seq 0 N)) x i
  = bigsum m (fun j => v k j * nthZ x (c j) 0).
Proof.
  intros Hk Ek Uk.
  assert (G : forall N', (N' <= N)%nat ->
                coo_apply (flat_map (fun a => map (fun j => (r a, c j, v a j)) (seq 0 m))
                                    (seq 0 N')) x i
                = if (k <? N')%nat then bigsum m (fun j => v k j * nthZ x (c j) 0) else 0).
  { induction N' as [|N' IH]; intros HN; [reflexivity |].
    rewrite seq_S, flat_map_app, coo_apply_app, IH by lia. simpl flat_map.
    rewrite app_nil_r, coo_apply_row.
    destruct (Z.eqb_spec (r N') i) as [E | E].
    - assert (N' = k) by (apply Uk; [lia | exact E]). subst N'.
      destruct (Nat.ltb_spec k k); [lia |]. destruct (Nat.ltb_spec k (S k)); [lra | lia].
    - assert (N' <> k) by (intros ->; contradiction).
      destruct (Nat.ltb_spec k N'), (Nat.ltb_spec k (S N')); try lia; lra. }
  rewrite G by lia. destruct (Nat.ltb_spec k N); [reflexivity | lia].
Qed.

(** The accumulation loop and the halving that follows it. *)
Lemma accumulate_stress_spec (matrix local_disp : list R) (global_index : list nat)
      (totdim cell : nat) (do_matrix do_stress : bool) (stress : list R)
      (stressmat : list triplet) :
  length stress = 6%nat ->
  exists stress' rows,
    accumulate_stress matrix local_disp global_index totdim cell do_matrix do_stress
                      stress stressmat
    = (stress', stressmat ++ rows) /\
    length stress' = 6%nat /\
    (forall i, (i < 6)%nat ->
               nth i stress' 0
               = halved do_stress i
                        (nth i stress 0
                         + bigsum totdim (fun j => nth (i * totdim + j) matrix 0
                                                   * nth j local_disp 0))) /\
    if do_matrix
    then forall i x, (i < 6)%nat ->
                     coo_apply rows x (Z.of_nat (6 * cell + i))
                     = halved do_stress i
                              (bigsum totdim
                                      (fun j => nth (i * totdim + j) matrix 0
                                                * nth (nth j global_index 0%nat) x 0))
    else rows = [].
Proof.
  intros L6. unfold accumulate_stress.
  rewrite (fold_pair_nested
             (fun (s : list R) i j =>
                add_at s i (nth (i * totdim + j) matrix 0 * nth j local_disp 0))
             (fun (sm : list triplet) i j =>
                if do_matrix
                then sm ++ [(Z.of_nat (6 * cell + i), Z.of_nat (nth j global_index 0%nat),
                             if do_stress && (2 <? i)%nat
                             then nth (i * totdim + j) matrix 0 / 2
                             else nth (i * totdim + j) matrix 0)]
                else sm)).
  set (s1 := fold_left _ (seq 0 6) stress).
  assert (S1 : length s1 = 6%nat /\
               forall k, (k < 6)%nat ->
                         nth k s1 0
                         = nth k stress 0
                           + bigsum totdim (fun j => nth (k * totdim + j) matrix 0
                                                     * nth j local_disp 0)).
  { split.
    - unfold s1.
      rewrite (proj1 (add_rows (fun i j => nth (i * totdim + j) matrix 0 * nth j local_disp 0)
                               6 totdim stress 0)). exact L6.
    - intros k Hk. unfold s1.
      rewrite (proj2 (add_rows (fun i j => nth (i * totdim + j) matrix 0 * nth j local_disp 0)
                               6 totdim stress k)).
      rewrite L6. destruct (Nat.ltb_spec k 6); [reflexivity | lia]. }
  destruct S1 as [L1 V1].
  assert (H2 : forall s2 : list R,
             s2 = (if do_stress
                   then fold_left (fun stress i => upd stress i (nth i stress 0 / 2))
                                  (seq 3 (6 - 3)) s1
                   else s1) ->
             length s2 = 6%nat /\
             forall i, (i < 6)%nat ->
                       nth i s2 0
                       = halved do_stress i
                                (nth i stress 0
                                 + bigsum totdim (fun j => nth (i * totdim + j) matrix 0
                                                           * nth j local_disp 0))).
  { intros s2 ->. split.
    - destruct do_stress; [| exact L1]. rewrite fold_left_length_inv by (intros; apply upd_length). exact L1.
    - intros i Hi. rewrite <- (V1 i Hi). unfold halved.
      destruct do_stress; cbn [andb]; [| reflexivity].
      destruct s1 as [|a0 [|a1 [|a2 [|a3 [|a4 [|a5 [|]]]]]]]; try discriminate L1.
      destruct i as [|[|[|[|[|[|i]]]]]]; [| | | | | | lia]; reflexivity. }
  destruct (H2 _ eq_refl) as [L2 V2].
  destruct do_matrix.
  - eexists. eexists. split; [f_equal |].
    + apply (fold_append_nested
               (fun i j => (Z.of_nat (6 * cell + i), Z.of_nat (nth j global_index 0%nat),
                            if do_stress && (2 <? i)%nat
                            then nth (i * totdim + j) matrix 0 / 2
                            else nth (i * totdim + j) matrix 0))).
    + split; [exact L2 |]. split; [exact V2 |].
      intros i x Hi.
      rewrite (coo_apply_rows (fun a => Z.of_nat (6 * cell + a))
                              (fun j => Z.of_nat (nth j global_index 0%nat))
                              (fun a j => if do_stress && (2 <? a)%nat
                                          then nth (a * totdim + j) matrix 0 / 2
                                          else nth (a * totdim + j) matrix 0)
                              6 totdim x _ i Hi eq_refl) by (intros; lia).
      unfold halved. destruct (do_stress && (2 <? i)%nat).
      * unfold Rdiv. rewrite <- bigsum_scal_r. apply bigsum_ext. intros j Hj.
        rewrite nthZ_of_nat. lra.
      * apply bigsum_ext. intros j Hj. rewrite nthZ_of_nat. reflexivity.
  - exists (if do_stress
            then fold_left (fun stress i => upd stress i (nth i stress 0 / 2)) (seq 3 (6 - 3)) s1
            else s1), [].
    split; [f_equal |].
    + rewrite (fold_left_ext _ (fun sm _ => sm)) by (intros; apply fold_id).
      rewrite fold_id. symmetry. apply app_nil_r.
    + split; [exact L2 |]. split; [exact V2 | reflexivity].
Qed.

(** [calculate_stress_3D_local], once the cell geometry is there. *)
Lemma calculate_stress_3D_local_spec (points : list R) (faces num_face_edges : list nat)
      (num_faces : nat) (young poisson : R) (disp : list R) (cell : nat) (stress : list R)
      (stressmat : list triplet) (do_matrix do_stress : bool) (geo : cell_geometry) :
  let indexing := snd (global_to_local_indexing faces num_face_edges num_faces) in
  let n := length indexing in
  let corners := pick_points 3 points indexing n in
  let faces_loc := map (map_find (fst (global_to_local_indexing faces num_face_edges num_faces)))
                       (firstn (accumulate num_face_edges num_faces) faces) in
  let q := compute_q_3D corners n faces_loc num_face_edges num_faces
                        (volume geo) (outward_normals geo) in
  length stress = 6%nat ->
  compute_cell_geometry corners n faces_loc num_face_edges num_faces = Ok geo ->
  exists Wc stress' rows,
    compute_Wc_3D q = Ok Wc /\
    calculate_stress_3D_local points faces num_face_edges num_faces young poisson disp cell
                              stress stressmat do_matrix do_stress
    = Ok (stress', stressmat ++ rows) /\
    length stress' = 6%nat /\
    let M := if do_stress
             then mmul 6 (of_flat 6 (compute_D_3D young poisson)) (mtrans (of_flat 6 Wc))
             else mtrans (of_flat 6 Wc) in
    (forall i, (i < 6)%nat ->
               nth i stress' 0
               = halved do_stress i
                        (nth i stress 0
                         + bigsum (3 * n) (fun j => M i j * cell_disp indexing disp j))) /\
    if do_matrix
    then forall i x, (i < 6)%nat ->
                     coo_apply rows x (Z.of_nat (6 * cell + i))
                     = halved do_stress i
                              (bigsum (3 * n) (fun j => M i j * cell_disp indexing x j))
    else rows = [].
Proof.
  cbv zeta. unfold calculate_stress_3D_local.
  destruct (global_to_local_indexing faces num_face_edges num_faces) as [reindex indexing].
  cbn [fst snd]. set (n := length indexing).
  set (corners := pick_points 3 points indexing n).
  set (faces_loc := map (map_find reindex) (firstn (accumulate num_face_edges num_faces) faces)).
  intros L6 EG. rewrite EG. cbn [bind].
  assert (Ln : (length corners / 3)%nat = n).
  { unfold corners. rewrite pick_points_length. apply Nat.div_mul. lia. }
  rewrite Ln.
  set (q := compute_q_3D corners n faces_loc num_face_edges num_faces
                         (volume geo) (outward_normals geo)).
  assert (Lq : length q = (n * 3)%nat) by apply compute_q_3D_length.
  destruct (compute_W_3D_ok q n Lq) as [_ [Wc [E2 L2]]].
  rewrite E2. cbn [bind].
  destruct (stress_matrix_spec Wc young poisson (3 * n) do_stress) as [M [EM HM]].
  rewrite EM. cbn [bind].
  destruct (gather_local_spec indexing disp) as (LD & LG & HG). fold n in LD, LG, HG.
  destruct (gather_local indexing disp) as [local_disp global_index]. cbn [fst snd] in *.
  destruct (accumulate_stress_spec M local_disp global_index (3 * n) cell do_matrix do_stress
                                   stress stressmat L6) as (stress' & rows & EA & LS & HS & HR).
  rewrite EA. exists Wc, stress', rows.
  split; [reflexivity |]. split; [reflexivity |]. split; [exact LS |]. split.
  - intros i Hi. rewrite (HS i Hi). f_equal. f_equal. apply bigsum_ext. intros j Hj.
    rewrite (HM i j Hi Hj). destruct (HG j ltac:(lia)) as [-> _].
    destruct do_stress; reflexivity.
  - destruct do_matrix; [| exact HR]. intros i x Hi. rewrite (HR i x Hi). f_equal.
    apply bigsum_ext. intros j Hj. rewrite (HM i j Hi Hj).
    destruct (HG j ltac:(lia)) as [_ ->]. unfold cell_disp. destruct do_stress; reflexivity.
Qed.


(** X13.  [calculate_stress_3D_local], once the geometry of the cell is
    there: it adds to the six entries that [stress] holds on entry the
    product of the matrix [M] with the displacements of the cell, [M] being
    [Wc^T] or, with [do_stress], [D Wc^T]; with [do_stress] the three shear
    entries are then halved, what they held on entry included.  With
    [do_matrix] it appends rows [6 cell .. 6 cell + 5] of a triplet matrix
    whose product with any global vector is that same product (halved in the
    shear rows), so that the matrix applied to [disp] is the stress added;
    without [do_matrix] it appends nothing. *)
Theorem cell_stress (points : list R) (faces num_face_edges : list nat)
        (num_faces : nat) (young poisson : R) (disp : list R) (cell : nat) (stress : list R)
        (stressmat : list triplet) (do_matrix do_stress : bool) (geo : cell_geometry) :
  let indexing := snd (global_to_local_indexing faces num_face_edges num_faces) in
  let n := length indexing in
  let corners := pick_points 3 points indexing n in
  let faces_loc := map (map_find (fst (global_to_local_indexing faces num_face_edges num_faces)))
                       (firstn (accumulate num_face_edges num_faces) faces) in
  let q := compute_q_3D corners n faces_loc num_face_edges num_faces
                        (volume geo) (outward_normals geo) in
  length stress = 6%nat ->
  compute_cell_geometry corners n faces_loc num_face_edges num_faces = Ok geo ->
  exists Wc stress' rows,
    compute_Wc_3D q = Ok Wc /\
    calculate_stress_3D_local points faces num_face_edges num_faces young poisson disp cell
                              stress stressmat do_matrix do_stress
    = Ok (stress', stressmat ++ rows) /\
    length stress' = 6%nat /\
    let M := if do_stress
             then mmul 6 (of_flat 6 (compute_D_3D young poisson)) (mtrans (of_flat 6 Wc))
             else mtrans (of_flat 6 Wc) in
    (forall i, (i < 6)%nat ->
               nth i stress' 0
               = halved do_stress i
                        (nth i stress 0
                         + bigsum (3 * n) (fun j => M i j * cell_disp indexing disp j))) /\
    if do_matrix
    then forall i, (i < 6)%nat ->
                   (forall x, coo_apply rows x (Z.of_nat (6 * cell + i))
                              = halved do_stress i
                                       (bigsum (3 * n) (fun j => M i j * cell_disp indexing x j)))
                   /\ nth i stress' 0
                      = halved do_stress i (nth i stress 0)
                        + coo_apply rows disp (Z.of_nat (6 * cell + i))
    else rows = [].
Proof.
  cbv zeta. intros L6 EG.
  destruct (calculate_stress_3D_local_spec points faces num_face_edges num_faces young poisson
              disp cell stress stressmat do_matrix do_stress geo L6 EG)
    as (Wc & stress' & rows & EW & EC & LS & HS & HR).
  exists Wc, stress', rows. cbv zeta in HS, HR.
  split; [exact EW |]. split; [exact EC |]. split; [exact LS |]. split; [exact HS |].
  destruct do_matrix; [| exact HR].
  intros i Hi. split; [intros x; apply HR, Hi |].
  rewrite (HS i Hi), (HR i disp Hi). unfold halved.
  destruct (do_stress && (2 <? i)%nat); lra.
Qed.


Lemma cube_indexing :
  global_to_local_indexing unit_cube_faces unit_cube_face_edges 6
  = ([(0, 0); (1, 1); (2, 2); (3, 3); (4, 4); (5, 5); (6, 6); (7, 7)]%nat,
     [0; 1; 2; 3; 4; 5; 6; 7]%nat).
Proof. reflexivity. Qed.

(** ** The force of a potential gradient *)

(** The global dof of local dof [e] of a cell. *)
Lemma coo_apply_column (p : nat -> nat) (cell : nat) (w : nat -> R) (m : nat) (x : list R)
      (j : nat) :
  coo_apply (map (fun e => (Z.of_nat (p e), Z.of_nat cell, w e)) (seq 0 m)) x (Z.of_nat j)
  = bigsum m (fun e => if (p e =? j)%nat then w e * nth cell x 0 else 0).
Proof.
  induction m as [|m IH]; [reflexivity |].
  rewrite seq_S, map_app, coo_apply_app, IH. simpl. unfold trow, tcol, tval. cbn [fst snd].
  rewrite nthZ_of_nat.
  destruct (Nat.eqb_spec (p m) j) as [E | E].
  - rewrite E, Z.eqb_refl. lra.
  - destruct (Z.eqb_spec (Z.of_nat (p m)) (Z.of_nat j)); [lia | lra].
Qed.

Lemma cell_stress_witness :
  exists Wc stress' rows,
    compute_Wc_3D (cube_of_q 2 8) = Ok Wc /\
    calculate_stress_3D_local cube2 unit_cube_faces unit_cube_face_edges 6 1 0.3
                              cube2 0 [0; 0; 0; 0; 0; 0] [] true true
    = Ok (stress', [] ++ rows) /\
    length stress' = 6%nat /\
    let M := mmul 6 (of_flat 6 (compute_D_3D 1 0.3)) (mtrans (of_flat 6 Wc)) in
    (forall i, (i < 6)%nat ->
               nth i stress' 0
               = halved true i
                        (nth i [0; 0; 0; 0; 0; 0] 0
                         + bigsum (3 * 8)
                                  (fun j => M i j * cell_disp [0; 1; 2; 3; 4; 5; 6; 7]%nat
                                                              cube2 j))) /\
    forall i, (i < 6)%nat ->
              (forall x, coo_apply rows x (Z.of_nat (6 * 0 + i))
                         = halved true i
                                  (bigsum (3 * 8)
                                          (fun j => M i j * cell_disp [0; 1; 2; 3; 4; 5; 6; 7]%nat
                                                                      x j)))
              /\ nth i stress' 0
                 = halved true i (nth i [0; 0; 0; 0; 0; 0] 0)
                   + coo_apply rows cube2 (Z.of_nat (6 * 0 + i)).
Proof.
  destruct cube2_geometry as (geo & EG & En & _ & Ev & _).
  pose proof (cell_stress cube2 unit_cube_faces unit_cube_face_edges 6 1 0.3
                          cube2 0 [0; 0; 0; 0; 0; 0] [] true true geo) as H.
  rewrite cube_indexing in H. cbv zeta in H. cbn [fst snd length] in H.
  change (pick_points 3 cube2 [0; 1; 2; 3; 4; 5; 6; 7]%nat 8) with cube2 in H.
  change (map _ (firstn (accumulate unit_cube_face_edges 6) unit_cube_faces))
    with unit_cube_faces in H.
  rewrite En, Ev, cube2_q_vector in H.
  exact (H eq_refl EG).
Defined.



(** One round of the cell loop of [potential_gradient_force_3D]. *)
Lemma potential_gradient_cell_spec (points : list R)
      (num_cell_faces num_face_corners face_corners : list nat) (field : list R)
      (get_matrix : bool) (fcs cfs : nat) (fgrad : list R) (div : list triplet) (cell : nat) :
  let faces := skipn fcs face_corners in
  let sizes := skipn cfs num_face_corners in
  let nf := nth cell num_cell_faces 0%nat in
  let indexing := snd (global_to_local_indexing faces sizes nf) in
  let n := length indexing in
  let corners := local_corners points faces sizes nf in
  let faces_loc := local_faces faces sizes nf in
  let p e := (3 * nth (e / 3) indexing 0 + e mod 3)%nat in
  potential_gradient_cell points num_cell_faces num_face_corners face_corners field get_matrix
                          (fcs, cfs, fgrad, div) cell
  = match compute_cell_geometry corners n faces_loc sizes nf with
    | Throw e => Throw e
    | Ok geo =>
      let qv := compute_q_3D corners n faces_loc sizes nf 1 (outward_normals geo) in
      Ok ((fcs + accumulate sizes nf)%nat, (cfs + nf)%nat,
          fold_left (fun t e => add_at t (p e) (2 * nth cell field 0 * nth e qv 0))
                    (seq 0 (n * 3)) fgrad,
          div ++ (if get_matrix
                  then map (fun e => (Z.of_nat (p e), Z.of_nat cell, 2 * nth e qv 0))
                           (seq 0 (n * 3))
                  else []))
    end.
Proof.
  cbv zeta. unfold potential_gradient_cell, local_corners, local_faces, used_corners.
  destruct (global_to_local_indexing (skipn fcs face_corners) (skipn cfs num_face_corners)
                                     (nth cell num_cell_faces 0%nat)) as [reindex indexing].
  cbn [fst snd]. set (n := length indexing).
  destruct (compute_cell_geometry _ n _ _ _) as [geo | ex]; cbn [bind]; [| reflexivity].
  set (qv := compute_q_3D _ n _ _ _ 1 (outward_normals geo)).
  rewrite (fold_pair_nested
             (fun (fg : list R) c d =>
                add_at fg (3 * nth c indexing 0%nat + d) (2 * nth cell field 0 * nth (3 * c + d) qv 0))
             (fun (dv : list triplet) c d =>
                if get_matrix
                then dv ++ [(Z.of_nat (3 * nth c indexing 0%nat + d), Z.of_nat cell,
                             2 * nth (3 * c + d) qv 0)]
                else dv)).
  rewrite !(fold_nested _ 3 n) by lia.
  f_equal. f_equal; [f_equal |].
  - apply fold_left_ext. intros t e _.
    replace (3 * (e / 3) + e mod 3)%nat with e by (pose proof (Nat.div_mod_eq e 3); lia).
    reflexivity.
  - destruct get_matrix.
    + rewrite (fold_append (fun e => (Z.of_nat (3 * nth (e / 3) indexing 0%nat + e mod 3),
                                      Z.of_nat cell,
                                      2 * nth (3 * (e / 3) + e mod 3) qv 0))).
      apply (f_equal (app div)). apply map_ext. intros e.
      replace (3 * (e / 3) + e mod 3)%nat with e by (pose proof (Nat.div_mod_eq e 3); lia).
      reflexivity.
    + rewrite fold_id. symmetry. apply app_nil_r.
Qed.

(** The sum of one component over the nodes as a pairing of the buffer. *)
Lemma component_sum (x : list R) (N a : nat) :
  (a < 3)%nat ->
  bigsum N (fun i => nth (3 * i + a) x 0)
  = bigsum (N * 3) (fun k => nth k x 0 * if (k mod 3 =? a)%nat then 1 else 0).
Proof.
  intros Ha. rewrite bigsum_nested. apply bigsum_ext. intros i _. cbn [bigsum].
  replace (i * 3 + 0)%nat with (0 + i * 3)%nat by lia.
  replace (i * 3 + 1)%nat with (1 + i * 3)%nat by lia.
  replace (i * 3 + 2)%nat with (2 + i * 3)%nat by lia.
  rewrite !Nat.Div0.mod_add.
  destruct a as [|[|[|a]]]; [| | | lia]; cbn [Nat.modulo Nat.divmod fst snd Nat.sub Nat.eqb];
    [replace (3 * i + 0)%nat with (0 + i * 3)%nat by lia
    |replace (3 * i + 1)%nat with (1 + i * 3)%nat by lia
    |replace (3 * i + 2)%nat with (2 + i * 3)%nat by lia]; simpl; lra.
Qed.

(** The pairing after a loop that adds [v e] at position [p e]. *)
Lemma pair_scatter (p : nat -> nat) (v g : nat -> R) (M : nat) (t : list R) :
  (forall e, (e < M)%nat -> (p e < length t)%nat) ->
  bigsum (length t)
         (fun k => nth k (fold_left (fun t e => add_at t (p e) (v e)) (seq 0 M) t) 0 * g k)
  = bigsum (length t) (fun k => nth k t 0 * g k) + bigsum M (fun e => v e * g (p e)).
Proof.
  intros Hp.
  apply (pair_fold (length t) (fun t e => add_at t (p e) (v e))
                   (fun e => v e * g (p e)) g M t eq_refl).
  intros w e He Lw. split; [rewrite add_at_length; exact Lw |].
  rewrite <- Lw. apply pair_add_at. rewrite Lw. apply Hp, He.
Qed.

Lemma firstn_plus {A : Type} (s a : nat) (l : list A) :
  firstn (s + a) l = firstn s l ++ firstn a (skipn s l).
Proof.
  revert l. induction s as [|s IH]; intros l; [reflexivity |].
  destruct l as [|x l]; [simpl; rewrite firstn_nil; reflexivity |].
  simpl. rewrite IH. reflexivity.
Qed.

Lemma In_firstn_le {A : Type} (x : A) (a b : nat) (l : list A) :
  (a <= b)%nat -> In x (firstn a l) -> In x (firstn b l).
Proof.
  intros Hab H. replace b with (a + (b - a))%nat by lia.
  rewrite firstn_plus. apply in_or_app. left; exact H.
Qed.

Lemma In_firstn_skipn {A : Type} (x : A) (s a : nat) (l : list A) :
  In x (firstn a (skipn s l)) -> In x (firstn (s + a) l).
Proof. intros H. rewrite firstn_plus. apply in_or_app. right; exact H. Qed.

Lemma list_max_bound (l : list nat) (x : nat) : In x l -> (x <= list_max l)%nat.
Proof.
  intros H. pose proof (list_max_le l (list_max l)) as [F _].
  specialize (F (Nat.le_refl _)). rewrite Forall_forall in F. exact (F x H).
Qed.

Lemma cell_first_corner_S (ncf nfc : list nat) (k : nat) :
  cell_first_corner ncf nfc (S k)
  = (cell_first_corner ncf nfc k
     + accumulate (skipn (cell_first_face ncf k) nfc) (nth k ncf 0))%nat.
Proof.
  unfold cell_first_corner, cell_first_face. rewrite accumulate_S, accumulate_skipn.
  reflexivity.
Qed.

(** The nodal sum of one component of the q vector of a cell whose faces
    are balanced. *)
Lemma balanced_q_sum (points : list R) (faces sizes : list nat) (nf : nat) (normals : list R)
      (vol : R) (a : nat) :
  let n := length (snd (global_to_local_indexing faces sizes nf)) in
  let corners := local_corners points faces sizes nf in
  let faces_loc := local_faces faces sizes nf in
  (a < 3)%nat ->
  balanced_faces corners faces_loc sizes nf normals ->
  bigsum n (fun c => nth (3 * c + a) (compute_q_3D corners n faces_loc sizes nf vol normals) 0)
  = 0.
Proof.
  cbv zeta. intros Ha HB.
  set (n := length (snd (global_to_local_indexing faces sizes nf))).
  destruct (Nat.eq_dec n 0) as [-> | Hn]; [reflexivity |].
  rewrite (bigsum_ext n _
             (fun i => nth (3 * i + a)
                           (compute_q_3D (local_corners points faces sizes nf) n
                                         (local_faces faces sizes nf) sizes nf vol normals) 0 * 1))
    by (intros; lra).
  rewrite (q_3D_weighted _ n _ sizes nf vol normals a (fun _ => 1)); [| | exact Ha].
  - rewrite (bigsum_ext nf _
               (fun f => nth (3 * f + a) normals 0
                         * face_integral (cell_face (local_corners points faces sizes nf)
                                                    (local_faces faces sizes nf) sizes f)
                                         (nth f sizes 0%nat) 3 None)).
    + rewrite (HB a Ha). lra.
    + intros f _. f_equal. apply face_integral_ones.
  - intros f e _ _. unfold local_faces.
    destruct (global_to_local_indexing_spec faces sizes nf) as (_ & _ & _ & HI).
    cbv zeta in HI. fold n in HI.
    set (k := (accumulate sizes f + e)%nat).
    destruct (Nat.lt_ge_cases k (length (used_corners faces sizes nf))) as [Hk | Hk].
    + rewrite (nth_indep _ 0%nat
                         (map_find (fst (global_to_local_indexing faces sizes nf)) 0%nat))
        by (rewrite length_map; exact Hk).
      rewrite map_nth. apply HI. apply nth_In. exact Hk.
    + rewrite nth_overflow by (rewrite length_map; exact Hk). lia.
Qed.

(** The cell loop of [potential_gradient_force_3D], after [k] cells. *)
Lemma potential_gradient_loop (points : list R)
      (num_cell_faces num_face_corners face_corners : list nat) (field : list R)
      (get_matrix : bool) (N : nat) (fgrad0 : list R) (div0 : list triplet) (k : nat) :
  let run k :=
    fold_left
      (fun (acc : res (nat * nat * list R * list triplet)) cell =>
         st <- acc ;;
         potential_gradient_cell points num_cell_faces num_face_corners face_corners field
                                 get_matrix st cell)
      (seq 0 k) (Ok (0%nat, 0%nat, fgrad0, div0)) in
  length fgrad0 = (N * 3)%nat ->
  (forall x, In x (firstn (cell_first_corner num_cell_faces num_face_corners k) face_corners) ->
             (x < N)%nat) ->
  forall fcs cfs fgrad div,
    run k = Ok (fcs, cfs, fgrad, div) ->
    fcs = cell_first_corner num_cell_faces num_face_corners k /\
    cfs = cell_first_face num_cell_faces k /\
    length fgrad = (N * 3)%nat /\
    (exists rows,
        div = div0 ++ rows /\
        if get_matrix
        then forall j, (j < N * 3)%nat ->
                       nth j fgrad 0 = nth j fgrad0 0 + coo_apply rows field (Z.of_nat j)
        else rows = []) /\
    ((forall c, (c < k)%nat ->
                balanced_cell points num_cell_faces num_face_corners face_corners c) ->
     forall a, (a < 3)%nat ->
               bigsum N (fun i => nth (3 * i + a) fgrad 0)
               = bigsum N (fun i => nth (3 * i + a) fgrad0 0)).
Proof.
  intros run L0. induction k as [|k IH]; intros HB fcs cfs fgrad div E.
  - unfold run in E. simpl in E. injection E as <- <- <- <-.
    split; [reflexivity |]. split; [reflexivity |]. split; [exact L0 |]. split.
    + exists []. split; [symmetry; apply app_nil_r |].
      destruct get_matrix; [| reflexivity]. intros j _. unfold coo_apply. simpl. lra.
    + reflexivity.
  - assert (Step : run (S k)
                   = (st <- run k ;;
                      potential_gradient_cell points num_cell_faces num_face_corners
                                              face_corners field get_matrix st k)).
    { unfold run. rewrite seq_S, fold_left_app. reflexivity. }
    rewrite Step in E. clear Step.
    destruct (run k) as [[[[fcs1 cfs1] fgrad1] div1] | ex]; [| discriminate].
    cbn [bind] in E.
    assert (HB1 : forall x,
               In x (firstn (cell_first_corner num_cell_faces num_face_corners k) face_corners) ->
               (x < N)%nat).
    { intros x Hx. apply HB.
      apply (In_firstn_le x (cell_first_corner num_cell_faces num_face_corners k)
                          (cell_first_corner num_cell_faces num_face_corners (S k)));
        [rewrite cell_first_corner_S; lia | exact Hx]. }
    destruct (IH HB1 _ _ _ _ eq_refl) as (-> & -> & L1 & (rows & -> & HR) & HS).
    rewrite potential_gradient_cell_spec in E. cbv zeta in E.
    fold (mesh_faces num_cell_faces num_face_corners face_corners k) in E, HB.
    fold (mesh_face_sizes num_cell_faces num_face_corners k) in E.
    set (faces := mesh_faces num_cell_faces num_face_corners face_corners k) in *.
    set (sizes := mesh_face_sizes num_cell_faces num_face_corners k) in *.
    set (nf := nth k num_cell_faces 0%nat) in *.
    set (indexing := snd (global_to_local_indexing faces sizes nf)) in *.
    set (n := length indexing) in *.
    destruct (compute_cell_geometry (local_corners points faces sizes nf) n
                                    (local_faces faces sizes nf) sizes nf)
      as [geo | ex] eqn:EG; [| discriminate].
    set (qv := compute_q_3D (local_corners points faces sizes nf) n (local_faces faces sizes nf)
                            sizes nf 1 (outward_normals geo)) in *.
    set (p := fun e => (3 * nth (e / 3) indexing 0 + e mod 3)%nat) in *.
    injection E as <- <- <- <-.
    split; [rewrite cell_first_corner_S; reflexivity |].
    split; [unfold cell_first_face; rewrite accumulate_S; reflexivity |].
    split; [rewrite fold_add_at_length; exact L1 |]. split.
    + eexists. split; [rewrite <- app_assoc; reflexivity |].
      destruct get_matrix; [| rewrite HR; reflexivity].
      intros j Hj. rewrite coo_apply_app, <- Rplus_assoc, <- (HR j Hj).
      rewrite scatter_nth, coo_apply_column. f_equal. apply bigsum_ext. intros e _.
      rewrite L1. destruct (Nat.ltb_spec j (N * 3)); [| lia]. rewrite andb_true_r.
      match goal with |- (if ?c then _ else _) = _ => destruct c; lra end.
    + intros Hbal a Ha. rewrite <- (HS (fun c Hc => Hbal c (Nat.lt_lt_succ_r _ _ Hc)) a Ha).
      rewrite !(component_sum _ N a Ha). rewrite <- L1.
      rewrite pair_scatter.
      * match goal with |- _ + ?X = _ => assert (Z0 : X = 0) end.
        { rewrite (bigsum_ext _ _
                     (fun e => 2 * nth k field 0
                               * (nth e qv 0 * if (e mod 3 =? a)%nat then 1 else 0))).
          - rewrite bigsum_scal, <- (component_sum qv n a Ha).
            unfold qv, n, indexing.
            rewrite (balanced_q_sum points faces sizes nf (outward_normals geo) 1 a Ha);
              [lra |].
            exact (Hbal k (Nat.lt_succ_diag_r k) geo EG).
          - intros e _.
            assert (Ep : (p e mod 3 = e mod 3)%nat).
            { unfold p.
              replace (3 * nth (e / 3) indexing 0 + e mod 3)%nat
                with (e mod 3 + nth (e / 3) indexing 0%nat * 3)%nat by lia.
              rewrite Nat.Div0.mod_add, Nat.Div0.mod_mod. reflexivity. }
            match goal with
            | |- _ * (if (?X mod 3 =? a)%nat then _ else _) = _ => change X with (p e)
            end.
            rewrite Ep. lra. }
        rewrite Z0. lra.
      * intros e He. rewrite L1.
        assert (Hn : (nth (e / 3) indexing 0 < N)%nat).
        { apply HB. rewrite cell_first_corner_S. apply In_firstn_skipn.
          destruct (global_to_local_indexing_spec faces sizes nf) as (_ & HI & _).
          cbv zeta in HI. apply HI. apply nth_In.
          fold indexing. fold n. apply Nat.Div0.div_lt_upper_bound. lia. }
        assert (Hp : (p e < N * 3)%nat)
          by (unfold p; pose proof (Nat.mod_upper_bound e 3 ltac:(lia)); lia).
        exact Hp.
Qed.

Lemma potential_gradient_force_3D_spec (points : list R) (num_cells : nat)
      (num_cell_faces num_face_corners face_corners : list nat) (field : list R)
      (div : list triplet) (get_matrix : bool) (fgrad : list R) (div' : list triplet) :
  potential_gradient_force_3D points num_cells num_cell_faces num_face_corners face_corners
                              field div get_matrix = Ok (fgrad, div') ->
  let N := num_points_of face_corners
                         (cell_first_corner num_cell_faces num_face_corners num_cells) in
  length fgrad = (3 * N)%nat /\
  (exists rows,
      div' = div ++ rows /\
      if get_matrix
      then forall j, (j < 3 * N)%nat -> nth j fgrad 0 = coo_apply rows field (Z.of_nat j)
      else rows = []) /\
  ((forall c, (c < num_cells)%nat ->
              balanced_cell points num_cell_faces num_face_corners face_corners c) ->
   forall a, (a < 3)%nat -> bigsum N (fun i => nth (3 * i + a) fgrad 0) = 0).
Proof.
  unfold potential_gradient_force_3D. intros E. cbv zeta.
  fold (cell_first_face num_cell_faces num_cells) in E.
  fold (cell_first_corner num_cell_faces num_face_corners num_cells) in E.
  fold (num_points_of face_corners (cell_first_corner num_cell_faces num_face_corners num_cells))
    in E.
  set (N := num_points_of face_corners
                          (cell_first_corner num_cell_faces num_face_corners num_cells)) in *.
  match type of E with
  | (bind ?r _ = _) => destruct r as [[[[fcs cfs] fg] dv] | ex] eqn:ER; [| discriminate]
  end.
  cbn [bind] in E. injection E as <- <-.
  assert (L0 : length (repeat 0 (3 * N)) = (N * 3)%nat) by (rewrite repeat_length; lia).
  assert (HB : forall x,
             In x (firstn (cell_first_corner num_cell_faces num_face_corners num_cells)
                          face_corners) -> (x < N)%nat).
  { intros x Hx. unfold N, num_points_of. apply list_max_bound in Hx. lia. }
  destruct (potential_gradient_loop points num_cell_faces num_face_corners face_corners field
              get_matrix N (repeat 0 (3 * N)) div num_cells L0 HB _ _ _ _ ER)
    as (_ & _ & L & (rows & ED & HR) & HS).
  split; [lia |]. split.
  - exists rows. split; [exact ED |]. destruct get_matrix; [| exact HR].
    intros j Hj. rewrite HR by lia.
    rewrite nth_repeat. lra.
  - intros Hbal a Ha. rewrite (HS Hbal a Ha). apply bigsum_zero. intros i Hi.
    apply nth_repeat.
Qed.

Lemma cube2_gradient (field : list R) (div : list triplet) (get_matrix : bool) :
  exists fgrad div',
    potential_gradient_force_3D cube2 1 [6%nat] unit_cube_face_edges unit_cube_faces
                                field div get_matrix = Ok (fgrad, div').
Proof.
  unfold potential_gradient_force_3D. cbn [seq fold_left bind].
  rewrite potential_gradient_cell_spec. cbv zeta.
  change (compute_cell_geometry _ _ _ _ _)
    with (compute_cell_geometry cube2 8 unit_cube_faces unit_cube_face_edges 6).
  destruct cube2_geometry as (geo & EG & _). rewrite EG. cbn [bind].
  eexists. eexists. reflexivity.
Qed.

Lemma cube2_balanced :
  balanced_cell cube2 [6%nat] unit_cube_face_edges unit_cube_faces 0.
Proof.
  unfold balanced_cell. cbv zeta. intros geo EG.
  change (compute_cell_geometry cube2 8 unit_cube_faces unit_cube_face_edges 6 = Ok geo)
    in EG.
  destruct cube2_geometry as (geo' & EG' & En & _).
  rewrite EG in EG'. injection EG' as <-. rewrite En.
  destruct cube2_closed as (_ & _ & _ & H0 & _).
  exact H0.
Qed.

(** X15.  When [potential_gradient_force_3D] returns, [fgrad] has three
    entries for each node up to the largest corner number, whatever it held
    on entry, and [div] is what it was on entry followed by new triplets:
    none without [get_matrix]; with [get_matrix], those of a matrix with one
    column per cell whose product with [field] is [fgrad]. *)
Theorem potential_gradient_matrix (points : list R) (num_cells : nat)
        (num_cell_faces num_face_corners face_corners : list nat) (field : list R)
        (div : list triplet) (get_matrix : bool) (fgrad : list R) (div' : list triplet) :
  potential_gradient_force_3D points num_cells num_cell_faces num_face_corners face_corners
                              field div get_matrix = Ok (fgrad, div') ->
  let N := num_points_of face_corners
                         (cell_first_corner num_cell_faces num_face_corners num_cells) in
  length fgrad = (3 * N)%nat /\
  exists rows,
    div' = div ++ rows /\
    if get_matrix
    then forall j, (j < 3 * N)%nat -> nth j fgrad 0 = coo_apply rows field (Z.of_nat j)
    else rows = [].
Proof.
  intros E. destruct (potential_gradient_force_3D_spec _ _ _ _ _ _ _ _ _ _ E) as (L & HR & _).
  split; [exact L | exact HR].
Qed.

(** X16.  When [potential_gradient_force_3D] returns and the faces of every
    cell are balanced (their areas times the normals of the cell geometry
    add up to zero, as for a closed polyhedron), the forces it computes add
    up to zero over the nodes, in each direction and for every field. *)
Theorem potential_gradient_balance (points : list R) (num_cells : nat)
        (num_cell_faces num_face_corners face_corners : list nat) (field : list R)
        (div : list triplet) (get_matrix : bool) (fgrad : list R) (div' : list triplet) :
  potential_gradient_force_3D points num_cells num_cell_faces num_face_corners face_corners
                              field div get_matrix = Ok (fgrad, div') ->
  (forall c, (c < num_cells)%nat ->
             balanced_cell points num_cell_faces num_face_corners face_corners c) ->
  let N := num_points_of face_corners
                         (cell_first_corner num_cell_faces num_face_corners num_cells) in
  forall a, (a < 3)%nat -> bigsum N (fun i => nth (3 * i + a) fgrad 0) = 0.
Proof.
  intros E Hbal.
  destruct (potential_gradient_force_3D_spec _ _ _ _ _ _ _ _ _ _ E) as (_ & _ & HS).
  exact (HS Hbal).
Qed.

Lemma potential_gradient_matrix_witness :
  exists fgrad div',
    potential_gradient_force_3D cube2 1 [6%nat] unit_cube_face_edges unit_cube_faces
                                [7] [] true = Ok (fgrad, div') /\
    length fgrad = 24%nat /\
    exists rows,
      div' = [] ++ rows /\
      forall j, (j < 24)%nat -> nth j fgrad 0 = coo_apply rows [7] (Z.of_nat j).
Proof.
  destruct (cube2_gradient [7] [] true) as (fgrad & div' & E).
  exists fgrad, div'. split; [exact E |].
  exact (potential_gradient_matrix cube2 1 [6%nat] unit_cube_face_edges unit_cube_faces
                                   [7] [] true fgrad div' E).
Defined.

Lemma potential_gradient_balance_witness :
  exists fgrad div',
    potential_gradient_force_3D cube2 1 [6%nat] unit_cube_face_edges unit_cube_faces
                                [7] [] false = Ok (fgrad, div') /\
    forall a, (a < 3)%nat -> bigsum 8 (fun i => nth (3 * i + a) fgrad 0) = 0.
Proof.
  destruct (cube2_gradient [7] [] false) as (fgrad & div' & E).
  exists fgrad, div'. split; [exact E |].
  apply (potential_gradient_balance cube2 1 [6%nat] unit_cube_face_edges unit_cube_faces
                                    [7] [] false fgrad div' E).
  intros c Hc. assert (c = 0%nat) by lia. subst c. exact cube2_balanced.
Defined.

(** ** The loads add up *)

Lemma bigsum_cyclic_back (n : nat) (f : nat -> R) :
  bigsum n (fun k => f ((k + n - 1) mod n)%nat) = bigsum n f.
Proof.
  rewrite <- (bigsum_cyclic n (fun i => f ((i + n - 1) mod n)%nat)).
  apply bigsum_ext. intros i Hi. f_equal.
  symmetry. apply cyclic_pred; [exact Hi | apply Nat.mod_upper_bound; lia | reflexivity].
Qed.

(** Every triangle of a tessellation is credited to one corner: the
    triangles [2 k] and the triangles before them are all of them. *)
Lemma credited_once (n : nat) (a : nat -> R) :
  bigsum n (fun k => a (2 * k)%nat + a (triangle_before k n))
  = bigsum n (fun k => a (2 * k)%nat + a (2 * k + 1)%nat).
Proof.
  rewrite !bigsum_plus. f_equal.
  rewrite (bigsum_ext n _ (fun k => a (2 * ((k + n - 1) mod n) + 1)%nat))
    by (intros k Hk; rewrite triangle_before_spec by exact Hk; reflexivity).
  apply (bigsum_cyclic_back n (fun j => a (2 * j + 1)%nat)).
Qed.

Lemma face_area_sum (Dim : nat) (corners : list R) (n : nat) :
  face_integral_impl Dim corners n None
  = bigsum n (fun k => tri_area_of Dim (nth (2 * k) (face_triangles Dim corners n) [])
                       + tri_area_of Dim (nth (2 * k + 1) (face_triangles Dim corners n) [])).
Proof.
  rewrite face_integral_impl_spec. cbv zeta. apply bigsum_ext. intros; lra.
Qed.

(** X17.  [compute_bodyforce_2D] distributes the whole force: the values it
    adds to the [n] nodes of the cell add up, in each direction, to the body
    force times the area of the cell as [element_volume_2D] computes it. *)
Theorem bodyforce_2D_total (points : list R) (cell_corners : list nat) (n : nat)
        (bforce target : list R) (d : nat) :
  (d < 2)%nat -> (2 * n <= length target)%nat ->
  bigsum n (fun k => nth (2 * k + d)
                         (compute_bodyforce_2D points cell_corners n bforce target) 0)
  = bigsum n (fun k => nth (2 * k + d) target 0)
    + nth d bforce 0 * element_volume_2D (pick_points 2 points cell_corners n) n.
Proof.
  intros Hd HL.
  rewrite (bigsum_ext n _
             (fun k => nth (2 * k + d) target 0
                       + nth d bforce 0
                         * (tri_area_of 2 (nth (2 * k)
                                               (face_triangles 2 (pick_points 2 points cell_corners n) n) [])
                            + tri_area_of 2 (nth (triangle_before k n)
                                                 (face_triangles 2 (pick_points 2 points cell_corners n) n) []))))
    by (intros k Hk; apply compute_bodyforce_2D_spec; assumption).
  rewrite bigsum_plus, bigsum_scal. f_equal. f_equal.
  rewrite (credited_once n (fun t => tri_area_of 2 (nth t (face_triangles 2 (pick_points 2 points cell_corners n) n) []))).
  unfold element_volume_2D, face_integral. cbn [Nat.eqb]. symmetry. apply face_area_sum.
Qed.

Lemma bodyforce_2D_total_witness :
  bigsum 4 (fun k => nth (2 * k + 1)
                         (compute_bodyforce_2D unit_square [0; 1; 2; 3]%nat 4 [0; -10]
                                               (repeat 0 8)) 0)
  = bigsum 4 (fun k => nth (2 * k + 1) (repeat 0 8) 0)
    + nth 1 [0; -10] 0 * element_volume_2D (pick_points 2 unit_square [0; 1; 2; 3]%nat 4) 4.
Proof.
  apply (bodyforce_2D_total unit_square [0; 1; 2; 3]%nat 4 [0; -10] (repeat 0 8) 1).
  - lia.
  - simpl. lia.
Defined.

Lemma component_of (x d' d : nat) :
  (d' < 3)%nat ->
  (if ((3 * x + d') mod 3 =? d)%nat then 1 else 0) = (if (d' =? d)%nat then 1 else 0).
Proof.
  intros H. replace (3 * x + d')%nat with (d' + x * 3)%nat by lia.
  rewrite Nat.Div0.mod_add, Nat.mod_small by exact H. reflexivity.
Qed.

Lemma bigsum_pick3 (d : nat) (f : nat -> R) :
  (d < 3)%nat -> bigsum 3 (fun d' => f d' * if (d' =? d)%nat then 1 else 0) = f d.
Proof.
  intros H. cbn [bigsum]. destruct d as [|[|[|d]]]; [| | | lia]; cbn [Nat.eqb]; lra.
Qed.

Lemma bigsum_pairs (n : nat) (a : nat -> R) :
  bigsum (2 * n) a = bigsum n (fun k => a (2 * k)%nat + a (2 * k + 1)%nat).
Proof.
  replace (2 * n)%nat with (n * 2)%nat by lia. rewrite bigsum_nested.
  apply bigsum_ext. intros k _. cbn [bigsum].
  replace (k * 2 + 0)%nat with (2 * k)%nat by lia.
  replace (k * 2 + 1)%nat with (2 * k + 1)%nat by lia. lra.
Qed.



(** What one Neumann face adds, in [compute_applied_forces_3D]. *)
Lemma applied_forces_3D_face_total (points : list R) (face_corners : list nat) (nfc ix_start : nat)
      (force : nat -> R) (b : list R) (d : nat) :
  (d < 3)%nat ->
  (forall c, (c < nfc)%nat -> (3 * nth (ix_start + c) face_corners 0 + 2 < length b)%nat) ->
  let g k := if (k mod 3 =? d)%nat then 1 else 0 in
  let coords := pick_points 3 points (skipn ix_start face_corners) nfc in
  let tris := fst (tessellate_face 3 coords nfc false) in
  bigsum (length b)
         (fun k => nth k (fold_left
                            (fun b c =>
                               fold_left
                                 (fun b d =>
                                    add_at b (3 * nth (ix_start + corner_of_triangle c nfc)
                                                      face_corners 0%nat + d)
                                           (force d * tri_area_of 3 (nth c tris [])))
                                 (seq 0 3) b)
                            (seq 0 (2 * nfc)) b) 0 * g k)
  = bigsum (length b) (fun k => nth k b 0 * g k)
    + force d * face_integral coords nfc 3 None.
Proof.
  intros Hd Hin g coords tris.
  rewrite (fold_nested
             (fun b c d => add_at b (3 * nth (ix_start + corner_of_triangle c nfc)
                                               face_corners 0%nat + d)
                                  (force d * tri_area_of 3 (nth c tris [])))
             3 (2 * nfc) b) by lia.
  rewrite (pair_scatter
             (fun e => (3 * nth (ix_start + corner_of_triangle (e / 3) nfc) face_corners 0
                        + e mod 3)%nat)
             (fun e => force (e mod 3) * tri_area_of 3 (nth (e / 3) tris [])) g (2 * nfc * 3) b).
  2:{ intros e He. assert (Hc : (e / 3 < 2 * nfc)%nat) by (apply Nat.Div0.div_lt_upper_bound; lia).
      assert (Hk : (corner_of_triangle (e / 3) nfc < nfc)%nat)
        by (unfold corner_of_triangle; apply Nat.mod_upper_bound; lia).
      specialize (Hin _ Hk). pose proof (Nat.mod_upper_bound e 3 ltac:(lia)). lia. }
  f_equal. rewrite bigsum_nested.
  rewrite (bigsum_ext (2 * nfc) _ (fun c => force d * tri_area_of 3 (nth c tris []))).
  - rewrite bigsum_scal. f_equal. rewrite bigsum_pairs.
    unfold face_integral. cbn [Nat.eqb]. symmetry. apply face_area_sum.
  - intros c _.
    rewrite (bigsum_ext 3 _ (fun d' => force d' * tri_area_of 3 (nth c tris [])
                                       * if (d' =? d)%nat then 1 else 0)).
    + rewrite (bigsum_pick3 d (fun d' => force d' * tri_area_of 3 (nth c tris [])) Hd).
      reflexivity.
    + intros d' Hd'. unfold g.
      replace (c * 3 + d')%nat with (d' + c * 3)%nat by lia.
      rewrite Nat.div_add, Nat.div_small, Nat.Div0.mod_add, Nat.mod_small by lia.
      cbn [Nat.add]. rewrite component_of by exact Hd'. reflexivity.
Qed.

(** X19.  [compute_applied_forces_3D] distributes the whole load: when the
    right-hand side has three entries per node and the loaded faces refer
    to nodes of the mesh, the values it adds add up, in each direction, to
    the sum over the loaded faces of the force of the face times its area
    (the face integral of the code). *)
Theorem applied_forces_3D_total (points : list R) (num_face_corners face_corners : list nat)
        (num_neumann_faces : nat) (neumann_faces : list nat) (neumann_forces b : list R)
        (N d : nat) :
  (d < 3)%nat -> length b = (3 * N)%nat ->
  (forall nf c, (nf < num_neumann_faces)%nat ->
                (c < nth (nth nf neumann_faces 0%nat) num_face_corners 0)%nat ->
                (nth (accumulate num_face_corners (nth nf neumann_faces 0%nat) + c)
                     face_corners 0 < N)%nat) ->
  bigsum N (fun i => nth (3 * i + d)
                         (compute_applied_forces_3D points num_face_corners face_corners
                                                    num_neumann_faces neumann_faces
                                                    neumann_forces b) 0)
  = bigsum N (fun i => nth (3 * i + d) b 0)
    + bigsum num_neumann_faces
             (fun nf =>
                let face := nth nf neumann_faces 0%nat in
                let nfc := nth face num_face_corners 0%nat in
                nth (3 * nf + d) neumann_forces 0
                * face_integral (pick_points 3 points
                                             (skipn (accumulate num_face_corners face) face_corners)
                                             nfc) nfc 3 None).
Proof.
  intros Hd Lb Hin. rewrite !(component_sum _ N d Hd).
  set (g := fun k => if (k mod 3 =? d)%nat then 1 else 0).
  unfold compute_applied_forces_3D.
  apply (pair_fold (N * 3)); [lia |].
  intros v nf Hnf Lv. split.
  - rewrite <- Lv. apply fold_left_length_inv. intros a x.
    apply fold_left_length_inv. intros; apply add_at_length.
  - rewrite <- Lv.
    apply (applied_forces_3D_face_total
             points face_corners (nth (nth nf neumann_faces 0%nat) num_face_corners 0%nat)
             (accumulate num_face_corners (nth nf neumann_faces 0%nat))
             (fun d => nth (3 * nf + d) neumann_forces 0) v d Hd).
    intros c Hc. specialize (Hin nf c Hnf Hc). lia.
Qed.


Lemma applied_forces_3D_total_witness :
  bigsum 8 (fun i => nth (3 * i + 2)
                         (compute_applied_forces_3D unit_cube unit_cube_face_edges unit_cube_faces
                                                    1 [0%nat] [0; 0; 5] (repeat 0 24)) 0)
  = bigsum 8 (fun i => nth (3 * i + 2) (repeat 0 24) 0)
    + bigsum 1
             (fun nf =>
                let face := nth nf [0%nat] 0%nat in
                let nfc := nth face unit_cube_face_edges 0%nat in
                nth (3 * nf + 2) [0; 0; 5] 0
                * face_integral (pick_points 3 unit_cube
                                             (skipn (accumulate unit_cube_face_edges face)
                                                    unit_cube_faces)
                                             nfc) nfc 3 None).
Proof.
  destruct unit_cube_closed as (_ & _ & Hix & _).
  apply (applied_forces_3D_total unit_cube unit_cube_face_edges unit_cube_faces
                                 1 [0%nat] [0; 0; 5] (repeat 0 24) 8 2 ltac:(lia) eq_refl).
  intros nf c Hnf Hc. assert (nf = 0%nat) by lia. subst nf.
  apply (Hix 0%nat c); [lia | exact Hc].
Defined.

(** ** The dense copy of a triplet list *)

(** An [int] computation that stays in range is exact. *)
Lemma wrap_int_small (z : Z) : (- 2 ^ 31 <= z < 2 ^ 31)%Z -> wrap_int z = z.
Proof. intros H. unfold wrap_int. rewrite Z.mod_small; lia. Qed.

Lemma wrap_int_range (z : Z) : (- 2 ^ 31 <= wrap_int z < 2 ^ 31)%Z.
Proof.
  unfold wrap_int. pose proof (Z.mod_pos_bound (z + 2 ^ 31) (2 ^ 32) ltac:(lia)). lia.
Qed.

Lemma flat_value_app (l1 l2 : list triplet) (r : nat) (k : Z) :
  flat_value (l1 ++ l2) r k = flat_value l1 r k + flat_value l2 r k.
Proof.
  unfold flat_value. induction l1 as [|t l1 IH]; simpl; [lra |].
  destruct (flat_position r t =? k)%Z; rewrite IH; lra.
Qed.

Lemma sparse2full_fold (nz : list triplet) (r c : nat) :
  (Z.of_nat (r * c) < 2 ^ 31)%Z ->
  sparse2full nz r c = fold_left (sparse2full_step r) nz (Ok (repeat 0 (r * c))).
Proof.
  intros H. unfold sparse2full. cbv zeta.
  rewrite <- Nat2Z.inj_mul, wrap_int_small by lia.
  destruct (Z.ltb_spec (Z.of_nat (r * c)) 0); [lia |]. rewrite Nat2Z.id. reflexivity.
Qed.

Lemma sparse2full_step_throw (r : nat) (l : list triplet) (e : exn) :
  fold_left (sparse2full_step r) l (Throw e) = Throw e.
Proof. induction l as [|t l IH]; [reflexivity |]. simpl. exact IH. Qed.

(** The buffer after triplets whose positions are all inside it. *)
Lemma sparse2full_loop (nz : list triplet) (r n : nat) :
  (Z.of_nat n < 2 ^ 31)%Z ->
  (forall t, In t nz -> (0 <= flat_position r t < Z.of_nat n)%Z) ->
  exists M, fold_left (sparse2full_step r) nz (Ok (repeat 0 n)) = Ok M /\ length M = n /\
            forall k, (0 <= k < Z.of_nat n)%Z -> nthZ M k 0 = flat_value nz r k.
Proof.
  intros Hn. induction nz as [|t nz IH] using rev_ind; intros H.
  - exists (repeat 0 n). split; [reflexivity |]. split; [apply repeat_length |].
    intros k Hk. unfold nthZ, in_range. rewrite repeat_length.
    destruct ((0 <=? k) && (k <? Z.of_nat n))%Z; [apply nth_repeat | reflexivity].
  - destruct IH as (M & E & L & V); [intros t' Ht'; apply H, in_or_app; left; exact Ht' |].
    rewrite fold_left_app, E. cbn [fold_left]. unfold sparse2full_step at 1. cbn [bind]. cbv zeta.
    assert (Ht : (0 <= flat_position r t < Z.of_nat n)%Z)
      by (apply H, in_or_app; right; left; reflexivity).
    rewrite L, wrap_int_small by lia.
    destruct (Z.ltb_spec (flat_position r t) (Z.of_nat n)); [| lia].
    cbn [assert_ bind]. destruct (Z.ltb_spec (flat_position r t) 0); [lia |].
    eexists. split; [reflexivity |].
    split; [rewrite updZ_length; exact L |].
    intros k Hk. rewrite flat_value_app. unfold flat_value at 2. cbn [fold_right].
    destruct (Z.eqb_spec (flat_position r t) k) as [Ek | Ek].
    + rewrite Ek.
      rewrite nthZ_updZ_same
        by (unfold in_range; rewrite L; apply andb_true_intro;
            split; [apply Z.leb_le | apply Z.ltb_lt]; lia).
      rewrite (V k Hk). lra.
    + rewrite nthZ_updZ_other by exact Ek. rewrite (V k Hk). lra.
Qed.

(** What the first triplet with a position outside the buffer does. *)
Lemma sparse2full_stops (l1 l2 : list triplet) (t : triplet) (r n : nat) :
  (Z.of_nat n < 2 ^ 31)%Z ->
  (forall t', In t' l1 -> (0 <= flat_position r t' < Z.of_nat n)%Z) ->
  ((Z.of_nat n <= flat_position r t)%Z ->
   fold_left (sparse2full_step r) (l1 ++ t :: l2) (Ok (repeat 0 n)) = Throw assertion_failure) /\
  ((flat_position r t < 0)%Z ->
   fold_left (sparse2full_step r) (l1 ++ t :: l2) (Ok (repeat 0 n)) = Throw out_of_bounds).
Proof.
  intros Hn H1. destruct (sparse2full_loop l1 r n Hn H1) as (M & E & L & _).
  rewrite fold_left_app, E. cbn [fold_left]. unfold sparse2full_step at 2 4. cbn [bind]. cbv zeta.
  rewrite L, wrap_int_small by lia. split; intros Ht.
  - destruct (Z.ltb_spec (flat_position r t) (Z.of_nat n)); [lia |].
    cbn [assert_ bind]. apply sparse2full_step_throw.
  - destruct (Z.ltb_spec (flat_position r t) (Z.of_nat n)); [| lia].
    cbn [assert_ bind]. destruct (Z.ltb_spec (flat_position r t) 0); [| lia].
    apply sparse2full_step_throw.
Qed.

(** In a square matrix that fits the positions are [i * n + j], without
    wrap-around, and they tell the coordinates apart. *)
Lemma flat_position_square (n : nat) (t : triplet) :
  (Z.of_nat (n * n) < 2 ^ 31)%Z ->
  (0 <= trow t < Z.of_nat n)%Z -> (0 <= tcol t < Z.of_nat n)%Z ->
  flat_position n t = (trow t * Z.of_nat n + tcol t)%Z.
Proof.
  intros Hn Hr Hc. unfold flat_position.
  assert (B : (0 <= trow t * Z.of_nat n + tcol t < Z.of_nat (n * n))%Z) by nia.
  assert (B1 : (0 <= trow t * Z.of_nat n < Z.of_nat (n * n))%Z) by nia.
  rewrite (wrap_int_small (trow t * Z.of_nat n)) by lia. apply wrap_int_small. lia.
Qed.

Lemma flat_value_square (nz : list triplet) (n : nat) (i j : Z) :
  (Z.of_nat (n * n) < 2 ^ 31)%Z ->
  (forall t, In t nz -> (0 <= trow t < Z.of_nat n)%Z /\ (0 <= tcol t < Z.of_nat n)%Z) ->
  (0 <= i)%Z -> (0 <= j < Z.of_nat n)%Z ->
  flat_value nz n (i * Z.of_nat n + j) = coo_value nz i j.
Proof.
  intros Hn H Hi Hj. unfold flat_value, coo_value.
  induction nz as [|t nz IH]; [reflexivity |]. cbn [fold_right].
  rewrite IH by (intros; apply H; right; assumption).
  destruct (H t (or_introl eq_refl)) as [Hr Hc].
  rewrite (flat_position_square n t Hn Hr Hc).
  destruct (Z.eqb_spec (trow t * Z.of_nat n + tcol t) (i * Z.of_nat n + j)) as [E | E].
  - assert (Er : trow t = i).
    { destruct (Z.lt_trichotomy (trow t) i) as [H1 | [H1 | H1]]; [exfalso | exact H1 | exfalso].
      - assert ((trow t + 1) * Z.of_nat n <= i * Z.of_nat n)%Z
          by (apply Z.mul_le_mono_nonneg_r; lia). lia.
      - assert ((i + 1) * Z.of_nat n <= trow t * Z.of_nat n)%Z
          by (apply Z.mul_le_mono_nonneg_r; lia). lia. }
    assert (Ec : tcol t = j) by (rewrite Er in E; lia).
    destruct (Z.eqb_spec (trow t) i); [| contradiction].
    destruct (Z.eqb_spec (tcol t) j); [| contradiction]. reflexivity.
  - destruct (Z.eqb_spec (trow t) i) as [E1 | ?]; [| reflexivity].
    destruct (Z.eqb_spec (tcol t) j) as [E2 | ?]; [| reflexivity].
    exfalso. apply E. rewrite E1, E2. reflexivity.
Qed.

(** X20.  [sparse2full] computes the position of a triplet [(i, j, v)] as
    [i * r + j] in [int] ([r] being the number of rows) and adds [v] there
    in a buffer of [r * c] zeros.  With [r * c] in the range of [int]: when
    every position, as the [int] computation leaves it, is inside the
    buffer, the buffer of the sums is returned; the first triplet whose
    position is not stops the conversion, by the failed assertion when the
    position is at or past the end, and by a write before the buffer when
    it is negative.  For a square matrix whose triplets are in range the
    position is [i * n + j] and the entry there is the summed value at
    [(i, j)]. *)
Theorem sparse2full_dense (nz : list triplet) (r c : nat) :
  (Z.of_nat (r * c) < 2 ^ 31)%Z ->
  ((forall t, In t nz -> (0 <= flat_position r t < Z.of_nat (r * c))%Z) ->
   exists M, sparse2full nz r c = Ok M /\ length M = (r * c)%nat /\
             (forall k, (0 <= k < Z.of_nat (r * c))%Z -> nthZ M k 0 = flat_value nz r k) /\
             (r = c ->
              (forall t, In t nz -> (0 <= trow t < Z.of_nat r)%Z /\ (0 <= tcol t < Z.of_nat r)%Z) ->
              forall i j, (i < r)%nat -> (j < r)%nat ->
                          nth (i * r + j) M 0 = coo_value nz (Z.of_nat i) (Z.of_nat j))) /\
  (forall l1 t l2,
      nz = l1 ++ t :: l2 ->
      (forall t', In t' l1 -> (0 <= flat_position r t' < Z.of_nat (r * c))%Z) ->
      ((Z.of_nat (r * c) <= flat_position r t)%Z ->
       sparse2full nz r c = Throw assertion_failure) /\
      ((flat_position r t < 0)%Z -> sparse2full nz r c = Throw out_of_bounds)).
Proof.
  intros Hn. rewrite (sparse2full_fold nz r c Hn). split.
  - intros H. destruct (sparse2full_loop nz r (r * c) Hn H) as (M & E & L & V).
    exists M. split; [exact E |]. split; [exact L |]. split; [exact V |].
    intros <- Hr i j Hi Hj.
    assert (Hk : (0 <= Z.of_nat i * Z.of_nat r + Z.of_nat j < Z.of_nat (r * r))%Z) by nia.
    specialize (V _ Hk).
    rewrite flat_value_square in V; [| exact Hn | exact Hr | lia | lia].
    rewrite <- V. unfold nthZ, in_range. rewrite L.
    destruct (Z.leb_spec 0 (Z.of_nat i * Z.of_nat r + Z.of_nat j)); [| lia].
    destruct (Z.ltb_spec (Z.of_nat i * Z.of_nat r + Z.of_nat j) (Z.of_nat (r * r))); [| lia].
    cbn [andb]. f_equal. lia.
  - intros l1 t l2 -> H1. exact (sparse2full_stops l1 l2 t r (r * c) Hn H1).
Qed.

(** The position of the triplet [(2147483647, 2, 7)] with two rows wraps
    around to 0. *)
Lemma sparse2full_dense_witness :
  exists M, sparse2full [trip 2147483647 2 7] 2 1 = Ok M /\ nthZ M 0 0 = 7 + 0.
Proof.
  assert (Hn : (Z.of_nat (2 * 1) < 2 ^ 31)%Z) by (vm_compute; reflexivity).
  destruct (proj1 (sparse2full_dense [trip 2147483647 2 7] 2 1 Hn)) as (M & E & _ & V & _).
  - intros t [<- | []]. vm_compute. split; [discriminate | reflexivity].
  - exists M. split; [exact E |].
    rewrite (V 0%Z) by (vm_compute; split; [discriminate | reflexivity]). reflexivity.
Defined.

(** ** Heron's formula and the cross product *)

(** X21.  For a triangle that is not degenerate, [triarea], which uses
    Heron's formula on the three edge lengths, returns the area of the
    triangle: in the plane half the absolute value of the cross product of
    two edges, in space half the length of the vector that [trinormal]
    returns.  (On a degenerate triangle the product under the root is zero
    in exact arithmetic; its rounded value can be negative, which is
    outside this model.) *)
Theorem triarea_cross_product (a b c : list R) :
  (cross2 a b c <> 0 -> triarea 2 a b c = Rabs (cross2 a b c) / 2) /\
  (dot3 (trinormal a b c) (trinormal a b c) <> 0 ->
   triarea 3 a b c = sqrt (dot3 (trinormal a b c) (trinormal a b c)) / 2).
Proof. split; intros _; [apply triarea_2D | apply triarea_3D]. Qed.

Lemma triarea_cross_product_witness :
  triarea 2 [0; 0] [1; 0] [0; 1] = Rabs (cross2 [0; 0] [1; 0] [0; 1]) / 2 /\
  triarea 3 [0; 0; 0] [1; 0; 0] [0; 1; 0]
  = sqrt (dot3 (trinormal [0; 0; 0] [1; 0; 0] [0; 1; 0])
               (trinormal [0; 0; 0] [1; 0; 0] [0; 1; 0])) / 2.
Proof.
  split.
  - apply (proj1 (triarea_cross_product [0; 0] [1; 0] [0; 1])).
    unfold cross2. cbn [nth]. lra.
  - apply (proj2 (triarea_cross_product [0; 0; 0] [1; 0; 0] [0; 1; 0])).
    unfold dot3, trinormal. cbn [nth]. lra.
Defined.

(** ** The stresses of a mesh *)

Lemma coo_apply_rows_other (r : nat -> Z) (c : nat -> Z) (v : nat -> nat -> R) (N m : nat)
      (x : list R) (i : Z) :
  (forall a, (a < N)%nat -> r a <> i) ->
  coo_apply (flat_map (fun a => map (fun j => (r a, c j, v a j)) (seq 0 m)) (seq 0 N)) x i = 0.
Proof.
  induction N as [|N IH]; intros H; [reflexivity |].
  rewrite seq_S, flat_map_app, coo_apply_app, IH by (intros; apply H; lia).
  simpl flat_map. rewrite app_nil_r, coo_apply_row.
  destruct (Z.eqb_spec (r N) i) as [E | E]; [exfalso; apply (H N); [lia | exact E] | lra].
Qed.

(** The triplets a cell appends are in its own six rows. *)
Lemma accumulate_stress_other_rows (matrix local_disp : list R) (global_index : list nat)
      (totdim cell : nat) (do_matrix do_stress : bool) (stress : list R)
      (stressmat : list triplet) :
  exists rows,
    snd (accumulate_stress matrix local_disp global_index totdim cell do_matrix do_stress
                           stress stressmat) = stressmat ++ rows /\
    forall x r, (forall i, (i < 6)%nat -> Z.of_nat (6 * cell + i) <> r) -> coo_apply rows x r = 0.
Proof.
  unfold accumulate_stress.
  rewrite (fold_pair_nested
             (fun (s : list R) i j =>
                add_at s i (nth (i * totdim + j) matrix 0 * nth j local_disp 0))
             (fun (sm : list triplet) i j =>
                if do_matrix
                then sm ++ [(Z.of_nat (6 * cell + i), Z.of_nat (nth j global_index 0%nat),
                             if do_stress && (2 <? i)%nat
                             then nth (i * totdim + j) matrix 0 / 2
                             else nth (i * totdim + j) matrix 0)]
                else sm)).
  cbn [snd]. destruct do_matrix.
  - eexists. split.
    + apply (fold_append_nested
               (fun i j => (Z.of_nat (6 * cell + i), Z.of_nat (nth j global_index 0%nat),
                            if do_stress && (2 <? i)%nat
                            then nth (i * totdim + j) matrix 0 / 2
                            else nth (i * totdim + j) matrix 0))).
    + intros x r Hr.
      apply (coo_apply_rows_other (fun a => Z.of_nat (6 * cell + a))
                                  (fun j => Z.of_nat (nth j global_index 0%nat))
                                  (fun a j => if do_stress && (2 <? a)%nat
                                              then nth (a * totdim + j) matrix 0 / 2
                                              else nth (a * totdim + j) matrix 0)).
      exact Hr.
  - exists []. split.
    + rewrite (fold_left_ext _ (fun sm _ => sm)) by (intros; apply fold_id).
      rewrite fold_id. symmetry. apply app_nil_r.
    + reflexivity.
Qed.

(** [calculate_stress_3D_local] returns exactly when the cell geometry is
    computed. *)
Lemma calculate_stress_3D_local_returns (points : list R) (faces num_face_edges : list nat)
      (num_faces : nat) (young poisson : R) (disp : list R) (cell : nat) (stress : list R)
      (stressmat : list triplet) (do_matrix do_stress : bool) (r : list R * list triplet) :
  calculate_stress_3D_local points faces num_face_edges num_faces young poisson disp cell
                            stress stressmat do_matrix do_stress = Ok r ->
  (exists geo,
      compute_cell_geometry (local_corners points faces num_face_edges num_faces)
                            (length (snd (global_to_local_indexing faces num_face_edges num_faces)))
                            (local_faces faces num_face_edges num_faces)
                            num_face_edges num_faces = Ok geo) /\
  exists rows,
    snd r = stressmat ++ rows /\
    forall x k, (forall i, (i < 6)%nat -> Z.of_nat (6 * cell + i) <> k) -> coo_apply rows x k = 0.
Proof.
  unfold calculate_stress_3D_local, local_corners, local_faces, used_corners.
  destruct (global_to_local_indexing faces num_face_edges num_faces) as [reindex indexing].
  cbn [fst snd].
  destruct (compute_cell_geometry _ _ _ _ _) as [geo | e]; cbn [bind]; [| discriminate].
  destruct (compute_Wc_3D _) as [Wc | e]; cbn [bind]; [| discriminate].
  destruct (stress_matrix _ _ _ _ _) as [M | e]; cbn [bind]; [| discriminate].
  destruct (gather_local indexing disp) as [ld gi].
  intros E. injection E as <-. split; [exists geo; reflexivity |].
  apply accumulate_stress_other_rows.
Qed.

(** One cell: the stress it leaves and the rows it appends. *)
Lemma calculate_stress_3D_local_rows (points : list R) (faces num_face_edges : list nat)
      (num_faces : nat) (young poisson : R) (disp : list R) (cell : nat) (stress : list R)
      (stressmat : list triplet) (do_matrix do_stress : bool) (r : list R * list triplet) :
  length stress = 6%nat ->
  calculate_stress_3D_local points faces num_face_edges num_faces young poisson disp cell
                            stress stressmat do_matrix do_stress = Ok r ->
  length (fst r) = 6%nat /\
  exists rows,
    snd r = stressmat ++ rows /\
    (forall x k, (forall i, (i < 6)%nat -> Z.of_nat (6 * cell + i) <> k) ->
                 coo_apply rows x k = 0) /\
    if do_matrix
    then forall i, (i < 6)%nat ->
                   nth i (fst r) 0
                   = halved do_stress i (nth i stress 0)
                     + coo_apply rows disp (Z.of_nat (6 * cell + i))
    else rows = [].
Proof.
  intros L6 E.
  destruct (calculate_stress_3D_local_returns _ _ _ _ _ _ _ _ _ _ _ _ _ E)
    as [[geo EG] (rows & ER & HZ)].
  destruct (calculate_stress_3D_local_spec points faces num_face_edges num_faces young poisson
              disp cell stress stressmat do_matrix do_stress geo L6 EG)
    as (Wc & stress' & rows' & _ & EC & LS & HS & HR).
  rewrite EC in E. injection E as <-. cbn [fst snd] in *.
  apply app_inv_head in ER. subst rows'.
  split; [exact LS |]. exists rows. split; [reflexivity |]. split; [exact HZ |].
  cbv zeta in HS, HR. destruct do_matrix; [| exact HR].
  intros i Hi. rewrite (HS i Hi), (HR i disp Hi). unfold halved.
  destruct (do_stress && (2 <? i)%nat); lra.
Qed.

(** The cell loop of [compute_stress_3D], after [k] cells. *)
Lemma compute_stress_3D_loop (points : list R)
      (num_cell_faces num_face_corners face_corners : list nat)
      (young poisson disp : list R) (stress : list (list R)) (stressmat : list triplet)
      (do_matrix do_stress : bool) (k : nat) :
  let run k :=
    fold_left
      (fun (acc : res (nat * nat * list (list R) * list triplet)) c =>
         st <- acc ;;
         let '(cf_ix, fcorners_start, stress, stressmat) := st in
         local <- calculate_stress_3D_local
                    points (skipn fcorners_start face_corners)
                    (skipn cf_ix num_face_corners) (nth c num_cell_faces 0%nat)
                    (nth c young 0) (nth c poisson 0) disp c
                    (nth c stress []) stressmat do_matrix do_stress ;;
         Ok ((cf_ix + nth c num_cell_faces 0)%nat,
             (fcorners_start
              + accumulate (skipn cf_ix num_face_corners) (nth c num_cell_faces 0%nat))%nat,
             upd stress c (fst local), snd local))
      (seq 0 k) (Ok (0%nat, 0%nat, stress, stressmat)) in
  (k <= length stress)%nat ->
  (forall c, (c < k)%nat -> length (nth c stress []) = 6%nat) ->
  forall cf fcs stress' stressmat',
    run k = Ok (cf, fcs, stress', stressmat') ->
    length stress' = length stress /\
    (forall c, (k <= c)%nat -> nth c stress' [] = nth c stress []) /\
    (forall c, (c < k)%nat -> length (nth c stress' []) = 6%nat) /\
    exists rows,
      stressmat' = stressmat ++ rows /\
      (forall x r, (forall c i, (c < k)%nat -> (i < 6)%nat -> Z.of_nat (6 * c + i) <> r) ->
                   coo_apply rows x r = 0) /\
      if do_matrix
      then forall c i, (c < k)%nat -> (i < 6)%nat ->
                       nth i (nth c stress' []) 0
                       = halved do_stress i (nth i (nth c stress []) 0)
                         + coo_apply rows disp (Z.of_nat (6 * c + i))
      else rows = [].
Proof.
  intros run. induction k as [|k IH]; intros Hk H6 cf fcs stress' stressmat' E.
  - unfold run in E. simpl in E. injection E as <- <- <- <-.
    split; [reflexivity |]. split; [reflexivity |]. split; [intros; lia |].
    exists []. split; [symmetry; apply app_nil_r |]. split; [reflexivity |].
    destruct do_matrix; [intros; lia | reflexivity].
  - assert (Step : run (S k)
                   = (st <- run k ;;
                      let '(cf_ix, fcorners_start, stress, stressmat) := st in
                      local <- calculate_stress_3D_local
                                 points (skipn fcorners_start face_corners)
                                 (skipn cf_ix num_face_corners) (nth k num_cell_faces 0%nat)
                                 (nth k young 0) (nth k poisson 0) disp k
                                 (nth k stress []) stressmat do_matrix do_stress ;;
                      Ok ((cf_ix + nth k num_cell_faces 0)%nat,
                          (fcorners_start
                           + accumulate (skipn cf_ix num_face_corners)
                                        (nth k num_cell_faces 0%nat))%nat,
                          upd stress k (fst local), snd local))).
    { unfold run. rewrite seq_S, fold_left_app. reflexivity. }
    rewrite Step in E. clear Step.
    destruct (run k) as [[[[cf1 fcs1] stress1] sm1] | ex]; [| discriminate].
    cbn [bind] in E.
    destruct (IH ltac:(lia) (fun c Hc => H6 c (Nat.lt_lt_succ_r _ _ Hc)) _ _ _ _ eq_refl)
      as (L1 & U1 & S1 & rows & -> & Z1 & M1).
    destruct (calculate_stress_3D_local _ _ _ _ _ _ _ _ _ _ _ _) as [local | ex] eqn:EL;
      [| discriminate].
    cbn [bind] in E. injection E as <- <- <- <-.
    assert (Lk : length (nth k stress1 []) = 6%nat)
      by (rewrite (U1 k (Nat.le_refl k)); apply H6; lia).
    destruct (calculate_stress_3D_local_rows _ _ _ _ _ _ _ _ _ _ _ _ _ Lk EL)
      as (LF & rows2 & ER & Z2 & M2).
    split; [rewrite upd_length; exact L1 |].
    split; [intros c Hc; rewrite nth_upd_other by lia; apply U1; lia |].
    split.
    { intros c Hc. destruct (Nat.eq_dec c k) as [-> | Hne].
      - rewrite nth_upd_same by lia. exact LF.
      - rewrite nth_upd_other by lia. apply S1. lia. }
    exists (rows ++ rows2). split; [rewrite ER, app_assoc; reflexivity |].
    split.
    { intros x r Hr. rewrite coo_apply_app, Z1, Z2; [lra | |].
      - intros i Hi. apply Hr; lia.
      - intros c i Hc Hi. apply Hr; lia. }
    destruct do_matrix.
    + intros c i Hc Hi. rewrite coo_apply_app.
      destruct (Nat.eq_dec c k) as [-> | Hne].
      * rewrite nth_upd_same by lia. rewrite (M2 i Hi), (U1 k (Nat.le_refl k)).
        rewrite (Z1 disp (Z.of_nat (6 * k + i))) by (intros; lia). lra.
      * rewrite nth_upd_other by lia. rewrite (M1 c i ltac:(lia) Hi).
        rewrite (Z2 disp (Z.of_nat (6 * c + i))) by (intros; lia). lra.
    + rewrite M1, M2. reflexivity.
Qed.

(** X22.  [compute_stress_3D] on a mesh, when it returns and [stress] has
    an array of six for each cell: the arrays of the cells are updated and
    no other; [stressmat] is its content on entry followed by new triplets,
    none without [do_matrix]; with [do_matrix] the new triplets form a matrix
    whose rows [6 c .. 6 c + 5] applied to [disp] give what was added to the
    stress of cell [c]: the new stress is the old one (its shear entries
    halved with [do_stress]) plus the matrix applied to [disp]. *)
Theorem mesh_stress (points : list R) (num_cells : nat)
        (num_cell_faces num_face_corners face_corners : list nat)
        (young poisson disp : list R) (stress : list (list R)) (stressmat : list triplet)
        (do_matrix do_stress : bool) (stress' : list (list R)) (stressmat' : list triplet) :
  compute_stress_3D points num_cells num_cell_faces num_face_corners face_corners
                    young poisson disp stress stressmat do_matrix do_stress
  = Ok (stress', stressmat') ->
  (num_cells <= length stress)%nat ->
  (forall c, (c < num_cells)%nat -> length (nth c stress []) = 6%nat) ->
  length stress' = length stress /\
  (forall c, (num_cells <= c)%nat -> nth c stress' [] = nth c stress []) /\
  (forall c, (c < num_cells)%nat -> length (nth c stress' []) = 6%nat) /\
  exists rows,
    stressmat' = stressmat ++ rows /\
    if do_matrix
    then forall c i, (c < num_cells)%nat -> (i < 6)%nat ->
                     nth i (nth c stress' []) 0
                     = halved do_stress i (nth i (nth c stress []) 0)
                       + coo_apply rows disp (Z.of_nat (6 * c + i))
    else rows = [].
Proof.
  unfold compute_stress_3D. intros E Hn H6.
  match type of E with
  | (bind ?r _ = _) => destruct r as [[[[cf fcs] st] sm] | ex] eqn:ER; [| discriminate]
  end.
  cbn [bind] in E. injection E as <- <-.
  destruct (compute_stress_3D_loop points num_cell_faces num_face_corners face_corners
              young poisson disp stress stressmat do_matrix do_stress num_cells Hn H6
              _ _ _ _ ER) as (L & U & S & rows & ES & _ & M).
  split; [exact L |]. split; [exact U |]. split; [exact S |].
  exists rows. split; [exact ES | exact M].
Qed.

Lemma cube2_stress (disp : list R) (stress : list (list R)) (stressmat : list triplet)
      (do_matrix do_stress : bool) :
  exists stress' stressmat',
    compute_stress_3D cube2 1 [6%nat] unit_cube_face_edges unit_cube_faces [1] [0.3]
                      disp stress stressmat do_matrix do_stress = Ok (stress', stressmat').
Proof.
  unfold compute_stress_3D. cbn [seq fold_left bind nth skipn].
  unfold calculate_stress_3D_local. rewrite cube_indexing.
  cbv iota beta. change (length [0; 1; 2; 3; 4; 5; 6; 7]%nat) with 8%nat.
  change (pick_points 3 cube2 [0; 1; 2; 3; 4; 5; 6; 7]%nat 8) with cube2.
  change (map _ (firstn (accumulate unit_cube_face_edges 6) unit_cube_faces))
    with unit_cube_faces.
  destruct cube2_geometry as (geo & EG & En & _ & Ev & _).
  rewrite EG. cbn [bind]. rewrite En, Ev.
  change (length cube2 / 3)%nat with 8%nat.
  rewrite cube2_q_vector.
  destruct (compute_W_3D_ok (cube_of_q 2 8) 8 eq_refl) as [_ [Wc [EW _]]].
  rewrite EW. cbn [bind].
  destruct (stress_matrix_spec Wc 1 0.3 (3 * 8) do_stress) as [M [EM _]].
  rewrite EM. cbn [bind].
  destruct (gather_local [0; 1; 2; 3; 4; 5; 6; 7]%nat disp) as [ld gi].
  eexists. eexists. reflexivity.
Qed.

Lemma mesh_stress_witness :
  exists stress' stressmat',
    compute_stress_3D cube2 1 [6%nat] unit_cube_face_edges unit_cube_faces [1] [0.3]
                      cube2 [[0; 0; 0; 0; 0; 0]] [] true true = Ok (stress', stressmat') /\
    length stress' = 1%nat /\
    (forall c, (1 <= c)%nat -> nth c stress' [] = nth c [[0; 0; 0; 0; 0; 0]] []) /\
    (forall c, (c < 1)%nat -> length (nth c stress' []) = 6%nat) /\
    exists rows,
      stressmat' = [] ++ rows /\
      forall c i, (c < 1)%nat -> (i < 6)%nat ->
                  nth i (nth c stress' []) 0
                  = halved true i (nth i (nth c [[0; 0; 0; 0; 0; 0]] []) 0)
                    + coo_apply rows cube2 (Z.of_nat (6 * c + i)).
Proof.
  destruct (cube2_stress cube2 [[0; 0; 0; 0; 0; 0]] [] true true)
    as (stress' & stressmat' & E).
  exists stress', stressmat'. split; [exact E |].
  apply (mesh_stress cube2 1 [6%nat] unit_cube_face_edges unit_cube_faces [1] [0.3]
                     cube2 [[0; 0; 0; 0; 0; 0]] [] true true stress' stressmat' E).
  - simpl. lia.
  - intros c Hc. assert (c = 0%nat) by lia. subst c. reflexivity.
Defined.

(** ** With unit normals the point found is a star point *)

Lemma push_behind_length (q normals centroids : list R) (f : nat) :
  length (push_behind q normals centroids f) = length q.
Proof. unfold push_behind. apply fold_left_length_inv. intros; apply upd_length. Qed.

Lemma candidate_length (normals centroids : list R) (N : nat) (point : list R) (k : nat) :
  length (candidate normals centroids N point k) = length point.
Proof.
  induction k as [|k IH]; [reflexivity |]. rewrite candidate_S.
  destruct (check_passes normals centroids N point k); [exact IH |].
  rewrite push_behind_length. exact IH.
Qed.

(** The correction moves the point behind the face it is applied for, when
    the normal of that face has length one. *)
Lemma push_behind_spec (q normals centroids : list R) (f : nat) :
  length q = 3%nat ->
  dot3 (skipn (3 * f) normals) (skipn (3 * f) normals) = 1 ->
  is_behind_face q (skipn (3 * f) normals) (skipn (3 * f) centroids) = false ->
  is_behind_face (push_behind q normals centroids f)
                 (skipn (3 * f) normals) (skipn (3 * f) centroids) = true.
Proof.
  intros L U F.
  assert (NB : ~ dot3 (vec3 q (skipn (3 * f) centroids)) (skipn (3 * f) normals) + tol > 0).
  { intros H. apply is_behind_face_spec in H. congruence. }
  apply is_behind_face_spec.
  destruct q as [|x [|y [|z [|]]]]; try discriminate L.
  unfold push_behind. cbn [seq fold_left upd nth].
  unfold dot3, vec3 in *. cbn [nth] in *. rewrite !nth_skipn_R in *.
  replace (3 * f + 0)%nat with (3 * f)%nat in * by lia.
  pose proof tol_pos as T.
  set (n0 := nth (3 * f) normals 0) in *. set (n1 := nth (3 * f + 1) normals 0) in *.
  set (n2 := nth (3 * f + 2) normals 0) in *.
  set (c0 := nth (3 * f) centroids 0) in *. set (c1 := nth (3 * f + 1) centroids 0) in *.
  set (c2 := nth (3 * f + 2) centroids 0) in *.
  set (proj := (x - c0) * n0 + (y - c1) * n1 + (z - c2) * n2).
  assert (E : (c0 - (x - 1.1 * proj * n0)) * n0 + (c1 - (y - 1.1 * proj * n1)) * n1
              + (c2 - (z - 1.1 * proj * n2)) * n2
              = - proj + 1.1 * proj * (n0 * n0 + n1 * n1 + n2 * n2))
    by (unfold proj; field).
  rewrite E, U. assert (0 <= proj) by (unfold proj; lra). lra.
Qed.

(** While the checks pass the candidate stays where it is. *)
Lemma candidate_window (normals centroids : list R) (N : nat) (point : list R) (j k : nat) :
  (j <= k)%nat ->
  (forall i, (j <= i)%nat -> (i < k)%nat -> check_passes normals centroids N point i = true) ->
  candidate normals centroids N point k = candidate normals centroids N point j.
Proof.
  intros Hjk. induction Hjk as [|k Hjk IH]; intros H; [reflexivity |].
  rewrite candidate_S, H by lia. apply IH. intros i H1 H2. apply H; lia.
Qed.

(** Among [N] consecutive iterations every face is checked. *)
Lemma window_residue (N j0 f : nat) :
  (f < N)%nat -> exists r, (r < N)%nat /\ ((j0 + r) mod N = f)%nat.
Proof.
  intros Hf. exists ((f + N - j0 mod N) mod N)%nat.
  split; [apply Nat.mod_upper_bound; lia |].
  pose proof (Nat.mod_upper_bound j0 N ltac:(lia)) as Hm.
  rewrite Nat.Div0.add_mod_idemp_r.
  rewrite (Nat.div_mod_eq j0 N) at 1.
  replace (N * (j0 / N) + j0 mod N + (f + N - j0 mod N))%nat
    with (f + (j0 / N + 1) * N)%nat by nia.
  rewrite Nat.Div0.mod_add. apply Nat.mod_small, Hf.
Qed.

Lemma star_point_found (point normals centroids p : list R) :
  let N := (length normals / 3)%nat in
  length point = 3%nat ->
  (forall f, (f < N)%nat -> dot3 (skipn (3 * f) normals) (skipn (3 * f) normals) = 1) ->
  identify_star_point point normals centroids = Ok p ->
  is_star_point p normals centroids = true.
Proof.
  intros N L U E.
  destruct (star_search_spec point normals centroids) as [_ [R _]]. fold N in R.
  apply R in E. destruct E as (k & _ & [[HN HS] _] & ->).
  apply is_star_point_spec. fold N. intros f Hf.
  set (j0 := (k - N)%nat).
  destruct (window_residue N j0 f Hf) as (r & Hr & Er).
  assert (W : forall j, (j0 + 1 <= j)%nat -> (j <= k)%nat ->
                        candidate normals centroids N point k
                        = candidate normals centroids N point j).
  { intros j H1 H2. apply candidate_window; [exact H2 |].
    intros i H3 H4. apply HS; unfold j0 in *; lia. }
  destruct (Nat.eq_dec r 0) as [-> | Hr0].
  - (* the face of the iteration before the window *)
    rewrite Nat.add_0_r in Er. rewrite (W (S j0)) by (unfold j0; lia).
    rewrite candidate_S, Er.
    destruct (check_passes normals centroids N point j0) eqn:C.
    + unfold check_passes in C. rewrite Er in C. exact C.
    + apply push_behind_spec.
      * rewrite candidate_length. exact L.
      * apply U, Hf.
      * unfold check_passes in C. rewrite Er in C. exact C.
  - (* a face checked inside the window *)
    rewrite (W (j0 + r)%nat) by (unfold j0; lia).
    assert (C : check_passes normals centroids N point (j0 + r) = true)
      by (apply HS; unfold j0; lia).
    unfold check_passes in C. rewrite Er in C. exact C.
Qed.

(** X23.  With face normals of length one, the point that
    [identify_star_point] returns is behind every face: [is_star_point]
    holds for it.  (The search stops once the last [N - 1] checks have
    passed; the face checked before those is either passed too or is the
    one the point was last moved for, and the move puts the point behind a
    face whose normal has length one.) *)
Theorem star_point_behind_all_faces (point normals centroids p : list R) :
  let N := (length normals / 3)%nat in
  length point = 3%nat ->
  (forall f, (f < N)%nat -> dot3 (skipn (3 * f) normals) (skipn (3 * f) normals) = 1) ->
  identify_star_point point normals centroids = Ok p ->
  is_star_point p normals centroids = true.
Proof. exact (star_point_found point normals centroids p). Qed.

Lemma cube_normals_unit (f : nat) :
  (f < length cube_normals / 3)%nat ->
  dot3 (skipn (3 * f) cube_normals) (skipn (3 * f) cube_normals) = 1.
Proof.
  change (length cube_normals / 3)%nat with 6%nat. intros Hf.
  destruct f as [|[|[|[|[|[|f]]]]]]; [| | | | | | lia];
    unfold dot3, cube_normals; cbn [skipn Nat.mul Nat.add nth]; lra.
Qed.

Lemma above_cube_search :
  identify_star_point above_cube cube_normals cube_centroids
  = Ok (candidate cube_normals cube_centroids 6 above_cube 6).
Proof.
  destruct (star_search_spec above_cube cube_normals cube_centroids) as [_ [R _]].
  change (length cube_normals / 3)%nat with 6%nat in R.
  apply R. exists 6%nat. split; [lia |]. split; [exact above_cube_first_settled | reflexivity].
Qed.

Lemma star_point_behind_all_faces_witness :
  is_star_point (candidate cube_normals cube_centroids 6 above_cube 6)
                cube_normals cube_centroids = true.
Proof.
  exact (star_point_behind_all_faces above_cube cube_normals cube_centroids
                                     (candidate cube_normals cube_centroids 6 above_cube 6)
                                     eq_refl cube_normals_unit above_cube_search).
Defined.







(** ** Symmetry of the assembled matrix *)

Lemma coo_value_line (r : Z) (c : nat -> Z) (v : nat -> R) (m : nat) (I J : Z) :
  coo_value (map (fun j => (r, c j, v j)) (seq 0 m)) I J
  = bigsum m (fun j => if ((r =? I) && (c j =? J))%Z then v j else 0).
Proof.
  induction m as [|m IH]; [reflexivity |].
  rewrite seq_S, map_app, coo_value_app, IH. cbn [map bigsum]. f_equal.
  unfold coo_value, trow, tcol, tval. cbn [fold_right fst snd].
  cbn [Nat.add]. destruct ((r =? I) && (c m =? J))%Z; lra.
Qed.

Lemma coo_value_grid (r c : nat -> Z) (v : nat -> nat -> R) (N m : nat) (I J : Z) :
  coo_value (flat_map (fun a => map (fun j => (r a, c j, v a j)) (seq 0 m)) (seq 0 N)) I J
  = bigsum N (fun a => bigsum m (fun j => if ((r a =? I) && (c j =? J))%Z then v a j else 0)).
Proof.
  induction N as [|N IH]; [reflexivity |].
  rewrite seq_S, flat_map_app, coo_value_app, IH. cbn [flat_map].
  rewrite app_nil_r, coo_value_line. reflexivity.
Qed.

(** The triplets of a symmetric local matrix. *)
Lemma local_triplets_symmetric (Dim n : nat) (node : nat -> nat) (loc : list R) :
  msym (Dim * n) (of_flat (Dim * n) loc) ->
  coo_symmetric (local_triplets Dim n node loc).
Proof.
  intros S I J. unfold local_triplets.
  set (g := fun i => Z.of_nat (Dim * node (i / Dim)%nat + i mod Dim)).
  rewrite !(coo_value_grid g g (fun i j => nth (i * (Dim * n) + j) loc 0)).
  rewrite (bigsum_swap (Dim * n) (Dim * n)
             (fun a j => if ((g a =? J) && (g j =? I))%Z
                         then nth (a * (Dim * n) + j) loc 0 else 0)).
  apply bigsum_ext. intros a Ha. apply bigsum_ext. intros j Hj.
  rewrite (andb_comm (g j =? J)%Z). destruct ((g a =? I) && (g j =? J))%Z; [| reflexivity].
  exact (S a j Ha Hj).
Qed.

Lemma coo_symmetric_app (A B : list triplet) :
  coo_symmetric A -> coo_symmetric B -> coo_symmetric (A ++ B).
Proof. intros HA HB i j. rewrite !coo_value_app, (HA i j), (HB i j). reflexivity. Qed.

(** The trivial-equation pass keeps a symmetric matrix symmetric. *)
Lemma set_boundary_conditions_symmetric (A : list triplet) (b : list R) (nf : nat)
      (ixs : list Z) (vals : list R) (A' : list triplet) (b' : list R) :
  fixed_dofs_ok (length b) nf ixs -> coo_symmetric A ->
  set_boundary_conditions A b nf ixs vals = Returns (A', b') ->
  coo_symmetric A'.
Proof.
  intros Hok HS. pose proof Hok as (L & S & N & I).
  unfold set_boundary_conditions.
  pose proof S as S'. apply is_sorted_Sorted in S'. rewrite S'. cbn [negb].
  rewrite eliminate_columns_fold.
  pose proof (eliminate_loop_spec true ixs vals (sort_by_col A) b nf (sort_by_col_sorted A)
                (strict_ascending nf ixs L (sorted_nodup_strict _ S N))) as EL.
  cbv zeta in EL.
  destruct (fold_left (eliminate_step true ixs vals) (seq 0 nf) ([], sort_by_col A, b))
    as [[done todo] b2]. cbn [fst snd] in EL. destruct EL as (_ & Lb & _ & _ & D2 & _).
  assert (Hok2 : fixed_dofs_ok (length b2) nf ixs) by (rewrite Lb; exact Hok).
  pose proof (fun d => renum_inv_fixed (length b2) nf ixs d Hok2) as RX.
  destruct (renumbering (length b2) nf ixs) as [[renum renum_inv] discard].
  cbn [fst snd] in RX.
  intros E. injection E as <- _. intros i j.
  assert (NotFixed : forall x k, ~ In x (firstn nf ixs) -> (k < nf)%nat -> nth k ixs 0%Z <> x).
  { intros x k Hx Hk E. apply Hx. rewrite <- E.
    replace (nth k ixs 0%Z) with (nth k (firstn nf ixs) 0%Z).
    - apply nth_In. rewrite length_firstn. lia.
    - rewrite nth_firstn. destruct (Nat.ltb_spec k nf); [reflexivity | lia]. }
  destruct ((nthZ renum_inv i 0 =? discard) || (nthZ renum_inv j 0 =? discard))%Z eqn:F.
  - rewrite (coo_value_overwritten renum_inv discard (done ++ todo) i j F).
    rewrite orb_comm in F.
    rewrite (coo_value_overwritten renum_inv discard (done ++ todo) j i F).
    rewrite (Z.eqb_sym j i). destruct (Z.eqb_spec i j) as [-> | _]; reflexivity.
  - apply orb_false_elim in F. destruct F as [Fi Fj].
    apply Z.eqb_neq in Fi, Fj.
    rewrite !coo_value_kept by assumption.
    rewrite !D2.
    + rewrite !coo_value_sort_by_col. apply HS.
    + intros k Hk. apply NotFixed; [| exact Hk]. intros H. apply Fi, RX, H.
    + intros k Hk. apply NotFixed; [| exact Hk]. intros H. apply Fj, RX, H.
Qed.

(** The reduction keeps a symmetric matrix symmetric. *)
Lemma reduce_system_symmetric (A : list triplet) (b : list R) (nf : nat)
      (ixs : list Z) (vals : list R) (A' : list triplet) (b' : list R) :
  fixed_dofs_ok (length b) nf ixs ->
  (forall t, In t A -> (0 <= trow t < Z.of_nat (length b))%Z
                       /\ (0 <= tcol t < Z.of_nat (length b))%Z) ->
  coo_symmetric A ->
  reduce_system A b nf ixs vals = Returns (A', b') ->
  forall i j, (i < length b')%nat -> (j < length b')%nat ->
              coo_value A' (Z.of_nat i) (Z.of_nat j) = coo_value A' (Z.of_nat j) (Z.of_nat i).
Proof.
  intros Hok Hr HS E i j Hi Hj.
  destruct (reduce_system_spec A b nf ixs vals Hok Hr) as (A2 & b2 & free & E2 & _ & _ & L & H).
  rewrite E in E2. injection E2 as <- <-. rewrite L in Hi, Hj.
  destruct (H i Hi) as [_ H1]. destruct (H j Hj) as [_ H2].
  rewrite (H1 j Hj), (H2 i Hi). apply HS.
Qed.

Lemma assemble_stiffness_matrix_2D_symmetric (points : list R) (corner_ixs : list nat) (n : nat)
      (young poisson : R) (sc : StabilityChoice) (target : list R) :
  assemble_stiffness_matrix_2D points corner_ixs n young poisson sc = Ok target ->
  msym (2 * n) (of_flat (2 * n) target).
Proof.
  intros ET. unfold assemble_stiffness_matrix_2D in ET.
  set (corners := pick_points 2 points corner_ixs n) in *.
  destruct (compute_W_2D_ok (compute_q_2D corners n) n (compute_q_2D_length corners n))
    as [[Wr [E1 L1]] [Wc [E2 L2]]].
  rewrite E1, E2 in ET. cbn [bind] in ET.
  destruct (compute_ImP_spec (compute_Nr_2D corners n) (compute_Nc_2D corners n) Wr Wc 2 n
                             (or_introl eq_refl) (compute_Nc_2D_length corners n))
    as [ImP [E3 _]].
  rewrite E3 in ET. cbn [bind] in ET.
  exact (final_assembly_symmetric Wc (compute_D_2D young poisson) (compute_Nc_2D corners n)
                                  ImP sc (element_volume_2D corners n) n 2
                                  (or_introl eq_refl) eq_refl
                                  (compute_D_2D_symmetric young poisson) target ET).
Qed.

Lemma assemble_stiffness_matrix_3D_symmetric (points : list R) (faces num_face_edges : list nat)
      (num_faces : nat) (young poisson : R) (sc : StabilityChoice)
      (centroid : list R) (indexing : list nat) (target : list R) :
  assemble_stiffness_matrix_3D points faces num_face_edges num_faces young poisson sc
  = Ok (centroid, indexing, target) ->
  indexing = snd (global_to_local_indexing faces num_face_edges num_faces) /\
  msym (3 * length indexing) (of_flat (3 * length indexing) target).
Proof.
  unfold assemble_stiffness_matrix_3D.
  destruct (global_to_local_indexing faces num_face_edges num_faces) as [reindex indexing'].
  cbn [fst snd]. set (n' := length indexing').
  set (corners' := pick_points 3 points indexing' n').
  set (faces_loc' := map (map_find reindex) (firstn (accumulate num_face_edges num_faces) faces)).
  destruct (compute_cell_geometry corners' n' faces_loc' num_face_edges num_faces)
    as [geo | e] eqn:EG; cbn [bind]; [| discriminate].
  destruct (compute_Wr_3D _) as [Wr | e]; cbn [bind]; [| discriminate].
  destruct (compute_Wc_3D _) as [Wc | e]; cbn [bind]; [| discriminate].
  destruct (compute_ImP _ _ _ _ _) as [ImP | e]; cbn [bind]; [| discriminate].
  destruct (final_assembly Wc (compute_D_3D young poisson) (compute_Nc_3D corners' n') ImP sc
                           (volume geo) n' 3) as [target' | e] eqn:ET; cbn [bind];
    [| discriminate].
  intros H. injection H as <- <- <-. split; [reflexivity |].
  exact (final_assembly_symmetric Wc (compute_D_3D young poisson) (compute_Nc_3D corners' n')
                                  ImP sc (volume geo) n' 3 (or_intror eq_refl) eq_refl
                                  (compute_D_3D_symmetric young poisson) target' ET).
Qed.

(** The dofs named by the triplets of a local matrix. *)
Lemma local_triplets_range (Dim n : nat) (node : nat -> nat) (loc : list R) (N : nat)
      (t : triplet) :
  (0 < Dim)%nat -> (forall k, (k < n)%nat -> (node k < N)%nat) ->
  In t (local_triplets Dim n node loc) ->
  (0 <= trow t < Z.of_nat (Dim * N))%Z /\ (0 <= tcol t < Z.of_nat (Dim * N))%Z.
Proof.
  intros HD Hn Ht. unfold local_triplets in Ht.
  apply in_flat_map in Ht. destruct Ht as (i & Hi & Ht).
  apply in_map_iff in Ht. destruct Ht as (j & <- & Hj).
  apply in_seq in Hi, Hj. unfold trow, tcol. cbn [fst snd].
  assert (B : forall e, (e < Dim * n)%nat -> (Dim * node (e / Dim)%nat + e mod Dim < Dim * N)%nat).
  { intros e He. assert (e / Dim < n)%nat by (apply Nat.Div0.div_lt_upper_bound; lia).
    specialize (Hn _ H). pose proof (Nat.mod_upper_bound e Dim ltac:(lia)). nia. }
  pose proof (B i ltac:(lia)). pose proof (B j ltac:(lia)). lia.
Qed.

Lemma nth_below_max (l : list nat) (tot k : nat) :
  (k < tot)%nat -> (nth k l 0 < list_max (firstn tot l) + 1)%nat.
Proof.
  intros Hk. destruct (Nat.lt_ge_cases k (length l)) as [H | H].
  - assert (In (nth k l 0%nat) (firstn tot l)).
    { replace (nth k l 0%nat) with (nth k (firstn tot l) 0%nat).
      - apply nth_In. rewrite length_firstn. lia.
      - rewrite nth_firstn. destruct (Nat.ltb_spec k tot); [reflexivity | lia]. }
    apply list_max_bound in H0. lia.
  - rewrite nth_overflow by exact H. lia.
Qed.

Lemma accumulate_le (l : list nat) (j k : nat) :
  (j <= k)%nat -> (accumulate l j <= accumulate l k)%nat.
Proof.
  intros H. induction H as [|k H IH]; [lia |]. rewrite accumulate_S. lia.
Qed.

(** The cell loop of [assemble_mech_system_2D]: the triplets. *)
Lemma assemble_2D_cells_matrix (points : list R) (num_cell_faces cell_corners : list nat)
      (young poisson body_force : list R) (sc : StabilityChoice) (N : nat) (b0 : list R)
      (k : nat) :
  let run k :=
    fold_left
      (fun (acc : res (nat * list triplet * list R)) c =>
         st <- acc ;;
         assemble_cell_2D points num_cell_faces cell_corners young poisson body_force sc st c)
      (seq 0 k) (Ok (0%nat, [], b0)) in
  (forall e, (e < accumulate num_cell_faces k)%nat -> (nth e cell_corners 0 < N)%nat) ->
  forall off A b,
    run k = Ok (off, A, b) ->
    off = accumulate num_cell_faces k /\
    coo_symmetric A /\
    forall t, In t A -> (0 <= trow t < Z.of_nat (2 * N))%Z /\ (0 <= tcol t < Z.of_nat (2 * N))%Z.
Proof.
  intros run. induction k as [|k IH]; intros HB off A b E.
  - unfold run in E. simpl in E. injection E as <- <- <-.
    split; [reflexivity |]. split; [intros i j; reflexivity | intros t []].
  - assert (Step : run (S k)
                   = (st <- run k ;;
                      assemble_cell_2D points num_cell_faces cell_corners young poisson
                                       body_force sc st k)).
    { unfold run. rewrite seq_S, fold_left_app. reflexivity. }
    rewrite Step in E. clear Step.
    destruct (run k) as [[[off1 A1] b1] | ex]; [| discriminate].
    cbn [bind] in E.
    assert (HB1 : forall e, (e < accumulate num_cell_faces k)%nat ->
                            (nth e cell_corners 0 < N)%nat)
      by (intros e He; apply HB; rewrite accumulate_S; lia).
    destruct (IH HB1 _ _ _ eq_refl) as (-> & S1 & R1).
    unfold assemble_cell_2D in E.
    destruct (assemble_stiffness_matrix_2D _ _ _ _ _ _) as [loc | ex] eqn:EL; [| discriminate].
    cbn [bind] in E. injection E as <- <- <-.
    split; [rewrite accumulate_S; reflexivity |]. split.
    + apply coo_symmetric_app; [exact S1 |].
      apply local_triplets_symmetric.
      exact (assemble_stiffness_matrix_2D_symmetric _ _ _ _ _ _ _ EL).
    + intros t Ht. apply in_app_or in Ht. destruct Ht as [Ht | Ht]; [exact (R1 t Ht) |].
      apply (local_triplets_range 2 _ _ _ N t ltac:(lia)) in Ht; [exact Ht |].
      intros e He. apply HB. rewrite accumulate_S. lia.
Qed.

(** The cell loop of [assemble_mech_system_3D]: the triplets. *)
Lemma assemble_3D_cells_matrix (points : list R)
      (num_cell_faces num_face_corners face_corners : list nat)
      (young poisson body_force : list R) (sc : StabilityChoice) (N : nat) (b0 : list R)
      (k : nat) :
  let run k :=
    fold_left
      (fun (acc : res (nat * nat * list triplet * list R)) c =>
         st <- acc ;;
         assemble_cell_3D points num_cell_faces num_face_corners face_corners
                          young poisson body_force sc st c)
      (seq 0 k) (Ok (0%nat, 0%nat, [], b0)) in
  (forall x, In x (firstn (cell_first_corner num_cell_faces num_face_corners k) face_corners) ->
             (x < N)%nat) ->
  forall cf fs A b,
    run k = Ok (cf, fs, A, b) ->
    coo_symmetric A /\
    forall t, In t A -> (0 <= trow t < Z.of_nat (3 * N))%Z /\ (0 <= tcol t < Z.of_nat (3 * N))%Z.
Proof.
  intros run. induction k as [|k IH]; intros HB cf fs A b E.
  - unfold run in E. simpl in E. injection E as <- <- <- <-.
    split; [intros i j; reflexivity | intros t []].
  - destruct (assemble_3D_cells points num_cell_faces num_face_corners face_corners young poisson
                                body_force sc k [] b0) as [C1 _]. cbv zeta in C1.
    assert (Step : run (S k)
                   = (st <- run k ;;
                      assemble_cell_3D points num_cell_faces num_face_corners face_corners
                                       young poisson body_force sc st k)).
    { unfold run. rewrite seq_S, fold_left_app. reflexivity. }
    rewrite Step in E. clear Step. fold (run k) in C1.
    destruct (run k) as [[[[cf1 fs1] A1] b1] | ex]; [| discriminate].
    destruct (C1 _ eq_refl) as (I1 & I2 & _). cbn [fst snd] in I1, I2. subst cf1 fs1.
    cbn [bind] in E.
    assert (HB1 : forall x,
               In x (firstn (cell_first_corner num_cell_faces num_face_corners k) face_corners) ->
               (x < N)%nat).
    { intros x Hx. apply HB.
      apply (In_firstn_le x (cell_first_corner num_cell_faces num_face_corners k)
                          (cell_first_corner num_cell_faces num_face_corners (S k)));
        [rewrite cell_first_corner_S; lia | exact Hx]. }
    destruct (IH HB1 _ _ _ _ eq_refl) as (S1 & R1).
    unfold assemble_cell_3D in E.
    destruct (assemble_stiffness_matrix_3D _ _ _ _ _ _ _) as [[[cen idx] loc] | ex] eqn:EL;
      [| discriminate].
    cbn [bind] in E. injection E as <- <- <- <-.
    destruct (assemble_stiffness_matrix_3D_symmetric _ _ _ _ _ _ _ _ _ _ EL) as [Eidx Sloc].
    split.
    + apply coo_symmetric_app; [exact S1 |]. apply local_triplets_symmetric. exact Sloc.
    + intros t Ht. apply in_app_or in Ht. destruct Ht as [Ht | Ht]; [exact (R1 t Ht) |].
      apply (local_triplets_range 3 _ _ _ N t ltac:(lia)) in Ht; [exact Ht |].
      intros e He. apply HB. rewrite cell_first_corner_S. apply In_firstn_skipn.
      destruct (global_to_local_indexing_spec
                  (skipn (cell_first_corner num_cell_faces num_face_corners k) face_corners)
                  (skipn (cell_first_face num_cell_faces k) num_face_corners)
                  (nth k num_cell_faces 0%nat)) as (_ & HI & _).
      cbv zeta in HI. apply HI. rewrite <- Eidx. apply nth_In. exact He.
Qed.

(** The end of both assembly functions keeps a symmetric matrix symmetric. *)
Lemma finish_assembly_symmetric (reduce : bool) (A : list triplet) (b : list R) (nf : nat)
      (ixs : list Z) (vals : list R) (n : nat) (A' : list triplet) (b' : list R) :
  fixed_dofs_ok (length b) nf ixs ->
  (forall t, In t A -> (0 <= trow t < Z.of_nat (length b))%Z
                       /\ (0 <= tcol t < Z.of_nat (length b))%Z) ->
  coo_symmetric A ->
  finish_assembly reduce A b nf ixs vals = Ok (n, (A', b')) ->
  forall i j, (i < n)%nat -> (j < n)%nat ->
              coo_value A' (Z.of_nat i) (Z.of_nat j) = coo_value A' (Z.of_nat j) (Z.of_nat i).
Proof.
  intros Hok Hr HS E i j Hi Hj. unfold finish_assembly, apply_boundary in E.
  destruct reduce.
  - destruct (reduce_system A b nf ixs vals) as [[A2 b2] | e s] eqn:ER; [| discriminate].
    injection E as <- <- <-.
    exact (reduce_system_symmetric A b nf ixs vals A2 b2 Hok Hr HS ER i j Hi Hj).
  - destruct (set_boundary_conditions A b nf ixs vals) as [[A2 b2] | e s] eqn:ER;
      [| discriminate].
    injection E as <- <- <-.
    exact (set_boundary_conditions_symmetric A b nf ixs vals A2 b2 Hok HS ER _ _).
Qed.

(** X3.  The matrix that [assemble_mech_system_2D] and
    [assemble_mech_system_3D] leave is symmetric, when they return and the
    fixed dofs are ascending, distinct and in range: for all [i], [j] below
    the number of unknowns returned, the summed values at [(i, j)] and at
    [(j, i)] are equal, with either treatment of the boundary conditions. *)
Theorem assembled_matrix_symmetric :
  (forall points num_cells num_cell_faces cell_corners young poisson body_force
          num_fixed_dofs fixed_dof_ixs fixed_dof_values
          num_neumann_faces neumann_faces neumann_forces stability_choice reduce_boundary
          n A b,
      let num_points := num_points_of cell_corners (accumulate num_cell_faces num_cells) in
      assemble_mech_system_2D points num_cells num_cell_faces cell_corners
                              young poisson body_force
                              num_fixed_dofs fixed_dof_ixs fixed_dof_values
                              num_neumann_faces neumann_faces neumann_forces
                              stability_choice reduce_boundary = Ok (n, (A, b)) ->
      fixed_dofs_ok (2 * num_points) num_fixed_dofs fixed_dof_ixs ->
      forall i j, (i < n)%nat -> (j < n)%nat ->
                  coo_value A (Z.of_nat i) (Z.of_nat j) = coo_value A (Z.of_nat j) (Z.of_nat i)) /\
  (forall points num_cells num_cell_faces num_face_corners face_corners
          young poisson body_force num_fixed_dofs fixed_dof_ixs fixed_dof_values
          num_neumann_faces neumann_faces neumann_forces stability_choice reduce_boundary
          n A b,
      let num_points :=
        num_points_of face_corners
                      (accumulate num_face_corners (accumulate num_cell_faces num_cells)) in
      assemble_mech_system_3D points num_cells num_cell_faces num_face_corners
                              face_corners young poisson body_force
                              num_fixed_dofs fixed_dof_ixs fixed_dof_values
                              num_neumann_faces neumann_faces neumann_forces
                              stability_choice reduce_boundary = Ok (n, (A, b)) ->
      fixed_dofs_ok (3 * num_points) num_fixed_dofs fixed_dof_ixs ->
      forall i j, (i < n)%nat -> (j < n)%nat ->
                  coo_value A (Z.of_nat i) (Z.of_nat j) = coo_value A (Z.of_nat j) (Z.of_nat i)).
Proof.
  split.
  - intros points num_cells ncf cc young poisson bf nf ixs vals nn nfaces nforces sc reduce
           n A b np E Hok.
    unfold assemble_mech_system_2D in E.
    fold (num_points_of cc (accumulate ncf num_cells)) in E. fold np in E.
    destruct (assemble_2D_cells_length points ncf cc young poisson bf sc (seq 0 num_cells)
                                       0%nat [] (repeat 0 (np * 2))) as (off & A0 & b0 & F & L).
    rewrite F in E. cbn [bind] in E. rewrite repeat_length in L.
    destruct (assemble_2D_cells_matrix points ncf cc young poisson bf sc np (repeat 0 (np * 2))
                                       num_cells) with (2 := F) as (_ & S0 & R0).
    { intros e He. unfold np, num_points_of. apply nth_below_max. exact He. }
    pose proof (apply_neumann_2D_length points nn nfaces nforces b0) as L2. rewrite L in L2.
    apply (finish_assembly_symmetric reduce A0 (apply_neumann_2D points nn nfaces nforces b0)
                                     nf ixs vals n A b); try exact E.
    + rewrite L2. replace (np * 2)%nat with (2 * np)%nat by lia. exact Hok.
    + rewrite L2. replace (np * 2)%nat with (2 * np)%nat by lia. exact R0.
    + exact S0.
  - intros points num_cells ncf nfc fc young poisson bf nf ixs vals nn nfaces nforces sc reduce
           n A b np E Hok.
    unfold assemble_mech_system_3D in E.
    fold (num_points_of fc (accumulate nfc (accumulate ncf num_cells))) in E. fold np in E.
    destruct (assemble_3D_cells points ncf nfc fc young poisson bf sc num_cells []
                                (repeat 0 (np * 3))) as [C1 _]. cbv zeta in C1.
    match type of E with
    | (bind ?r _ = _) => destruct r as [[[[cf fs] A0] b0] | ex] eqn:F; [| discriminate]
    end.
    cbn [bind] in E.
    destruct (C1 _ eq_refl) as (_ & _ & L). cbn [snd] in L. rewrite repeat_length in L.
    destruct (assemble_3D_cells_matrix points ncf nfc fc young poisson bf sc np
                                       (repeat 0 (np * 3)) num_cells) with (2 := F) as (S0 & R0).
    { intros x Hx. unfold np, num_points_of. apply list_max_bound in Hx.
      unfold cell_first_corner, cell_first_face in Hx. lia. }
    pose proof (compute_applied_forces_3D_length points nfc fc nn nfaces nforces b0) as L2.
    rewrite L in L2.
    apply (finish_assembly_symmetric
             reduce A0 (compute_applied_forces_3D points nfc fc nn nfaces nforces b0)
             nf ixs vals n A b); try exact E.
    + rewrite L2. replace (np * 3)%nat with (3 * np)%nat by lia. exact Hok.
    + rewrite L2. replace (np * 3)%nat with (3 * np)%nat by lia. exact R0.
    + exact S0.
Qed.

Lemma square_fixed_dofs_ok : fixed_dofs_ok 8 2 [0; 1]%Z.
Proof.
  split; [simpl; lia |]. split; [repeat constructor; lia |]. split.
  - repeat constructor; simpl; intuition lia.
  - simpl. intros d [<- | [<- | []]]; lia.
Qed.

Lemma assembled_matrix_symmetric_witness :
  exists A b,
    assemble_mech_system_2D unit_square 1 [4%nat] [0; 1; 2; 3]%nat [1] [0.3] [0; 0]
                            2 [0; 1]%Z [0; 0] 0 [] [] SIMPLE true
    = Ok (6%nat, (A, b)) /\
    forall i j, (i < 6)%nat -> (j < 6)%nat ->
                coo_value A (Z.of_nat i) (Z.of_nat j) = coo_value A (Z.of_nat j) (Z.of_nat i).
Proof.
  destruct (proj2 (assemble_mech_system_2D_spec unit_square 1 [4%nat] [0; 1; 2; 3]%nat
                     [1] [0.3] [0; 0] 2 [0; 1]%Z [0; 0] 0 [] [] SIMPLE true)
                  eq_refl square_fixed_dofs_ok) as ([A b] & E & _).
  exists A, b. split; [exact E |].
  exact (proj1 assembled_matrix_symmetric unit_square 1%nat [4%nat] [0; 1; 2; 3]%nat
               [1] [0.3] [0; 0] 2%nat [0; 1]%Z [0; 0] 0%nat [] [] SIMPLE true
               6%nat A b E square_fixed_dofs_ok).
Defined.
